(** * fs-tree-diff: trees of filesystem entries, their diffs and their change tracking

    A shallow embedding of [lib/entry.js], [lib/shared.js], the tree classes
    ([ManualTree], [FacadeTree], [WritableTree], [Projection]) and
    [lib/fs-merge-tree.js], followed by the properties proved about them.

    Conventions of the embedding.
    - A JavaScript string is a [string]: a character stands for the UTF-16
      code unit of its code, so the strings of the model are those over the
      code units below 256.  [<] on strings compares character codes
      position by position ([String.ltb]).
    - A JavaScript number that holds an index, a size, a mode or a time stamp
      is a [Z]; a field that may be [undefined] is an [option].
    - A function that may [throw] returns a [Result]; a method that also
      mutates its receiver is a function of the monad [M] over the receiver.
    - An object used as a dictionary is a finite map ([gmap]) over its own
      keys.  A plain object also answers for the property names of
      [Object.prototype] ([Js.inherited_key]): the tests that
      [normalizeRelativePath] and the merge make on their dictionaries take
      these names into account.  The hash of the tracked changes of a
      [WritableTree] is read over its own keys only, which is what the code
      reads as long as no change is tracked at such a name
      ([plain_tracker]).
    - The platform is POSIX: [path.sep] is ["/"]. *)

From Stdlib Require Import ZArith Lia Bool Ascii String Sorting.Sorted Sorting.Permutation.
From stdpp Require Import base option list sorting gmap strings.

Local Open Scope string_scope.
Local Open Scope list_scope.

(* ========================================================================= *)
(** * JavaScript strings                                                      *)
(* ========================================================================= *)

Module Js.

(** [a < b] on strings. *)
Definition lt (a b : string) : bool := String.ltb a b.
(** [a > b] on strings. *)
Definition gt (a b : string) : bool := String.ltb b a.
(** [a === b] on strings. *)
Definition seq (a b : string) : bool := String.eqb a b.

(** [s.startsWith(p)], also what [shared.startsWith(s, p)] computes. *)
Definition startsWith (s p : string) : bool := String.prefix p s.

(** [s.substring(n)]: the characters from position [n] on. *)
Fixpoint substring_from (n : nat) (s : string) : string :=
  match n, s with
  | O, _ => s
  | S n', String _ s' => substring_from n' s'
  | S _, EmptyString => EmptyString
  end.

(** [s.substr(0, n)]: the first [n] characters. *)
Fixpoint substr0 (n : nat) (s : string) : string :=
  match n, s with
  | O, _ => EmptyString
  | S n', String c s' => String c (substr0 n' s')
  | S _, EmptyString => EmptyString
  end.

(** The last character of a string, if any ([s[s.length - 1]]). *)
Fixpoint last_char (s : string) : option ascii :=
  match s with
  | EmptyString => None
  | String c EmptyString => Some c
  | String _ s' => last_char s'
  end.

(** All characters but the last. *)
Fixpoint drop_last (s : string) : string :=
  match s with
  | EmptyString => EmptyString
  | String _ EmptyString => EmptyString
  | String c s' => String c (drop_last s')
  end.

(** [s.split(sep)] for a one-character separator; never empty. *)
Fixpoint split (sep : ascii) (s : string) : list string :=
  match s with
  | EmptyString => [EmptyString]
  | String c s' =>
      if Ascii.eqb c sep then EmptyString :: split sep s'
      else match split sep s' with
           | [] => [String c EmptyString]
           | w :: ws => String c w :: ws
           end
  end.

(** [parts.join(sep)]. *)
Definition join (sep : string) (parts : list string) : string :=
  String.concat sep parts.

(** [s.indexOf(c) !== -1] for a character [c]. *)
Fixpoint contains_char (c : ascii) (s : string) : bool :=
  match s with
  | EmptyString => false
  | String d s' => Ascii.eqb c d || contains_char c s'
  end.

(** [s.toLowerCase()].  Below 256 the code units with a lower-case form are
    the letters [A] to [Z] and the Latin-1 capitals 192 to 222 but for the
    multiplication sign 215; each is 32 below its lower-case form. *)
Definition lower_char (c : ascii) : ascii :=
  let n := nat_of_ascii c in
  if (65 <=? n)%nat && (n <=? 90)%nat
     || (192 <=? n)%nat && (n <=? 214)%nat
     || (216 <=? n)%nat && (n <=? 222)%nat
  then ascii_of_nat (n + 32) else c.

Fixpoint toLowerCase (s : string) : string :=
  match s with
  | EmptyString => EmptyString
  | String c s' => String (lower_char c) (toLowerCase s')
  end.

(** The property names of [Object.prototype]: on an object made by [{}],
    [key in object] holds and [object[key]] is neither [undefined] nor
    [null] at these names although the object has no such key of its own
    (the value is a function, or the prototype itself at ["__proto__"]). *)
Definition inherited_keys : list string :=
  ["constructor"; "__defineGetter__"; "__defineSetter__"; "hasOwnProperty";
   "__lookupGetter__"; "__lookupSetter__"; "isPrototypeOf";
   "propertyIsEnumerable"; "toString"; "valueOf"; "__proto__";
   "toLocaleString"].

Definition inherited_key (key : string) : bool :=
  existsb (String.eqb key) inherited_keys.

End Js.

(** The character ["/"], [path.sep] on POSIX. *)
Definition slash : ascii := "/"%char.
Definition sep : string := "/".

(* ========================================================================= *)
(** * lib/entry.js                                                            *)
(* ========================================================================= *)

(** The value of an [mtime] field: absent, a number of milliseconds, or a
    [Date] (given by its time value). *)
Inductive JsTime : Type :=
  | TimeUndefined
  | TimeNumber (n : Z)
  | TimeDate (ms : Z).

(** Unary [+] applied to an [mtime]; [None] is [NaN]. *)
Definition toNumber (t : JsTime) : option Z :=
  match t with
  | TimeUndefined => None
  | TimeNumber n => Some n
  | TimeDate ms => Some ms
  end.

(** [a === b] on numbers: [NaN] equals nothing, itself included. *)
Definition number_seq (a b : option Z) : bool :=
  match a, b with
  | Some x, Some y => Z.eqb x y
  | _, _ => false
  end.

(** [a === b] on a field that holds a number or [undefined]. *)
Definition optnum_seq (a b : option Z) : bool :=
  match a, b with
  | Some x, Some y => Z.eqb x y
  | None, None => true
  | _, _ => false
  end.

(** [a === b] on a field that holds a string or [undefined]. *)
Definition optstr_seq (a b : option string) : bool :=
  match a, b with
  | Some x, Some y => String.eqb x y
  | None, None => true
  | _, _ => false
  end.

(** An entry.  [T] is the type of the trees an entry may refer to.
    The [_symlink] field is absent, [{ external }] or [{ tree, entry }];
    the linked [entry] is [Entry.ROOT] or an entry of the linked tree.
    [tree] and [linkDir] are the two properties that [FSMergeTree] attaches
    to the entries it creates; they are absent ([None], [false]) elsewhere. *)
Inductive Entry (T : Type) : Type :=
  | MkEntry (relativePath : string) (size : option Z) (mtime : JsTime) (mode : Z)
            (checksum : option string) (_symlink : option (Symlink T))
            (tree : option T) (linkDir : bool)
with Symlink (T : Type) : Type :=
  | External (target : string)
  | Link (tree : T) (entry : EntryRef T)
with EntryRef (T : Type) : Type :=
  | ROOT
  | Stored (e : Entry T).

Arguments MkEntry {T}.
Arguments External {T}.
Arguments Link {T}.
Arguments ROOT {T}.
Arguments Stored {T}.

Section EntryFields.
Context {T : Type}.

Definition relativePath (e : Entry T) : string :=
  match e with MkEntry p _ _ _ _ _ _ _ => p end.
Definition size (e : Entry T) : option Z :=
  match e with MkEntry _ s _ _ _ _ _ _ => s end.
Definition mtime (e : Entry T) : JsTime :=
  match e with MkEntry _ _ t _ _ _ _ _ => t end.
Definition mode (e : Entry T) : Z :=
  match e with MkEntry _ _ _ m _ _ _ _ => m end.
Definition checksum (e : Entry T) : option string :=
  match e with MkEntry _ _ _ _ c _ _ _ => c end.
Definition _symlink (e : Entry T) : option (Symlink T) :=
  match e with MkEntry _ _ _ _ _ l _ _ => l end.
Definition tree (e : Entry T) : option T :=
  match e with MkEntry _ _ _ _ _ _ t _ => t end.
Definition linkDir (e : Entry T) : bool :=
  match e with MkEntry _ _ _ _ _ _ _ d => d end.

(** [entry.relativePath = p] on a clone. *)
Definition with_relativePath (p : string) (e : Entry T) : Entry T :=
  match e with MkEntry _ s t m c l tr d => MkEntry p s t m c l tr d end.

(** [entry._symlink = l] *)
Definition with_symlink (l : Symlink T) (e : Entry T) : Entry T :=
  match e with MkEntry p s t m c _ tr d => MkEntry p s t m c (Some l) tr d end.

(** [entry.tree = tree] *)
Definition with_tree (tr : T) (e : Entry T) : Entry T :=
  match e with MkEntry p s t m c l _ d => MkEntry p s t m c l (Some tr) d end.

(** [entry.linkDir = true] *)
Definition with_linkDir (e : Entry T) : Entry T :=
  match e with MkEntry p s t m c l tr _ => MkEntry p s t m c l tr true end.
End EntryFields.

Module EntryJs.
Section EntryJs.
Context {T : Type}.

Definition DIRECTORY_MODE : Z := 16895.   (* 0o40777 *)
Definition FILE_MODE : Z := 33279.        (* 0o100777 *)
Definition SYMLINK_MODE : Z := 41471.     (* 0o120777 *)
Definition ARBITRARY_START_OF_TIME : Z := 0.

(** [(mode & 0o170000) === 0o40000]; 0o170000 is 61440, 0o40000 is 16384. *)
Definition mode_is_directory (m : Z) : bool :=
  Z.eqb (Z.land m 61440) 16384.

(** [Entry.isSymbolicLink(entry)]: [!!entry._symlink]. *)
Definition isSymbolicLink (e : Entry T) : bool :=
  match _symlink e with Some _ => true | None => false end.

(** [entry._symlink.entry === Entry.ROOT] *)
Definition link_is_root (l : Symlink T) : bool :=
  match l with
  | Link _ ROOT => true
  | _ => false
  end.

(** [Entry.isDirectory(entry)] on a stored entry. *)
Definition isDirectory (e : Entry T) : bool :=
  match _symlink e with
  | Some l => link_is_root l
  | None => mode_is_directory (mode e)
  end.

(** [Entry.isFile(entry)] *)
Definition isFile (e : Entry T) : bool := negb (isDirectory e).

(** The same three on what a lookup returns: [Entry.ROOT] has no
    [_symlink] and is a directory. *)
Definition ref_isSymbolicLink (r : EntryRef T) : bool :=
  match r with ROOT => false | Stored e => isSymbolicLink e end.
Definition ref_isDirectory (r : EntryRef T) : bool :=
  match r with ROOT => true | Stored e => isDirectory e end.
Definition ref_isFile (r : EntryRef T) : bool := negb (ref_isDirectory r).

Definition is_sep_char (c : ascii) : bool :=
  Ascii.eqb c "/" || Ascii.eqb c "\".

(** [chompLeadingAndTrailingSeparator]: the replacement of
    [/^(\/|\\)|(\/|\\)$/g] by the empty string. *)
Definition chompLeadingAndTrailingSeparator (p : string) : string :=
  let p1 := match p with
            | String c p' => if is_sep_char c then p' else p
            | EmptyString => p
            end in
  match Js.last_char p1 with
  | Some c => if is_sep_char c then Js.drop_last p1 else p1
  | None => p1
  end.

(** [new Entry(relativePath, size, mtime, mode, checksum)].  The mode is a
    number by its type, so the constructor does not throw. *)
Definition new (p : string) (sz : option Z) (mt : JsTime) (md : Z)
    (ck : option string) : Entry T :=
  MkEntry (if mode_is_directory md then chompLeadingAndTrailingSeparator p else p)
          sz mt md ck None None false.

(** [Entry.clone(originalEntry, newRelativePath)] *)
Definition clone (e : Entry T) (newRelativePath : option string) : Entry T :=
  match newRelativePath with
  | Some p => with_relativePath p e
  | None => e
  end.

(** [Entry.fromPath(relativePath)] *)
Definition fromPath (p : string) : Entry T :=
  let md := match Js.last_char p with
            | Some c => if Ascii.eqb c "/" then DIRECTORY_MODE else FILE_MODE
            | None => FILE_MODE
            end in
  new p None (TimeNumber ARBITRARY_START_OF_TIME) md None.

(** [Entry.fromStat(relativePath, stat)] *)
Definition fromStat (p : string) (stat_size : option Z) (stat_mtime : JsTime)
    (stat_mode : Z) : Entry T :=
  new p stat_size stat_mtime stat_mode None.

End EntryJs.
End EntryJs.

(* ========================================================================= *)
(** * Errors                                                                  *)
(* ========================================================================= *)

(** What the code throws; the constructor names the message. *)
Inductive Exn : Type :=
  | NotSortedUnique (i : nat) (previous current : string)
      (* 'expected entries[i-1] ... to be < entries[i] ..., but was not' *)
  | InvalidPath (relativePath : string)
      (* "Invalid path: '...' not within root." *)
  | StoppedTree (operation : string)
      (* "Cannot '...' on a stopped tree." *)
  | RootOperation (operation : string)
      (* "Cannot ... the tree's root." *)
  | SymlinkOperation (operation relativePath : string)
      (* "Cannot ... a symlink, '...'" *)
  | ENOENT (operation relativePath : string)
  | EEXIST (operation relativePath : string)
  | ENOTDIR (operation relativePath : string)
  | EISDIR (operation relativePath : string)
  | EPERM (operation relativePath : string)
  | ENOTEMPTY
  | IncompatibleFilters (filter : string)
      (* 'The "..." filter is incompatible with ...' *)
  | ConflictingCapitalization (baseDir originalName fileName : string)
      (originalIndex index : nat)
      (* 'Merge error: conflicting capitalizations: ...' *)
  | ConflictingFileType (filePath : string) (originallyDirectory isDirectory : bool)
      (* 'Merge error: conflicting file types: ...' *)
  | OverwriteRefused (baseDir fileName : string)
      (* 'Merge error: file ... exists in ... and ...' *)
  | TypeError (message : string)
  | ThrownValue (key : string)
      (* not an Error: what a plain object holds at the inherited key,
         thrown as it is *)
  | OutOfFuel.
      (* not an error of the code: the recursion bound of a model ran out *)

Inductive Result (A : Type) : Type :=
  | Ok (a : A)
  | Throw (e : Exn).
Arguments Ok {A}.
Arguments Throw {A}.

Definition rbind {A B} (r : Result A) (k : A -> Result B) : Result B :=
  match r with
  | Ok a => k a
  | Throw e => Throw e
  end.

Definition is_ok {A} (r : Result A) : bool :=
  match r with Ok _ => true | Throw _ => false end.

(* ========================================================================= *)
(** * lib/shared.js                                                           *)
(* ========================================================================= *)

(** The operation of a change: the first component of [[op, path, entry]]. *)
Inductive Operation : Type := mkdir | create | change | rmdir | unlink.

Global Instance Operation_eq_dec : EqDecision Operation.
Proof. solve_decision. Defined.

(** A change [[operation, relativePath, entry]]. *)
Record Change (T : Type) : Type := MkChange {
  operation : Operation;
  change_path : string;
  change_entry : Entry T;
}.
Arguments MkChange {T}.
Arguments operation {T}.
Arguments change_path {T}.
Arguments change_entry {T}.

Module Shared.
Section Shared.
Context {T : Type}.

(** [_chompSeparator]: the replacement of a final [path.sep] by nothing. *)
Definition _chompSeparator (p : string) : string :=
  match Js.last_char p with
  | Some c => if Ascii.eqb c slash then Js.drop_last p else p
  | None => p
  end.

(** [_comparePaths(a, b)] *)
Definition _comparePaths (a b : string) : Z :=
  if Js.gt a b then 1 else if Js.lt a b then (-1) else 0.

(** [compareEntries(a, b)] *)
Definition compareEntries (a b : Entry T) : Z :=
  _comparePaths (relativePath a) (relativePath b).

(** [entryRelativePath(entry)] *)
Definition entryRelativePath (e : Entry T) : string :=
  if EntryJs.isDirectory e then _chompSeparator (relativePath e)
  else relativePath e.

(** [ensureSeparator(path_)] *)
Definition ensureSeparator (p : string) : string :=
  match Js.last_char p with
  | None => p
  | Some c => if Ascii.eqb c slash then p else p +:+ sep
  end.

(** Modelled from the spec: [shared.startsWith(string, prefix)] is called by
    the trees but its definition is not part of the sources at hand; it is
    the test that [prefix] begins [string] ("prefix ancestor"). *)
Definition startsWith (s p : string) : bool := Js.startsWith s p.

(** Modelled from the spec: [shared.dirname(path)] is called by the trees
    but its definition is not part of the sources at hand; the parent
    directory of a normalized path, [''] for a path without separator
    (its callers stop at [parentPath !== '']). *)
Fixpoint dirname (p : string) : string :=
  match p with
  | EmptyString => EmptyString
  | String c p' =>
      if Js.contains_char slash p' then String c (dirname p')
      else EmptyString
  end.

(** [compareChanges(a, b)] *)
Definition is_remove (o : Operation) : bool :=
  match o with rmdir | unlink => true | _ => false end.

Definition compareChanges (a b : Change T) : Z :=
  let removeA := is_remove (operation a) in
  let removeB := is_remove (operation b) in
  if removeA && negb removeB then (-1)
  else if negb removeA && removeB then 1
  else if removeA then - _comparePaths (change_path a) (change_path b)
  else _comparePaths (change_path a) (change_path b).

(** [Array.prototype.sort(compare)]: a stable sort; [x] goes after the
    elements that do not compare greater than it. *)
Section Sort.
Context {A : Type} (compare : A -> A -> Z).

Fixpoint sort_insert (x : A) (l : list A) : list A :=
  match l with
  | [] => [x]
  | y :: l' => if (compare y x >? 0)%Z then x :: y :: l'
               else y :: sort_insert x l'
  end.

Definition sort (l : list A) : list A :=
  fold_left (fun acc x => sort_insert x acc) l [].
End Sort.

(** [_commonPrefix(a, b, term)]: [end] is kept as the length [end + 1] of
    the result, [i] as the characters of [a] and [b] still to read. *)
Fixpoint commonPrefix_end (a b : string) (term : ascii) (i len : nat) : nat :=
  match a, b with
  | String x a', String y b' =>
      if negb (Ascii.eqb x y) then len
      else commonPrefix_end a' b' term (S i)
             (if Ascii.eqb x term then S i else len)
  | _, _ => len
  end.

Definition _commonPrefix (a b : string) (term : ascii) : string :=
  Js.substr0 (commonPrefix_end a b term 0 0) a.

(** [_basename(entry)]: the path up to and with the last ["/"] found at a
    position of at most [length - 2]. *)
Fixpoint basename_len (p : string) (i len : nat) : nat :=
  match p with
  | String c ((String _ _) as p') =>
      basename_len p' (S i) (if Ascii.eqb c slash then S i else len)
  | _ => len
  end.

Definition _basename (e : Entry T) : string :=
  let p := entryRelativePath e in
  Js.substr0 (basename_len p 0 0) p.

(** [_computeImpliedEntries(basePath, relativePath)] *)
Fixpoint impliedPaths (relPath : string) (i : nat) (whole : string) : list string :=
  match relPath with
  | EmptyString => []
  | String c r' =>
      if Ascii.eqb c slash
      then Js.substr0 (S i) whole :: impliedPaths r' (S i) whole
      else impliedPaths r' (S i) whole
  end.

Definition _computeImpliedEntries (basePath relPath : string) : list (Entry T) :=
  map (fun p => EntryJs.fromPath (basePath +:+ p)) (impliedPaths relPath 0 relPath).

(** [sortAndExpand(entries)].  The loop splices the implied entries in
    front of [entries[i]] and steps over them; [expand] returns what the
    array holds from [i] on, given the entries not yet visited. *)
Fixpoint expand (path_ : string) (rest : list (Entry T)) : list (Entry T) :=
  match rest with
  | [] => []
  | entry :: rest' =>
      let entryPath := relativePath entry in
      let path1 := _commonPrefix path_ entryPath slash in
      let base := _basename entry in
      let entryBaseSansCommon := Js.substring_from (String.length path1) base in
      let impliedEntries := _computeImpliedEntries path1 entryBaseSansCommon in
      let path2 := if EntryJs.isDirectory entry then relativePath entry +:+ "/"
                   else base in
      impliedEntries ++ entry :: expand path2 rest'
  end.

Definition sortAndExpand (entries : list (Entry T)) : list (Entry T) :=
  expand "" (sort compareEntries entries).

(** [validateSortedUnique(entries)]; [i] is the index of [current]. *)
Fixpoint validate_from (i : nat) (previous : string) (rest : list (Entry T))
    : Result unit :=
  match rest with
  | [] => Ok tt
  | e :: rest' =>
      let current := relativePath e in
      if Js.lt previous current then validate_from (S i) current rest'
      else Throw (NotSortedUnique i previous current)
  end.

Definition validateSortedUnique (entries : list (Entry T)) : Result unit :=
  match entries with
  | [] => Ok tt
  | e :: rest => validate_from 1 (relativePath e) rest
  end.

(** [mergeEntries(first, second, ignoreDuplicates)]: with the flag, a
    concatenation that is sorted; without, the merge of two sorted arrays
    in which an entry of [second] replaces the one of [first] at its path. *)
Fixpoint merge_sorted (first : list (Entry T)) : list (Entry T) -> list (Entry T) :=
  fix merge_second (second : list (Entry T)) : list (Entry T) :=
    match first, second with
    | [], _ => second
    | _, [] => first
    | firstEntry :: first', secondEntry :: second' =>
        let firstPath := relativePath firstEntry in
        let secondPath := relativePath secondEntry in
        if Js.lt firstPath secondPath then firstEntry :: merge_sorted first' second
        else if Js.gt firstPath secondPath then secondEntry :: merge_second second'
        else secondEntry :: merge_sorted first' second'
    end.

Definition mergeEntries (first second : list (Entry T)) (ignoreDuplicates : bool)
    : list (Entry T) :=
  if ignoreDuplicates then sort compareEntries (first ++ second)
  else merge_sorted first second.

(** The loop of [normalizeRelativePath], which edits [parts] in place:
    [kept] holds [parts[0..i)] with the last part first, [parts] what is
    still to be read.  [None] is the [throw] at a [".."] met at [i === 0]. *)
Fixpoint normalize_parts (kept parts : list string) : option (list string) :=
  match parts with
  | [] => Some (rev kept)
  | part :: parts' =>
      if Js.seq part "" || Js.seq part "." then normalize_parts kept parts'
      else if Js.seq part ".." then
        match kept with
        | [] => None
        | _ :: kept' => normalize_parts kept' parts'
        end
      else normalize_parts (part :: kept) parts'
  end.

(** The cache [normalizedPaths] is an object made by [{}]: each of its own
    keys holds the string to return or the error to throw again.
    [in_cache] is [key in normalizedPaths]. *)
Definition in_cache (key : string) (normalizedPaths : gmap string (Result string))
    : bool :=
  bool_decide (is_Some (normalizedPaths !! key)) || Js.inherited_key key.

(** [normalizeRelativePath(relativePath)] with the cache it reads and
    writes.  At a property name of [Object.prototype] the test
    [relativePath in normalizedPaths] holds of the empty cache already; what
    is found there is not a string, and is thrown. *)
Definition normalizeRelativePath_cached (relPath : string)
    (normalizedPaths : gmap string (Result string))
    : gmap string (Result string) * Result string :=
  if in_cache relPath normalizedPaths then
    match normalizedPaths !! relPath with
    | Some (Ok normalizedPath) => (normalizedPaths, Ok normalizedPath)
    | Some (Throw error) => (normalizedPaths, Throw error)
    | None => (normalizedPaths, Throw (ThrownValue relPath))
    end
  else
    match normalize_parts [] (Js.split slash relPath) with
    | None =>
        let error := InvalidPath relPath in
        (<[relPath := Throw error]> normalizedPaths, Throw error)
    | Some parts =>
        let normalizedPath := Js.join sep parts in
        let normalizedPaths := <[relPath := Ok normalizedPath]> normalizedPaths in
        (if in_cache normalizedPath normalizedPaths then normalizedPaths
         else <[normalizedPath := Ok normalizedPath]> normalizedPaths,
         Ok normalizedPath)
    end.

(** [normalizeRelativePath(relativePath)] as the rest of the code sees it:
    what the function returns from a cache that it alone has filled (its
    results are those of [normalizeRelativePath_cached] on such a cache),
    the new cache left aside. *)
Definition normalizeRelativePath (relPath : string) : Result string :=
  if Js.inherited_key relPath then Throw (ThrownValue relPath)
  else
    match normalize_parts [] (Js.split slash relPath) with
    | Some parts => Ok (Js.join sep parts)
    | None => Throw (InvalidPath relPath)
    end.

(** Node's [path.normalize] and [path.join] on POSIX, which [joinPaths]
    calls: the segments [''] and ['.'] are dropped, ['..'] removes the
    segment before it or, on a relative path, is kept when there is none. *)
Fixpoint normalizeString (kept parts : list string) (allowAboveRoot : bool)
    : list string :=
  match parts with
  | [] => rev kept
  | part :: parts' =>
      if Js.seq part "" || Js.seq part "." then
        normalizeString kept parts' allowAboveRoot
      else if Js.seq part ".." then
        match kept with
        | top :: kept' =>
            if Js.seq top ".." then normalizeString (part :: kept) parts' allowAboveRoot
            else normalizeString kept' parts' allowAboveRoot
        | [] =>
            if allowAboveRoot then normalizeString [part] parts' allowAboveRoot
            else normalizeString [] parts' allowAboveRoot
        end
      else normalizeString (part :: kept) parts' allowAboveRoot
  end.

Definition path_normalize (p : string) : string :=
  match p with
  | EmptyString => "."
  | String c _ =>
      let isAbsolute := Ascii.eqb c slash in
      let trailingSeparator :=
        match Js.last_char p with Some d => Ascii.eqb d slash | None => false end in
      let body := Js.join sep (normalizeString [] (Js.split slash p) (negb isAbsolute)) in
      let body := if Js.seq body "" && negb isAbsolute then "." else body in
      let body := if negb (Js.seq body "") && trailingSeparator then body +:+ "/" else body in
      if isAbsolute then "/" +:+ body else body
  end.

Definition path_join (args : list string) : string :=
  match filter (fun a => a <> "") args with
  | [] => "."
  | parts => path_normalize (Js.join sep parts)
  end.

(** [joinPaths(...)] *)
Definition joinPaths (args : list string) : string :=
  let result := path_join args in
  if Js.seq result "." then "" else result.

(** [array[i]] for a number [i]; [None] is [undefined]. *)
Definition aget {A} (l : list A) (i : Z) : option A :=
  if (i <? 0)%Z then None else l !! Z.to_nat i.

(** The [while (low <= high)] loop of [searchByRelativePath]. [fuel] bounds
    the number of rounds; [None] stands for a round that is never reached
    with [fuel] above [high - low] and the bounds inside the array. *)
Inductive Probe : Type :=
  | Found (middle : Z)
  | NotFound (low high : Z).

Fixpoint search_loop (fuel : nat) (entries : list (Entry T)) (normalizedPath : string)
    (low high : Z) : option Probe :=
  if (low <=? high)%Z then
    match fuel with
    | O => None
    | S fuel' =>
        let middle := (low + Z.quot (high - low) 2)%Z in
        match aget entries middle with
        | None => None
        | Some e =>
            let middleRelativePath := relativePath e in
            if Js.seq normalizedPath middleRelativePath then Some (Found middle)
            else if Js.lt normalizedPath middleRelativePath
                 then search_loop fuel' entries normalizedPath low (middle - 1)
                 else search_loop fuel' entries normalizedPath (middle + 1) high
        end
    end
  else Some (NotFound low high).

(** [searchByRelativePath(entries, normalizedPath, closest)]; the result is
    an index or [-1]. *)
Definition searchByRelativePath (entries : list (Entry T)) (normalizedPath : string)
    (closest : bool) : Z :=
  let len := Z.of_nat (length entries) in
  match entries, last entries with
  | first :: _, Some final =>
      if Js.lt normalizedPath (relativePath first) then (-1)%Z
      else if Js.gt normalizedPath (relativePath final)
           then (if closest then len - 1 else -1)%Z
      else
        match search_loop (length entries) entries normalizedPath 0 (len - 1) with
        | Some (Found middle) => middle
        | Some (NotFound low high) =>
            if closest then
              if (low >=? len)%Z then high
              else if (low <? 0)%Z then (-1)%Z
              else match aget entries low with
                   | Some e => if Js.lt (relativePath e) normalizedPath
                               then low else (low - 1)%Z
                   | None => (-1)%Z
                   end
            else (-1)%Z
        | None => (-1)%Z
        end
  | _, _ => (-1)%Z
  end.

End Shared.
End Shared.

(* ========================================================================= *)
(** * ManualTree                                                              *)
(* ========================================================================= *)

Module ManualTree.
Section ManualTree.
Context {T : Type}.

Definition addCommand (e : Entry T) : Change T :=
  MkChange (if EntryJs.isDirectory e then mkdir else create)
           (Shared.entryRelativePath e) e.

Definition removeCommand (e : Entry T) : Change T :=
  MkChange (if EntryJs.isDirectory e then rmdir else unlink)
           (Shared.entryRelativePath e) e.

Definition updateCommand (e : Entry T) : Change T :=
  MkChange change (Shared.entryRelativePath e) e.

(** A tree is its [entries] array. *)
Record t : Type := Make { entries : list (Entry T) }.

(** [new ManualTree({ entries, sortAndExpand })] *)
Definition new (entries_ : list (Entry T)) (sortAndExpand : bool) : Result t :=
  if sortAndExpand then Ok (Make (Shared.sortAndExpand entries_))
  else rbind (Shared.validateSortedUnique entries_) (fun _ => Ok (Make entries_)).

(** [ManualTree.fromEntries(entries, options)] *)
Definition fromEntries (entries_ : list (Entry T)) (sortAndExpand : bool) : Result t :=
  new entries_ sortAndExpand.

(** [ManualTree.fromPaths(paths, options)] *)
Definition fromPaths (paths : list string) (sortAndExpand : bool) : Result t :=
  new (map EntryJs.fromPath paths) sortAndExpand.

(** [tree.addEntries(entries, options)] *)
Definition addEntries (tree : t) (entries_ : list (Entry T)) (sortAndExpand : bool)
    : Result t :=
  match entries_ with
  | [] => Ok tree
  | _ =>
      rbind (if sortAndExpand then Ok (Shared.sortAndExpand entries_)
             else rbind (Shared.validateSortedUnique entries_) (fun _ => Ok entries_))
        (fun added => Ok (Make (Shared.mergeEntries (entries tree) added false)))
  end.

(** [ManualTree.defaultIsEqual(entryA, entryB)] *)
Definition defaultIsEqual (entryA entryB : Entry T) : bool :=
  if EntryJs.isDirectory entryA && EntryJs.isDirectory entryB then true
  else optnum_seq (size entryA) (size entryB)
       && number_seq (toNumber (mtime entryA)) (toNumber (mtime entryB))
       && Z.eqb (mode entryA) (mode entryB).

(** The two loops of [calculatePatch] over the indices [i] and [j], as a
    recursion on [ours] from [i] on and [theirs] from [j] on.  The result
    is the pair of [removals] and [additions], each in the order of the
    pushes. *)
Fixpoint walk (isEqual : Entry T -> Entry T -> bool) (ours : list (Entry T))
    : list (Entry T) -> list (Change T) * list (Change T) :=
  fix walk_theirs (theirs : list (Entry T)) : list (Change T) * list (Change T) :=
    match ours, theirs with
    | [], _ => ([], map addCommand theirs)               (* cleanup theirs *)
    | _, [] => (map removeCommand ours, [])               (* cleanup ours *)
    | x :: ours', y :: theirs' =>
        let xpath := Shared.entryRelativePath x in
        let ypath := Shared.entryRelativePath y in
        if Js.lt xpath ypath then
          let '(removals, additions) := walk isEqual ours' theirs in
          (removeCommand x :: removals, additions)
        else if Js.gt xpath ypath then
          let '(removals, additions) := walk_theirs theirs' in
          (removals, addCommand y :: additions)
        else
          let '(removals, additions) := walk isEqual ours' theirs' in
          if negb (isEqual x y) then
            if Bool.eqb (EntryJs.isFile x) (EntryJs.isFile y)
            then (removals, updateCommand y :: additions)
            else (removeCommand x :: removals, addCommand y :: additions)
          else (removals, additions)
    end.

(** [tree.calculatePatch(otherFSTree, isEqual)]:
    [removals.reverse().concat(additions)]. *)
Definition calculatePatch (tree other : t)
    (isEqual : Entry T -> Entry T -> bool) : list (Change T) :=
  let '(removals, additions) := walk isEqual (entries tree) (entries other) in
  rev removals ++ additions.

End ManualTree.
End ManualTree.

(* ========================================================================= *)
(** * Methods                                                                 *)
(* ========================================================================= *)

(** A method of an object of state [S]: it may change the object and either
    returns or throws; what it changed before a [throw] stays changed. *)
Definition Method (S A : Type) : Type := S -> S * Result A.

Definition ret {S A} (a : A) : Method S A := fun s => (s, Ok a).
Definition throw {S A} (e : Exn) : Method S A := fun s => (s, Throw e).
Definition bind {S A B} (m : Method S A) (k : A -> Method S B) : Method S B :=
  fun s => match m s with
           | (s', Ok a) => k a s'
           | (s', Throw e) => (s', Throw e)
           end.
Definition get {S} : Method S S := fun s => (s, Ok s).
Definition modify {S} (f : S -> S) : Method S unit := fun s => (f s, Ok tt).
Definition lift {S A} (r : Result A) : Method S A := fun s => (s, r).

Notation "'let*' x ':=' m 'in' k" := (bind m (fun x => k))
  (at level 10, x name, m at level 100, k at level 200).
Notation "m '>>' k" := (bind m (fun _ => k))
  (at level 100, k at level 200, right associativity).

(* ========================================================================= *)
(** * FacadeTree: what a tree offers to the trees that refer to it            *)
(* ========================================================================= *)

(** [shared.Stats] *)
Record Stats : Type := MkStats {
  stat_size : option Z;
  stat_mtime : JsTime;
  stat_mode : Z;
}.

(** The methods and accessors of [FacadeTree] that another tree calls on a
    tree it links to, projects or merges.  [T] is the type of such trees.
    The [options] of [_findByRelativePath] are given by the value of
    [resolveSymlinks], [None] when it is [undefined]; a result
    [{ entry: null, tree: null }] is [None]. *)
Class FacadeTree (T : Type) : Type := {
  tree_root : T -> string;
  tree_entries : T -> list (Entry T);
  tree_changes : T -> list (Change T);
  tree_findByRelativePath : T -> string -> option bool -> option (EntryRef T * T);
  tree_getEntriesForDirectory : T -> string -> Result (list (Entry T));
  tree_resolvePath : T -> string -> string;
  tree_chdir : T -> string -> Result T;
  tree_readdirSync : T -> string -> Result (list string);
  tree_statSync : T -> string -> Result Stats;
}.

(** The libraries [md5hex] and [minimatch], and the flag of [can-symlink]. *)
Class Md5 : Type := { md5hex : string -> string }.

Class Minimatch : Type := {
  GlobRow : Type;
  glob_match : string -> string -> bool;              (* new Minimatch(g).match(path) *)
  glob_set : string -> list GlobRow;                   (* new Minimatch(g).set *)
  glob_matchOne : string -> list string -> GlobRow -> bool -> bool;
                                                       (* .matchOne(parts, row, partial) *)
}.

(* ========================================================================= *)
(** * WritableTree                                                            *)
(* ========================================================================= *)

Module WritableTree.

Inductive State : Type := STARTED | STOPPED.

(** The calls made to the filesystem ([fs], [symlink-or-copy]), in order. *)
Inductive FsCall : Type :=
  | FsMkdir (path : string)
  | FsRmdir (path : string)
  | FsUnlink (path : string)
  | FsWriteFile (path content : string)
  | FsSymlinkOrCopy (target path : string).

(** A node of the doubly-linked list of changes.  The array
    [[operation, path, entry, previous, next]] is the change with the
    identity of the node; [previous] and [next] are given by the place of
    the node in the list. *)
Record Node (T : Type) : Type := MkNode {
  node_id : nat;
  node_change : Change T;
}.
Arguments MkNode {T}.
Arguments node_id {T}.
Arguments node_change {T}.

(** [_changeHash]: for each operation, the node tracked at a path. *)
Record ChangeHash : Type := MkHash {
  hash_change : gmap string nat;
  hash_create : gmap string nat;
  hash_mkdir : gmap string nat;
  hash_rmdir : gmap string nat;
  hash_unlink : gmap string nat;
}.

Definition hash_empty : ChangeHash := MkHash ∅ ∅ ∅ ∅ ∅.

Definition hash_get (h : ChangeHash) (op : Operation) : gmap string nat :=
  match op with
  | change => hash_change h
  | create => hash_create h
  | mkdir => hash_mkdir h
  | rmdir => hash_rmdir h
  | unlink => hash_unlink h
  end.

Definition hash_set (h : ChangeHash) (op : Operation) (m : gmap string nat) : ChangeHash :=
  match op with
  | change => MkHash m (hash_create h) (hash_mkdir h) (hash_rmdir h) (hash_unlink h)
  | create => MkHash (hash_change h) m (hash_mkdir h) (hash_rmdir h) (hash_unlink h)
  | mkdir => MkHash (hash_change h) (hash_create h) m (hash_rmdir h) (hash_unlink h)
  | rmdir => MkHash (hash_change h) (hash_create h) (hash_mkdir h) m (hash_unlink h)
  | unlink => MkHash (hash_change h) (hash_create h) (hash_mkdir h) (hash_rmdir h) m
  end.

(** The tree.  [_changes] is the list from [_firstChange] to [_lastChange];
    [_nextNode] numbers the nodes; [fs_calls] is the trace of the calls to
    the filesystem, the latest first. *)
Record t (T : Type) : Type := Make {
  _entries : list (Entry T);
  _root : string;
  _state : State;
  _changes : list (Node T);
  _changeHash : ChangeHash;
  _nextNode : nat;
  fs_calls : list FsCall;
}.
Arguments Make {T}.
Arguments _entries {T}.
Arguments _root {T}.
Arguments _state {T}.
Arguments _changes {T}.
Arguments _changeHash {T}.
Arguments _nextNode {T}.
Arguments fs_calls {T}.

(** Which tree holds a found entry: the receiver or a linked tree. *)
Inductive Owner (T : Type) : Type :=
  | This
  | Other (tree : T).
Arguments This {T}.
Arguments Other {T}.

(** The methods of a writable tree. *)
Definition M (T A : Type) : Type := Method (t T) A.

Section WritableTree.
Context {T : Type} `{FacadeTree T} `{Md5}.

(** [new WritableTree({ root })]; [root] is taken as normalized. *)
Definition new (root : string) : t T :=
  Make [] root STOPPED [] hash_empty 0 [].

Definition set_entries (es : list (Entry T)) (s : t T) : t T :=
  Make es (_root s) (_state s) (_changes s) (_changeHash s) (_nextNode s) (fs_calls s).
Definition set_state (st : State) (s : t T) : t T :=
  Make (_entries s) (_root s) st (_changes s) (_changeHash s) (_nextNode s) (fs_calls s).
Definition set_tracker (cs : list (Node T)) (h : ChangeHash) (n : nat) (s : t T) : t T :=
  Make (_entries s) (_root s) (_state s) cs h n (fs_calls s).
Definition fs_call (c : FsCall) : M T unit :=
  modify (fun s => Make (_entries s) (_root s) (_state s) (_changes s)
                        (_changeHash s) (_nextNode s) (c :: fs_calls s)).

(** [_resolvePath(normalizedPath)] *)
Definition _resolvePath (s : t T) (normalizedPath : string) : string :=
  Shared.joinPaths [_root s; normalizedPath].

(** The loop [while (index !== -1 && !startsWith(normalizedPath,
    entry.relativePath)) entry = this._entries[--index]]: the entry it
    stops at, if it stops before [-1]. *)
Fixpoint walk_back (entries : list (Entry T)) (normalizedPath : string) (index : nat)
    : option (Entry T) :=
  match entries !! index with
  | None => None
  | Some entry =>
      if Shared.startsWith normalizedPath (relativePath entry) then Some entry
      else match index with
           | O => None
           | S index' => walk_back entries normalizedPath index'
           end
  end.

(** [_findByRelativePath(normalizedPath, options)] *)
Definition _findByRelativePath (s : t T) (normalizedPath : string)
    (options : option bool) : option (EntryRef T * Owner T) :=
  if Js.seq normalizedPath "" then Some (ROOT, This)
  else
    let resolveSymlinks := match options with Some b => b | None => true end in
    let index := Shared.searchByRelativePath (_entries s) normalizedPath true in
    if (index =? -1)%Z then None
    else match Shared.aget (_entries s) index with
         | None => None
         | Some entry =>
             if Js.seq (relativePath entry) normalizedPath then
               match _symlink entry with
               | Some (Link tree linked) =>
                   if resolveSymlinks then Some (linked, Other tree)
                   else Some (Stored entry, This)
               | _ => Some (Stored entry, This)
               end
             else
               match walk_back (_entries s) normalizedPath (Z.to_nat index) with
               | None => None
               | Some entry' =>
                   match _symlink entry' with
                   | Some (Link tree ROOT) =>
                       let relativePathWithSeparator :=
                         Shared.ensureSeparator (relativePath entry') in
                       if Shared.startsWith normalizedPath relativePathWithSeparator
                       then
                         match tree_findByRelativePath tree
                                 (Js.substring_from
                                    (String.length relativePathWithSeparator)
                                    normalizedPath) options with
                         | Some (e, owner) => Some (e, Other owner)
                         | None => None
                         end
                       else None
                   | _ => None
                   end
               end
         end.

(** [_insertEntry(entry)] *)
Definition _insertEntry (entry : Entry T) : M T unit :=
  modify (fun s =>
    let entries := _entries s in
    let index := Shared.searchByRelativePath entries (relativePath entry) true in
    if (index =? -1)%Z then set_entries (entry :: entries) s
    else match Shared.aget entries index with
         | Some found =>
             if Js.seq (relativePath found) (relativePath entry)
             then set_entries (<[Z.to_nat index := entry]> entries) s
             else set_entries (take (Z.to_nat (index + 1)) entries ++ entry ::
                               drop (Z.to_nat (index + 1)) entries) s
         | None => s
         end).

(** [_removeEntry(entry)] *)
Definition _removeEntry (entry : EntryRef T) : M T unit :=
  match entry with
  | ROOT => throw (TypeError "Cannot remove a root entry.")
  | Stored e =>
      modify (fun s =>
        let index := Shared.searchByRelativePath (_entries s) (relativePath e) false in
        if (index =? -1)%Z then s
        else set_entries (delete (Z.to_nat index) (_entries s)) s)
  end.

(** [_throwOnCommonErrors(operation, normalizedPath, relativePath, options)],
    called with a path. *)
Definition _throwOnCommonErrors (operation normalizedPath relPath : string)
    (allowRoot allowSymlinks : bool) : M T unit :=
  let* s := get in
  match _state s with
  | STOPPED => throw (StoppedTree operation)
  | STARTED =>
      (if negb allowRoot || negb (Js.seq normalizedPath "") then
         if Js.seq normalizedPath "" then throw (RootOperation operation)
         else if negb (Js.seq operation "mkdirp") then
           let parentPath := Shared.dirname normalizedPath in
           if negb (Js.seq parentPath "") then
             let parentIndex :=
               Shared.searchByRelativePath (_entries s) parentPath false in
             match Shared.aget (_entries s) parentIndex with
             | None => throw (ENOENT operation relPath)
             | Some parent =>
                 if EntryJs.isSymbolicLink parent
                 then throw (ENOENT operation relPath) else ret tt
             end
           else ret tt
         else ret tt
       else ret tt) >>
      (if negb allowSymlinks then
         let targetIndex :=
           Shared.searchByRelativePath (_entries s) normalizedPath false in
         match Shared.aget (_entries s) targetIndex with
         | Some target =>
             if EntryJs.isSymbolicLink target
             then throw (SymlinkOperation operation relPath) else ret tt
         | None => ret tt
         end
       else ret tt)
  end.

(** [_untrack(operation, normalizedPath)].  Taking the node out of the
    doubly-linked list is taking it out of [_changes].  The hash is read at
    its own keys.  At a property name of [Object.prototype] the code finds
    the inherited value instead and takes it for a node, and what it then
    does to the ends of the list is not described by a list of nodes: such
    paths are outside of this model of the tracker, and the theorems about
    what the tracker holds are stated of trees whose changes were tracked
    at other paths ([plain_tracker]). *)
Definition _untrack (operation : Operation) (normalizedPath : string) : M T bool :=
  let* s := get in
  match hash_get (_changeHash s) operation !! normalizedPath with
  | Some id =>
      modify (set_tracker
                (filter (fun n => node_id n <> id) (_changes s))
                (hash_set (_changeHash s) operation
                   (delete normalizedPath (hash_get (_changeHash s) operation)))
                (_nextNode s)) >>
      ret true
  | None => ret false
  end.

(** The end of [_track]: the new node goes into the hash and to the end of
    the list. *)
Definition track_node (operation : Operation) (entry : Entry T) : M T unit :=
  modify (fun s =>
    let id := _nextNode s in
    set_tracker
      (_changes s ++ [MkNode id (MkChange operation (relativePath entry) entry)])
      (hash_set (_changeHash s) operation
         (<[relativePath entry := id]> (hash_get (_changeHash s) operation)))
      (S id) s).

(** [_track(operation_, entry)] *)
Definition _track (operation_ : Operation) (entry : Entry T) : M T unit :=
  match operation_ with
  | create =>
      let* untracked := _untrack unlink (relativePath entry) in
      track_node (if untracked then change else create) entry
  | change =>
      _untrack change (relativePath entry) >>
      let* untracked := _untrack create (relativePath entry) in
      track_node (if untracked then create else change) entry
  | mkdir =>
      let* untracked := _untrack rmdir (relativePath entry) in
      if untracked then ret tt else track_node mkdir entry
  | rmdir =>
      let* untracked := _untrack mkdir (relativePath entry) in
      if untracked then ret tt else track_node rmdir entry
  | unlink =>
      _untrack change (relativePath entry) >>
      let* untracked := _untrack create (relativePath entry) in
      if untracked then ret tt else track_node unlink entry
  end.

(** [start()] *)
Definition start : M T unit :=
  modify (fun s => set_state STARTED (set_tracker [] hash_empty (_nextNode s) s)).

(** [stop()] *)
Definition stop : M T unit := modify (set_state STOPPED).

(** The tree behind a directory link: [entry._symlink.tree] when
    [entry.isSymbolicLink() && entry.isDirectory()]. *)
Definition linked_directory (entry : Entry T) : option T :=
  match _symlink entry with
  | Some (Link tree ROOT) => Some tree
  | _ => None
  end.

(** [get entries] *)
Definition entries (s : t T) : list (Entry T) :=
  let combinedEntries :=
    flat_map (fun entry =>
      entry ::
      match linked_directory entry with
      | Some tree =>
          map (fun linkedEntry =>
                 EntryJs.clone linkedEntry
                   (Some (Shared.joinPaths [relativePath entry; relativePath linkedEntry])))
              (tree_entries tree)
      | None => []
      end) (_entries s) in
  Shared.sort Shared.compareEntries
    (map (fun entry => EntryJs.clone entry None) combinedEntries).

(** [get paths] *)
Definition paths (s : t T) : list string := map relativePath (entries s).

(** [changes()] *)
Definition changes (s : t T) : list (Change T) :=
  let tracked := map node_change (_changes s) in
  let combinedChanges :=
    flat_map (fun c =>
      c ::
      match linked_directory (change_entry c) with
      | Some tree =>
          map (fun entry =>
                 let relPath := Shared.joinPaths [change_path c; relativePath entry] in
                 MkChange (if EntryJs.isDirectory entry then mkdir else create) relPath
                          (EntryJs.clone entry (Some relPath)))
              (tree_entries tree)
      | None => []
      end) tracked in
  let traversedSymlinks : list string :=
    flat_map (fun c => match linked_directory (change_entry c) with
                       | Some _ => [change_path c]
                       | None => []
                       end) tracked in
  let unchanged :=
    flat_map (fun entry =>
      match linked_directory entry with
      | Some tree =>
          if bool_decide (relativePath entry ∈ traversedSymlinks) then []
          else map (fun c =>
                      let relPath := Shared.joinPaths [relativePath entry; change_path c] in
                      MkChange (operation c) relPath
                               (EntryJs.clone (change_entry c) (Some relPath)))
                   (tree_changes tree)
      | None => []
      end) (_entries s) in
  Shared.sort Shared.compareChanges (combinedChanges ++ unchanged).

(** [mkdirSync(relativePath)]; [now] is what [Date.now()] returns. *)
Definition mkdirSync (relPath : string) (now : Z) : M T unit :=
  let* normalizedPath := lift (Shared.normalizeRelativePath relPath) in
  _throwOnCommonErrors "mkdir" normalizedPath relPath false false >>
  let* s := get in
  match _findByRelativePath s normalizedPath None with
  | Some _ => throw (EEXIST "mkdir" relPath)
  | None =>
      fs_call (FsMkdir (_resolvePath s normalizedPath)) >>
      let entry := EntryJs.new normalizedPath None (TimeNumber now)
                     EntryJs.DIRECTORY_MODE None in
      _track mkdir entry >>
      _insertEntry entry
  end.

(** [rmdirSync(relativePath)] *)
Definition rmdirSync (relPath : string) : M T unit :=
  let* normalizedPath := lift (Shared.normalizeRelativePath relPath) in
  _throwOnCommonErrors "rmdir" normalizedPath relPath false false >>
  let* s := get in
  match _findByRelativePath s normalizedPath None with
  | None => throw (ENOENT "rmdir" relPath)
  | Some (entry, _) =>
      if EntryJs.ref_isSymbolicLink entry || negb (EntryJs.ref_isDirectory entry)
      then throw (ENOTDIR "rmdir" relPath)
      else match entry with
           | ROOT => throw (TypeError "Path must be a string.")
           | Stored e =>
               fs_call (FsRmdir (_resolvePath s (relativePath e))) >>
               _track rmdir e >>
               _removeEntry entry
           end
  end.

(** [unlinkSync(relativePath)] *)
Definition unlinkSync (relPath : string) : M T unit :=
  let* normalizedPath := lift (Shared.normalizeRelativePath relPath) in
  _throwOnCommonErrors "unlink" normalizedPath relPath false true >>
  let* s := get in
  match _findByRelativePath s normalizedPath (Some false) with
  | None => throw (ENOENT "unlink" relPath)
  | Some (entry, _) =>
      if negb (EntryJs.ref_isSymbolicLink entry) && EntryJs.ref_isDirectory entry
      then throw (EPERM "unlink" relPath)
      else match entry with
           | ROOT => throw (EPERM "unlink" relPath)
           | Stored e =>
               let operation := if EntryJs.isDirectory e then rmdir else unlink in
               fs_call (FsUnlink (_resolvePath s normalizedPath)) >>
               _track operation e >>
               _removeEntry entry
           end
  end.

(** [writeFileSync(relativePath, content, options)] *)
Definition writeFileSync (relPath content : string) (now : Z) : M T unit :=
  let* normalizedPath := lift (Shared.normalizeRelativePath relPath) in
  _throwOnCommonErrors "writeFile" normalizedPath relPath false false >>
  let* s := get in
  let result := _findByRelativePath s normalizedPath None in
  (match result with
   | Some (entry, _) =>
       if EntryJs.ref_isDirectory entry then throw (EISDIR "open" relPath)
       else match entry with
            | Stored (MkEntry _ _ _ _ _ (Some (External target)) _ _) =>
                fs_call (FsWriteFile target content)
            | _ => ret tt
            end
   | None => ret tt
   end) >>
  let checksum_ := md5hex content in
  let existing := match result with
                  | Some (Stored e, _) => Some e
                  | _ => None
                  end in
  let mode_ := match existing with
               | Some e => mode e
               | None => EntryJs.FILE_MODE
               end in
  if match existing with
     | Some e => optstr_seq (checksum e) (Some checksum_)
     | None => false
     end
  then ret tt
  else
    fs_call (FsWriteFile (_resolvePath s normalizedPath) content) >>
    let entry := EntryJs.new normalizedPath (Some (Z.of_nat (String.length content)))
                   (TimeNumber now) mode_ (Some checksum_) in
    _track (match result with Some _ => change | None => create end) entry >>
    _insertEntry entry.

(** [symlinkSync(target, relativePath)] *)
Definition symlinkSync (target relPath : string) (now : Z) : M T unit :=
  let* normalizedPath := lift (Shared.normalizeRelativePath relPath) in
  _throwOnCommonErrors "symlink" normalizedPath relPath false false >>
  let* s := get in
  match _findByRelativePath s normalizedPath None with
  | Some _ => throw (EEXIST "symlink" relPath)
  | None =>
      fs_call (FsSymlinkOrCopy target (_resolvePath s normalizedPath)) >>
      let entry := with_symlink (External target)
                     (EntryJs.new normalizedPath None (TimeNumber now)
                        EntryJs.FILE_MODE None) in
      _track create entry >>
      _insertEntry entry
  end.

(** [symlinkToFacadeSync(targetFacade, targetRelativePath, localRelativePath)].
    Linking the root turns the tree into a [Delegator], which has none of
    the methods that write: the result is then the tree it delegates to. *)
Definition symlinkToFacadeSync (targetFacade : T)
    (targetRelativePath localRelativePath : string) (now : Z) : M T (option T) :=
  let* localNormalizedPath := lift (Shared.normalizeRelativePath localRelativePath) in
  let* targetNormalizedPath := lift (Shared.normalizeRelativePath targetRelativePath) in
  _throwOnCommonErrors "symlinkToFacade" localNormalizedPath localRelativePath true false >>
  let* s := get in
  if Js.seq localNormalizedPath "" then
    match _entries s with
    | _ :: _ => throw ENOTEMPTY
    | [] =>
        fs_call (FsRmdir (_root s)) >>
        fs_call (FsSymlinkOrCopy (tree_resolvePath targetFacade targetNormalizedPath)
                   (_root s)) >>
        let* delegate := lift (tree_chdir targetFacade targetNormalizedPath) in
        ret (Some delegate)
    end
  else
    match tree_findByRelativePath targetFacade targetNormalizedPath None with
    | None => throw (ENOENT "symlink" targetRelativePath)
    | Some (targetEntry, targetTree) =>
        match _findByRelativePath s localNormalizedPath None with
        | Some _ => throw (EEXIST "symlink" targetRelativePath)
        | None =>
            let* link :=
              (if EntryJs.ref_isDirectory targetEntry then
                 let* projection := lift (tree_chdir targetFacade targetNormalizedPath) in
                 ret (EntryJs.DIRECTORY_MODE, mkdir, Link projection ROOT)
               else ret (EntryJs.FILE_MODE, create, Link targetTree targetEntry)) in
            let '(mode_, operation, symlink) := link in
            fs_call (FsSymlinkOrCopy (tree_resolvePath targetFacade targetNormalizedPath)
                       (_resolvePath s localNormalizedPath)) >>
            let entry := with_symlink symlink
                           (EntryJs.new localNormalizedPath None (TimeNumber now)
                              mode_ None) in
            _track operation entry >>
            _insertEntry entry >>
            ret None
        end
    end.

(** The loop of [mkdirpSync] over the tokens of the path. *)
Fixpoint mkdirp_tokens (subpath : string) (tokens : list string) (now : Z) : M T unit :=
  match tokens with
  | [] => ret tt
  | token :: tokens' =>
      let subpath' := Shared.joinPaths [subpath; token] in
      let* s := get in
      (match _findByRelativePath s subpath' None with
       | Some (entry, _) =>
           if EntryJs.ref_isSymbolicLink entry || EntryJs.ref_isFile entry
           then mkdirSync subpath' now else ret tt
       | None => mkdirSync subpath' now
       end) >>
      mkdirp_tokens subpath' tokens' now
  end.

(** [mkdirpSync(relativePath)] *)
Definition mkdirpSync (relPath : string) (now : Z) : M T unit :=
  let* normalizedPath := lift (Shared.normalizeRelativePath relPath) in
  _throwOnCommonErrors "mkdirp" normalizedPath relPath false false >>
  let* s := get in
  match _findByRelativePath s normalizedPath None with
  | Some (entry, _) =>
      if EntryJs.ref_isDirectory entry then ret tt
      else throw (EEXIST "mkdirp" relPath)
  | None => mkdirp_tokens "" (Js.split slash normalizedPath) now
  end.

(** [removeSync(relativePath)] *)
Definition removeSync (relPath : string) : M T unit :=
  let* normalizedPath := lift (Shared.normalizeRelativePath relPath) in
  _throwOnCommonErrors "remove" normalizedPath relPath false true >>
  let* s := get in
  match _findByRelativePath s normalizedPath (Some false) with
  | None => throw (ENOENT "remove" relPath)
  | Some (entry, _) =>
      if EntryJs.ref_isSymbolicLink entry || EntryJs.ref_isFile entry
      then unlinkSync relPath else rmdirSync relPath
  end.

(** The entries that [emptySync] removes: those that follow the directory
    and start with its path. *)
Fixpoint skip_until (prefix : string) (l : list (Entry T)) : list (Entry T) :=
  match l with
  | [] => []
  | entry :: l' =>
      if Shared.startsWith (relativePath entry) prefix then l
      else skip_until prefix l'
  end.

Fixpoint take_while (prefix : string) (l : list (Entry T)) : list (Entry T) :=
  match l with
  | [] => []
  | entry :: l' =>
      if Shared.startsWith (relativePath entry) prefix
      then entry :: take_while prefix l' else []
  end.

Fixpoint remove_each (l : list (Entry T)) : M T unit :=
  match l with
  | [] => ret tt
  | entry :: l' =>
      (if EntryJs.isSymbolicLink entry || EntryJs.isFile entry
       then unlinkSync (relativePath entry) else rmdirSync (relativePath entry)) >>
      remove_each l'
  end.

(** [emptySync(relativePath)] *)
Definition emptySync (relPath : string) : M T unit :=
  let* normalizedPath := lift (Shared.normalizeRelativePath relPath) in
  _throwOnCommonErrors "empty" normalizedPath relPath true false >>
  let* s := get in
  match _findByRelativePath s normalizedPath None with
  | None => throw (ENOENT "empty" relPath)
  | Some (entry, _) =>
      if EntryJs.ref_isFile entry then throw (ENOTDIR "empty" relPath)
      else
        let normalizedPathWithSeparator := Shared.ensureSeparator normalizedPath in
        let found :=
          if Js.seq normalizedPath "" then _entries s
          else
            let index := Shared.searchByRelativePath (_entries s) normalizedPath false in
            take_while normalizedPathWithSeparator
              (skip_until normalizedPathWithSeparator
                 (drop (Z.to_nat (index + 1)) (_entries s))) in
        remove_each (rev found)
  end.

End WritableTree.
End WritableTree.

(* ========================================================================= *)
(** * Projection                                                              *)
(* ========================================================================= *)

Module Projection.

(** A matcher of [include] or [exclude]: a glob string, a [RegExp] or a
    function.  Two strings are [===] when they are the same string; two
    objects when they are the same object, which [id] stands for. *)
Inductive Matcher : Type :=
  | MString (glob : string)
  | MRegExp (id : nat) (test : string -> bool)
  | MFunction (id : nat) (f : string -> bool).

(** A processed matcher: a string has become [new Minimatch(string)]. *)
Inductive Processed : Type :=
  | PMinimatch (glob : string)
  | PRegExp (id : nat) (test : string -> bool)
  | PFunction (id : nat) (f : string -> bool).

Definition process (m : Matcher) : Processed :=
  match m with
  | MString glob => PMinimatch glob
  | MRegExp id test => PRegExp id test
  | MFunction id f => PFunction id f
  end.

(** [v === w] on matchers. *)
Definition matcher_seq (v w : Matcher) : bool :=
  match v, w with
  | MString a, MString b => Js.seq a b
  | MRegExp i _, MRegExp j _ => Nat.eqb i j
  | MFunction i _, MFunction j _ => Nat.eqb i j
  | _, _ => false
  end.

(** The value given for [files], and held by [_files]. *)
Inductive Files : Type :=
  | FilesUndefined
  | FilesNull
  | FilesArray (paths : list string).

(** [a.length === b.length && a.every((v, i) => v === b[i])] *)
Fixpoint every_seq {A} (eq : A -> A -> bool) (a b : list A) : bool :=
  match a, b with
  | [], [] => true
  | v :: a', w :: b' => eq v w && every_seq eq a' b'
  | _, _ => false
  end.

(** The projection.  A field that is [None] is [undefined]. *)
Record t (T : Type) : Type := Make {
  _parent : T;
  _cwd : string;
  _files : Files;
  _include : option (list Matcher);
  _exclude : option (list Matcher);
  _processedFiles : option (list string);
  _entriesFromFiles : option (list (Entry T));
  _processedInclude : option (list Processed);
  _processedExclude : option (list Processed);
  _previousEntries : option (list (Entry T));
}.
Arguments Make {T}.
Arguments _parent {T}.
Arguments _cwd {T}.
Arguments _files {T}.
Arguments _include {T}.
Arguments _exclude {T}.
Arguments _processedFiles {T}.
Arguments _entriesFromFiles {T}.
Arguments _processedInclude {T}.
Arguments _processedExclude {T}.
Arguments _previousEntries {T}.

(** The options of the constructor, [parent] apart. *)
Record Options : Type := MkOptions {
  opt_cwd : option string;
  opt_files : Files;
  opt_include : option (list Matcher);
  opt_exclude : option (list Matcher);
}.

(** The two filters set by [_setFilter]. *)
Inductive Filter : Type := include | exclude.

Definition filter_name (f : Filter) : string :=
  match f with include => "include" | exclude => "exclude" end.

Section Projection.
Context {T : Type} `{FacadeTree T} `{Minimatch}.

Definition M (A : Type) : Type := Method (t T) A.

(** [array && array.length] as a condition. *)
Definition nonempty {A} (l : option (list A)) : bool :=
  match l with
  | Some (_ :: _) => true
  | _ => false
  end.

(** [set cwd(value)] *)
Definition set_cwd (value : option string) : M unit :=
  let* normalized :=
    lift (Shared.normalizeRelativePath (match value with Some v => v | None => "" end)) in
  modify (fun p => Make (_parent p) normalized (_files p) (_include p) (_exclude p)
                        (_processedFiles p) (_entriesFromFiles p)
                        (_processedInclude p) (_processedExclude p) (_previousEntries p)).

(** [normalizeRelativePath] on each path of an array, up to the first throw. *)
Fixpoint normalize_all (paths : list string) : Result (list string) :=
  match paths with
  | [] => Ok []
  | path_ :: paths' =>
      rbind (Shared.normalizeRelativePath path_) (fun normalized =>
      rbind (normalize_all paths') (fun rest => Ok (normalized :: rest)))
  end.

(** [set files(value)] *)
Definition set_files (value : Files) : M unit :=
  let newValue := match value with FilesUndefined => FilesNull | _ => value end in
  let* p := get in
  let oldValue := _files p in
  let unchanged :=
    match newValue, oldValue with
    | FilesNull, FilesNull => true
    | FilesArray new_, FilesArray old => every_seq Js.seq new_ old
    | _, _ => false
    end in
  if unchanged then ret tt
  else
    let newIsArray := match newValue with FilesArray _ => true | _ => false end in
    if newIsArray && nonempty (_exclude p) || nonempty (_include p)
    then throw (IncompatibleFilters "files")
    else
      modify (fun p => Make (_parent p) (_cwd p) newValue (_include p) (_exclude p)
                            (_processedFiles p) (_entriesFromFiles p)
                            (_processedInclude p) (_processedExclude p)
                            (_previousEntries p)) >>
      match newValue with
      | FilesArray paths =>
          let* processed := lift (normalize_all paths) in
          modify (fun p => Make (_parent p) (_cwd p) (_files p) (_include p) (_exclude p)
                                (Some processed)
                                (Some (Shared.sortAndExpand (map EntryJs.fromPath processed)))
                                (_processedInclude p) (_processedExclude p)
                                (_previousEntries p))
      | _ =>
          modify (fun p => Make (_parent p) (_cwd p) (_files p) (_include p) (_exclude p)
                                None None
                                (_processedInclude p) (_processedExclude p)
                                (_previousEntries p))
      end.

(** [_setFilter(filter, value)] *)
Definition _setFilter (filter_ : Filter) (value : option (list Matcher)) : M unit :=
  let newValue := match value with Some v => v | None => [] end in
  let* p := get in
  let oldValue := match filter_ with include => _include p | exclude => _exclude p end in
  let unchanged :=
    match oldValue with
    | Some old => every_seq matcher_seq newValue old
    | None => false
    end in
  if unchanged then ret tt
  else
    let files_set := match _files p with FilesArray _ => true | _ => false end in
    if match newValue with _ :: _ => files_set | [] => false end
    then throw (IncompatibleFilters (filter_name filter_))
    else
      modify (fun p =>
        match filter_ with
        | include =>
            Make (_parent p) (_cwd p) (_files p) (Some newValue) (_exclude p)
                 (_processedFiles p) (_entriesFromFiles p)
                 (Some (map process newValue)) (_processedExclude p) (_previousEntries p)
        | exclude =>
            Make (_parent p) (_cwd p) (_files p) (_include p) (Some newValue)
                 (_processedFiles p) (_entriesFromFiles p)
                 (_processedInclude p) (Some (map process newValue)) (_previousEntries p)
        end).

(** [set include(value)], [set exclude(value)] *)
Definition set_include (value : option (list Matcher)) : M unit := _setFilter include value.
Definition set_exclude (value : option (list Matcher)) : M unit := _setFilter exclude value.

(** [new Projection(options)]: the four setters, on an object whose fields
    are all [undefined]. *)
Definition blank (parent : T) : t T :=
  Make parent "" FilesUndefined None None None None None None None.

Definition new (parent : T) (options : Options) : Result (t T) :=
  match (set_cwd (opt_cwd options) >>
         set_files (opt_files options) >>
         set_include (opt_include options) >>
         set_exclude (opt_exclude options)) (blank parent) with
  | (p, Ok _) => Ok p
  | (_, Throw e) => Throw e
  end.

(** [match(normalizedPath, matcher)] *)
Definition match_ (normalizedPath : string) (matcher : Processed) : bool :=
  match matcher with
  | PRegExp _ test => test normalizedPath
  | PMinimatch glob => glob_match glob normalizedPath
  | PFunction _ f => f normalizedPath
  end.

(** [calculateDirectoryDepth(normalizedPath)] *)
Definition calculateDirectoryDepth (normalizedPath : string) : nat :=
  length (Js.split slash normalizedPath) - 1.

(** [mayContain(normalizedPath, include)] *)
Definition is_minimatch (m : Processed) : bool :=
  match m with PMinimatch _ => true | _ => false end.

Definition mayContain (normalizedPath : string) (include_ : list Processed) : bool :=
  match include_ with
  | _ :: _ =>
      if forallb is_minimatch include_ then
        let parts := Js.split slash normalizedPath in
        existsb (fun matcher =>
          match matcher with
          | PMinimatch glob =>
              existsb (fun row => glob_matchOne glob parts row true) (glob_set glob)
          | _ => false
          end) include_
      else true
  | [] => true
  end.

(** The loop of [shouldExcludeDirectory] over the ancestors of a path;
    [fuel] is at least the length of the path. *)
Fixpoint ancestor_excluded (fuel : nat) (currentDir : string) (exclude_ : list Processed)
    : bool :=
  match fuel with
  | O => false
  | S fuel' =>
      if Js.seq currentDir "" then false
      else if existsb (match_ currentDir) exclude_ then true
      else ancestor_excluded fuel' (Shared.dirname currentDir) exclude_
  end.

(** [shouldExcludeDirectory(normalizedPath, exclude)] *)
Definition shouldExcludeDirectory (normalizedPath : string) (exclude_ : list Processed)
    : bool :=
  match exclude_ with
  | _ :: _ =>
      ancestor_excluded (String.length normalizedPath)
        (Shared.dirname normalizedPath) exclude_
      || existsb (match_ normalizedPath) exclude_
  | [] => false
  end.

(** [filterMatches(normalizedPath, cwd, files, include, exclude)] *)
Definition filterMatches (normalizedPath cwd : string) (files : option (list string))
    (include_ exclude_ : list Processed) : Result bool :=
  if negb (Shared.startsWith normalizedPath (Shared.ensureSeparator cwd))
     || Js.seq cwd normalizedPath
  then Ok false
  else
    match files, include_ ++ exclude_ with
    | Some _, _ :: _ =>
        Throw (TypeError "Cannot pass files option and an include/exlude filter.")
    | _, _ =>
        let normalizedPath :=
          if Js.seq cwd "" then normalizedPath
          else Js.substring_from (String.length (Shared.ensureSeparator cwd))
                 normalizedPath in
        match files with
        | Some paths => Ok (existsb (Js.seq normalizedPath) paths)
        | None =>
            if shouldExcludeDirectory normalizedPath exclude_ then Ok false
            else
              match include_ with
              | _ :: _ =>
                  if forallb (fun matcher => negb (match_ normalizedPath matcher)) include_
                  then Ok false else Ok true
              | [] => Ok true
              end
        end
    end.

Definition or_empty {A} (l : option (list A)) : list A :=
  match l with Some l => l | None => [] end.

(** [_filterMatches(normalizedPath)] *)
Definition _filterMatches (p : t T) (normalizedPath : string) : Result bool :=
  filterMatches normalizedPath (_cwd p) (_processedFiles p)
    (or_empty (_processedInclude p)) (or_empty (_processedExclude p)).

(** [_shouldExcludeDirectory(normalizedPath)] *)
Definition _shouldExcludeDirectory (p : t T) (normalizedPath : string) : bool :=
  shouldExcludeDirectory
    (Js.substring_from (String.length (Shared.ensureSeparator (_cwd p))) normalizedPath)
    (or_empty (_processedExclude p)).

(** What the closure [filterEntries] of [get entries] reads and writes. *)
Record Descent (T : Type) : Type := MkDescent {
  directoryStack : list (Entry T);
  directoryDepth : Z;
  filteredEntries : list (Entry T);
}.
Arguments MkDescent {T}.
Arguments directoryStack {T}.
Arguments directoryDepth {T}.
Arguments filteredEntries {T}.

(** [while (directoryStack.length && directoryDepth >= newDirectoryDepth)
    { directoryStack.pop(); directoryDepth--; }]; the stack is kept with
    its top first. *)
Fixpoint pop_deeper (stack : list (Entry T)) (depth newDepth : Z)
    : list (Entry T) * Z :=
  match stack with
  | [] => ([], depth)
  | _ :: stack' =>
      if (depth >=? newDepth)%Z then pop_deeper stack' (depth - 1) newDepth
      else (stack, depth)
  end.

(** [filterEntries(normalizedPath)] of [get entries]; [fuel] bounds the
    depth of the directories. [directoryStack] is kept with its top first. *)
Fixpoint filterEntries (fuel : nat) (p : t T) (normalizedPath : string)
    (d : Descent T) : Result (Descent T) :=
  match fuel with
  | O => Throw OutOfFuel
  | S fuel' =>
      rbind (tree_getEntriesForDirectory (_parent p) normalizedPath) (fun found =>
      let entries :=
        map (fun entry =>
               EntryJs.clone entry
                 (Some (Shared.joinPaths [normalizedPath; relativePath entry]))) found in
      (fix each (entries : list (Entry T)) (d : Descent T) : Result (Descent T) :=
         match entries with
         | [] => Ok d
         | entry :: entries' =>
             if EntryJs.isDirectory entry && _shouldExcludeDirectory p (relativePath entry)
             then each entries' d
             else
               rbind (_filterMatches p (relativePath entry)) (fun matches =>
               let d1 :=
                 if matches then
                   let kept :=
                     filter (fun directory =>
                               Shared.startsWith (relativePath entry)
                                 (Shared.ensureSeparator (relativePath directory)) = true)
                            (rev (directoryStack d)) in
                   MkDescent [] 0 (filteredEntries d ++ kept ++ [entry])
                 else if EntryJs.isDirectory entry then
                   let newDirectoryDepth :=
                     Z.of_nat (calculateDirectoryDepth (relativePath entry)) in
                   let '(stack, _) :=
                     pop_deeper (directoryStack d) (directoryDepth d) newDirectoryDepth in
                   MkDescent (entry :: stack) newDirectoryDepth (filteredEntries d)
                 else d in
               rbind
                 (if EntryJs.isDirectory entry then
                    let pathWithoutCwd :=
                      Js.substring_from (String.length (Shared.ensureSeparator (_cwd p)))
                        (relativePath entry) in
                    if mayContain pathWithoutCwd (or_empty (_processedInclude p))
                    then filterEntries fuel' p (relativePath entry) d1
                    else Ok d1
                  else Ok d1)
                 (fun d2 => each entries' d2))
         end) entries d)
  end.

(** [get entries]; [fuel] bounds the depth of the descent into the parent. *)
Definition entries (fuel : nat) (p : t T) : Result (list (Entry T)) :=
  match _entriesFromFiles p with
  | Some fromFiles => Ok (map (fun entry => EntryJs.clone entry None) fromFiles)
  | None =>
      rbind (filterEntries fuel p (_cwd p) (MkDescent [] 0 [])) (fun d =>
      Ok (Shared.sort Shared.compareEntries
            (map (fun entry =>
                    EntryJs.clone entry
                      (Some (Js.substring_from
                               (String.length (Shared.ensureSeparator (_cwd p)))
                               (relativePath entry))))
                 (filteredEntries d))))
  end.

(** [get paths] *)
Definition paths (fuel : nat) (p : t T) : Result (list string) :=
  rbind (entries fuel p) (fun es => Ok (map relativePath es)).

(** An assignment to one of the four accessors of a projection. *)
Inductive Setter : Type :=
  | SetCwd (value : option string)
  | SetFiles (value : Files)
  | SetInclude (value : option (list Matcher))
  | SetExclude (value : option (list Matcher)).

Definition assign (setter : Setter) : M unit :=
  match setter with
  | SetCwd value => set_cwd value
  | SetFiles value => set_files value
  | SetInclude value => set_include value
  | SetExclude value => set_exclude value
  end.

(** An existing projection: one that the constructor returned, then given
    any assignments, whether they returned or threw. *)
Inductive existing : t T -> Prop :=
  | existing_new parent options p :
      new parent options = Ok p -> existing p
  | existing_assign p setter :
      existing p -> existing (fst (assign setter p)).

(** The [files] filter is in effect; an [include] or [exclude] filter is. *)
Definition files_in_effect (p : t T) : bool :=
  match _files p with FilesArray _ => true | _ => false end.
Definition matchers_in_effect (p : t T) : bool :=
  nonempty (_include p) || nonempty (_exclude p).

(** What every existing projection satisfies: the [files] filter and the
    matchers are not in effect together; an empty [files] array has given an
    empty [_entriesFromFiles]; without a [files] array there is no
    [_entriesFromFiles] and no [_processedFiles]. *)
Definition filters_ok (p : t T) : Prop :=
  (files_in_effect p = true -> matchers_in_effect p = false) /\
  (_files p = FilesArray [] -> _entriesFromFiles p = Some []) /\
  (files_in_effect p = false ->
   _entriesFromFiles p = None /\ _processedFiles p = None).

End Projection.
End Projection.

(* ========================================================================= *)
(** * lib/fs-merge-tree.js                                                    *)
(* ========================================================================= *)

Module FSMergeTree.

(** An element of [fileInfo]: [{ entry, isDirectory, indices }]. *)
Record FileInfo (T : Type) : Type := MkFileInfo {
  info_entry : Entry T;
  info_isDirectory : bool;
  info_indices : list nat;
}.
Arguments MkFileInfo {T}.
Arguments info_entry {T}.
Arguments info_isDirectory {T}.
Arguments info_indices {T}.

(** The merge tree: its inputs [this[0..length)] and [_currentTree]. *)
Record t (T : Type) : Type := Make {
  inputs : list T;
  _currentTree : @ManualTree.t T;
}.
Arguments Make {T}.
Arguments inputs {T}.
Arguments _currentTree {T}.

Section FSMergeTree.
Context {T : Type} `{FacadeTree T}.
(** [require('can-symlink')()] *)
Context (canSymlink : bool).

(** [new FSMergeTree({ inputs })], the inputs being trees. *)
Definition new (inputs_ : list T) : t T :=
  Make inputs_ (ManualTree.Make []).

(** [isLinkStateEqual(entryA, entryB)] *)
Definition isLinkStateEqual (entryA entryB : Entry T) : bool :=
  if negb (EntryJs.isDirectory entryA && EntryJs.isDirectory entryB) then true
  else if negb canSymlink then true
  else Bool.eqb (linkDir entryA) (linkDir entryB).

(** [isEqual(entryA, entryB)] *)
Definition isEqual (entryA entryB : Entry T) : bool :=
  ManualTree.defaultIsEqual entryA entryB && isLinkStateEqual entryA entryB.

(** [array.sort()] on names: the order of [<] on strings. *)
Definition compareNames (a b : string) : Z :=
  if Js.lt a b then (-1) else if Js.lt b a then 1 else 0.

(** [names]: for each input, the sorted listing of [baseDir], or [[]] for an
    input that is not among [possibleIndices]. *)
Fixpoint read_names (index : nat) (trees : list T) (baseDir : string)
    (possibleIndices : option (list nat)) : Result (list (list string)) :=
  match trees with
  | [] => Ok []
  | tree_ :: trees' =>
      rbind
        (if match possibleIndices with
            | None => true
            | Some indices => bool_decide (index ∈ indices)
            end
         then rbind (tree_readdirSync tree_ baseDir)
                (fun listing => Ok (Shared.sort compareNames listing))
         else Ok [])
        (fun names_i =>
      rbind (read_names (S index) trees' baseDir possibleIndices) (fun rest =>
      Ok (names_i :: rest)))
  end.

(** The pairs [(i, names[i][j])] in the order of the two nested loops. *)
Fixpoint numbered (index : nat) (names : list (list string)) : list (nat * string) :=
  match names with
  | [] => []
  | names_i :: names' =>
      map (fun fileName => (index, fileName)) names_i ++ numbered (S index) names'
  end.

(** The guard against conflicting capitalizations; [lowerCaseNames], an
    object made by [{}], maps a lower-case name to [{ index, originalName }].
    At a property name of [Object.prototype] that it does not hold itself,
    [lowerCaseNames[lowerCaseName]] is not [undefined]: its [index] and
    [originalName] are, and building the message reads [root] off
    [this[undefined]]. *)
Fixpoint guard_capitalization (baseDir : string) (pairs : list (nat * string))
    (lowerCaseNames : gmap string (nat * string)) : Result unit :=
  match pairs with
  | [] => Ok tt
  | (i, fileName) :: pairs' =>
      let lowerCaseName := Js.toLowerCase fileName in
      match lowerCaseNames !! lowerCaseName with
      | None =>
          if Js.inherited_key lowerCaseName
          then Throw (TypeError "Cannot read property 'root' of undefined")
          else guard_capitalization baseDir pairs'
                 (<[lowerCaseName := (i, fileName)]> lowerCaseNames)
      | Some (originalIndex, originalName) =>
          if negb (Js.seq originalName fileName)
          then Throw (ConflictingCapitalization baseDir originalName fileName
                        originalIndex i)
          else guard_capitalization baseDir pairs' lowerCaseNames
      end
  end.

(** The loop that fills [fileInfo], an object made by [{}], and guards
    against conflicting file types and against overwriting.  At a property
    name of [Object.prototype] that it does not hold itself,
    [fileInfo[fileName]] is not [null]: its [entry] is [undefined], and
    reading [tree] off it throws. *)
Fixpoint collect_info (trees : list T) (overwrite : bool) (baseDir : string)
    (pairs : list (nat * string)) (fileInfo : gmap string (FileInfo T))
    : Result (gmap string (FileInfo T)) :=
  match pairs with
  | [] => Ok fileInfo
  | (i, fileName) :: pairs' =>
      match trees !! i with
      | None => Ok fileInfo
      | Some tree_ =>
          let filePath := Shared.path_join [baseDir; fileName] in
          rbind (tree_statSync tree_ filePath) (fun stat =>
          let entry := with_tree tree_
                         (EntryJs.fromStat filePath (stat_size stat) (stat_mtime stat)
                            (stat_mode stat)) in
          let isDirectory := EntryJs.isDirectory entry in
          match fileInfo !! fileName with
          | None =>
              if Js.inherited_key fileName
              then Throw (TypeError "Cannot read property 'tree' of undefined")
              else collect_info trees overwrite baseDir pairs'
                     (<[fileName := MkFileInfo entry isDirectory [i]]> fileInfo)
          | Some info =>
              let originallyDirectory := info_isDirectory info in
              if negb (Bool.eqb originallyDirectory isDirectory)
              then Throw (ConflictingFileType filePath originallyDirectory isDirectory)
              else if negb isDirectory && negb overwrite
              then Throw (OverwriteRefused baseDir fileName)
              else collect_info trees overwrite baseDir pairs'
                     (<[fileName := MkFileInfo entry originallyDirectory
                                      (info_indices info ++ [i])]> fileInfo)
          end)
      end
  end.

(** [_mergeRelativePath(overwriteOptions, baseDir, possibleIndices)];
    [overwrite] is whether [overwriteOptions.overwrite] is truthy, and
    [fuel] bounds the depth of the directories merged. *)
Fixpoint _mergeRelativePath (fuel : nat) (trees : list T) (overwrite : bool)
    (baseDir : string) (possibleIndices : option (list nat))
    : Result (list (FileInfo T)) :=
  match fuel with
  | O => Throw OutOfFuel
  | S fuel' =>
      let isBaseCase := match possibleIndices with None => true | Some _ => false end in
      rbind (read_names 0 trees baseDir possibleIndices) (fun names =>
      let pairs := numbered 0 names in
      rbind (guard_capitalization baseDir pairs ∅) (fun _ =>
      rbind (collect_info trees overwrite baseDir pairs ∅) (fun fileInfo =>
      rbind
        ((fix merge (pairs : list (nat * string)) : Result (list (FileInfo T)) :=
            match pairs with
            | [] => Ok []
            | (i, fileName) :: pairs' =>
                match fileInfo !! fileName with
                | None => merge pairs'
                | Some infoHash =>
                    rbind
                      (if info_isDirectory infoHash then
                         if (length (info_indices infoHash) =? 1)%nat && canSymlink then
                           Ok [MkFileInfo (with_linkDir (info_entry infoHash))
                                 (info_isDirectory infoHash) (info_indices infoHash)]
                         else if bool_decide (head (info_indices infoHash) = Some i) then
                           rbind (_mergeRelativePath fuel' trees overwrite
                                    (baseDir +:+ fileName +:+ "/")
                                    (Some (info_indices infoHash)))
                             (fun subEntries => Ok (infoHash :: subEntries))
                         else Ok []
                       else
                         if bool_decide (last (info_indices infoHash) = Some i)
                         then Ok [infoHash] else Ok [])
                      (fun pushed =>
                    rbind (merge pairs') (fun rest => Ok (pushed ++ rest)))
                end
            end) pairs)
        (fun result =>
      if isBaseCase
      then Ok (Shared.sort (fun a b =>
                              Shared._comparePaths (relativePath (info_entry a))
                                                   (relativePath (info_entry b)))
                           result)
      else Ok result))))
  end.

(** [changes(overwriteOptions)] *)
Definition changes (fuel : nat) (overwrite : bool) : Method (t T) (list (Change T)) :=
  let* this := get in
  let* fileInfos := lift (_mergeRelativePath fuel (inputs this) overwrite "" None) in
  let entries := map info_entry fileInfos in
  let* newTree := lift (ManualTree.fromEntries entries false) in
  let patches := ManualTree.calculatePatch (_currentTree this) newTree isEqual in
  modify (fun this => Make (inputs this) newTree) >>
  ret patches.

End FSMergeTree.
End FSMergeTree.

(* ========================================================================= *)
(** * Vocabulary of the properties                                            *)
(* ========================================================================= *)

(** [a < b] on strings, as a relation. *)
Definition path_lt (a b : string) : Prop := Js.lt a b = true.
Definition path_gt (a b : string) : Prop := Js.lt b a = true.

(** Strictly ascending, strictly descending. *)
Definition ascending (l : list string) : Prop := StronglySorted path_lt l.
Definition descending (l : list string) : Prop := StronglySorted path_gt l.

(** A change that removes ([rmdir], [unlink]); one that adds or updates
    ([mkdir], [create], [change]). *)
Definition removes {T} (c : Change T) : Prop :=
  operation c = rmdir \/ operation c = unlink.
Definition adds_or_updates {T} (c : Change T) : Prop :=
  operation c = mkdir \/ operation c = create \/ operation c = change.

(** A directory entry whose path carries no final separator: the path of
    its changes is its [relativePath]. *)
Definition no_trailing_separator {T} (e : Entry T) : Prop :=
  EntryJs.isDirectory e = true -> Js.last_char (relativePath e) <> Some slash.

(** The loop of [calculatePatch] started on [ours] and [theirs] comes to
    compare the entries [ours[i..]] and [theirs[j..]] given last. *)
Inductive visits {T} : list (Entry T) -> list (Entry T) ->
                       list (Entry T) -> list (Entry T) -> Prop :=
  | visits_start ours theirs : visits ours theirs ours theirs
  | visits_ours x ours y theirs ours' theirs' :
      Js.lt (Shared.entryRelativePath x) (Shared.entryRelativePath y) = true ->
      visits ours (y :: theirs) ours' theirs' ->
      visits (x :: ours) (y :: theirs) ours' theirs'
  | visits_theirs x ours y theirs ours' theirs' :
      Js.lt (Shared.entryRelativePath x) (Shared.entryRelativePath y) = false ->
      Js.gt (Shared.entryRelativePath x) (Shared.entryRelativePath y) = true ->
      visits (x :: ours) theirs ours' theirs' ->
      visits (x :: ours) (y :: theirs) ours' theirs'
  | visits_both x ours y theirs ours' theirs' :
      Js.lt (Shared.entryRelativePath x) (Shared.entryRelativePath y) = false ->
      Js.gt (Shared.entryRelativePath x) (Shared.entryRelativePath y) = false ->
      visits ours theirs ours' theirs' ->
      visits (x :: ours) (y :: theirs) ours' theirs'.

(** Where a path stands in an ascending array: [k] entries are below it. *)
Definition stands_at {T} (es : list (Entry T)) (p : string) (k : nat) : Prop :=
  k <= length es /\
  (forall i e, es !! i = Some e -> i < k -> path_lt (relativePath e) p) /\
  (forall i e, es !! i = Some e -> k <= i -> ~ path_lt (relativePath e) p).

(** The input [index] is among those a call of [_mergeRelativePath] reads. *)
Definition is_read (possibleIndices : option (list nat)) (index : nat) : Prop :=
  match possibleIndices with
  | None => True
  | Some indices => index ∈ indices
  end.

(** [calculatePatch] encounters [x] and [y] at the same path. *)
Definition encounters {T} (ours theirs : list (Entry T)) (x y : Entry T) : Prop :=
  exists ours' theirs',
    visits ours theirs (x :: ours') (y :: theirs') /\
    Shared.entryRelativePath x = Shared.entryRelativePath y.

(* ========================================================================= *)
(** * FacadeTree: the methods over an array of entries                        *)
(* ========================================================================= *)

Module FacadeTreeJs.
Section FacadeTreeJs.
Context {T : Type}.

(** [_findInArrayByRelativePath(array, normalizedPath)]; the tree of the
    result is the receiver. *)
Definition _findInArrayByRelativePath (array : list (Entry T)) (normalizedPath : string)
    : option (EntryRef T) :=
  if Js.seq normalizedPath "" then Some ROOT
  else
    let index := Shared.searchByRelativePath array normalizedPath false in
    match Shared.aget array index with
    | Some entry => Some (Stored entry)
    | None => None
    end.

(** The second loop of [_getEntriesFromArrayForDirectory]: the entries that
    start with the path of the directory, up to the first that does not;
    kept when no separator follows the path of the directory. *)
Fixpoint children (prefix : string) (l : list (Entry T)) : list (Entry T) :=
  match l with
  | [] => []
  | entry :: l' =>
      if Shared.startsWith (relativePath entry) prefix then
        let relPath := Js.substring_from (String.length prefix) (relativePath entry) in
        if Js.contains_char slash relPath then children prefix l'
        else EntryJs.clone entry (Some relPath) :: children prefix l'
      else []
  end.

(** The first loop: the entries up to the first that starts with the path. *)
Fixpoint skip_to (prefix : string) (l : list (Entry T)) : list (Entry T) :=
  match l with
  | [] => []
  | entry :: l' =>
      if Shared.startsWith (relativePath entry) prefix then l
      else skip_to prefix l'
  end.

(** [_getEntriesFromArrayForDirectory(array, normalizedPath)] *)
Definition _getEntriesFromArrayForDirectory (array : list (Entry T))
    (normalizedPath : string) : list (Entry T) :=
  let normalizedPathWithSeparator := Shared.ensureSeparator normalizedPath in
  let start :=
    if Js.seq normalizedPath ""
       || match array with
          | first :: _ => Shared.startsWith (relativePath first) normalizedPathWithSeparator
          | [] => false
          end
    then Some 0%Z
    else
      let index := Shared.searchByRelativePath array normalizedPath false in
      if (index =? -1)%Z then None else Some (index + 1)%Z in
  match start with
  | None => []
  | Some from =>
      children normalizedPathWithSeparator
        (skip_to normalizedPathWithSeparator (drop (Z.to_nat from) array))
  end.

End FacadeTreeJs.
End FacadeTreeJs.

(* ========================================================================= *)
(** * A tree without links, for the examples                                  *)
(* ========================================================================= *)

(** A tree given by its root and its array of paths, the entries being those
    of [Entry.fromPath]; it answers with the methods of [FacadeTree] over
    its array, and has no changes. *)
Inductive PlainTree : Type :=
  | MkPlainTree (root : string) (paths : list string).

Definition plain_root (t : PlainTree) : string :=
  match t with MkPlainTree root _ => root end.

Definition plain_entries (t : PlainTree) : list (Entry PlainTree) :=
  match t with MkPlainTree _ paths => map EntryJs.fromPath paths end.

Definition plain_find (t : PlainTree) (normalizedPath : string) (options : option bool)
    : option (EntryRef PlainTree * PlainTree) :=
  match FacadeTreeJs._findInArrayByRelativePath (plain_entries t) normalizedPath with
  | Some entry => Some (entry, t)
  | None => None
  end.

Definition plain_stat (t : PlainTree) (relPath : string) : Result Stats :=
  rbind (Shared.normalizeRelativePath relPath) (fun normalizedPath =>
  match FacadeTreeJs._findInArrayByRelativePath (plain_entries t) normalizedPath with
  | Some ROOT => Ok (MkStats None (TimeNumber 0) EntryJs.DIRECTORY_MODE)
  | Some (Stored e) => Ok (MkStats (size e) (mtime e) (mode e))
  | None => Throw (ENOENT "stat" relPath)
  end).

Definition plain_readdir (t : PlainTree) (relPath : string) : Result (list string) :=
  rbind (Shared.normalizeRelativePath relPath) (fun normalizedPath =>
  match FacadeTreeJs._findInArrayByRelativePath (plain_entries t) normalizedPath with
  | None => Throw (ENOENT "scandir" relPath)
  | Some entry =>
      if EntryJs.ref_isFile entry then Throw (ENOTDIR "scandir" relPath)
      else Ok (map relativePath
                 (FacadeTreeJs._getEntriesFromArrayForDirectory (plain_entries t)
                    normalizedPath))
  end).

Global Instance PlainTree_facade : FacadeTree PlainTree := {
  tree_root := plain_root;
  tree_entries := plain_entries;
  tree_changes := fun _ => [];
  tree_findByRelativePath := plain_find;
  tree_getEntriesForDirectory := fun t normalizedPath =>
    Ok (FacadeTreeJs._getEntriesFromArrayForDirectory (plain_entries t) normalizedPath);
  tree_resolvePath := fun t normalizedPath =>
    Shared.joinPaths [plain_root t; normalizedPath];
  tree_chdir := fun t relPath =>
    rbind (Shared.normalizeRelativePath relPath) (fun normalizedPath =>
    Ok (MkPlainTree (Shared.joinPaths [plain_root t; normalizedPath]) []));
  tree_readdirSync := plain_readdir;
  tree_statSync := plain_stat;
}.

(** A checksum and a glob matcher for the examples: the content is its own
    checksum, and a glob matches the paths equal to it. *)
Definition example_md5 : Md5 := {| md5hex := fun content => content |}.

Definition example_minimatch : Minimatch := {|
  GlobRow := string;
  glob_match := fun glob path_ => Js.seq glob path_;
  glob_set := fun glob => [glob];
  glob_matchOne := fun glob parts row partial => true;
|}.

(* ========================================================================= *)
(** * Trees of the examples                                                   *)
(* ========================================================================= *)

Module Examples.

Definition ours_entries : list (Entry PlainTree) :=
  map EntryJs.fromPath ["bar/"; "bar/baz.js"; "foo.js"].
Definition theirs_entries : list (Entry PlainTree) :=
  map EntryJs.fromPath ["bar/"; "foo.js"; "new/"; "new/file.js"].
Definition ours : @ManualTree.t PlainTree := ManualTree.Make ours_entries.
Definition theirs : @ManualTree.t PlainTree := ManualTree.Make theirs_entries.

(** The file ["subdir1"], and the directory ["subdir1"] with a file. *)
Definition file_subdir1 : Entry PlainTree := EntryJs.fromPath "subdir1".
Definition directory_subdir1 : Entry PlainTree := EntryJs.fromPath "subdir1/".
Definition subdir1_as_file : @ManualTree.t PlainTree :=
  ManualTree.Make [file_subdir1].
Definition subdir1_as_directory : @ManualTree.t PlainTree :=
  ManualTree.Make [directory_subdir1; EntryJs.fromPath "subdir1/foo"].

(** The parent of the projections of the examples. *)
Definition parent : PlainTree :=
  MkPlainTree "/fixture"
    ["hello.txt"; "my-directory/"; "my-directory/bar.js"; "my-directory/foo.txt"].

(** Two inputs of a merge whose roots hold [Foo.js] and [foo.js]. *)
Definition input_a : PlainTree := MkPlainTree "/a" ["Foo.js"].
Definition input_b : PlainTree := MkPlainTree "/b" ["foo.js"].

(** A writable tree at [/out], its methods with the checksum of the
    examples, and the tree that a sequence of calls leaves. *)
Definition out : WritableTree.t PlainTree := WritableTree.new "/out".
Definition writeFileSync : string -> string -> Z -> WritableTree.M PlainTree unit :=
  @WritableTree.writeFileSync PlainTree _ example_md5.
Definition unlinkSync : string -> WritableTree.M PlainTree unit :=
  @WritableTree.unlinkSync PlainTree _.
Definition after (calls : list (WritableTree.M PlainTree unit))
    (s : WritableTree.t PlainTree) : WritableTree.t PlainTree :=
  fst (fold_right (fun m k => m >> k) (ret tt) calls s).

(** The tree after a file was written; after it was started again; and
    after the file was then written with another content. *)
Definition written : WritableTree.t PlainTree :=
  after [WritableTree.start; writeFileSync "f.txt" "a" 1%Z] out.
Definition restarted : WritableTree.t PlainTree := after [WritableTree.start] written.
Definition changed : WritableTree.t PlainTree :=
  after [writeFileSync "f.txt" "b" 2%Z] restarted.

End Examples.

(* ========================================================================= *)
(** * Vocabulary of the properties of a writable tree                         *)
(* ========================================================================= *)

(** A path that an entry of a writable tree may have: not the root, and
    without final separator. *)
Definition path_ok (p : string) : Prop :=
  p <> "" /\ Js.last_char p <> Some slash.

(** The segments of a normalized path: not empty, without separator. *)
Definition segment_ok (part : string) : Prop :=
  part <> "" /\ Js.contains_char slash part = false.

(** A normalized path, by its segments. *)
Definition normalized (p : string) : Prop :=
  exists parts, Forall segment_ok parts /\ p = Js.join sep parts.

Section WritableTreeVocabulary.
Context {T : Type}.

(** The entries of the tree are strictly ascending in [relativePath], and
    their paths are paths of entries. *)
Definition entries_ok (s : WritableTree.t T) : Prop :=
  ascending (map relativePath (WritableTree._entries s)) /\
  Forall (fun e => path_ok (relativePath e)) (WritableTree._entries s).



(** The parent of the path is the root, or a directory among the entries of
    the tree that is not a link: what [_throwOnCommonErrors] asks of a path
    that is written to. *)
Definition parent_in_tree (s : WritableTree.t T) (p : string) : Prop :=
  Shared.dirname p = "" \/
  exists parent, parent ∈ WritableTree._entries s /\
                 relativePath parent = Shared.dirname p /\
                 EntryJs.isSymbolicLink parent = false.

End WritableTreeVocabulary.

Section WritableTreeContent.
Context {T : Type} `{FacadeTree T} `{Md5}.

(** The entry found at the path holds the checksum of the content: the test
    of [writeFileSync] before it writes. *)
Definition holds_content (s : WritableTree.t T) (p content : string) : bool :=
  match WritableTree._findByRelativePath s p None with
  | Some (Stored e, _) => optstr_seq (checksum e) (Some (md5hex content))
  | _ => false
  end.



(** The entry found at the path, if any, has the mode of a file. *)
Definition file_mode_at (s : WritableTree.t T) (p : string) : Prop :=
  forall e owner,
    WritableTree._findByRelativePath s p None = Some (Stored e, owner) ->
    EntryJs.mode_is_directory (mode e) = false.

End WritableTreeContent.

(* ========================================================================= *)
(** * Vocabulary of the further properties                                    *)
(* ========================================================================= *)

(** Ascending and descending where equal neighbours are allowed. *)
Definition weakly_ascending (l : list string) : Prop :=
  StronglySorted (fun a b => Js.lt b a = false) l.
Definition weakly_descending (l : list string) : Prop :=
  StronglySorted (fun a b => Js.lt a b = false) l.

(** A segment that [normalizeRelativePath] keeps, and the paths made of
    such segments: the canonical paths. *)
Definition plain_segment (part : string) : Prop :=
  part <> "" /\ part <> "." /\ part <> ".." /\ Js.contains_char slash part = false.

Definition canonical (p : string) : Prop :=
  exists parts, Forall plain_segment parts /\ p = Js.join sep parts.

(** A method of a writable tree keeps the array of the tree strictly
    ascending in [relativePath], whether it returns or throws. *)
Definition keeps_order {T A : Type} (m : WritableTree.M T A) : Prop :=
  forall s s' r,
    ascending (map relativePath (WritableTree._entries s)) ->
    m s = (s', r) ->
    ascending (map relativePath (WritableTree._entries s')).

(** A method that throws has left the tree as it was: entries, tracked
    changes and the trace of the calls to the filesystem. *)
Definition fails_cleanly {T A : Type} (m : WritableTree.M T A) : Prop :=
  forall s s' x, m s = (s', Throw x) -> s' = s.

(** The entry [d] is the directory of the path [q], which ends with the
    separator: a directory given with that path, or the entry that
    [Entry.fromPath] makes of it. *)
Definition directory_of {T} (d : Entry T) (q : string) : Prop :=
  EntryJs.isDirectory d = true /\
  (relativePath d +:+ sep = q \/ d = EntryJs.fromPath q).

(** An entry that stands immediately in the directory of the path [prefix],
    which ends with the separator; and the entry as the directory gives it,
    with its path from the directory. *)
Definition is_child {T} (prefix : string) (e : Entry T) : bool :=
  Shared.startsWith (relativePath e) prefix &&
  negb (Js.contains_char slash
          (Js.substring_from (String.length prefix) (relativePath e))).

Definition as_child {T} (prefix : string) (e : Entry T) : Entry T :=
  EntryJs.clone e (Some (Js.substring_from (String.length prefix) (relativePath e))).

(* ========================================================================= *)
(** * WritableTree: the methods that read                                     *)
(* ========================================================================= *)

Module WritableTreeReads.

(** What a method that reads returns: a value of its own, or what [fs]
    answers for the target of an external link. *)
Inductive Read (A : Type) : Type :=
  | Value (a : A)
  | FromFs (target : string).
Arguments Value {A}.
Arguments FromFs {A}.

Section WritableTreeReads.
Context {T : Type} `{FacadeTree T}.

(** [result.entry && result.entry.isSymbolicLink() &&
    result.entry._symlink.external]: the target, when it is a string that
    is not empty. *)
Definition external_target (entry : EntryRef T) : option string :=
  match entry with
  | ROOT => None
  | Stored e =>
      match _symlink e with
      | Some (External target) => if Js.seq target "" then None else Some target
      | _ => None
      end
  end.

(** [existsSync(relativePath)] *)
Definition existsSync (s : WritableTree.t T) (relPath : string) : Result (Read bool) :=
  rbind (Shared.normalizeRelativePath relPath) (fun normalizedPath =>
  match WritableTree._findByRelativePath s normalizedPath None with
  | Some (entry, _) =>
      match external_target entry with
      | Some target => Ok (FromFs target)
      | None => Ok (Value true)
      end
  | None => Ok (Value false)
  end).

(** [_getEntriesForDirectory(normalizedPath)] of a writable tree.  The index
    that [searchByRelativePath] returns is [-1] or an index of the array;
    reading [relativePath] off [undefined] would be a [TypeError]. *)
Definition _getEntriesForDirectory (s : WritableTree.t T) (normalizedPath : string)
    : Result (list (Entry T)) :=
  if Js.seq normalizedPath "" then
    Ok (FacadeTreeJs._getEntriesFromArrayForDirectory (WritableTree._entries s) "")
  else
    let index := Shared.searchByRelativePath (WritableTree._entries s) normalizedPath true in
    if (index =? -1)%Z then Ok []
    else
      match Shared.aget (WritableTree._entries s) index with
      | None => Throw (TypeError "Cannot read property 'relativePath' of undefined")
      | Some entry =>
          if Js.seq (relativePath entry) normalizedPath then
            if EntryJs.isDirectory entry then
              match WritableTree.linked_directory entry with
              | Some tree => tree_getEntriesForDirectory tree ""
              | None =>
                  Ok (FacadeTreeJs._getEntriesFromArrayForDirectory
                        (WritableTree._entries s) normalizedPath)
              end
            else Throw (ENOTDIR "scandir" normalizedPath)
          else
            match WritableTree.walk_back (WritableTree._entries s) normalizedPath
                    (Z.to_nat index) with
            | None => Ok []
            | Some entry' =>
                match WritableTree.linked_directory entry' with
                | Some tree =>
                    let relativePathWithSeparator :=
                      Shared.ensureSeparator (relativePath entry') in
                    if Shared.startsWith normalizedPath relativePathWithSeparator
                    then tree_getEntriesForDirectory tree
                           (Js.substring_from (String.length relativePathWithSeparator)
                              normalizedPath)
                    else Ok []
                | None => Ok []
                end
            end
      end.

(** [readdirSync(relativePath)]: the test for an external link, then
    [FacadeTree.prototype.readdirSync], which finds the same entry again. *)
Definition readdirSync (s : WritableTree.t T) (relPath : string)
    : Result (Read (list string)) :=
  rbind (Shared.normalizeRelativePath relPath) (fun normalizedPath =>
  match WritableTree._findByRelativePath s normalizedPath None with
  | Some (entry, _) =>
      match external_target entry with
      | Some target => Ok (FromFs target)
      | None =>
          if EntryJs.ref_isFile entry then Throw (ENOTDIR "scandir" relPath)
          else
            rbind (_getEntriesForDirectory s normalizedPath) (fun entries =>
            Ok (Value (map relativePath entries)))
      end
  | None => Throw (ENOENT "scandir" relPath)
  end).

End WritableTreeReads.
End WritableTreeReads.

(** The nodes of the list of changes are numbered below [_nextNode]: each
    node of the list is an object of its own. *)
Definition nodes_numbered {T} (s : WritableTree.t T) : Prop :=
  Forall (fun n => WritableTree.node_id n < WritableTree._nextNode s)
         (WritableTree._changes s).


(** Since the tree was last started, its changes were all tracked at paths
    that are not property names of [Object.prototype].  Of such a tree the
    doubly-linked list of the code is the list [_changes], and each object
    of [_changeHash] holds at the paths read what the map holds. *)
Inductive plain_tracker {T : Type} : WritableTree.t T -> Prop :=
  | plain_start s s' :
      WritableTree.start s = (s', Ok tt) -> plain_tracker s'
  | plain_track s operation_ entry s' :
      plain_tracker s ->
      Js.inherited_key (relativePath entry) = false ->
      WritableTree._track operation_ entry s = (s', Ok tt) ->
      plain_tracker s'
  | plain_other s s' :
      plain_tracker s ->
      WritableTree._changes s' = WritableTree._changes s ->
      WritableTree._changeHash s' = WritableTree._changeHash s ->
      WritableTree._nextNode s' = WritableTree._nextNode s ->
      plain_tracker s'.

(** None of the names read has for lower-case form a property name of
    [Object.prototype] (["constructor"] and ["__proto__"] are those without
    capital). *)
Definition plain_names (names : list (list string)) : Prop :=
  Forall (Forall (fun fileName => Js.inherited_key (Js.toLowerCase fileName) = false))
         names.

(** A cache that [normalizeRelativePath] alone has filled: each of its keys
    holds what the function returns at that key. *)
Definition filled_by_normalizing (normalizedPaths : gmap string (Result string))
    : Prop :=
  forall key r, normalizedPaths !! key = Some r ->
                r = Shared.normalizeRelativePath key.

(* ========================================================================= *)
(** * Further trees of the examples                                           *)
(* ========================================================================= *)

Module MoreExamples.

(** Two inputs of a merge whose roots both hold [x.js]. *)
Definition same_a : PlainTree := MkPlainTree "/a" ["x.js"].
Definition same_b : PlainTree := MkPlainTree "/b" ["x.js"].

(** Two inputs of a merge whose roots both hold the file [dup.js], and whose
    directories [sub] hold [Foo.js] and [foo.js]. *)
Definition below_a : PlainTree := MkPlainTree "/a" ["dup.js"; "sub/"; "sub/Foo.js"].
Definition below_b : PlainTree := MkPlainTree "/b" ["dup.js"; "sub/"; "sub/foo.js"].

(** A manual tree whose sorted array holds a directory with a final
    separator, as [walk-sync] gives them. *)
Definition walked : list (Entry PlainTree) :=
  [MkEntry "a.js" None (TimeNumber 0) EntryJs.FILE_MODE None None None false;
   MkEntry "a/" None (TimeNumber 0) EntryJs.DIRECTORY_MODE None None None false].

(** The writable tree of the examples, which tracks a change of [f.txt],
    after the directory [d] was made. *)
Definition made : WritableTree.t PlainTree :=
  Examples.after [WritableTree.mkdirSync "d" 5%Z] Examples.changed.

(** The same tree after the new file [g.txt] was written instead. *)
Definition wrote : WritableTree.t PlainTree :=
  Examples.after [Examples.writeFileSync "g.txt" "x" 7%Z] Examples.changed.

(** Entries to add to the tree [ours] of the examples: a new file, and a
    file that the tree has. *)
Definition added : list (Entry PlainTree) :=
  map EntryJs.fromPath ["bar/qux.js"; "foo.js"].

(** The cache of [normalizeRelativePath] after a first call. *)
Definition cache : gmap string (Result string) :=
  fst (Shared.normalizeRelativePath_cached "./a/b" ∅).

End MoreExamples.

(* ========================================================================= *)
(** * Properties                                                              *)
(* ========================================================================= *)

(* ------------------------------------------------------------------------- *)
(** ** The order of strings                                                   *)
(* ------------------------------------------------------------------------- *)

Section StringOrder.

Lemma ascii_compare_trans_lt a b c :
  Ascii.compare a b = Lt -> Ascii.compare b c = Lt -> Ascii.compare a c = Lt.
Proof.
  unfold Ascii.compare. rewrite !N.compare_lt_iff. lia.
Qed.

Lemma ascii_compare_eq a b : Ascii.compare a b = Eq -> a = b.
Proof.
  unfold Ascii.compare. rewrite N.compare_eq_iff. intros H.
  rewrite <- (ascii_N_embedding a), <- (ascii_N_embedding b). now f_equal.
Qed.

Lemma ascii_compare_refl a : Ascii.compare a a = Eq.
Proof. unfold Ascii.compare. apply N.compare_refl. Qed.

Lemma str_compare_refl s : String.compare s s = Eq.
Proof. induction s as [|c s IH]; simpl; [easy|]. now rewrite ascii_compare_refl. Qed.

Lemma str_compare_trans_lt a : forall b c,
  String.compare a b = Lt -> String.compare b c = Lt -> String.compare a c = Lt.
Proof.
  induction a as [|x a IH]; intros [|y b] [|z c]; simpl; try easy.
  destruct (Ascii.compare x y) eqn:Hxy; try easy.
  - apply ascii_compare_eq in Hxy; subst y.
    destruct (Ascii.compare x z) eqn:Hxz; try easy. apply IH.
  - destruct (Ascii.compare y z) eqn:Hyz; try easy.
    + apply ascii_compare_eq in Hyz; subst z. now rewrite Hxy.
    + now rewrite (ascii_compare_trans_lt _ _ _ Hxy Hyz).
Qed.

Lemma jslt_spec a b : Js.lt a b = true <-> String.compare a b = Lt.
Proof. unfold Js.lt, String.ltb. destruct (String.compare a b); split; easy. Qed.

Lemma jslt_irrefl a : Js.lt a a = false.
Proof. unfold Js.lt, String.ltb. now rewrite str_compare_refl. Qed.

Lemma jslt_trans a b c : Js.lt a b = true -> Js.lt b c = true -> Js.lt a c = true.
Proof. rewrite !jslt_spec. apply str_compare_trans_lt. Qed.

Lemma jslt_asym a b : Js.lt a b = true -> Js.lt b a = false.
Proof.
  intros H. destruct (Js.lt b a) eqn:E; [|easy].
  pose proof (jslt_trans _ _ _ H E) as F. now rewrite jslt_irrefl in F.
Qed.

(** When neither [a < b] nor [a > b], the strings are the same. *)
Lemma jslt_total a b : Js.lt a b = false -> Js.lt b a = false -> a = b.
Proof.
  unfold Js.lt, String.ltb. rewrite (String.compare_antisym b a).
  destruct (String.compare a b) eqn:E; simpl; try easy.
  intros _ _. now apply String.compare_eq_iff.
Qed.

Lemma jslt_neq a b : Js.lt a b = true -> a <> b.
Proof. intros H ->. now rewrite jslt_irrefl in H. Qed.

Lemma jsgt_lt a b : Js.gt a b = Js.lt b a.
Proof. reflexivity. Qed.

Lemma jsgt_irrefl a : Js.gt a a = false.
Proof. apply jslt_irrefl. Qed.

Lemma jsseq_refl a : Js.seq a a = true.
Proof. apply String.eqb_refl. Qed.

Lemma jsseq_false a b : Js.seq a b = false <-> a <> b.
Proof. apply String.eqb_neq. Qed.

Lemma jsseq_spec a b : Js.seq a b = true <-> a = b.
Proof. apply String.eqb_eq. Qed.

End StringOrder.


(* ------------------------------------------------------------------------- *)
(** ** Sorted arrays                                                          *)
(* ------------------------------------------------------------------------- *)

Global Instance path_lt_trans : Transitive path_lt.
Proof. intros a b c. apply jslt_trans. Qed.

Global Instance path_gt_trans : Transitive path_gt.
Proof. intros a b c Hab Hbc. unfold path_gt in *. eapply jslt_trans; eauto. Qed.

Lemma StronglySorted_sublist {A} (R : relation A) (l k : list A) :
  l `sublist_of` k -> StronglySorted R k -> StronglySorted R l.
Proof.
  induction 1 as [|x l k Hs IH|x l k Hs IH]; intros Hk.
  - constructor.
  - apply StronglySorted_inv in Hk as [Hk Hx]. constructor; [auto|].
    rewrite Forall_forall in *. intros y Hy. apply Hx.
    eapply sublist_subseteq; eauto.
  - apply StronglySorted_inv in Hk as [Hk _]. auto.
Qed.

Lemma StronglySorted_rev {A} (R : relation A) (l : list A) :
  StronglySorted R l -> StronglySorted (flip R) (rev l).
Proof.
  induction 1 as [|x l Hl IH Hx]; simpl; [constructor|].
  apply StronglySorted_app_2; [|assumption|repeat constructor].
  intros y z Hy Hz. apply list_elem_of_singleton in Hz as ->.
  apply list_elem_of_In, in_rev, list_elem_of_In in Hy.
  rewrite Forall_forall in Hx. now apply Hx.
Qed.

Lemma descending_rev (l : list string) : ascending l -> descending (rev l).
Proof. apply (StronglySorted_rev path_lt). Qed.

Section Validate.
Context {T : Type}.

Lemma validate_from_sorted (rest : list (Entry T)) : forall i previous,
  Shared.validate_from i previous rest = Ok tt <->
  ascending (previous :: map relativePath rest).
Proof.
  unfold ascending.
  induction rest as [|e rest IH]; intros i previous; simpl.
  - split; [repeat constructor|easy].
  - destruct (Js.lt previous (relativePath e)) eqn:Hlt.
    + rewrite IH. split; intros Hs.
      * constructor; [assumption|]. constructor; [exact Hlt|].
        apply StronglySorted_inv in Hs as [_ Hall].
        eapply Forall_impl; [exact Hall|]. intros z Hz.
        eapply path_lt_trans; eauto.
      * now apply StronglySorted_inv in Hs as [Hs _].
    + split; [easy|]. intros Hs.
      apply StronglySorted_inv in Hs as [_ Hall].
      apply Forall_inv in Hall. unfold path_lt in Hall. congruence.
Qed.

(** The check passes exactly on the arrays that are strictly ascending in
    [relativePath]. *)
Lemma validateSortedUnique_sorted (entries : list (Entry T)) :
  Shared.validateSortedUnique entries = Ok tt <->
  ascending (map relativePath entries).
Proof.
  destruct entries as [|e rest]; simpl.
  - split; [constructor|easy].
  - apply validate_from_sorted.
Qed.

Lemma validate_from_throws (rest : list (Entry T)) : forall i previous,
  Shared.validate_from i previous rest = Ok tt \/
  exists j a b, Shared.validate_from i previous rest = Throw (NotSortedUnique j a b).
Proof.
  induction rest as [|e rest IH]; intros i previous; simpl; [now left|].
  destruct (Js.lt previous (relativePath e)); [apply IH|].
  right. eauto.
Qed.

Lemma ascending_NoDup (l : list string) : ascending l -> NoDup l.
Proof.
  induction 1 as [|x l Hl IH Hx]; constructor; [|assumption].
  intros Hin. rewrite Forall_forall in Hx. specialize (Hx _ Hin).
  unfold path_lt in Hx. now rewrite jslt_irrefl in Hx.
Qed.

End Validate.

(* ------------------------------------------------------------------------- *)
(** ** ManualTree: the equality of entries and the patch                      *)
(* ------------------------------------------------------------------------- *)

Section ManualTreeFacts.
Context {T : Type}.
Implicit Types (x y e : Entry T) (ours theirs : list (Entry T)).
Implicit Types (isEqual : Entry T -> Entry T -> bool).

Lemma optnum_seq_eq (a b : option Z) : optnum_seq a b = true <-> a = b.
Proof.
  destruct a as [a|], b as [b|]; simpl; try (split; congruence).
  rewrite Z.eqb_eq. split; congruence.
Qed.

Lemma number_seq_eq (a b : option Z) :
  number_seq a b = true <-> exists n, a = Some n /\ b = Some n.
Proof.
  destruct a as [a|], b as [b|]; simpl.
  - rewrite Z.eqb_eq. split; [intros ->; eauto|intros (n & [= ->] & [= ->]); easy].
  - split; [easy|intros (n & _ & ?); easy].
  - split; [easy|intros (n & ? & _); easy].
  - split; [easy|intros (n & ? & _); easy].
Qed.

(** C6. [defaultIsEqual] answers [true] when both entries are directories,
    whatever their metadata; otherwise it answers [true] exactly when the
    sizes are equal, the modification times coerced to numbers are equal
    numbers, and the modes are equal. *)
Theorem defaultIsEqual_spec (entryA entryB : Entry T) :
  ManualTree.defaultIsEqual entryA entryB = true <->
  (EntryJs.isDirectory entryA = true /\ EntryJs.isDirectory entryB = true) \/
  (size entryA = size entryB /\
   (exists n, toNumber (mtime entryA) = Some n /\ toNumber (mtime entryB) = Some n) /\
   mode entryA = mode entryB).
Proof.
  unfold ManualTree.defaultIsEqual.
  destruct (EntryJs.isDirectory entryA && EntryJs.isDirectory entryB) eqn:Hd.
  - apply andb_true_iff in Hd. tauto.
  - rewrite !andb_true_iff, optnum_seq_eq, number_seq_eq, Z.eqb_eq.
    apply andb_false_iff in Hd.
    split; [intros [[? ?] ?]; right; auto|].
    intros [[Ha Hb]|(? & ? & ?)]; [|auto].
    destruct Hd; congruence.
Qed.

Lemma walk_nil_l isEqual theirs :
  ManualTree.walk isEqual [] theirs = ([], map ManualTree.addCommand theirs).
Proof. now destruct theirs. Qed.

Lemma walk_nil_r isEqual ours :
  ManualTree.walk isEqual ours [] = (map ManualTree.removeCommand ours, []).
Proof. now destruct ours. Qed.

Lemma walk_cons isEqual x ours y theirs :
  ManualTree.walk isEqual (x :: ours) (y :: theirs) =
  if Js.lt (Shared.entryRelativePath x) (Shared.entryRelativePath y) then
    let '(removals, additions) := ManualTree.walk isEqual ours (y :: theirs) in
    (ManualTree.removeCommand x :: removals, additions)
  else if Js.gt (Shared.entryRelativePath x) (Shared.entryRelativePath y) then
    let '(removals, additions) := ManualTree.walk isEqual (x :: ours) theirs in
    (removals, ManualTree.addCommand y :: additions)
  else
    let '(removals, additions) := ManualTree.walk isEqual ours theirs in
    if negb (isEqual x y) then
      if Bool.eqb (EntryJs.isFile x) (EntryJs.isFile y)
      then (removals, ManualTree.updateCommand y :: additions)
      else (ManualTree.removeCommand x :: removals, ManualTree.addCommand y :: additions)
    else (removals, additions).
Proof. reflexivity. Qed.

Lemma entries_of_removeCommands (l : list (Entry T)) :
  map change_entry (map ManualTree.removeCommand l) = l.
Proof. rewrite List.map_map. apply List.map_id. Qed.

Lemma entries_of_addCommands (l : list (Entry T)) :
  map change_entry (map ManualTree.addCommand l) = l.
Proof. rewrite List.map_map. apply List.map_id. Qed.

(** The entries of the removals are picked from [ours] in its order, those
    of the additions from [theirs] in its order. *)
Lemma walk_shape isEqual ours : forall theirs removals additions,
  ManualTree.walk isEqual ours theirs = (removals, additions) ->
  map change_entry removals `sublist_of` ours /\
  Forall (fun c => c = ManualTree.removeCommand (change_entry c)) removals /\
  map change_entry additions `sublist_of` theirs /\
  Forall (fun c => c = ManualTree.addCommand (change_entry c) \/
                   c = ManualTree.updateCommand (change_entry c)) additions.
Proof.
  induction ours as [|x ours IHo]; intros theirs.
  - intros removals additions. rewrite walk_nil_l. intros E.
    injection E as <- <-. rewrite entries_of_addCommands.
    repeat split; try constructor; try reflexivity.
    apply Forall_forall. intros c Hc. apply list_elem_of_In, in_map_iff in Hc.
    destruct Hc as (e & <- & _). now left.
  - induction theirs as [|y theirs IHt]; intros removals additions.
    + rewrite walk_nil_r. intros E.
      assert (removals = map ManualTree.removeCommand (x :: ours)) as -> by congruence.
      assert (additions = []) as -> by congruence. clear E.
      rewrite entries_of_removeCommands.
      repeat split; try constructor; try reflexivity.
      apply Forall_forall. intros c Hc. apply list_elem_of_In, in_map_iff in Hc.
      destruct Hc as (e & <- & _). reflexivity.
    + rewrite walk_cons.
      destruct (Js.lt _ _).
      { destruct (ManualTree.walk isEqual ours (y :: theirs)) as [r a] eqn:E.
        intros [= <- <-]. destruct (IHo _ _ _ E) as (H1 & H2 & H3 & H4).
        repeat split; simpl; auto. now constructor. }
      destruct (Js.gt _ _).
      { destruct (ManualTree.walk isEqual (x :: ours) theirs) as [r a] eqn:E.
        intros [= <- <-]. destruct (IHt _ _ eq_refl) as (H1 & H2 & H3 & H4).
        repeat split; simpl; auto. now constructor. }
      destruct (ManualTree.walk isEqual ours theirs) as [r a] eqn:E.
      destruct (IHo _ _ _ E) as (H1 & H2 & H3 & H4).
      destruct (negb (isEqual x y)); [destruct (Bool.eqb _ _)|];
        intros [= <- <-]; repeat split; simpl; auto;
        try (now constructor); try (now apply sublist_cons).
Qed.

Lemma removeCommand_removes e : removes (ManualTree.removeCommand e).
Proof. unfold removes, ManualTree.removeCommand; simpl. destruct (EntryJs.isDirectory e); auto. Qed.

Lemma addCommand_adds e : adds_or_updates (ManualTree.addCommand e).
Proof.
  unfold adds_or_updates, ManualTree.addCommand; simpl.
  destruct (EntryJs.isDirectory e); auto.
Qed.

Lemma updateCommand_adds e : adds_or_updates (ManualTree.updateCommand e).
Proof. unfold adds_or_updates; simpl; auto. Qed.

Lemma chompSeparator_id (p : string) :
  Js.last_char p <> Some slash -> Shared._chompSeparator p = p.
Proof.
  unfold Shared._chompSeparator. destruct (Js.last_char p) as [c|]; [|easy].
  destruct (Ascii.eqb_spec c slash) as [->|]; easy.
Qed.

(** Without a final separator, the path of the changes of an entry is its
    [relativePath]. *)
Lemma entryRelativePath_id e :
  no_trailing_separator e -> Shared.entryRelativePath e = relativePath e.
Proof.
  unfold no_trailing_separator, Shared.entryRelativePath.
  destruct (EntryJs.isDirectory e); [|easy].
  intros Hn. apply chompSeparator_id. now apply Hn.
Qed.

Lemma change_path_of_commands (l : list (Change T)) (es : list (Entry T)) :
  Forall (fun c => c = ManualTree.removeCommand (change_entry c) \/
                   c = ManualTree.addCommand (change_entry c) \/
                   c = ManualTree.updateCommand (change_entry c)) l ->
  Forall no_trailing_separator (map change_entry l) ->
  map change_path l = map relativePath (map change_entry l).
Proof.
  induction l as [|c l IH]; simpl; [easy|].
  intros Hc Hn. apply Forall_cons in Hc as [Hc Hl]. apply Forall_cons in Hn as [Hn Hnl].
  f_equal; [|auto].
  rewrite <- (entryRelativePath_id _ Hn).
  destruct Hc as [-> | [-> | ->]]; reflexivity.
Qed.

End ManualTreeFacts.

Section ManualTreePatch.
Context {T : Type}.
Implicit Types (x y e : Entry T) (ours theirs : list (Entry T)).
Implicit Types (isEqual : Entry T -> Entry T -> bool).

Lemma new_validated (entries_ : list (Entry T)) (tree_ : ManualTree.t) :
  ManualTree.new entries_ false = Ok tree_ ->
  ManualTree.entries tree_ = entries_ /\ ascending (map relativePath entries_).
Proof.
  unfold ManualTree.new. simpl.
  destruct (Shared.validateSortedUnique entries_) as [[]|] eqn:E; simpl; [|easy].
  intros [= <-]. split; [reflexivity|]. now apply validateSortedUnique_sorted.
Qed.

Lemma sublist_map {A B} (f : A -> B) (l k : list A) :
  l `sublist_of` k -> map f l `sublist_of` map f k.
Proof. induction 1; simpl; now constructor. Qed.

(** C1. For two trees built from validated (sorted, duplicate-free) entry
    arrays, the patch is a list of removes followed by a list of additions
    and updates; the removes come in strictly descending order of the
    [relativePath] of their entries and the additions and updates in
    strictly ascending order.  When no directory entry carries a final
    separator, the same holds of the path component of the changes. *)
Theorem calculatePatch_order (oursEntries theirsEntries : list (Entry T))
    (ours theirs : ManualTree.t) isEqual :
  ManualTree.new oursEntries false = Ok ours ->
  ManualTree.new theirsEntries false = Ok theirs ->
  exists removals additions,
    ManualTree.calculatePatch ours theirs isEqual = removals ++ additions /\
    Forall removes removals /\
    Forall adds_or_updates additions /\
    descending (map (fun c => relativePath (change_entry c)) removals) /\
    ascending (map (fun c => relativePath (change_entry c)) additions) /\
    (Forall no_trailing_separator (oursEntries ++ theirsEntries) ->
     descending (map change_path removals) /\
     ascending (map change_path additions)).
Proof.
  intros Ho Ht.
  apply new_validated in Ho as [Eo So]. apply new_validated in Ht as [Et St].
  unfold ManualTree.calculatePatch. rewrite Eo, Et.
  destruct (ManualTree.walk isEqual oursEntries theirsEntries) as [r a] eqn:E.
  destruct (walk_shape _ _ _ _ _ E) as (Hr & Hrc & Ha & Hac).
  assert (Sr : ascending (map relativePath (map change_entry r))).
  { eapply StronglySorted_sublist; [|exact So]. now apply sublist_map. }
  assert (Sa : ascending (map relativePath (map change_entry a))).
  { eapply StronglySorted_sublist; [|exact St]. now apply sublist_map. }
  exists (rev r), a. split; [reflexivity|].
  split; [|split; [|split; [|split]]].
  - apply Forall_forall. intros c Hc.
    apply list_elem_of_In, in_rev, list_elem_of_In in Hc.
    rewrite Forall_forall in Hrc. rewrite (Hrc c Hc). apply removeCommand_removes.
  - eapply Forall_impl; [exact Hac|]. intros c [-> | ->];
      [apply addCommand_adds|apply updateCommand_adds].
  - rewrite List.map_rev. apply descending_rev. now rewrite <- List.map_map.
  - now rewrite <- List.map_map.
  - intros Hn. apply Forall_app in Hn as [Hno Hnt].
    assert (Hnr : Forall no_trailing_separator (map change_entry r)).
    { rewrite Forall_forall in *. intros e He. apply Hno.
      eapply sublist_subseteq; eauto. }
    assert (Hna : Forall no_trailing_separator (map change_entry a)).
    { rewrite Forall_forall in *. intros e He. apply Hnt.
      eapply sublist_subseteq; eauto. }
    split.
    + rewrite List.map_rev. apply descending_rev.
      rewrite (change_path_of_commands r oursEntries); [assumption| |assumption].
      eapply Forall_impl; [exact Hrc|]. simpl. auto.
    + rewrite (change_path_of_commands a theirsEntries); [assumption| |assumption].
      eapply Forall_impl; [exact Hac|]. simpl. tauto.
Qed.

(** When every entry that is not a directory carries a time of modification
    that is a number, the patch from a tree to itself is empty. *)
Lemma walk_self (entries_ : list (Entry T)) :
  Forall (fun e => EntryJs.isDirectory e = false -> toNumber (mtime e) <> None) entries_ ->
  ManualTree.walk ManualTree.defaultIsEqual entries_ entries_ = ([], []).
Proof.
  induction 1 as [|x l Hx Hl IH]; [reflexivity|].
  rewrite walk_cons, jslt_irrefl, jsgt_irrefl, IH.
  assert (ManualTree.defaultIsEqual x x = true) as ->; [|reflexivity].
  unfold ManualTree.defaultIsEqual.
  destruct (EntryJs.isDirectory x && EntryJs.isDirectory x) eqn:Hd; [reflexivity|].
  assert (Hf : EntryJs.isDirectory x = false) by (destruct (EntryJs.isDirectory x); easy).
  rewrite !andb_true_iff, optnum_seq_eq, number_seq_eq, Z.eqb_eq.
  repeat split.
  destruct (toNumber (mtime x)) as [n|] eqn:Hn; [eauto|].
  now destruct (Hx Hf).
Qed.

Lemma calculatePatch_self_empty (tree_ : ManualTree.t) :
  Forall (fun e => EntryJs.isDirectory e = false -> toNumber (mtime e) <> None)
         (ManualTree.entries tree_) ->
  ManualTree.calculatePatch tree_ tree_ ManualTree.defaultIsEqual = [].
Proof.
  intros Hm. unfold ManualTree.calculatePatch. now rewrite walk_self.
Qed.

(** C5. The entry array that holds the single file ["a.js"] built without a
    time of modification is validated, and the patch from its tree to
    itself holds a [change] of that file: [+undefined] is [NaN], which is
    not [===] to itself. *)
Theorem calculatePatch_self_absent_mtime :
  let entry : Entry T := EntryJs.new "a.js" (Some 10%Z) TimeUndefined EntryJs.FILE_MODE None in
  exists tree_,
    ManualTree.fromEntries [entry] false = Ok tree_ /\
    ManualTree.calculatePatch tree_ tree_ ManualTree.defaultIsEqual =
      [MkChange change "a.js" entry].
Proof.
  intros entry. exists (ManualTree.Make [entry]). split; reflexivity.
Qed.

(** From the place the loop has come to, what it pushes is the end of what
    the whole loop pushes. *)
Lemma walk_visits isEqual ours theirs ours' theirs' :
  visits ours theirs ours' theirs' ->
  forall removals additions removals' additions',
    ManualTree.walk isEqual ours theirs = (removals, additions) ->
    ManualTree.walk isEqual ours' theirs' = (removals', additions') ->
    exists removals0 additions0,
      removals = removals0 ++ removals' /\ additions = additions0 ++ additions'.
Proof.
  induction 1 as [ours theirs|x ours y theirs ours' theirs' Hlt Hv IH
                 |x ours y theirs ours' theirs' Hlt Hgt Hv IH
                 |x ours y theirs ours' theirs' Hlt Hgt Hv IH];
    intros r a r' a' E E'.
  - exists [], []. simpl. rewrite E in E'. now injection E' as <- <-.
  - rewrite walk_cons, Hlt in E.
    destruct (ManualTree.walk isEqual ours (y :: theirs)) as [r1 a1] eqn:E1.
    injection E as <- <-. destruct (IH _ _ _ _ eq_refl E') as (r0 & a0 & -> & ->).
    now exists (ManualTree.removeCommand x :: r0), a0.
  - rewrite walk_cons, Hlt, Hgt in E.
    destruct (ManualTree.walk isEqual (x :: ours) theirs) as [r1 a1] eqn:E1.
    injection E as <- <-. destruct (IH _ _ _ _ eq_refl E') as (r0 & a0 & -> & ->).
    now exists r0, (ManualTree.addCommand y :: a0).
  - rewrite walk_cons, Hlt, Hgt in E.
    destruct (ManualTree.walk isEqual ours theirs) as [r1 a1] eqn:E1.
    destruct (IH _ _ _ _ eq_refl E') as (r0 & a0 & -> & ->).
    destruct (negb (isEqual x y)); [destruct (Bool.eqb _ _)|]; injection E as <- <-.
    + now exists r0, (ManualTree.updateCommand y :: a0).
    + now exists (ManualTree.removeCommand x :: r0), (ManualTree.addCommand y :: a0).
    + now exists r0, a0.
Qed.

(** C7. When the loop of [calculatePatch] meets the same path in both trees,
    [isEqual] answers [false] and one entry is a file while the other is a
    directory, the patch holds the remove ([unlink] or [rmdir]) of the old
    entry and, after it, the add ([mkdir] or [create]) of the new one, both
    at that path.  From the tree of the file ["subdir1"] to the tree of the
    directory ["subdir1"] and the file ["subdir1/foo"], the patch is
    [unlink subdir1], [mkdir subdir1], [create subdir1/foo]. *)
Theorem calculatePatch_kind_change :
  (forall (ours theirs : ManualTree.t) isEqual x y,
     encounters (ManualTree.entries ours) (ManualTree.entries theirs) x y ->
     isEqual x y = false ->
     EntryJs.isFile x <> EntryJs.isFile y ->
     exists before between after,
       ManualTree.calculatePatch ours theirs isEqual =
         before ++ ManualTree.removeCommand x :: between ++
         ManualTree.addCommand y :: after /\
       removes (ManualTree.removeCommand x) /\
       (operation (ManualTree.addCommand y) = mkdir \/
        operation (ManualTree.addCommand y) = create) /\
       change_path (ManualTree.removeCommand x) = Shared.entryRelativePath x /\
       change_path (ManualTree.addCommand y) = Shared.entryRelativePath x) /\
  (exists ours theirs : @ManualTree.t T,
     ManualTree.fromPaths ["subdir1"] false = Ok ours /\
     ManualTree.fromPaths ["subdir1/"; "subdir1/foo"] false = Ok theirs /\
     ManualTree.calculatePatch ours theirs ManualTree.defaultIsEqual =
       [MkChange unlink "subdir1" (EntryJs.fromPath "subdir1");
        MkChange mkdir "subdir1" (EntryJs.fromPath "subdir1/");
        MkChange create "subdir1/foo" (EntryJs.fromPath "subdir1/foo")]).
Proof.
  split.
  - intros ours theirs isEqual x y (ours' & theirs' & Hv & Hp) Hne Hk.
    unfold ManualTree.calculatePatch.
    destruct (ManualTree.walk isEqual (ManualTree.entries ours)
                (ManualTree.entries theirs)) as [r a] eqn:E.
    destruct (ManualTree.walk isEqual (x :: ours') (y :: theirs')) as [r' a'] eqn:E'.
    destruct (walk_visits _ _ _ _ _ Hv _ _ _ _ E E') as (r0 & a0 & -> & ->).
    rewrite walk_cons, Hp, jslt_irrefl, jsgt_irrefl, Hne in E'.
    simpl in E'.
    destruct (ManualTree.walk isEqual ours' theirs') as [r1 a1].
    destruct (Bool.eqb (EntryJs.isFile x) (EntryJs.isFile y)) eqn:Hb.
    { apply Bool.eqb_prop in Hb. contradiction. }
    injection E' as <- <-.
    exists (rev r1), (rev r0 ++ a0), a1.
    split; [|split; [apply removeCommand_removes|split; [|split]]].
    + rewrite rev_app_distr. simpl. now rewrite <- !app_assoc.
    + unfold ManualTree.addCommand; simpl. destruct (EntryJs.isDirectory y); auto.
    + reflexivity.
    + simpl. now symmetry.
  - eexists _, _. split; [reflexivity|]. split; reflexivity.
Qed.

End ManualTreePatch.

(* ------------------------------------------------------------------------- *)
(** ** The invariant of the entry arrays                                      *)
(* ------------------------------------------------------------------------- *)

Section SortedEntries.
Context {T : Type} `{FacadeTree T} `{Minimatch}.

(** Without [sortAndExpand], an array that is not strictly ascending in
    [relativePath] (unsorted, or with a path twice) is refused. *)
Lemma ManualTree_new_refuses (entries_ : list (Entry T)) :
  ~ ascending (map relativePath entries_) ->
  exists i previous current,
    ManualTree.new entries_ false = Throw (NotSortedUnique i previous current).
Proof.
  intros Hn. unfold ManualTree.new. simpl.
  destruct entries_ as [|e rest]; [destruct Hn; constructor|].
  simpl. destruct (validate_from_throws rest 1 (relativePath e)) as [Hok|(j & a & b & Ht)].
  - destruct Hn. now apply validate_from_sorted in Hok.
  - rewrite Ht. simpl. eauto.
Qed.

(** What is accepted is strictly ascending. *)
Lemma ManualTree_new_sorted (entries_ : list (Entry T)) (tree_ : ManualTree.t) :
  ManualTree.new entries_ false = Ok tree_ ->
  ascending (map relativePath (ManualTree.entries tree_)).
Proof. intros Hn. apply new_validated in Hn as [-> Hs]. exact Hs. Qed.

(** C2. With [sortAndExpand], the paths ["a.js"] and ["a/b.js"] give a tree
    whose entries are ["a.js"], ["a"], ["a/b.js"] in this order, which is
    not ascending, and the path ["a"] given twice gives a tree that holds
    it twice; a projection whose [files] are ["a.js"] and ["a/b.js"] has the
    entries ["a.js"], ["a"], ["a/b.js"], whatever its parent. *)
Theorem sortAndExpand_not_sorted :
  (exists tree_ : @ManualTree.t T,
     ManualTree.fromPaths ["a.js"; "a/b.js"] true = Ok tree_ /\
     map relativePath (ManualTree.entries tree_) = ["a.js"; "a"; "a/b.js"]) /\
  ~ ascending ["a.js"; "a"; "a/b.js"] /\
  (exists tree_ : @ManualTree.t T,
     ManualTree.fromPaths ["a"; "a"] true = Ok tree_ /\
     map relativePath (ManualTree.entries tree_) = ["a"; "a"]) /\
  (forall (parent : T) (fuel : nat),
     exists projection,
       Projection.new parent
         (Projection.MkOptions None (Projection.FilesArray ["a.js"; "a/b.js"])
            None None) = Ok projection /\
       Projection.paths fuel projection = Ok ["a.js"; "a"; "a/b.js"]).
Proof.
  split; [|split; [|split]].
  - eexists. split; reflexivity.
  - intros Hs. apply StronglySorted_inv in Hs as [_ Hall].
    apply Forall_inv in Hall. discriminate Hall.
  - eexists. split; reflexivity.
  - intros parent fuel. eexists. split; reflexivity.
Qed.

End SortedEntries.

(* ------------------------------------------------------------------------- *)
(** ** FSMergeTree: the guard against conflicting capitalizations             *)
(* ------------------------------------------------------------------------- *)

Section MergeGuard.
Context {T : Type} `{FacadeTree T}.

Lemma guard_capitalization_result baseDir pairs : forall lowerCaseNames,
  Forall (fun pair : nat * string =>
            Js.inherited_key (Js.toLowerCase pair.2) = false) pairs ->
  FSMergeTree.guard_capitalization baseDir pairs lowerCaseNames = Ok tt \/
  exists originalName fileName originalIndex index,
    FSMergeTree.guard_capitalization baseDir pairs lowerCaseNames =
    Throw (ConflictingCapitalization baseDir originalName fileName originalIndex index).
Proof.
  induction pairs as [|[i fileName] pairs IH]; intros m Hp; simpl; [now left|].
  apply Forall_cons in Hp as [Hk Hp]. simpl in Hk.
  destruct (m !! Js.toLowerCase fileName) as [[i0 n0]|]; [|rewrite Hk; now apply IH].
  destruct (Js.seq n0 fileName); simpl; [now apply IH|]. right. eauto.
Qed.

Lemma numbered_plain (names : list (list string)) : forall index,
  plain_names names ->
  Forall (fun pair : nat * string =>
            Js.inherited_key (Js.toLowerCase pair.2) = false)
         (FSMergeTree.numbered index names).
Proof.
  induction names as [|l names IH]; intros index Hp; simpl; [constructor|].
  apply Forall_cons in Hp as [Hl Hp]. apply Forall_app. split; [|now apply IH].
  apply Forall_fmap. eapply Forall_impl; [exact Hl|]. now intros fileName Hf.
Qed.

(** When the guard passes, the names met under one lower-case form are one
    name, the name the map held for that form if it held one. *)
Lemma guard_capitalization_ok baseDir pairs : forall lowerCaseNames,
  FSMergeTree.guard_capitalization baseDir pairs lowerCaseNames = Ok tt ->
  (forall i fileName i0 n0,
     (i, fileName) ∈ pairs ->
     lowerCaseNames !! Js.toLowerCase fileName = Some (i0, n0) -> n0 = fileName) /\
  (forall i1 n1 i2 n2,
     (i1, n1) ∈ pairs -> (i2, n2) ∈ pairs ->
     Js.toLowerCase n1 = Js.toLowerCase n2 -> n1 = n2).
Proof.
  induction pairs as [|[i fileName] pairs IH]; intros m; simpl.
  - intros _. split; intros; exfalso; eapply not_elem_of_nil; eauto.
  - destruct (m !! Js.toLowerCase fileName) as [[i0 n0]|] eqn:Hm.
    + destruct (Js.seq n0 fileName) eqn:Hs; simpl; [|easy].
      apply jsseq_spec in Hs. subst n0. intros Hg.
      destruct (IH _ Hg) as [IH1 IH2]. split.
      * intros j n j0 m0 Hin Hl. apply elem_of_cons in Hin as [[= -> ->]|Hin].
        -- congruence.
        -- eauto.
      * intros i1 n1 i2 n2 H1 H2 Hl.
        apply elem_of_cons in H1 as [[= -> ->]|H1];
          apply elem_of_cons in H2 as [[= -> ->]|H2]; auto.
        -- apply (IH1 i2 n2 i0 fileName H2). now rewrite <- Hl.
        -- symmetry. apply (IH1 i1 n1 i0 fileName H1). now rewrite Hl.
        -- eauto.
    + destruct (Js.inherited_key (Js.toLowerCase fileName)); [easy|].
      intros Hg. destruct (IH _ Hg) as [IH1 IH2]. split.
      * intros j n j0 m0 Hin Hl. apply elem_of_cons in Hin as [[= -> ->]|Hin].
        -- congruence.
        -- apply (IH1 j n j0 m0 Hin).
           destruct (decide (Js.toLowerCase fileName = Js.toLowerCase n)) as [E|E].
           ++ rewrite <- E in Hl. congruence.
           ++ rewrite lookup_insert_ne by exact E. exact Hl.
      * intros i1 n1 i2 n2 H1 H2 Hl.
        apply elem_of_cons in H1 as [[= -> ->]|H1];
          apply elem_of_cons in H2 as [[= -> ->]|H2]; auto.
        -- apply (IH1 i2 n2 i fileName H2). rewrite <- Hl. apply lookup_insert_eq.
        -- symmetry. apply (IH1 i1 n1 i fileName H1). rewrite Hl. apply lookup_insert_eq.
        -- eauto.
Qed.

Lemma elem_of_numbered (names : list (list string)) : forall index i names_i fileName,
  names !! i = Some names_i -> fileName ∈ names_i ->
  (index + i, fileName) ∈ FSMergeTree.numbered index names.
Proof.
  induction names as [|l names IH]; intros index i names_i fileName Hl Hin; [easy|].
  simpl. apply elem_of_app. destruct i as [|i]; simpl in Hl.
  - injection Hl as ->. left. rewrite Nat.add_0_r.
    apply list_elem_of_In, in_map_iff. exists fileName. split; [easy|].
    now apply list_elem_of_In.
  - right. replace (index + S i) with (S index + i) by lia. eauto.
Qed.

Lemma sort_insert_Permutation {A} (compare : A -> A -> Z) (x : A) (l : list A) :
  Permutation (Shared.sort_insert compare x l) (x :: l).
Proof.
  induction l as [|y l IH]; simpl; [reflexivity|].
  destruct (compare y x >? 0)%Z; [reflexivity|].
  rewrite IH. apply perm_swap.
Qed.

Lemma sort_fold_Permutation {A} (compare : A -> A -> Z) (l : list A) : forall acc,
  Permutation (fold_left (fun acc x => Shared.sort_insert compare x acc) l acc) (acc ++ l).
Proof.
  induction l as [|x l IH]; intros acc; simpl.
  - now rewrite app_nil_r.
  - rewrite IH, sort_insert_Permutation. simpl. apply Permutation_middle.
Qed.

(** [sort] returns the elements it was given. *)
Lemma sort_Permutation {A} (compare : A -> A -> Z) (l : list A) :
  Permutation (Shared.sort compare l) l.
Proof. unfold Shared.sort. now rewrite sort_fold_Permutation. Qed.

Lemma elem_of_sort {A} (compare : A -> A -> Z) (l : list A) (x : A) :
  x ∈ Shared.sort compare l <-> x ∈ l.
Proof. now rewrite (sort_Permutation compare l). Qed.

Lemma read_names_lookup (trees : list T) baseDir possibleIndices :
  forall index names,
    FSMergeTree.read_names index trees baseDir possibleIndices = Ok names ->
    forall i tree_ listing,
      trees !! i = Some tree_ -> is_read possibleIndices (index + i) ->
      tree_readdirSync tree_ baseDir = Ok listing ->
      names !! i = Some (Shared.sort FSMergeTree.compareNames listing).
Proof.
  induction trees as [|t0 trees IH]; intros index names Hr i tree_ listing Hi Hp Hl;
    [easy|].
  simpl in Hr.
  destruct (if match possibleIndices with
               | Some indices => bool_decide (index ∈ indices)
               | None => true
               end
            then rbind (tree_readdirSync t0 baseDir)
                   (fun listing => Ok (Shared.sort FSMergeTree.compareNames listing))
            else Ok []) as [names0|] eqn:E0; simpl in Hr; [|easy].
  destruct (FSMergeTree.read_names (S index) trees baseDir possibleIndices)
    as [rest|] eqn:Er; simpl in Hr; [|easy].
  injection Hr as <-. destruct i as [|i]; simpl in *.
  - injection Hi as ->. rewrite Nat.add_0_r in Hp.
    assert (Hread : match possibleIndices with
                    | Some indices => bool_decide (index ∈ indices)
                    | None => true
                    end = true).
    { destruct possibleIndices; [|easy]. now apply bool_decide_eq_true. }
    rewrite Hread, Hl in E0. simpl in E0. congruence.
  - eapply IH; eauto. now replace (S index + i) with (index + S i) by lia.
Qed.

(** C8, with what it leaves unsaid.  Let the listings of a directory in two
    different inputs hold two distinct names that have the same lower-case
    form, and let no name read in that directory have for lower-case form a
    property name of [Object.prototype].  Then the merge of that directory
    throws the error of conflicting capitalizations, and so does [changes]
    when the directory is the root, whether [overwrite] is set or not.  (The
    directories below the root are merged only after the guards of the
    directories above them have passed.) *)
Theorem merge_conflicting_capitalization (canSymlink overwrite : bool)
    (fuel : nat) (trees : list T) (baseDir : string)
    (possibleIndices : option (list nat)) (names : list (list string))
    (i j : nat) (tree_i tree_j : T) (listing_i listing_j : list string)
    (name1 name2 : string) :
  FSMergeTree.read_names 0 trees baseDir possibleIndices = Ok names ->
  plain_names names ->
  trees !! i = Some tree_i -> is_read possibleIndices i ->
  tree_readdirSync tree_i baseDir = Ok listing_i -> name1 ∈ listing_i ->
  trees !! j = Some tree_j -> is_read possibleIndices j ->
  tree_readdirSync tree_j baseDir = Ok listing_j -> name2 ∈ listing_j ->
  i <> j -> name1 <> name2 ->
  Js.toLowerCase name1 = Js.toLowerCase name2 ->
  exists originalName fileName originalIndex index,
    FSMergeTree._mergeRelativePath canSymlink (S fuel) trees overwrite baseDir
      possibleIndices =
    Throw (ConflictingCapitalization baseDir originalName fileName originalIndex index) /\
    (baseDir = "" -> possibleIndices = None ->
     forall current,
       FSMergeTree.changes canSymlink (S fuel) overwrite (FSMergeTree.Make trees current) =
       (FSMergeTree.Make trees current,
        Throw (ConflictingCapitalization baseDir originalName fileName
                 originalIndex index))).
Proof.
  intros Hr Hplain Hi Hpi Hli H1 Hj Hpj Hlj H2 _ Hne Hl.
  pose proof (read_names_lookup _ _ _ _ _ Hr i _ _ Hi Hpi Hli) as Ni.
  pose proof (read_names_lookup _ _ _ _ _ Hr j _ _ Hj Hpj Hlj) as Nj.
  apply (elem_of_sort FSMergeTree.compareNames) in H1, H2.
  pose proof (elem_of_numbered names 0 i _ name1 Ni H1) as P1.
  pose proof (elem_of_numbered names 0 j _ name2 Nj H2) as P2.
  destruct (guard_capitalization_result baseDir (FSMergeTree.numbered 0 names) ∅
              (numbered_plain names 0 Hplain))
    as [Hok|(a & b & c & d & Ht)].
  - destruct (guard_capitalization_ok _ _ _ Hok) as [_ Huniq].
    destruct Hne. eapply Huniq; eauto.
  - exists a, b, c, d.
    assert (Hm : FSMergeTree._mergeRelativePath canSymlink (S fuel) trees overwrite
                   baseDir possibleIndices =
                 Throw (ConflictingCapitalization baseDir a b c d)).
    { simpl. rewrite Hr. simpl. rewrite Ht. reflexivity. }
    split; [exact Hm|].
    intros -> -> current. unfold FSMergeTree.changes, bind, get, lift.
    cbn [FSMergeTree.inputs]. now rewrite Hm.
Qed.

End MergeGuard.

(* ------------------------------------------------------------------------- *)
(** ** Projection: the two kinds of filters                                   *)
(* ------------------------------------------------------------------------- *)

Ltac break_match :=
  match goal with
  | |- context [match ?x with _ => _ end] => destruct x eqn:?
  end.

Ltac finish_filters :=
  repeat first
    [ match goal with
      | E : _ || _ = false |- _ => apply orb_false_iff in E as [? ?]
      | E : true && _ = false |- _ => rewrite andb_true_l in E
      | E : Projection.FilesArray _ = Projection.FilesArray _ |- _ =>
          injection E as E; subst
      | E : Ok _ = Ok _ |- _ => injection E as E; subst
      | I : ?x = ?x -> _ |- _ => specialize (I eq_refl)
      | I : _ /\ _ |- _ => destruct I
      end
    | progress simpl in * ];
  try congruence; try discriminate; try reflexivity;
  try match goal with
      | E1 : ?a = false, E2 : ?b = false |- ?a || ?b = false =>
          rewrite E1, E2; reflexivity
      end;
  try match goal with
      | I : _ -> ?g |- ?g => apply I; congruence
      end;
  try match goal with
      | E : ?a = false |- ?a || false = false => rewrite E; reflexivity
      | E : ?a = false |- false || ?a = false => rewrite E; reflexivity
      end.

Section ProjectionFilters.
Context {T : Type} `{FacadeTree T} `{Minimatch}.
Implicit Types (p : Projection.t T).

Local Abbreviation filters_ok := Projection.filters_ok.

Lemma filters_ok_blank (parent : T) : filters_ok (Projection.blank parent).
Proof. repeat split; simpl; easy. Qed.

Lemma set_cwd_ok value p : filters_ok p -> filters_ok (fst (Projection.set_cwd value p)).
Proof.
  unfold Projection.set_cwd, bind, lift, modify.
  destruct (Shared.normalizeRelativePath _); simpl; auto.
Qed.

Lemma every_seq_nil_r {A} (eq : A -> A -> bool) (l : list A) :
  Projection.every_seq eq l [] = true -> l = [].
Proof. now destruct l. Qed.

Lemma set_files_ok value p : filters_ok p -> filters_ok (fst (Projection.set_files value p)).
Proof.
  intros (I1 & I2 & I3).
  unfold Projection.filters_ok, Projection.files_in_effect,
    Projection.matchers_in_effect in *.
  unfold Projection.set_files, bind, get, lift, modify, ret, throw.
  destruct value as [| |paths]; simpl;
    destruct (Projection._files p) as [| |old] eqn:Hf; simpl;
    repeat (break_match; simpl in *; try discriminate);
    repeat split; simpl; intros; finish_filters.
Qed.

Lemma setFilter_ok filter_ value p :
  filters_ok p -> filters_ok (fst (Projection._setFilter filter_ value p)).
Proof.
  intros (I1 & I2 & I3).
  unfold Projection.filters_ok, Projection.files_in_effect,
    Projection.matchers_in_effect in *.
  unfold Projection._setFilter, bind, get, lift, modify, ret, throw.
  destruct filter_, value as [[|m ms]|]; simpl;
    destruct (Projection._files p) as [| |old] eqn:Hf; simpl;
    repeat (break_match; simpl in *; try discriminate);
    repeat split; simpl; intros; finish_filters.
Qed.

Lemma assign_ok setter p : filters_ok p -> filters_ok (fst (Projection.assign setter p)).
Proof.
  destruct setter; simpl; intros Hp;
    [now apply set_cwd_ok|now apply set_files_ok
    |now apply setFilter_ok|now apply setFilter_ok].
Qed.

Lemma bind_fst_ok {A B} (m : Method (Projection.t T) A) (k : A -> Method (Projection.t T) B) p :
  filters_ok (fst (m p)) ->
  (forall a q, filters_ok q -> filters_ok (fst (k a q))) ->
  filters_ok (fst (bind m k p)).
Proof.
  unfold bind. destruct (m p) as [q [a|e]]; simpl; auto.
Qed.

Lemma new_ok parent options p : Projection.new parent options = Ok p -> filters_ok p.
Proof.
  unfold Projection.new.
  set (m := (Projection.set_cwd (Projection.opt_cwd options) >>
             Projection.set_files (Projection.opt_files options) >>
             Projection.set_include (Projection.opt_include options) >>
             Projection.set_exclude (Projection.opt_exclude options))).
  assert (Hm : filters_ok (fst (m (Projection.blank parent)))).
  { subst m. apply bind_fst_ok; [apply set_cwd_ok, filters_ok_blank|].
    intros _ q Hq. apply bind_fst_ok; [now apply set_files_ok|].
    intros _ q1 Hq1. apply bind_fst_ok; [now apply setFilter_ok|].
    intros _ q2 Hq2. now apply setFilter_ok. }
  destruct (m (Projection.blank parent)) as [q [a|e]]; [|easy].
  now intros [= <-].
Qed.

(** Every existing projection keeps the filters apart. *)
Lemma existing_ok p : Projection.existing p -> filters_ok p.
Proof.
  induction 1 as [parent options p Hn|p setter Hp IH].
  - eapply new_ok; eauto.
  - now apply assign_ok.
Qed.

End ProjectionFilters.

Section ProjectionClaims.
Context {T : Type} `{FacadeTree T} `{Minimatch}.
Implicit Types (p : Projection.t T).

Ltac run_setters :=
  unfold Projection.new, Projection.set_include, Projection.set_exclude,
    Projection.set_cwd, Projection.set_files, Projection._setFilter,
    bind, get, lift, modify, ret, throw, Projection.blank; simpl.


(** C10. Once [files] is the empty array, by the constructor or by an
    assignment that returned, the entries and the paths of the projection
    are empty, whatever the parent.  With [files] null the entries are those
    of the descent into the parent: over the parent of the examples, they are
    the four entries of the parent, and none with the empty array. *)
Theorem projection_empty_files :
  (forall p p' fuel,
     Projection.existing p ->
     Projection.set_files (Projection.FilesArray []) p = (p', Ok tt) ->
     Projection.entries fuel p' = Ok [] /\ Projection.paths fuel p' = Ok []) /\
  (forall (parent : T) cwd include_ exclude_ p fuel,
     Projection.new parent
       (Projection.MkOptions cwd (Projection.FilesArray []) include_ exclude_) = Ok p ->
     Projection.entries fuel p = Ok [] /\ Projection.paths fuel p = Ok []) /\
  (forall p,
     Projection.existing p -> Projection.files_in_effect p = false ->
     Projection._entriesFromFiles p = None /\ Projection._processedFiles p = None) /\
  (exists without files_empty,
     Projection.new Examples.parent
       (Projection.MkOptions None Projection.FilesNull None None) = Ok without /\
     Projection.new Examples.parent
       (Projection.MkOptions None (Projection.FilesArray []) None None) = Ok files_empty /\
     Projection.paths 2 without =
       Ok ["hello.txt"; "my-directory"; "my-directory/bar.js"; "my-directory/foo.txt"] /\
     Projection.paths 2 files_empty = Ok []).
Proof.
  repeat apply conj.
  - intros p p' fuel Hex Hs.
    assert (Hok : Projection.filters_ok (fst (Projection.set_files (Projection.FilesArray []) p))).
    { apply set_files_ok. now apply existing_ok. }
    assert (Hf : Projection._files p' = Projection.FilesArray []).
    { revert Hs. run_setters.
      destruct (Projection._files p) as [| |old] eqn:Hf; simpl;
        repeat (break_match; simpl in *; try discriminate);
        intros [= <-]; simpl; try reflexivity.
      destruct old; [exact Hf|discriminate]. }
    rewrite Hs in Hok. simpl in Hok. destruct Hok as (_ & I2 & _).
    unfold Projection.paths, Projection.entries. now rewrite (I2 Hf).
  - intros parent cwd include_ exclude_ p fuel Hn.
    pose proof (new_ok _ _ _ Hn) as (_ & I2 & _).
    assert (Hf : Projection._files p = Projection.FilesArray []).
    { revert Hn. run_setters.
      destruct (Shared.normalizeRelativePath _); simpl; [|discriminate].
      destruct include_ as [[|m ms]|], exclude_ as [[|m' ms']|]; simpl;
        try discriminate; intros [= <-]; reflexivity. }
    unfold Projection.paths, Projection.entries. now rewrite (I2 Hf).
  - intros p Hex Hf. apply existing_ok in Hex as (_ & _ & I3). now apply I3.
  - eexists _, _. repeat split.
Qed.

End ProjectionClaims.

(* ------------------------------------------------------------------------- *)
(** ** The binary search over a sorted array                                  *)
(* ------------------------------------------------------------------------- *)

Section Search.
Context {T : Type}.
Implicit Types (es : list (Entry T)) (e : Entry T) (p : string).

Lemma aget_lookup {A} (l : list A) (i : nat) : Shared.aget l (Z.of_nat i) = l !! i.
Proof.
  unfold Shared.aget. destruct (Z.ltb_spec (Z.of_nat i) 0); [lia|].
  now rewrite Nat2Z.id.
Qed.

Lemma aget_Some {A} (l : list A) (i : Z) (x : A) :
  Shared.aget l i = Some x -> (0 <= i)%Z /\ l !! Z.to_nat i = Some x.
Proof.
  unfold Shared.aget. destruct (Z.ltb_spec i 0); [easy|]. auto.
Qed.

Lemma aget_neg {A} (l : list A) : Shared.aget l (-1) = None.
Proof. reflexivity. Qed.

(** In an ascending array, a smaller index holds a smaller path. *)
Lemma ascending_lookup es i j a b :
  ascending (map relativePath es) -> es !! i = Some a -> es !! j = Some b ->
  i < j -> path_lt (relativePath a) (relativePath b).
Proof.
  revert i j. induction es as [|x es IH]; intros i j Hs Hi Hj Hij; [easy|].
  simpl in Hs. apply StronglySorted_inv in Hs as [Hs Hall].
  destruct j as [|j]; [lia|]. simpl in Hj. destruct i as [|i]; simpl in Hi.
  - injection Hi as ->. rewrite Forall_forall in Hall. apply Hall.
    apply list_elem_of_In, in_map, list_elem_of_In. eapply list_elem_of_lookup_2; eauto.
  - eapply IH; eauto. lia.
Qed.

Lemma ascending_lookup_inj es i j a b :
  ascending (map relativePath es) -> es !! i = Some a -> es !! j = Some b ->
  relativePath a = relativePath b -> i = j.
Proof.
  intros Hs Hi Hj Hp.
  destruct (Nat.lt_trichotomy i j) as [Hlt|[Heq|Hgt]]; [|exact Heq|].
  - pose proof (ascending_lookup _ _ _ _ _ Hs Hi Hj Hlt) as Hl.
    rewrite Hp in Hl. unfold path_lt in Hl. now rewrite jslt_irrefl in Hl.
  - pose proof (ascending_lookup _ _ _ _ _ Hs Hj Hi Hgt) as Hl.
    rewrite Hp in Hl. unfold path_lt in Hl. now rewrite jslt_irrefl in Hl.
Qed.

(** The loop keeps the searched path between the bounds, and ends. *)
Lemma search_loop_spec es p :
  ascending (map relativePath es) ->
  forall fuel low high,
    (0 <= low)%Z -> (high < Z.of_nat (length es))%Z -> (low <= high + 1)%Z ->
    (high - low < Z.of_nat fuel)%Z ->
    (forall i e, es !! i = Some e -> (Z.of_nat i < low)%Z -> path_lt (relativePath e) p) ->
    (forall i e, es !! i = Some e -> (high < Z.of_nat i)%Z -> path_lt p (relativePath e)) ->
    match Shared.search_loop fuel es p low high with
    | Some (Shared.Found middle) =>
        exists e, Shared.aget es middle = Some e /\ relativePath e = p
    | Some (Shared.NotFound low' high') =>
        low' = (high' + 1)%Z /\ (0 <= low' <= Z.of_nat (length es))%Z /\
        (forall i e, es !! i = Some e -> (Z.of_nat i < low')%Z ->
                     path_lt (relativePath e) p) /\
        (forall i e, es !! i = Some e -> (high' < Z.of_nat i)%Z ->
                     path_lt p (relativePath e))
    | None => False
    end.
Proof.
  intros Hs. induction fuel as [|fuel IH]; intros low high Hl Hh Hlh Hf Hlo Hhi.
  - simpl. destruct (Z.leb_spec low high); [lia|].
    repeat split; auto; lia.
  - simpl. destruct (Z.leb_spec low high) as [Hle|Hgt].
    2:{ repeat split; auto; lia. }
    set (middle := (low + (high - low) ÷ 2)%Z).
    assert (Hm : (low <= middle <= high)%Z).
    { subst middle. pose proof (Z.quot_pos (high - low) 2 ltac:(lia) ltac:(lia)).
      assert ((high - low) ÷ 2 <= high - low)%Z; [|lia].
      rewrite Z.quot_div_nonneg by lia. apply Z.div_le_upper_bound; lia. }
    destruct (Shared.aget es middle) as [e|] eqn:Ha.
    2:{ unfold Shared.aget in Ha. destruct (Z.ltb_spec middle 0); [lia|].
        apply lookup_ge_None in Ha. lia. }
    apply aget_Some in Ha as Ha'. destruct Ha' as [_ Hlk].
    destruct (Js.seq p (relativePath e)) eqn:Hseq.
    { apply jsseq_spec in Hseq. eauto. }
    destruct (Js.lt p (relativePath e)) eqn:Hlt.
    + apply IH; auto; try lia.
      intros i e' Hi Hgt'.
      destruct (Z.eq_dec (Z.of_nat i) middle) as [E|E].
      * rewrite <- E, Nat2Z.id in Hlk. congruence.
      * eapply path_lt_trans; [exact Hlt|].
        eapply ascending_lookup; eauto. lia.
    + assert (Hgt : path_lt (relativePath e) p).
      { unfold path_lt. destruct (Js.lt (relativePath e) p) eqn:E; [easy|].
        apply jsseq_false in Hseq. destruct Hseq. now apply jslt_total. }
      apply IH; auto; try lia.
      intros i e' Hi Hlt'.
      destruct (Z.eq_dec (Z.of_nat i) middle) as [E|E].
      * rewrite <- E, Nat2Z.id in Hlk. congruence.
      * eapply path_lt_trans; [|exact Hgt].
        eapply ascending_lookup; eauto. lia.
Qed.

Lemma stands_at_exists es p :
  ascending (map relativePath es) -> exists k, stands_at es p k.
Proof.
  induction es as [|x es IH]; intros Hs.
  - exists 0. repeat split; simpl; [lia|easy|easy].
  - simpl in Hs. apply StronglySorted_inv in Hs as [Hs Hall].
    destruct (Js.lt (relativePath x) p) eqn:Hx.
    + destruct (IH Hs) as (k & Hk & Hlo & Hhi). exists (S k).
      repeat split; simpl; [lia| |].
      * intros [|i] e Hi Hik; simpl in Hi; [now injection Hi as <-|].
        eapply Hlo; eauto. lia.
      * intros [|i] e Hi Hik; [lia|]. simpl in Hi. eapply Hhi; eauto. lia.
    + exists 0. repeat split; simpl; [lia|intros; lia|].
      intros [|i] e Hi _ He; simpl in Hi.
      * injection Hi as <-. unfold path_lt in He. congruence.
      * rewrite Forall_forall in Hall.
        assert (Hxe : path_lt (relativePath x) (relativePath e)).
        { apply Hall. apply list_elem_of_In, in_map, list_elem_of_In.
          eapply list_elem_of_lookup_2; eauto. }
        pose proof (path_lt_trans _ _ _ Hxe He) as F. unfold path_lt in F. congruence.
Qed.

(** What [searchByRelativePath] returns on an ascending array: the index of
    the path when it is there; otherwise [-1], or the index before the place
    where it would stand when the closest match is asked for. *)
Lemma search_spec es p k closest :
  ascending (map relativePath es) -> stands_at es p k ->
  Shared.searchByRelativePath es p closest =
  match es !! k with
  | Some e => if Js.seq (relativePath e) p then Z.of_nat k
              else if closest then (Z.of_nat k - 1)%Z else (-1)%Z
  | None => if closest then (Z.of_nat k - 1)%Z else (-1)%Z
  end.
Proof.
  intros Hs (Hk & Hlo & Hhi). unfold Shared.searchByRelativePath.
  destruct es as [|first rest] eqn:Hes.
  { simpl in Hk. assert (k = 0) as -> by lia. simpl. now destruct closest. }
  rewrite <- Hes in *.
  destruct (last es) as [final|] eqn:Hlast.
  2:{ apply last_None in Hlast. congruence. }
  assert (H0 : es !! 0 = Some first) by now rewrite Hes.
  assert (Hlen : length es > 0) by (rewrite Hes; simpl; lia).
  assert (Hfin : es !! (length es - 1) = Some final).
  { rewrite <- Hlast. rewrite last_lookup. f_equal. lia. }
  destruct (Js.lt p (relativePath first)) eqn:Hpf.
  { assert (k = 0) as ->.
    { destruct k; [easy|]. pose proof (Hlo 0 first H0 ltac:(lia)) as F.
      unfold path_lt in F. rewrite (jslt_asym _ _ F) in Hpf. discriminate. }
    rewrite H0. destruct (Js.seq (relativePath first) p) eqn:E.
    - apply jsseq_spec in E. rewrite E, jslt_irrefl in Hpf. discriminate.
    - now destruct closest. }
  destruct (Js.gt p (relativePath final)) eqn:Hpl.
  { rewrite jsgt_lt in Hpl.
    assert (k = length es) as ->.
    { destruct (Nat.eq_dec k (length es)); [easy|].
      destruct (Hhi (length es - 1) final Hfin ltac:(lia)). exact Hpl. }
    rewrite (proj2 (lookup_ge_None es (length es))) by lia.
    destruct closest; [lia|reflexivity]. }
  pose proof (search_loop_spec es p Hs (length es) 0 (Z.of_nat (length es) - 1)
                ltac:(lia) ltac:(lia) ltac:(lia) ltac:(lia)) as Hloop.
  specialize (Hloop ltac:(intros; lia) ltac:(intros i e Hi Hgt; apply lookup_lt_Some in Hi; lia)).
  destruct (Shared.search_loop (length es) es p 0 (Z.of_nat (length es) - 1))
    as [[middle|low' high']|]; [| |easy].
  - destruct Hloop as (e & Ha & He). apply aget_Some in Ha as [Hm0 Hm].
    assert (Z.to_nat middle = k) as <-.
    { destruct (Nat.lt_trichotomy (Z.to_nat middle) k) as [Hlt|[Heq|Hgt]]; [|easy|].
      - pose proof (Hlo _ _ Hm Hlt) as F. rewrite He in F.
        unfold path_lt in F. now rewrite jslt_irrefl in F.
      - destruct (lookup_lt_is_Some_2 es k) as [ek Hek].
        { apply lookup_lt_Some in Hm. lia. }
        destruct (Hhi k ek Hek ltac:(lia)).
        rewrite <- He. eapply ascending_lookup; eauto. }
    rewrite Hm, He, jsseq_refl. lia.
  - destruct Hloop as (-> & Hrange & Hlo' & Hhi').
    assert (Hkl : Z.of_nat k = (high' + 1)%Z).
    { destruct (Z.lt_trichotomy (Z.of_nat k) (high' + 1)) as [Hlt|[Heq|Hgt]]; [|easy|].
      - destruct (lookup_lt_is_Some_2 es k) as [ek Hek]; [lia|].
        destruct (Hhi k ek Hek ltac:(lia)). apply (Hlo' k ek Hek). lia.
      - destruct (lookup_lt_is_Some_2 es (Z.to_nat (high' + 1))) as [el Hel]; [lia|].
        pose proof (Hlo _ _ Hel ltac:(lia)) as F1.
        pose proof (Hhi' _ _ Hel ltac:(lia)) as F2.
        unfold path_lt in *. rewrite (jslt_asym _ _ F1) in F2. discriminate. }
    destruct (es !! k) as [ek|] eqn:Hek.
    + assert (Hpk : path_lt p (relativePath ek)) by (apply (Hhi' k ek Hek); lia).
      assert (Js.seq (relativePath ek) p = false) as ->.
      { apply jsseq_false. intros E. rewrite E in Hpk. unfold path_lt in Hpk.
        now rewrite jslt_irrefl in Hpk. }
      destruct closest; [|reflexivity].
      apply lookup_lt_Some in Hek as Hkl'.
      destruct (Z.geb_spec (high' + 1) (Z.of_nat (length es))); [lia|].
      destruct (Z.ltb_spec (high' + 1) 0); [lia|].
      rewrite <- Hkl, aget_lookup, Hek.
      unfold path_lt in Hpk. rewrite (jslt_asym _ _ Hpk). lia.
    + apply lookup_ge_None in Hek. destruct closest; [|reflexivity].
      destruct (Z.geb_spec (high' + 1) (Z.of_nat (length es))); lia.
Qed.

End Search.

(* ------------------------------------------------------------------------- *)
(** ** Paths: prefixes, parents and normalized paths                          *)
(* ------------------------------------------------------------------------- *)

Section Paths.

Lemma prefix_cons a s b t :
  String.prefix (String a s) (String b t) = true <-> a = b /\ String.prefix s t = true.
Proof.
  simpl. destruct (ascii_dec a b) as [->|Hne]; [tauto|].
  split; [easy|intros [? _]; contradiction].
Qed.

Lemma prefix_nil_r s : String.prefix s "" = true -> s = "".
Proof. now destruct s. Qed.

Lemma prefix_nil_l s : String.prefix "" s = true.
Proof. now destruct s. Qed.

Lemma prefix_refl s : String.prefix s s = true.
Proof. induction s as [|a s IH]; [easy|]. now apply prefix_cons. Qed.

(** A proper beginning of a string is below it. *)
Lemma prefix_app_lt x y s :
  String.prefix (x +:+ y) s = true -> y <> "" -> Js.lt x s = true.
Proof.
  revert s. induction x as [|a x IH]; intros s Hp Hy.
  - simpl in Hp. destruct s as [|b s]; [|reflexivity].
    destruct y; [contradiction|discriminate].
  - destruct s as [|b s]; [discriminate|].
    change (String a x +:+ y) with (String a (x +:+ y)) in Hp.
    apply prefix_cons in Hp as [-> Hp].
    specialize (IH _ Hp Hy). apply jslt_spec in IH. apply jslt_spec.
    simpl. now rewrite ascii_compare_refl.
Qed.

Lemma contains_char_app c x y :
  Js.contains_char c (x +:+ y) = Js.contains_char c x || Js.contains_char c y.
Proof.
  induction x as [|a x IH]; simpl; [reflexivity|]. rewrite IH. now rewrite orb_assoc.
Qed.

Lemma prefix_contains c y s :
  String.prefix y s = true -> Js.contains_char c y = true -> Js.contains_char c s = true.
Proof.
  revert s. induction y as [|a y IH]; intros s Hp Hc; [discriminate|].
  destruct s as [|b s]; [discriminate|]. apply prefix_cons in Hp as [-> Hp].
  simpl in *. apply orb_true_iff in Hc as [Hc|Hc]; apply orb_true_iff; auto.
Qed.

Lemma last_char_contains s c : Js.last_char s = Some c -> Js.contains_char c s = true.
Proof.
  induction s as [|a s IH]; [discriminate|]. simpl.
  destruct s as [|b s].
  - intros [= ->]. now rewrite Ascii.eqb_refl.
  - intros Hl. rewrite (IH Hl). apply orb_true_r.
Qed.

Lemma last_char_app_sep x : Js.last_char (x +:+ sep) = Some slash.
Proof.
  induction x as [|a x IH]; [reflexivity|].
  change (String a x +:+ sep) with (String a (x +:+ sep)).
  simpl. destruct (x +:+ sep) eqn:E; [|exact IH].
  destruct x; discriminate.
Qed.

(** A beginning of a path that ends with a separator and is longer than the
    separator alone is a beginning of the parent followed by a separator. *)
Lemma prefix_dirname np : forall y,
  String.prefix y np = true -> Js.last_char y = Some slash ->
  2 <= String.length y ->
  String.prefix y (Shared.dirname np +:+ sep) = true.
Proof.
  induction np as [|b np IH]; intros y Hp Hl Hlen.
  - apply prefix_nil_r in Hp. subst y. discriminate.
  - destruct y as [|a y]; [discriminate|].
    apply prefix_cons in Hp as [-> Hp].
    assert (Hy : y <> "") by (destruct y; simpl in Hlen; [lia|easy]).
    assert (Hly : Js.last_char y = Some slash).
    { simpl in Hl. destruct y; [contradiction|exact Hl]. }
    assert (Hc : Js.contains_char slash np = true).
    { eapply prefix_contains; eauto. now apply last_char_contains. }
    simpl. rewrite Hc.
    change (String b (Shared.dirname np) +:+ sep)
      with (String b (Shared.dirname np +:+ sep)).
    apply prefix_cons. split; [reflexivity|].
    destruct y as [|c y]; [contradiction|].
    destruct y as [|d y].
    + simpl in Hly. injection Hly as ->.
      destruct np as [|e np]; [discriminate|].
      apply prefix_cons in Hp as [<- _].
      simpl Shared.dirname. destruct (Js.contains_char slash np).
      * change (String slash (Shared.dirname np) +:+ sep)
          with (String slash (Shared.dirname np +:+ sep)).
        apply prefix_cons. split; [reflexivity|apply prefix_nil_l].
      * apply prefix_refl.
    + apply IH; auto. simpl. lia.
Qed.

Lemma prefix_sep_cases x : forall parent,
  String.prefix (x +:+ sep) (parent +:+ sep) = true ->
  x = parent \/ String.prefix (x +:+ sep) parent = true.
Proof.
  induction x as [|a x IH]; intros parent Hp.
  - destruct parent as [|b parent]; [now left|right].
    change ("" +:+ sep) with sep in *.
    change (String b parent +:+ sep) with (String b (parent +:+ sep)) in Hp.
    unfold sep in *. apply prefix_cons in Hp as [<- _].
    simpl. destruct (ascii_dec "/" "/"); [|contradiction]. now destruct parent.
  - destruct parent as [|b parent].
    + change (String a x +:+ sep) with (String a (x +:+ sep)) in Hp.
      change ("" +:+ sep) with (String slash "") in Hp.
      apply prefix_cons in Hp as [_ Hp]. apply prefix_nil_r in Hp.
      destruct x; discriminate.
    + change (String a x +:+ sep) with (String a (x +:+ sep)) in *.
      change (String b parent +:+ sep) with (String b (parent +:+ sep)) in Hp.
      apply prefix_cons in Hp as [-> Hp].
      destruct (IH _ Hp) as [->|Hq]; [now left|right].
      now apply prefix_cons.
Qed.

Lemma last_char_None s : Js.last_char s = None -> s = "".
Proof.
  induction s as [|a s IH]; [reflexivity|]. simpl.
  destruct s; [discriminate|]. intros Hl. now specialize (IH Hl).
Qed.

(** [ensureSeparator] on the path of an entry. *)
Lemma ensureSeparator_path_ok p : path_ok p -> Shared.ensureSeparator p = p +:+ sep.
Proof.
  intros [Hne Hl]. unfold Shared.ensureSeparator.
  destruct (Js.last_char p) as [c|] eqn:E.
  - destruct (Ascii.eqb_spec c slash) as [->|]; [now destruct Hl|reflexivity].
  - now apply last_char_None in E.
Qed.

Lemma length_app_sep x : String.length (x +:+ sep) = S (String.length x).
Proof. induction x as [|a x IH]; simpl; [reflexivity|]. now rewrite IH. Qed.

(** A path that begins with the path of an entry and a separator has a
    parent, which is that path or begins with that path and a separator. *)
Lemma crossing_parent np x :
  path_ok x -> String.prefix (x +:+ sep) np = true ->
  Js.contains_char slash np = true /\
  (x = Shared.dirname np \/ String.prefix (x +:+ sep) (Shared.dirname np) = true).
Proof.
  intros [Hne _] Hp. split.
  - eapply prefix_contains; eauto. apply last_char_contains, last_char_app_sep.
  - apply prefix_sep_cases. apply prefix_dirname; auto.
    + apply last_char_app_sep.
    + rewrite length_app_sep. destruct x; [contradiction|simpl; lia].
Qed.

(** *** Normalized paths *)

Lemma split_no_sep s : Forall (fun part => Js.contains_char slash part = false)
                              (Js.split slash s).
Proof.
  induction s as [|c s IH]; simpl; [repeat constructor|].
  destruct (Ascii.eqb_spec c slash) as [->|Hne].
  - constructor; [reflexivity|exact IH].
  - assert (Hc : Ascii.eqb slash c = false).
    { destruct (Ascii.eqb_spec slash c); [congruence|reflexivity]. }
    destruct (Js.split slash s) as [|w ws].
    + repeat constructor. cbn [Js.contains_char]. now rewrite Hc.
    + apply Forall_cons in IH as [Hw Hws]. constructor; [|exact Hws].
      cbn [Js.contains_char]. now rewrite Hw, Hc.
Qed.

Lemma normalize_parts_ok parts : forall kept out,
  Forall (fun part => Js.contains_char slash part = false) parts ->
  Forall segment_ok kept ->
  Shared.normalize_parts kept parts = Some out -> Forall segment_ok out.
Proof.
  induction parts as [|part parts IH]; intros kept out Hp Hk; simpl.
  - intros [= <-]. apply Forall_forall. intros x Hx.
    apply list_elem_of_In, in_rev, list_elem_of_In in Hx.
    rewrite Forall_forall in Hk. auto.
  - apply Forall_cons in Hp as [Hpart Hp].
    destruct (Js.seq part "") eqn:E1; simpl; [now apply IH|].
    destruct (Js.seq part ".") eqn:E2; simpl; [now apply IH|].
    destruct (Js.seq part "..") eqn:E3.
    + destruct kept as [|k kept]; [discriminate|].
      apply Forall_cons in Hk as [_ Hk]. now apply IH.
    + apply IH; auto. constructor; [|exact Hk]. split; [|exact Hpart].
      now apply jsseq_false in E1.
Qed.

(** What [normalizeRelativePath] returns is a normalized path. *)
Lemma normalizeRelativePath_normalized relPath np :
  Shared.normalizeRelativePath relPath = Ok np -> normalized np.
Proof.
  unfold Shared.normalizeRelativePath.
  destruct (Js.inherited_key relPath); [discriminate|].
  destruct (Shared.normalize_parts [] (Js.split slash relPath)) as [parts|] eqn:E;
    [|discriminate].
  intros [= <-]. exists parts. split; [|reflexivity].
  eapply normalize_parts_ok; [apply split_no_sep|constructor|exact E].
Qed.

Lemma join_cons part parts :
  parts <> [] -> Js.join sep (part :: parts) = part +:+ sep +:+ Js.join sep parts.
Proof. destruct parts; [contradiction|reflexivity]. Qed.

Lemma last_char_app x y : y <> "" -> Js.last_char (x +:+ y) = Js.last_char y.
Proof.
  intros Hy. induction x as [|a x IH]; [reflexivity|].
  change (String a x +:+ y) with (String a (x +:+ y)). simpl.
  destruct (x +:+ y) eqn:E; [|exact IH].
  destruct x; [simpl in E; contradiction|discriminate].
Qed.

Lemma segment_last part : segment_ok part -> Js.last_char part <> Some slash.
Proof.
  intros [_ Hc] Hl. apply last_char_contains in Hl. congruence.
Qed.

Lemma join_nonempty parts :
  Forall segment_ok parts -> parts <> [] -> Js.join sep parts <> "".
Proof.
  intros Hp Hne. destruct parts as [|part parts]; [contradiction|].
  apply Forall_cons in Hp as [[Hpart _] _].
  destruct parts; simpl; destruct part; try contradiction; discriminate.
Qed.

Lemma join_last parts :
  Forall segment_ok parts -> Js.last_char (Js.join sep parts) <> Some slash.
Proof.
  induction parts as [|part parts IH]; intros Hp; [discriminate|].
  apply Forall_cons in Hp as [Hpart Hp].
  destruct parts as [|q parts]; [now apply segment_last|].
  rewrite join_cons by discriminate.
  rewrite last_char_app.
  - rewrite last_char_app; [now apply IH|]. now apply join_nonempty.
  - destruct part; [destruct Hpart; contradiction|discriminate].
Qed.

(** A normalized path other than the root is the path of an entry. *)
Lemma normalized_path_ok np : normalized np -> np <> "" -> path_ok np.
Proof.
  intros (parts & Hp & ->) Hne. split; [exact Hne|]. now apply join_last.
Qed.

(** A normalized path without parent holds no separator. *)
Lemma normalized_top np :
  normalized np -> Shared.dirname np = "" -> Js.contains_char slash np = false.
Proof.
  intros (parts & Hp & ->) Hd.
  destruct parts as [|part parts]; [reflexivity|].
  apply Forall_cons in Hp as [[Hne Hc] Hp].
  destruct parts as [|q parts]; [exact Hc|].
  rewrite join_cons in * by discriminate.
  destruct part as [|a part]; [contradiction|].
  change (String a part +:+ sep +:+ Js.join sep (q :: parts))
    with (String a (part +:+ sep +:+ Js.join sep (q :: parts))) in Hd.
  simpl in Hd. rewrite !contains_char_app in Hd. simpl in Hd.
  rewrite orb_true_r in Hd. discriminate.
Qed.

Lemma prefix_app_l x : forall y s,
  String.prefix (x +:+ y) s = true -> String.prefix x s = true.
Proof.
  induction x as [|a x IH]; intros y s Hp; [apply prefix_nil_l|].
  destruct s as [|b s]; [discriminate|].
  change (String a x +:+ y) with (String a (x +:+ y)) in Hp.
  apply prefix_cons in Hp as [-> Hp]. apply prefix_cons. eauto.
Qed.

(** A parent and a separator begin the path. *)
Lemma dirname_prefix_sep np :
  Shared.dirname np <> "" -> String.prefix (Shared.dirname np +:+ sep) np = true.
Proof.
  induction np as [|c np IH]; [easy|]. simpl.
  destruct (Js.contains_char slash np) eqn:Ec; [|easy]. intros _.
  change (String c (Shared.dirname np) +:+ sep)
    with (String c (Shared.dirname np +:+ sep)).
  apply prefix_cons. split; [reflexivity|].
  destruct (string_dec (Shared.dirname np) "") as [E|E]; [|auto].
  rewrite E. change ("" +:+ sep) with sep.
  destruct np as [|d np]; [discriminate|]. simpl in E.
  destruct (Js.contains_char slash np) eqn:Ec'; [discriminate|].
  cbn [Js.contains_char] in Ec. rewrite Ec', orb_false_r in Ec.
  apply Ascii.eqb_eq in Ec. subst d. unfold sep.
  apply prefix_cons. split; [reflexivity|apply prefix_nil_l].
Qed.

End Paths.

(* ------------------------------------------------------------------------- *)
(** ** The sorted array of a writable tree                                    *)
(* ------------------------------------------------------------------------- *)

Section WritableTreeEntries.
Context {T : Type} `{FacadeTree T} `{Md5}.
Implicit Types (s : WritableTree.t T) (es : list (Entry T)) (e : Entry T) (p : string).

Lemma path_lt_irrefl p : ~ path_lt p p.
Proof. unfold path_lt. now rewrite jslt_irrefl. Qed.

Lemma path_lt_neq p q : path_lt p q -> p <> q.
Proof. intros Hl ->. now apply path_lt_irrefl in Hl. Qed.

Lemma stands_at_hit es e k :
  ascending (map relativePath es) -> es !! k = Some e ->
  stands_at es (relativePath e) k.
Proof.
  intros Hs Hk. repeat split.
  - apply lookup_lt_Some in Hk. lia.
  - intros i x Hi Hik. eapply ascending_lookup; eauto.
  - intros i x Hi Hki Hlt. destruct (decide (i = k)) as [->|Hne].
    + rewrite Hk in Hi. injection Hi as <-. now apply path_lt_irrefl in Hlt.
    + assert (Hlt' : path_lt (relativePath e) (relativePath x))
        by (eapply ascending_lookup; eauto; lia).
      pose proof (path_lt_trans _ _ _ Hlt Hlt') as F. now apply path_lt_irrefl in F.
Qed.

(** The search finds the entries of an ascending array. *)
Lemma search_elem es e k closest :
  ascending (map relativePath es) -> es !! k = Some e ->
  Shared.searchByRelativePath es (relativePath e) closest = Z.of_nat k.
Proof.
  intros Hs Hk.
  rewrite (search_spec es _ k closest Hs (stands_at_hit _ _ _ Hs Hk)).
  rewrite Hk. now rewrite jsseq_refl.
Qed.

Lemma entry_at_elem es e :
  ascending (map relativePath es) -> e ∈ es ->
  Shared.aget es (Shared.searchByRelativePath es (relativePath e) false) = Some e.
Proof.
  intros Hs [k Hk]%list_elem_of_lookup_1.
  rewrite (search_elem _ _ k) by assumption. now rewrite aget_lookup.
Qed.

Lemma entry_at_Some es p e :
  ascending (map relativePath es) ->
  Shared.aget es (Shared.searchByRelativePath es p false) = Some e ->
  e ∈ es /\ relativePath e = p.
Proof.
  intros Hs Hg. destruct (stands_at_exists es p Hs) as [k Hk].
  rewrite (search_spec es p k false Hs Hk) in Hg.
  destruct (es !! k) as [e'|] eqn:E; [|discriminate].
  destruct (Js.seq (relativePath e') p) eqn:Eq; [|discriminate].
  rewrite aget_lookup, E in Hg. injection Hg as <-.
  split; [eapply list_elem_of_lookup_2; eauto|now apply jsseq_spec].
Qed.

Lemma entry_at_None es p :
  ascending (map relativePath es) ->
  Shared.aget es (Shared.searchByRelativePath es p false) = None ->
  forall e, e ∈ es -> relativePath e <> p.
Proof.
  intros Hs Hg e He <-. rewrite entry_at_elem in Hg by assumption. discriminate.
Qed.

(** Two ascending arrays with the same entries at a path answer alike. *)
Lemma entry_at_ext es es' p :
  ascending (map relativePath es) -> ascending (map relativePath es') ->
  (forall e, relativePath e = p -> e ∈ es <-> e ∈ es') ->
  Shared.aget es (Shared.searchByRelativePath es p false) =
  Shared.aget es' (Shared.searchByRelativePath es' p false).
Proof.
  intros Hs Hs' Hext.
  destruct (Shared.aget es (Shared.searchByRelativePath es p false)) as [e|] eqn:E.
  - apply entry_at_Some in E as [He <-]; [|assumption].
    symmetry. apply entry_at_elem; [assumption|]. now apply Hext.
  - destruct (Shared.aget es' (Shared.searchByRelativePath es' p false)) as [e'|] eqn:E';
      [|reflexivity].
    apply entry_at_Some in E' as [He' <-]; [|assumption].
    apply Hext in He'; [|reflexivity].
    rewrite entry_at_elem in E by assumption. discriminate.
Qed.

(** An entry put between the lower and the higher entries. *)
Lemma put_sorted (lo mid hi : list (Entry T)) e :
  ascending (map relativePath (lo ++ mid ++ hi)) ->
  (forall x, x ∈ lo -> path_lt (relativePath x) (relativePath e)) ->
  (forall x, x ∈ hi -> path_lt (relativePath e) (relativePath x)) ->
  ascending (map relativePath (lo ++ e :: hi)).
Proof.
  intros Hs Hlo Hhi. unfold ascending in *.
  rewrite !map_app in Hs. rewrite map_app. simpl.
  apply StronglySorted_app in Hs as (Hc & Hl & Hm).
  apply StronglySorted_app in Hm as (Hc' & _ & Hh).
  apply StronglySorted_app. split; [|split; [exact Hl|]].
  - intros a b Ha Hb. apply list_elem_of_In, in_map_iff in Ha as (x & <- & Hx).
    apply list_elem_of_In in Hx. apply elem_of_cons in Hb as [->|Hb]; [auto|].
    apply list_elem_of_In, in_map_iff in Hb as (y & <- & Hy).
    apply list_elem_of_In in Hy.
    eapply path_lt_trans; [apply Hlo|apply Hhi]; assumption.
  - constructor; [exact Hh|]. apply Forall_forall. intros b Hb.
    apply list_elem_of_In, in_map_iff in Hb as (y & <- & Hy).
    apply list_elem_of_In in Hy. auto.
Qed.

(** What [_insertEntry] leaves: an ascending array that holds the entry,
    and the other entries but one of the same path. *)
Lemma insertEntry_spec s e :
  ascending (map relativePath (WritableTree._entries s)) ->
  exists es',
    WritableTree._insertEntry e s = (WritableTree.set_entries es' s, Ok tt) /\
    ascending (map relativePath es') /\
    forall x, x ∈ es' <->
              x = e \/ (x ∈ WritableTree._entries s /\ relativePath x <> relativePath e).
Proof.
  intros Hs. set (es := WritableTree._entries s) in *.
  destruct (stands_at_exists es (relativePath e) Hs) as [k Hk].
  pose proof Hk as (Hlen & Hlo & Hhi).
  unfold WritableTree._insertEntry, modify. fold es.
  cbv zeta. rewrite (search_spec es _ k true Hs Hk).
  assert (Hlow : forall x, x ∈ take k es -> path_lt (relativePath x) (relativePath e)).
  { intros x [i Hi]%list_elem_of_lookup_1.
    apply lookup_take_Some in Hi as [Hi Hik]. eauto. }
  assert (Hhigh : forall n x, k <= n -> x ∈ drop n es ->
                    relativePath x <> relativePath e ->
                    path_lt (relativePath e) (relativePath x)).
  { intros n x Hn [i Hi]%list_elem_of_lookup_1 Hne. rewrite lookup_drop in Hi.
    assert (Hnl : ~ path_lt (relativePath x) (relativePath e))
      by (eapply Hhi; eauto; lia).
    unfold path_lt in *. destruct (Js.lt (relativePath e) (relativePath x)) eqn:E;
      [reflexivity|].
    destruct (Js.lt (relativePath x) (relativePath e)) eqn:E'; [now destruct Hnl|].
    destruct Hne. now apply jslt_total. }
  destruct (es !! k) as [e'|] eqn:Ek.
  - destruct (Js.seq (relativePath e') (relativePath e)) eqn:Eq.
    + (* the path is there: the entry takes its place *)
      apply jsseq_spec in Eq.
      assert (Hsplit : es = take k es ++ [e'] ++ drop (S k) es)
        by (symmetry; now apply take_drop_middle).
      assert (Hhigh' : forall x, x ∈ drop (S k) es ->
                         path_lt (relativePath e) (relativePath x)).
      { intros x [i Hi]%list_elem_of_lookup_1. rewrite lookup_drop in Hi.
        rewrite <- Eq. eapply ascending_lookup; eauto. lia. }
      exists (take k es ++ e :: drop (S k) es). split; [|split].
      * destruct (Z.eqb_spec (Z.of_nat k) (-1)); [lia|].
        rewrite aget_lookup, Ek. rewrite Eq, jsseq_refl. rewrite Nat2Z.id.
        rewrite insert_take_drop; [reflexivity|]. now apply lookup_lt_Some in Ek.
      * apply (put_sorted _ [e']); [now rewrite <- Hsplit|exact Hlow|exact Hhigh'].
      * intros x. rewrite elem_of_app, elem_of_cons. rewrite Hsplit at 3.
        rewrite !elem_of_app, elem_of_cons, elem_of_nil. split.
        -- intros [Hx|[->|Hx]]; [right|now left|right].
           ++ split; [now left|]. now apply path_lt_neq, Hlow.
           ++ split; [now right; right|]. apply not_eq_sym. now apply path_lt_neq, Hhigh'.
        -- intros [->|[[Hx|[[->|[]]|Hx]] Hne]]; auto. congruence.
    + (* the path is not there: the entry goes after the closest *)
      apply jsseq_false in Eq.
      assert (Hhigh' : forall x, x ∈ drop k es ->
                         path_lt (relativePath e) (relativePath x)).
      { intros x Hx. apply (Hhigh k); [lia|exact Hx|].
        apply list_elem_of_lookup_1 in Hx as [i Hi]. rewrite lookup_drop in Hi.
        destruct i as [|i].
        - rewrite Nat.add_0_r, Ek in Hi. now injection Hi as <-.
        - intros Hp. apply (Hhi _ _ Ek); [lia|]. rewrite <- Hp.
          eapply ascending_lookup; eauto. lia. }
      exists (take k es ++ e :: drop k es). split; [|split].
      * destruct k as [|k].
        -- simpl. now rewrite drop_0.
        -- destruct (Z.eqb_spec (Z.of_nat (S k) - 1) (-1)); [lia|].
           replace (Z.of_nat (S k) - 1)%Z with (Z.of_nat k) by lia.
           rewrite aget_lookup.
           destruct (es !! k) as [found|] eqn:Ef;
             [|apply lookup_ge_None in Ef; lia].
           assert (Hf : path_lt (relativePath found) (relativePath e))
             by (eapply Hlo; eauto).
           apply path_lt_neq, jsseq_false in Hf. rewrite Hf.
           replace (Z.to_nat (Z.of_nat k + 1)) with (S k) by lia. reflexivity.
      * apply (put_sorted _ []); [simpl; now rewrite take_drop|exact Hlow|exact Hhigh'].
      * intros x. rewrite elem_of_app, elem_of_cons.
        rewrite <- (take_drop k es) at 3. rewrite elem_of_app. split.
        -- intros [Hx|[->|Hx]]; [right|now left|right].
           ++ split; [now left|]. now apply path_lt_neq, Hlow.
           ++ split; [now right|]. apply not_eq_sym. now apply path_lt_neq, Hhigh'.
        -- intros [->|[[Hx|Hx] Hne]]; auto.
  - (* the path is above all entries *)
    assert (Hk' : k = length es) by (apply lookup_ge_None in Ek; lia).
    exists (take k es ++ e :: drop k es). split; [|split].
    + destruct k as [|k].
      * simpl. now rewrite drop_0.
      * destruct (Z.eqb_spec (Z.of_nat (S k) - 1) (-1)); [lia|].
        replace (Z.of_nat (S k) - 1)%Z with (Z.of_nat k) by lia.
        rewrite aget_lookup.
        destruct (es !! k) as [found|] eqn:Ef;
          [|apply lookup_ge_None in Ef; lia].
        assert (Hf : path_lt (relativePath found) (relativePath e))
          by (eapply Hlo; eauto).
        apply path_lt_neq, jsseq_false in Hf. rewrite Hf.
        replace (Z.to_nat (Z.of_nat k + 1)) with (S k) by lia. reflexivity.
    + apply (put_sorted _ []); [simpl; now rewrite take_drop|exact Hlow|].
      intros x Hx. rewrite drop_ge in Hx by lia. now apply elem_of_nil in Hx.
    + intros x. rewrite elem_of_app, elem_of_cons.
      rewrite <- (take_drop k es) at 3. rewrite elem_of_app.
      rewrite (drop_ge es k) by lia. rewrite elem_of_nil. split.
      * intros [Hx|[->|[]]]; [right|now left].
        split; [now left|]. now apply path_lt_neq, Hlow.
      * intros [->|[[Hx|[]] Hne]]; auto.
Qed.

Lemma set_entries_same s : WritableTree.set_entries (WritableTree._entries s) s = s.
Proof. now destruct s. Qed.

(** What [_removeEntry] leaves: the ascending array without the entry of
    that path. *)
Lemma removeEntry_spec s e :
  ascending (map relativePath (WritableTree._entries s)) ->
  exists es',
    WritableTree._removeEntry (Stored e) s = (WritableTree.set_entries es' s, Ok tt) /\
    ascending (map relativePath es') /\
    forall x, x ∈ es' <->
              (x ∈ WritableTree._entries s /\ relativePath x <> relativePath e).
Proof.
  intros Hs. set (es := WritableTree._entries s) in *.
  destruct (stands_at_exists es (relativePath e) Hs) as [k Hk].
  unfold WritableTree._removeEntry, modify. fold es. cbv zeta.
  rewrite (search_spec es _ k false Hs Hk).
  assert (Hmiss : forall n, (forall e', es !! n = Some e' ->
                               relativePath e' <> relativePath e) ->
                   n = k ->
                   forall x, x ∈ es -> relativePath x <> relativePath e).
  { intros n Hn -> x [i Hi]%list_elem_of_lookup_1 Hp.
    assert (Hst : stands_at es (relativePath x) i) by now apply stands_at_hit.
    rewrite Hp in Hst. destruct Hk as (_ & Hlo & Hhi). destruct Hst as (_ & Hlo' & Hhi').
    destruct (Nat.lt_trichotomy i k) as [Hlt|[->|Hgt]].
    - apply (Hlo _ _ Hi) in Hlt. rewrite Hp in Hlt. now apply path_lt_irrefl in Hlt.
    - now apply (Hn x).
    - destruct (es !! k) as [e'|] eqn:Ek;
        [|apply lookup_ge_None in Ek; apply lookup_lt_Some in Hi; lia].
      apply (Hhi _ _ Ek); [lia|]. apply (Hlo' _ _ Ek). lia. }
  destruct (es !! k) as [e'|] eqn:Ek.
  - destruct (Js.seq (relativePath e') (relativePath e)) eqn:Eq.
    + apply jsseq_spec in Eq.
      exists (delete k es). split; [|split].
      * destruct (Z.eqb_spec (Z.of_nat k) (-1)); [lia|]. now rewrite Nat2Z.id.
      * eapply StronglySorted_sublist; [|exact Hs]. apply sublist_map, sublist_delete.
      * intros x. split.
        -- intros [i Hi]%list_elem_of_lookup_1.
           destruct (decide (i < k)) as [Hlt|Hge].
           ++ rewrite list_lookup_delete_lt in Hi by assumption.
              split; [eapply list_elem_of_lookup_2; eauto|]. rewrite <- Eq.
              apply path_lt_neq. eapply ascending_lookup; eauto.
           ++ rewrite list_lookup_delete_ge in Hi by lia.
              split; [eapply list_elem_of_lookup_2; eauto|]. rewrite <- Eq.
              apply not_eq_sym, path_lt_neq. eapply ascending_lookup; eauto. lia.
        -- intros [[i Hi]%list_elem_of_lookup_1 Hne].
           destruct (Nat.lt_trichotomy i k) as [Hlt|[->|Hgt]].
           ++ apply (list_elem_of_lookup_2 _ i). now rewrite list_lookup_delete_lt.
           ++ rewrite Ek in Hi. injection Hi as <-. contradiction.
           ++ apply (list_elem_of_lookup_2 _ (i - 1)).
              rewrite list_lookup_delete_ge by lia. now replace (S (i - 1)) with i by lia.
    + apply jsseq_false in Eq. exists es. split; [|split; [exact Hs|]].
      * change (-1 =? -1)%Z with true. cbv iota. unfold es. now rewrite set_entries_same.
      * intros x. split; [|tauto]. intros Hx. split; [exact Hx|].
        apply (Hmiss k); auto. intros e0. rewrite Ek. now intros [= <-].
  - exists es. split; [|split; [exact Hs|]].
    + change (-1 =? -1)%Z with true. cbv iota. unfold es. now rewrite set_entries_same.
    + intros x. split; [|tauto]. intros Hx. split; [exact Hx|].
      apply (Hmiss k); auto. intros e0. now rewrite Ek.
Qed.

End WritableTreeEntries.

(* ------------------------------------------------------------------------- *)
(** ** Lookups and checks of a writable tree                                  *)
(* ------------------------------------------------------------------------- *)

Section WritableTreeFind.
Context {T : Type} `{FacadeTree T} `{Md5}.
Implicit Types (s : WritableTree.t T) (es : list (Entry T)) (e : Entry T).
Implicit Types (p np : string).

(** The loop that walks back stops at the highest entry, from the closest
    down, whose path begins the path looked for. *)
Lemma walk_back_spec es np c entry :
  WritableTree.walk_back es np c = Some entry ->
  exists j, j <= c /\ es !! j = Some entry /\
            Shared.startsWith np (relativePath entry) = true /\
            forall i x, j < i <= c -> es !! i = Some x ->
                        Shared.startsWith np (relativePath x) = false.
Proof.
  induction c as [|c IH]; simpl.
  - destruct (es !! 0) as [x|] eqn:E; [|discriminate].
    destruct (Shared.startsWith np (relativePath x)) eqn:Es; [|discriminate].
    intros [= <-]. exists 0. repeat split; auto. intros; lia.
  - destruct (es !! S c) as [x|] eqn:E; [|discriminate].
    destruct (Shared.startsWith np (relativePath x)) eqn:Es.
    + intros [= <-]. exists (S c). repeat split; auto. intros; lia.
    + intros Hw. destruct (IH Hw) as (j & Hj & Hl & Hst & Hrest).
      exists j. repeat split; auto. intros i y [Hji Hic] Hi.
      destruct (decide (i = S c)) as [->|Hne]; [congruence|].
      apply (Hrest i); [lia|exact Hi].
Qed.

(** An entry of the tree is found at its path; a link is not followed when
    the caller does not ask for it. *)
Lemma find_stored s e options :
  ascending (map relativePath (WritableTree._entries s)) ->
  e ∈ WritableTree._entries s -> relativePath e <> "" ->
  options = Some false \/ _symlink e = None ->
  WritableTree._findByRelativePath s (relativePath e) options = Some (Stored e, WritableTree.This).
Proof.
  intros Hs [k Hk]%list_elem_of_lookup_1 Hne Hopt.
  unfold WritableTree._findByRelativePath.
  apply jsseq_false in Hne. rewrite Hne. cbv zeta.
  rewrite (search_elem _ _ k) by assumption.
  destruct (Z.eqb_spec (Z.of_nat k) (-1)); [lia|].
  rewrite aget_lookup, Hk, jsseq_refl.
  destruct Hopt as [->| ->]; [|reflexivity].
  destruct (_symlink e) as [[|tree linked]|]; reflexivity.
Qed.

(** Nothing is found at a path that no entry has, when the parent of the
    path is a directory of the tree itself. *)
Lemma find_absent s np options :
  entries_ok s -> normalized np -> np <> "" ->
  (forall e, e ∈ WritableTree._entries s -> relativePath e <> np) ->
  parent_in_tree s np ->
  WritableTree._findByRelativePath s np options = None.
Proof.
  intros [Hs Hok] Hn Hne Habs Hparent. unfold parent_in_tree in Hparent.
  unfold WritableTree._findByRelativePath.
  apply jsseq_false in Hne. rewrite Hne. cbv zeta.
  set (es := WritableTree._entries s) in *.
  destruct (stands_at_exists es np Hs) as [k Hk].
  rewrite (search_spec es np k true Hs Hk).
  assert (Hidx : (match es !! k with
                  | Some e => if Js.seq (relativePath e) np then Z.of_nat k
                              else (Z.of_nat k - 1)%Z
                  | None => (Z.of_nat k - 1)%Z
                  end) = (Z.of_nat k - 1)%Z).
  { destruct (es !! k) as [e|] eqn:Ek; [|reflexivity].
    destruct (Js.seq (relativePath e) np) eqn:Eq; [|reflexivity].
    apply jsseq_spec in Eq. destruct (Habs e); [|exact Eq].
    eapply list_elem_of_lookup_2; eauto. }
  rewrite Hidx. clear Hidx.
  destruct k as [|k]; [reflexivity|].
  destruct (Z.eqb_spec (Z.of_nat (S k) - 1) (-1)); [lia|].
  replace (Z.of_nat (S k) - 1)%Z with (Z.of_nat k) by lia.
  rewrite aget_lookup, Nat2Z.id.
  destruct (es !! k) as [closest|] eqn:Ec; [|reflexivity].
  assert (Hcn : Js.seq (relativePath closest) np = false).
  { apply jsseq_false. apply Habs. eapply list_elem_of_lookup_2; eauto. }
  rewrite Hcn.
  destruct (WritableTree.walk_back es np k) as [entry|] eqn:Ew; [|reflexivity].
  apply walk_back_spec in Ew as (j & Hjk & Hj & Hst & Hrest).
  destruct (_symlink entry) as [[target|tree [|linked]]|] eqn:El; try reflexivity.
  destruct (Shared.startsWith np (Shared.ensureSeparator (relativePath entry))) eqn:Esep;
    [exfalso|reflexivity].
  assert (Hentry : entry ∈ es) by (eapply list_elem_of_lookup_2; eauto).
  assert (Hpo : path_ok (relativePath entry)).
  { rewrite Forall_forall in Hok. now apply Hok. }
  rewrite (ensureSeparator_path_ok _ Hpo) in Esep.
  destruct (crossing_parent np _ Hpo Esep) as [Hslash Hcross].
  destruct Hparent as [Htop|(parent & Hpin & Hpp & Hplain)].
  { rewrite (normalized_top np Hn Htop) in Hslash. discriminate. }
  assert (Hdn : Shared.dirname np <> "").
  { intros Htop. rewrite (normalized_top np Hn Htop) in Hslash. discriminate. }
  apply list_elem_of_lookup_1 in Hpin as [i Hi].
  assert (Hsame : i = j -> False).
  { intros ->. rewrite Hj in Hi. injection Hi as <-.
    unfold EntryJs.isSymbolicLink in Hplain. rewrite El in Hplain. discriminate. }
  destruct Hcross as [Heq|Hpre].
  - apply Hsame. eapply (ascending_lookup_inj es); eauto. congruence.
  - apply prefix_app_lt in Hpre; [|discriminate].
    pose proof (dirname_prefix_sep np Hdn) as Hbelow.
    assert (Hpnp : path_lt (relativePath parent) np).
    { rewrite Hpp. eapply prefix_app_lt; [exact Hbelow|discriminate]. }
    assert (Hik : i <= k).
    { destruct Hk as (_ & _ & Hhi). destruct (decide (i <= k)); [assumption|].
      destruct (Hhi _ _ Hi); [lia|exact Hpnp]. }
    destruct (Nat.lt_trichotomy i j) as [Hlt|[Heq|Hgt]]; [|auto|].
    + pose proof (ascending_lookup _ _ _ _ _ Hs Hi Hj Hlt) as Hl.
      rewrite Hpp in Hl. unfold path_lt in Hl.
      apply jslt_asym in Hl. congruence.
    + assert (Hpst : Shared.startsWith np (relativePath parent) = false)
        by (apply (Hrest i); [lia|exact Hi]).
      rewrite Hpp in Hpst. apply prefix_app_l in Hbelow.
      unfold Shared.startsWith, Js.startsWith in Hpst. congruence.
Qed.

(** [_throwOnCommonErrors] leaves the tree as it is. *)
Lemma throwOnCommonErrors_state operation np relPath allowRoot allowSymlinks s :
  fst (WritableTree._throwOnCommonErrors operation np relPath allowRoot allowSymlinks s)
  = s.
Proof.
  unfold WritableTree._throwOnCommonErrors, bind, get, throw, ret.
  destruct (WritableTree._state s); [|reflexivity].
  match goal with
  | |- context [match ?m s with _ => _ end] =>
      assert (Hpure : forall s0, fst (m s0) = s0)
        by (intros s0; repeat (break_match; try reflexivity));
      destruct (m s) as [s1 r1] eqn:E1;
      specialize (Hpure s); rewrite E1 in Hpure; simpl in Hpure; subst s1
  end.
  destruct r1; [|reflexivity].
  repeat (break_match; try reflexivity).
Qed.

(** What holds when [_throwOnCommonErrors] returns. *)
Lemma throwOnCommonErrors_ok operation np relPath allowRoot allowSymlinks s s' :
  ascending (map relativePath (WritableTree._entries s)) ->
  WritableTree._throwOnCommonErrors operation np relPath allowRoot allowSymlinks s
  = (s', Ok tt) ->
  s' = s /\ WritableTree._state s = WritableTree.STARTED /\
  (allowRoot = false -> np <> "") /\
  (Js.seq operation "mkdirp" = false -> np <> "" -> parent_in_tree s np) /\
  (allowSymlinks = false ->
   forall e, e ∈ WritableTree._entries s -> relativePath e = np ->
             EntryJs.isSymbolicLink e = false).
Proof.
  intros Hs Hrun.
  pose proof (throwOnCommonErrors_state operation np relPath allowRoot allowSymlinks s)
    as Hst.
  rewrite Hrun in Hst. simpl in Hst. subst s'. split; [reflexivity|].
  revert Hrun. unfold WritableTree._throwOnCommonErrors, bind, get, throw, ret.
  destruct (WritableTree._state s); [|discriminate]. split; [reflexivity|].
  destruct (Js.seq np "") eqn:Enp.
  - (* the root *)
    apply jsseq_spec in Enp. subst np.
    destruct allowRoot; simpl in Hrun; [|discriminate].
    repeat split; try easy.
    destruct allowSymlinks; [easy|]. intros _ e He Hp. simpl in Hrun.
    rewrite <- Hp in Hrun. rewrite entry_at_elem in Hrun by assumption.
    destruct (EntryJs.isSymbolicLink e); [discriminate|reflexivity].
  - apply jsseq_false in Enp. rewrite orb_true_r in Hrun.
    split; [auto|]. split.
    + intros Hop _. rewrite Hop in Hrun. simpl in Hrun.
      destruct (Js.seq (Shared.dirname np) "") eqn:Ed;
        [left; now apply jsseq_spec|right]. simpl in Hrun.
      destruct (Shared.aget _ (Shared.searchByRelativePath _ (Shared.dirname np) false))
        as [parent|] eqn:Ep; [|discriminate].
      apply entry_at_Some in Ep as [Hin Hpp]; [|assumption].
      exists parent. repeat split; auto.
      destruct (EntryJs.isSymbolicLink parent); [discriminate|reflexivity].
    + intros -> e He Hp.
      match type of Hrun with
      | match ?m with _ => _ end = _ => destruct m as [s1 [[]|x]] eqn:E1
      end; [|discriminate].
      assert (s1 = s); [|subst s1].
      { revert E1. repeat (break_match; try discriminate); now intros [= ->]. }
      simpl in Hrun. rewrite <- Hp in Hrun.
      rewrite entry_at_elem in Hrun by assumption.
      destruct (EntryJs.isSymbolicLink e); [discriminate|reflexivity].
Qed.

(** When [_throwOnCommonErrors] returns, for the methods that take a path
    other than the root. *)
Lemma throwOnCommonErrors_intro operation np relPath allowSymlinks s :
  ascending (map relativePath (WritableTree._entries s)) ->
  WritableTree._state s = WritableTree.STARTED -> np <> "" ->
  parent_in_tree s np ->
  (allowSymlinks = false ->
   forall e, e ∈ WritableTree._entries s -> relativePath e = np ->
             EntryJs.isSymbolicLink e = false) ->
  WritableTree._throwOnCommonErrors operation np relPath false allowSymlinks s
  = (s, Ok tt).
Proof.
  intros Hs Hst Hne Hparent Htarget.
  unfold WritableTree._throwOnCommonErrors, bind, get, throw, ret.
  rewrite Hst. apply jsseq_false in Hne. rewrite Hne. simpl.
  assert (Ht : forall target,
             Shared.aget (WritableTree._entries s)
               (Shared.searchByRelativePath (WritableTree._entries s) np false)
             = Some target -> allowSymlinks = false ->
             EntryJs.isSymbolicLink target = false).
  { intros target Et Ha. apply entry_at_Some in Et as [Hin Htp]; [|assumption]. auto. }
  destruct allowSymlinks; simpl.
  2: destruct (Shared.aget _ (Shared.searchByRelativePath _ np false)) as [target|];
    [rewrite (Ht _ eq_refl eq_refl)|].
  all: clear Ht.
  all: destruct (negb (Js.seq operation "mkdirp")); [|reflexivity].
  all: destruct Hparent as [->|(parent & Hin & Hpp & Hplain)]; [reflexivity|].
  all: rewrite <- Hpp; rewrite entry_at_elem by assumption; rewrite Hplain.
  all: now destruct (negb (Js.seq (relativePath parent) "")).
Qed.

End WritableTreeFind.

(* ------------------------------------------------------------------------- *)
(** ** The list of changes of a writable tree                                 *)
(* ------------------------------------------------------------------------- *)

Section WritableTreeTracker.
Context {T : Type} `{FacadeTree T} `{Md5}.
Implicit Types (s : WritableTree.t T) (e : Entry T) (p np : string).
Implicit Types (n : WritableTree.Node T).

Lemma bind_run {S A B} (m : Method S A) (k : A -> Method S B) (x y : S) (a : A) :
  m x = (y, Ok a) -> bind m k x = k a y.
Proof. unfold bind. now intros ->. Qed.

Lemma bind_ok_inv {S A B} (m : Method S A) (k : A -> Method S B) (x z : S) (b : B) :
  bind m k x = (z, Ok b) -> exists y a, m x = (y, Ok a) /\ k a y = (z, Ok b).
Proof.
  unfold bind. destruct (m x) as [y [a|exn]]; [eauto|discriminate].
Qed.

Lemma untrack_run operation p s :
  WritableTree._untrack operation p s =
  match WritableTree.hash_get (WritableTree._changeHash s) operation !! p with
  | Some id =>
      (WritableTree.set_tracker
         (filter (fun n => WritableTree.node_id n <> id) (WritableTree._changes s))
         (WritableTree.hash_set (WritableTree._changeHash s) operation
            (delete p (WritableTree.hash_get (WritableTree._changeHash s) operation)))
         (WritableTree._nextNode s) s, Ok true)
  | None => (s, Ok false)
  end.
Proof.
  unfold WritableTree._untrack, bind, get, modify, ret.
  now destruct (WritableTree.hash_get (WritableTree._changeHash s) operation !! p).
Qed.




(** [_track('create', entry)]: an [unlink] tracked at the path is dropped
    and a [change] is tracked; otherwise the [create] is tracked. *)
Lemma track_create s e :
  exists kept h operation_,
    WritableTree._track create e s =
      (WritableTree.set_tracker
         (kept ++ [WritableTree.MkNode (WritableTree._nextNode s)
                     (MkChange operation_ (relativePath e) e)])
         h (S (WritableTree._nextNode s)) s, Ok tt) /\
    match WritableTree.hash_unlink (WritableTree._changeHash s) !! relativePath e with
    | Some id =>
        operation_ = change /\
        kept = filter (fun n => WritableTree.node_id n <> id) (WritableTree._changes s)
    | None => operation_ = create /\ kept = WritableTree._changes s
    end.
Proof.
  unfold WritableTree._track. unfold bind. rewrite untrack_run.
  cbn [WritableTree.hash_get].
  destruct (WritableTree.hash_unlink (WritableTree._changeHash s) !! relativePath e)
    as [id|] eqn:Eh;
    unfold WritableTree.track_node, modify; cbn;
    eexists _, _, _; (split; [reflexivity|split; reflexivity]).
Qed.

(** [_track('change', entry)]: what is tracked at the path as [change] or
    [create] is dropped, and one of the two is tracked. *)
Lemma track_change s e :
  exists kept h operation_,
    WritableTree._track change e s =
      (WritableTree.set_tracker
         (kept ++ [WritableTree.MkNode (WritableTree._nextNode s)
                     (MkChange operation_ (relativePath e) e)])
         h (S (WritableTree._nextNode s)) s, Ok tt) /\
    kept `sublist_of` WritableTree._changes s /\
    (operation_ = create \/ operation_ = change).
Proof.
  unfold WritableTree._track. unfold bind. rewrite !untrack_run.
  cbn [WritableTree.hash_get].
  destruct (WritableTree.hash_change (WritableTree._changeHash s) !! relativePath e)
    as [id|] eqn:Eh; rewrite untrack_run; cbn;
    match goal with
    | |- context [match ?m !! ?k with _ => _ end] => destruct (m !! k) as [id'|] eqn:Eh'
    end;
    unfold WritableTree.track_node, modify; cbn;
    eexists _, _, _; (split; [reflexivity|split; [|auto]]).
  - etransitivity; apply sublist_filter.
  - apply sublist_filter.
  - apply sublist_filter.
  - reflexivity.
Qed.

End WritableTreeTracker.

(* ------------------------------------------------------------------------- *)
(** ** Writing and unlinking files in a writable tree                         *)
(* ------------------------------------------------------------------------- *)

Section WritableTreeWrites.
Context {T : Type} `{FacadeTree T} `{Md5}.
Implicit Types (s : WritableTree.t T) (e : Entry T) (p np : string).

Lemma new_file_path np sz mt md ck :
  EntryJs.mode_is_directory md = false ->
  relativePath (EntryJs.new (T:=T) np sz mt md ck) = np.
Proof. intros Hm. unfold EntryJs.new. now rewrite Hm. Qed.

Lemma dirname_neq np : np <> "" -> Shared.dirname np <> np.
Proof.
  intros Hne Heq. destruct (string_dec (Shared.dirname np) "") as [E|E]; [congruence|].
  pose proof (dirname_prefix_sep np E) as Hp.
  apply prefix_app_lt in Hp; [|discriminate].
  rewrite Heq in Hp. now rewrite jslt_irrefl in Hp.
Qed.

(** The parent stays in the tree when entries of other paths stay. *)
Lemma parent_in_tree_ext s s' np :
  np <> "" ->
  (forall x, x ∈ WritableTree._entries s -> relativePath x <> np ->
             x ∈ WritableTree._entries s') ->
  parent_in_tree s np -> parent_in_tree s' np.
Proof.
  intros Hne Hext [Htop|(parent & Hin & Hpp & Hplain)]; [now left|right].
  exists parent. repeat split; auto. apply Hext; [exact Hin|].
  rewrite Hpp. now apply dirname_neq.
Qed.



Lemma track_write s e operation_ :
  operation_ = create \/ operation_ = change ->
  exists kept h tracked,
    WritableTree._track operation_ e s =
      (WritableTree.set_tracker
         (kept ++ [WritableTree.MkNode (WritableTree._nextNode s)
                     (MkChange tracked (relativePath e) e)])
         h (S (WritableTree._nextNode s)) s, Ok tt) /\
    kept `sublist_of` WritableTree._changes s /\
    (tracked = create \/ tracked = change).
Proof.
  intros [-> | ->].
  - destruct (track_create s e) as (kept & h & tracked & Hrun & Hcase).
    exists kept, h, tracked. split; [exact Hrun|].
    destruct (WritableTree.hash_unlink (WritableTree._changeHash s) !! relativePath e);
      destruct Hcase as [-> ->]; split; auto using sublist_filter.
  - apply track_change.
Qed.

(** The end of a [writeFileSync] that writes: the call to the filesystem,
    the change that is tracked and the entry that is stored. *)
Lemma write_tail sx s0 operation_ entry call s1 :
  WritableTree._entries sx = WritableTree._entries s0 ->
  WritableTree._state sx = WritableTree._state s0 ->
  WritableTree._changes sx = WritableTree._changes s0 ->
  WritableTree._nextNode sx = WritableTree._nextNode s0 ->
  ascending (map relativePath (WritableTree._entries s0)) ->
  operation_ = create \/ operation_ = change ->
  (WritableTree.fs_call call >> WritableTree._track operation_ entry >>
   WritableTree._insertEntry entry) sx = (s1, Ok tt) ->
  exists kept tracked,
    WritableTree._state s1 = WritableTree._state s0 /\
    ascending (map relativePath (WritableTree._entries s1)) /\
    (forall x, x ∈ WritableTree._entries s1 <->
               x = entry \/
               (x ∈ WritableTree._entries s0 /\ relativePath x <> relativePath entry)) /\
    WritableTree._changes s1 =
      kept ++ [WritableTree.MkNode (WritableTree._nextNode s0)
                 (MkChange tracked (relativePath entry) entry)] /\
    kept `sublist_of` WritableTree._changes s0 /\
    (tracked = create \/ tracked = change).
Proof.
  intros He Hst Hc Hn Hs Hop Hrun.
  unfold bind at 1, WritableTree.fs_call, modify in Hrun.
  match type of Hrun with context [bind _ _ ?st] => set (sy := st) in Hrun end.
  destruct (track_write sy entry operation_ Hop) as (kept & h & tracked & Htrack & Hsub & Ht).
  rewrite (bind_run _ _ _ _ _ Htrack) in Hrun.
  match type of Hrun with context [WritableTree._insertEntry _ ?st] =>
    set (sz := st) in Hrun end.
  destruct (insertEntry_spec sz entry) as (es1 & Hins & Hs1 & Hmem1).
  { simpl. now rewrite He. }
  rewrite Hins in Hrun. injection Hrun as <-.
  exists kept, tracked. simpl. simpl in Hmem1, Hsub.
  rewrite <- Hn, <- Hst, <- He, <- Hc. auto 10.
Qed.

(** [_track] returns, and touches the tracker only. *)
Lemma track_frame operation e s :
  exists s', WritableTree._track operation e s = (s', Ok tt) /\
             WritableTree._entries s' = WritableTree._entries s /\
             WritableTree._state s' = WritableTree._state s.
Proof.
  destruct operation; unfold WritableTree._track, bind;
    repeat (rewrite untrack_run;
            destruct (WritableTree.hash_get _ _ !! _); cbn [fst snd]);
    unfold WritableTree.track_node, modify, ret; simpl; eauto.
Qed.

(** The end of a method that stores an entry. *)
Lemma insert_tail call operation e sx s1 r :
  ascending (map relativePath (WritableTree._entries sx)) ->
  (WritableTree.fs_call call >> WritableTree._track operation e >>
   WritableTree._insertEntry e) sx = (s1, r) ->
  r = Ok tt /\
  WritableTree._state s1 = WritableTree._state sx /\
  ascending (map relativePath (WritableTree._entries s1)) /\
  forall x, x ∈ WritableTree._entries s1 <->
            x = e \/ (x ∈ WritableTree._entries sx /\ relativePath x <> relativePath e).
Proof.
  intros Hs. unfold bind at 1, WritableTree.fs_call, modify.
  match goal with |- context [bind _ _ ?st] => set (sy := st) end.
  destruct (track_frame operation e sy) as (sz & Ht & He & Hst).
  rewrite (bind_run _ _ _ _ _ Ht).
  destruct (insertEntry_spec sz e) as (es' & Hins & Hs' & Hmem); [now rewrite He|].
  rewrite Hins. intros [= <- <-]. rewrite He in Hmem. simpl in *. auto.
Qed.

(** The end of a method that removes an entry. *)
Lemma remove_tail call operation e sx s1 r :
  ascending (map relativePath (WritableTree._entries sx)) ->
  (WritableTree.fs_call call >> WritableTree._track operation e >>
   WritableTree._removeEntry (Stored e)) sx = (s1, r) ->
  r = Ok tt /\
  WritableTree._state s1 = WritableTree._state sx /\
  ascending (map relativePath (WritableTree._entries s1)) /\
  forall x, x ∈ WritableTree._entries s1 <->
            (x ∈ WritableTree._entries sx /\ relativePath x <> relativePath e).
Proof.
  intros Hs. unfold bind at 1, WritableTree.fs_call, modify.
  match goal with |- context [bind _ _ ?st] => set (sy := st) end.
  destruct (track_frame operation e sy) as (sz & Ht & He & Hst).
  rewrite (bind_run _ _ _ _ _ Ht).
  destruct (removeEntry_spec sz e) as (es' & Hrem & Hs' & Hmem); [now rewrite He|].
  rewrite Hrem. intros [= <- <-]. rewrite He in Hmem. simpl in *. auto.
Qed.

(** What is found at a path whose parent is in the tree is an entry of the
    tree at that path. *)
Lemma find_inv s np options r owner :
  entries_ok s -> normalized np -> np <> "" -> parent_in_tree s np ->
  WritableTree._findByRelativePath s np options = Some (r, owner) ->
  exists e, e ∈ WritableTree._entries s /\ relativePath e = np.
Proof.
  intros Hok Hn Hne Hpar Hfind.
  destruct (Shared.aget (WritableTree._entries s)
              (Shared.searchByRelativePath (WritableTree._entries s) np false))
    as [e|] eqn:E.
  - exists e. apply entry_at_Some; [apply Hok|exact E].
  - rewrite (find_absent s np options Hok Hn Hne) in Hfind; [discriminate| |exact Hpar].
    intros e He. apply (entry_at_None _ _ (proj1 Hok) E e He).
Qed.

(** The checks that begin a method that writes at a path. *)
Lemma opening_inv {A} operation relPath np allowSymlinks
    (k : string -> WritableTree.t T -> WritableTree.M T A) s0 s1 a :
  entries_ok s0 -> Js.seq operation "mkdirp" = false ->
  Shared.normalizeRelativePath relPath = Ok np ->
  (let* normalizedPath := lift (Shared.normalizeRelativePath relPath) in
   WritableTree._throwOnCommonErrors operation normalizedPath relPath false allowSymlinks >>
   let* s := get in k normalizedPath s) s0 = (s1, Ok a) ->
  normalized np /\ np <> "" /\ parent_in_tree s0 np /\
  WritableTree._state s0 = WritableTree.STARTED /\
  (allowSymlinks = false ->
   forall e, e ∈ WritableTree._entries s0 -> relativePath e = np ->
             EntryJs.isSymbolicLink e = false) /\
  k np s0 s0 = (s1, Ok a).
Proof.
  intros [Hs Hok] Hop Hnorm Hrun. unfold lift in Hrun.
  unfold bind at 1 in Hrun. rewrite Hnorm in Hrun.
  apply bind_ok_inv in Hrun as (sx & [] & Htoce & Hrun).
  destruct (throwOnCommonErrors_ok _ _ _ _ _ _ _ Hs Htoce)
    as (-> & Hst & Hroot & Hparent & Hlink).
  specialize (Hroot eq_refl). specialize (Hparent Hop Hroot).
  split; [eapply normalizeRelativePath_normalized; eauto|]. auto.
Qed.

(** After a removal, nothing is found at the path. *)
Lemma find_removed s0 s1 np options :
  entries_ok s0 -> normalized np -> np <> "" -> parent_in_tree s0 np ->
  ascending (map relativePath (WritableTree._entries s1)) ->
  (forall x, x ∈ WritableTree._entries s1 <->
             (x ∈ WritableTree._entries s0 /\ relativePath x <> np)) ->
  WritableTree._findByRelativePath s1 np options = None.
Proof.
  intros [Hs Hok] Hn Hne Hpar Hs1 Hmem. apply find_absent; auto.
  - split; [exact Hs1|]. apply Forall_forall. intros x Hx.
    apply Hmem in Hx as [Hx _]. rewrite Forall_forall in Hok. now apply Hok.
  - intros x Hx. now apply Hmem in Hx as [_ Hx].
  - apply (parent_in_tree_ext s0); auto. intros x Hx Hxp. now apply Hmem.
Qed.

(** After an insertion, the entry is found at its path. *)
Lemma find_inserted s0 s1 e :
  relativePath e <> "" -> _symlink e = None ->
  ascending (map relativePath (WritableTree._entries s1)) ->
  (forall x, x ∈ WritableTree._entries s1 <->
             x = e \/ (x ∈ WritableTree._entries s0 /\ relativePath x <> relativePath e)) ->
  WritableTree._findByRelativePath s1 (relativePath e) None
  = Some (Stored e, WritableTree.This).
Proof.
  intros Hne Hsym Hs1 Hmem. apply find_stored; auto. apply Hmem. now left.
Qed.

(** What [writeFileSync] finds at its path when it returns: a file of the
    tree that is not a link. *)
Lemma writeFileSync_found s0 relPath np content now s1 r owner :
  entries_ok s0 -> Shared.normalizeRelativePath relPath = Ok np ->
  WritableTree.writeFileSync relPath content now s0 = (s1, Ok tt) ->
  WritableTree._findByRelativePath s0 np None = Some (r, owner) ->
  exists e, r = Stored e /\ owner = WritableTree.This /\
            e ∈ WritableTree._entries s0 /\ relativePath e = np /\
            _symlink e = None /\ EntryJs.mode_is_directory (mode e) = false.
Proof.
  intros Hok Hnorm Hrun Ef. unfold WritableTree.writeFileSync in Hrun.
  apply (opening_inv _ _ np) in Hrun as (Hn & Hne & Hpar & Hst & Hlink & Hrun); auto.
  cbv zeta in Hrun. specialize (Hlink eq_refl).
  destruct (find_inv _ _ _ _ _ Hok Hn Hne Hpar Ef) as (e & He & Hp).
  assert (Hsym : _symlink e = None).
  { specialize (Hlink e He Hp). unfold EntryJs.isSymbolicLink in Hlink.
    now destruct (_symlink e). }
  rewrite Ef in Hrun.
  rewrite <- Hp, find_stored in Ef; [|apply Hok|exact He|congruence|now right].
  injection Ef as <- <-. exists e.
  apply bind_ok_inv in Hrun as (sx & [] & Hfirst & _).
  cbn [EntryJs.ref_isDirectory] in Hfirst.
  destruct (EntryJs.isDirectory e) eqn:Edir; [discriminate|].
  unfold EntryJs.isDirectory in Edir. rewrite Hsym in Edir. auto 10.
Qed.

(** When the tree holds the content at the path already, [writeFileSync]
    leaves the tree as it is, whatever the time. *)
Lemma writeFileSync_held s0 relPath np content now s1 :
  entries_ok s0 -> Shared.normalizeRelativePath relPath = Ok np ->
  holds_content s0 np content = true ->
  WritableTree.writeFileSync relPath content now s0 = (s1, Ok tt) ->
  s1 = s0 /\
  forall now', WritableTree.writeFileSync relPath content now' s0 = (s0, Ok tt).
Proof.
  intros Hok Hnorm Hhold Hrun.
  unfold holds_content in Hhold.
  destruct (WritableTree._findByRelativePath s0 np None) as [[[|e] owner]|] eqn:Ef;
    try discriminate.
  destruct (writeFileSync_found _ _ _ _ _ _ _ _ Hok Hnorm Hrun Ef)
    as (e' & [= <-] & -> & He & Hp & Hsym & Hmode).
  assert (Hall : forall now',
             WritableTree.writeFileSync relPath content now' s0 = (s0, Ok tt)).
  { intros now'. revert Hrun.
    unfold WritableTree.writeFileSync, lift. rewrite Hnorm.
    unfold bind at 1. intros Hrun.
    apply bind_ok_inv in Hrun as (sx & [] & Htoce & _).
    destruct (throwOnCommonErrors_ok _ _ _ _ _ _ _ (proj1 Hok) Htoce) as (-> & _).
    unfold bind at 1. rewrite (bind_run _ _ _ _ _ Htoce).
    unfold bind at 1, get. cbv zeta. rewrite Ef.
    cbn [EntryJs.ref_isDirectory]. unfold EntryJs.isDirectory. rewrite Hsym, Hmode.
    rewrite Hhold.
    destruct e as [? ? ? ? ? l ? ?]. simpl in Hsym. subst l. reflexivity. }
  split; [|exact Hall]. rewrite (Hall now) in Hrun. now injection Hrun.
Qed.

Lemma writeFileSync_writes s0 relPath np content now s1 :
  entries_ok s0 ->
  Shared.normalizeRelativePath relPath = Ok np ->
  holds_content s0 np content = false ->
  file_mode_at s0 np ->
  WritableTree.writeFileSync relPath content now s0 = (s1, Ok tt) ->
  exists entry kept operation_,
    relativePath entry = np /\ _symlink entry = None /\
    EntryJs.mode_is_directory (mode entry) = false /\
    checksum entry = Some (md5hex content) /\
    np <> "" /\ parent_in_tree s0 np /\
    WritableTree._state s1 = WritableTree.STARTED /\
    ascending (map relativePath (WritableTree._entries s1)) /\
    (forall x, x ∈ WritableTree._entries s1 <->
               x = entry \/ (x ∈ WritableTree._entries s0 /\ relativePath x <> np)) /\
    WritableTree._changes s1 =
      kept ++ [WritableTree.MkNode (WritableTree._nextNode s0)
                 (MkChange operation_ np entry)] /\
    kept `sublist_of` WritableTree._changes s0 /\
    (operation_ = create \/ operation_ = change).
Proof.
  intros [Hs Hok] Hnorm Hhold Hmode Hrun.
  unfold WritableTree.writeFileSync, lift in Hrun. rewrite Hnorm in Hrun.
  unfold bind at 1 in Hrun.
  apply bind_ok_inv in Hrun as (sx & [] & Htoce & Hrun).
  destruct (throwOnCommonErrors_ok _ _ _ _ _ _ _ Hs Htoce)
    as (-> & Hst & Hroot & Hparent & _).
  specialize (Hroot eq_refl). specialize (Hparent eq_refl Hroot).
  unfold bind at 1, get in Hrun. cbv zeta in Hrun.
  unfold holds_content in Hhold. unfold file_mode_at in Hmode.
  destruct (WritableTree._findByRelativePath s0 np None) as [[entry owner]|] eqn:Ef.
  - apply bind_ok_inv in Hrun as (s0x & [] & Hext & Hrun).
    destruct (EntryJs.ref_isDirectory entry) eqn:Ed; [discriminate|].
    destruct entry as [|e0]; [discriminate|].
    rewrite Hhold in Hrun. specialize (Hmode e0 owner eq_refl).
    assert (Hx : WritableTree._entries s0x = WritableTree._entries s0 /\
                 WritableTree._state s0x = WritableTree._state s0 /\
                 WritableTree._changes s0x = WritableTree._changes s0 /\
                 WritableTree._nextNode s0x = WritableTree._nextNode s0).
    { destruct e0 as [? ? ? ? ? [[target|]|] ? ?]; injection Hext as <-; auto. }
    destruct Hx as (Hx1 & Hx2 & Hx3 & Hx4).
    match type of Hrun with context [WritableTree._insertEntry ?x] => set (entry := x) in * end.
    assert (Hep : relativePath entry = np) by now apply new_file_path.
    destruct (write_tail s0x s0 change entry _ s1 Hx1 Hx2 Hx3 Hx4 Hs (or_intror eq_refl) Hrun)
      as (kept & tracked & Hst1 & Hs1 & Hmem1 & Hch1 & Hsub & Ht).
    rewrite Hep in Hmem1, Hch1.
    exists entry, kept, tracked. repeat split; try assumption; try reflexivity.
    + congruence.
    + apply Hmem1.
    + apply Hmem1.
  - unfold bind at 1, ret in Hrun.
    match type of Hrun with context [WritableTree._insertEntry ?x] => set (entry := x) in * end.
    assert (Hep : relativePath entry = np) by now apply new_file_path.
    destruct (write_tail s0 s0 create entry _ s1 eq_refl eq_refl eq_refl eq_refl Hs
                (or_introl eq_refl) Hrun)
      as (kept & tracked & Hst1 & Hs1 & Hmem1 & Hch1 & Hsub & Ht).
    rewrite Hep in Hmem1, Hch1.
    exists entry, kept, tracked. repeat split; try assumption; try reflexivity.
    + congruence.
    + apply Hmem1.
    + apply Hmem1.
Qed.

(** C4, with what it leaves unsaid.  The tree has ascending entries whose
    paths are not empty and do not end with the separator, and its changes
    were tracked at paths other than the property names of
    [Object.prototype] (of such a tree the list of the model is the list of
    the code).  Let [writeFileSync] return at the normalized path [np].
    When the tree did not hold the checksum of the content at [np], the call
    has put exactly one change, [create] or [change] at [np], at the end of
    the list of changes (what it kept of the list before is a sublist of
    it), and a second call with the same content returns and leaves the
    whole tree as it is: no call to the filesystem, no tracked change, the
    stored entry untouched.  When the tree held the checksum of the content
    at [np] already, the first call leaves the whole tree as it is, and so
    does the second: the two calls track no change at all. *)
Theorem writeFileSync_twice s0 relPath np content now1 now2 s1 :
  entries_ok s0 -> plain_tracker s0 ->
  Shared.normalizeRelativePath relPath = Ok np ->
  WritableTree.writeFileSync relPath content now1 s0 = (s1, Ok tt) ->
  (holds_content s0 np content = false ->
   (exists kept n,
      WritableTree._changes s1 = kept ++ [n] /\
      kept `sublist_of` WritableTree._changes s0 /\
      WritableTree.node_id n = WritableTree._nextNode s0 /\
      change_path (WritableTree.node_change n) = np /\
      (operation (WritableTree.node_change n) = create \/
       operation (WritableTree.node_change n) = change)) /\
   WritableTree.writeFileSync relPath content now2 s1 = (s1, Ok tt)) /\
  (holds_content s0 np content = true ->
   s1 = s0 /\
   WritableTree.writeFileSync relPath content now2 s1 = (s1, Ok tt)).
Proof.
  intros Hok _ Hnorm Hrun. split; intros Hhold.
  2: { destruct (writeFileSync_held _ _ _ _ _ _ Hok Hnorm Hhold Hrun) as [-> Hall].
       split; [reflexivity|apply Hall]. }
  assert (Hmode : file_mode_at s0 np).
  { intros e owner Hf.
    destruct (writeFileSync_found _ _ _ _ _ _ _ _ Hok Hnorm Hrun Hf)
      as (e' & [= <-] & _ & _ & _ & _ & Hm). exact Hm. }
  destruct (writeFileSync_writes _ _ _ _ _ _ Hok Hnorm Hhold Hmode Hrun)
    as (entry & kept & tracked & Hep & Hsym & Hmd & Hck & Hne & Hpar & Hst1 & Hs1 &
        Hmem1 & Hch1 & Hsub & Ht).
  split.
  { eexists kept, _. split; [exact Hch1|]. auto. }
  assert (Hin : entry ∈ WritableTree._entries s1) by (apply Hmem1; now left).
  assert (Htoce : WritableTree._throwOnCommonErrors "writeFile" np relPath false false s1
                  = (s1, Ok tt)).
  { apply throwOnCommonErrors_intro; auto.
    - apply (parent_in_tree_ext s0); auto. intros x Hx Hxp. apply Hmem1. now right.
    - intros _ x Hx Hxp. apply Hmem1 in Hx as [->|[_ Hx]]; [|contradiction].
      unfold EntryJs.isSymbolicLink. now rewrite Hsym. }
  assert (Hfind : WritableTree._findByRelativePath s1 np None
                  = Some (Stored entry, WritableTree.This)).
  { rewrite <- Hep. apply find_stored; auto. congruence. }
  unfold WritableTree.writeFileSync, lift. rewrite Hnorm.
  unfold bind at 1. rewrite (bind_run _ _ _ _ _ Htoce).
  unfold bind at 1, get. cbv zeta. rewrite Hfind.
  cbn [EntryJs.ref_isDirectory]. unfold EntryJs.isDirectory. rewrite Hsym, Hmd.
  rewrite Hck. cbn [optstr_seq]. rewrite String.eqb_refl.
  destruct entry as [? ? ? ? ? link ? ?]. simpl in Hsym. subst link. reflexivity.
Qed.




End WritableTreeWrites.

(* ------------------------------------------------------------------------- *)
(** ** Writable trees where the tracker holds something else                  *)
(* ------------------------------------------------------------------------- *)


(** C4 does not hold when the tree already holds the content at the path:
    neither call writes, and no change is tracked. *)
Lemma writeFileSync_twice_held_content :
  let s0 := Examples.restarted in
  let s1 := Examples.after [Examples.writeFileSync "f.txt" "a" 2%Z] s0 in
  let s2 := Examples.after [Examples.writeFileSync "f.txt" "a" 3%Z] s1 in
  WritableTree._state s0 = WritableTree.STARTED /\
  Examples.writeFileSync "f.txt" "a" 2%Z s0 = (s1, Ok tt) /\
  Examples.writeFileSync "f.txt" "a" 3%Z s1 = (s2, Ok tt) /\
  WritableTree._changes s2 = [] /\
  WritableTree.changes s2 = [].
Proof. cbv zeta. repeat split; vm_compute; reflexivity. Qed.

(* ------------------------------------------------------------------------- *)
(** ** A patch and a merge where the order and the error are others           *)
(* ------------------------------------------------------------------------- *)

(** C1 does not hold of the paths of the changes when a directory entry
    carries a final separator: the sorted array of ["a.js"] and ["a/"],
    compared with the empty array, gives the removal of the directory ["a"]
    and then that of the file ["a.js"], and ["a"], ["a.js"] is not a
    descending order. *)
Lemma calculatePatch_order_final_separator :
  exists ours theirs : @ManualTree.t PlainTree,
    ManualTree.new MoreExamples.walked false = Ok ours /\
    ManualTree.new [] false = Ok theirs /\
    map (fun c => (operation c, change_path c))
        (ManualTree.calculatePatch ours theirs ManualTree.defaultIsEqual)
    = [(rmdir, "a"); (unlink, "a.js")] /\
    Forall removes (ManualTree.calculatePatch ours theirs ManualTree.defaultIsEqual) /\
    ~ descending ["a"; "a.js"].
Proof.
  eexists _, _. split; [reflexivity|]. split; [reflexivity|].
  split; [reflexivity|]. split.
  - vm_compute. repeat constructor; (now left) || (now right).
  - intros Hd. apply StronglySorted_inv in Hd as [_ Hd].
    apply Forall_inv in Hd. discriminate Hd.
Qed.

(** C8 does not hold of a conflict below the root when [overwrite] is not
    set and the merge of the root fails first: the two inputs hold
    [sub/Foo.js] and [sub/foo.js], and both hold the file [dup.js]; without
    [overwrite] the merge fails with the error of overwriting at [dup.js],
    with [overwrite] it fails with the error of conflicting
    capitalizations. *)
Lemma merge_conflict_below_duplicate :
  let trees := [MoreExamples.below_a; MoreExamples.below_b] in
  tree_readdirSync MoreExamples.below_a "sub/" = Ok ["Foo.js"] /\
  tree_readdirSync MoreExamples.below_b "sub/" = Ok ["foo.js"] /\
  Js.toLowerCase "Foo.js" = Js.toLowerCase "foo.js" /\
  FSMergeTree.changes true 3 false (FSMergeTree.new trees)
  = (FSMergeTree.new trees, Throw (OverwriteRefused "" "dup.js")) /\
  FSMergeTree.changes true 3 true (FSMergeTree.new trees)
  = (FSMergeTree.new trees,
     Throw (ConflictingCapitalization "sub/" "Foo.js" "foo.js" 0 1)).
Proof. cbv zeta. repeat split; vm_compute; reflexivity. Qed.

(* ========================================================================= *)
(** * The properties at the trees of the examples                             *)
(* ========================================================================= *)

Lemma calculatePatch_order_witness :
  ManualTree.new Examples.ours_entries false = Ok Examples.ours /\
  ManualTree.new Examples.theirs_entries false = Ok Examples.theirs /\
  Forall no_trailing_separator (Examples.ours_entries ++ Examples.theirs_entries) /\
  exists removals additions,
    ManualTree.calculatePatch Examples.ours Examples.theirs ManualTree.defaultIsEqual =
      removals ++ additions /\
    Forall removes removals /\
    Forall adds_or_updates additions /\
    descending (map (fun c => relativePath (change_entry c)) removals) /\
    ascending (map (fun c => relativePath (change_entry c)) additions) /\
    (Forall no_trailing_separator (Examples.ours_entries ++ Examples.theirs_entries) ->
     descending (map change_path removals) /\
     ascending (map change_path additions)).
Proof.
  split; [reflexivity|]. split; [reflexivity|]. split.
  - repeat constructor; intros _; vm_compute; discriminate.
  - apply (calculatePatch_order Examples.ours_entries Examples.theirs_entries);
      reflexivity.
Defined.

Lemma calculatePatch_kind_change_witness :
  encounters (ManualTree.entries Examples.subdir1_as_file)
    (ManualTree.entries Examples.subdir1_as_directory)
    Examples.file_subdir1 Examples.directory_subdir1 /\
  ManualTree.defaultIsEqual Examples.file_subdir1 Examples.directory_subdir1 = false /\
  EntryJs.isFile Examples.file_subdir1 <> EntryJs.isFile Examples.directory_subdir1 /\
  exists before between after,
    ManualTree.calculatePatch Examples.subdir1_as_file Examples.subdir1_as_directory
      ManualTree.defaultIsEqual =
      before ++ ManualTree.removeCommand Examples.file_subdir1 :: between ++
      ManualTree.addCommand Examples.directory_subdir1 :: after.
Proof.
  assert (He : encounters (ManualTree.entries Examples.subdir1_as_file)
                 (ManualTree.entries Examples.subdir1_as_directory)
                 Examples.file_subdir1 Examples.directory_subdir1).
  { eexists _, _. split; [apply visits_start|reflexivity]. }
  assert (Hk : EntryJs.isFile Examples.file_subdir1 <>
               EntryJs.isFile Examples.directory_subdir1).
  { vm_compute. discriminate. }
  split; [exact He|]. split; [reflexivity|]. split; [exact Hk|].
  destruct (proj1 (@calculatePatch_kind_change PlainTree)
              Examples.subdir1_as_file Examples.subdir1_as_directory
              ManualTree.defaultIsEqual _ _ He eq_refl Hk)
    as (before & between & after & Hp & _).
  now exists before, between, after.
Defined.

Lemma merge_conflicting_capitalization_witness :
  exists originalName fileName originalIndex index,
    FSMergeTree._mergeRelativePath true 1 [Examples.input_a; Examples.input_b]
      false "" None =
    Throw (ConflictingCapitalization "" originalName fileName originalIndex index) /\
    ("" = "" -> @None (list nat) = None ->
     forall current,
       FSMergeTree.changes true 1 false
         (FSMergeTree.Make [Examples.input_a; Examples.input_b] current) =
       (FSMergeTree.Make [Examples.input_a; Examples.input_b] current,
        Throw (ConflictingCapitalization "" originalName fileName originalIndex index))).
Proof.
  apply (merge_conflicting_capitalization true false 0
           [Examples.input_a; Examples.input_b] "" None
           [["Foo.js"]; ["foo.js"]] 0 1 Examples.input_a Examples.input_b
           ["Foo.js"] ["foo.js"] "Foo.js" "foo.js");
    try reflexivity; try exact I; try (apply list_elem_of_singleton; reflexivity);
    try discriminate.
  repeat constructor.
Defined.

Lemma writeFileSync_twice_witness :
  ((exists kept n,
      WritableTree._changes Examples.changed = kept ++ [n] /\
      kept `sublist_of` WritableTree._changes Examples.restarted /\
      WritableTree.node_id n = WritableTree._nextNode Examples.restarted /\
      change_path (WritableTree.node_change n) = "f.txt" /\
      (operation (WritableTree.node_change n) = create \/
       operation (WritableTree.node_change n) = change)) /\
   WritableTree.writeFileSync (H0 := example_md5) "f.txt" "b" 3%Z Examples.changed
   = (Examples.changed, Ok tt)) /\
  (Examples.restarted = Examples.restarted /\
   WritableTree.writeFileSync (H0 := example_md5) "f.txt" "a" 3%Z Examples.restarted
   = (Examples.restarted, Ok tt)).
Proof.
  assert (Hok : entries_ok Examples.restarted).
  { split; [vm_compute; repeat constructor|].
    vm_compute; repeat constructor; vm_compute; discriminate. }
  assert (Hplain : plain_tracker Examples.restarted).
  { apply (plain_start Examples.written). vm_compute; reflexivity. }
  assert (Hnorm : Shared.normalizeRelativePath "f.txt" = Ok "f.txt")
    by (vm_compute; reflexivity).
  assert (Hb : WritableTree.writeFileSync (H0 := example_md5) "f.txt" "b" 2%Z
                 Examples.restarted = (Examples.changed, Ok tt))
    by (vm_compute; reflexivity).
  assert (Ha : WritableTree.writeFileSync (H0 := example_md5) "f.txt" "a" 2%Z
                 Examples.restarted = (Examples.restarted, Ok tt))
    by (vm_compute; reflexivity).
  split.
  - refine (proj1 (writeFileSync_twice (H0 := example_md5) Examples.restarted "f.txt"
                     "f.txt" "b" 2%Z 3%Z Examples.changed Hok Hplain Hnorm Hb) _).
    vm_compute; reflexivity.
  - refine (proj2 (writeFileSync_twice (H0 := example_md5) Examples.restarted "f.txt"
                     "f.txt" "a" 2%Z 3%Z Examples.restarted Hok Hplain Hnorm Ha) _).
    vm_compute; reflexivity.
Defined.



Lemma projection_empty_files_witness :
  exists p,
    Projection.new Examples.parent
      (Projection.MkOptions (Some "my-directory") (Projection.FilesArray []) None None)
    = Ok p /\
    Projection.entries (H0 := example_minimatch) 2 p = Ok [] /\
    Projection.paths (H0 := example_minimatch) 2 p = Ok [].
Proof.
  eexists. split; [reflexivity|].
  apply (proj1 (proj2 (@projection_empty_files PlainTree _ example_minimatch))
           Examples.parent (Some "my-directory") None None _ 2).
  reflexivity.
Defined.

(* ========================================================================= *)
(** * Further properties of the shared functions                              *)
(* ========================================================================= *)

Section SharedExtras.
Context {T : Type}.
Implicit Types (es : list (Entry T)) (e : Entry T) (p : string).

Lemma validate_from_violation (rest : list (Entry T)) : forall i previous j a b,
  Shared.validate_from i previous rest = Throw (NotSortedUnique j a b) <->
  exists k, j = i + k /\
    (previous :: map relativePath rest) !! k = Some a /\
    map relativePath rest !! k = Some b /\
    Js.lt a b = false /\
    ascending (take (S k) (previous :: map relativePath rest)).
Proof.
  induction rest as [|e rest IH]; intros i previous j a b.
  - simpl. split; [discriminate|]. intros (k & _ & _ & Hb & _). now destruct k.
  - cbn [Shared.validate_from map].
    destruct (Js.lt previous (relativePath e)) eqn:Hlt.
    + rewrite IH. split.
      * intros (k & -> & Ha & Hb & Hab & Hs). exists (S k).
        split; [lia|]. split; [exact Ha|]. split; [exact Hb|]. split; [exact Hab|].
        change (take (S (S k)) (previous :: relativePath e :: map relativePath rest))
          with (previous :: take (S k) (relativePath e :: map relativePath rest)).
        constructor; [exact Hs|]. simpl. constructor; [exact Hlt|].
        simpl in Hs. apply StronglySorted_inv in Hs as [_ Hall].
        eapply Forall_impl; [exact Hall|]. intros z Hz.
        eapply path_lt_trans; eauto.
      * intros (k & -> & Ha & Hb & Hab & Hs). destruct k as [|k].
        -- simpl in Ha, Hb. injection Ha as <-. injection Hb as <-. congruence.
        -- exists k.
           split; [lia|]. split; [exact Ha|]. split; [exact Hb|]. split; [exact Hab|].
           change (take (S (S k)) (previous :: relativePath e :: map relativePath rest))
             with (previous :: take (S k) (relativePath e :: map relativePath rest)) in Hs.
           now apply StronglySorted_inv in Hs as [Hs _].
    + split.
      * intros [= <- <- <-]. exists 0.
        split; [lia|]. split; [reflexivity|]. split; [reflexivity|].
        split; [exact Hlt|]. simpl. repeat constructor.
      * intros (k & -> & Ha & Hb & Hab & Hs). destruct k as [|k].
        -- simpl in Ha, Hb. injection Ha as <-. injection Hb as <-.
           now rewrite Nat.add_0_r.
        -- change (take (S (S k)) (previous :: relativePath e :: map relativePath rest))
             with (previous :: take (S k) (relativePath e :: map relativePath rest)) in Hs.
           apply StronglySorted_inv in Hs as [_ Hall]. simpl in Hall.
           apply Forall_inv in Hall. unfold path_lt in Hall. congruence.
Qed.

(** X1. [validateSortedUnique] returns exactly on the arrays that are
    strictly ascending in [relativePath]; otherwise it throws at the first
    index [i] whose path is not above the path before it, and the error
    carries [i] and the two paths. *)
Theorem validateSortedUnique_verdict es :
  (Shared.validateSortedUnique es = Ok tt <-> ascending (map relativePath es)) /\
  (forall i previous current,
     Shared.validateSortedUnique es = Throw (NotSortedUnique i previous current) <->
     exists a b, 0 < i /\ es !! (i - 1) = Some a /\ es !! i = Some b /\
       relativePath a = previous /\ relativePath b = current /\
       Js.lt previous current = false /\
       ascending (map relativePath (take i es))).
Proof.
  split; [apply validateSortedUnique_sorted|].
  intros i previous current. destruct es as [|e rest].
  - simpl. split; [discriminate|]. intros (a & b & _ & _ & Hb & _). discriminate.
  - cbn [Shared.validateSortedUnique]. rewrite validate_from_violation.
    change (relativePath e :: map relativePath rest) with (map relativePath (e :: rest)).
    split.
    + intros (k & -> & Ha & Hb & Hab & Hs).
      rewrite list_lookup_fmap in Ha, Hb.
      destruct ((e :: rest) !! k) as [a'|] eqn:Ea; [|discriminate].
      destruct (rest !! k) as [b'|] eqn:Eb; [|discriminate].
      injection Ha as <-. injection Hb as <-.
      exists a', b'. replace (1 + k - 1) with k by lia.
      split; [lia|]. split; [exact Ea|]. split; [exact Eb|].
      split; [reflexivity|]. split; [reflexivity|]. split; [exact Hab|].
      change (map relativePath) with (fmap (M:=list) (@relativePath T)).
      rewrite fmap_take. exact Hs.
    + intros (a & b & Hi & Ha & Hb & <- & <- & Hab & Hs).
      destruct i as [|k]; [lia|]. exists k.
      replace (S k - 1) with k in Ha by lia. simpl in Hb.
      rewrite !list_lookup_fmap, Ha, Hb.
      split; [reflexivity|]. split; [reflexivity|]. split; [reflexivity|].
      split; [exact Hab|].
      change (map relativePath) with (fmap (M:=list) (@relativePath T)) in Hs.
      now rewrite fmap_take in Hs.
Qed.


(** X2. On an array that is strictly ascending in [relativePath], the
    search without [closest] returns the index of the entry that has the
    path, and [-1] when no entry has it. *)
Theorem searchByRelativePath_exact es p :
  ascending (map relativePath es) ->
  (forall i e, es !! i = Some e -> relativePath e = p ->
     Shared.searchByRelativePath es p false = Z.of_nat i) /\
  ((forall e, e ∈ es -> relativePath e <> p) ->
     Shared.searchByRelativePath es p false = (-1)%Z).
Proof.
  intros Hs. split.
  - intros i e Hi <-. now apply search_elem.
  - intros Habs. destruct (stands_at_exists es p Hs) as [k Hk].
    rewrite (search_spec es p k false Hs Hk).
    destruct (es !! k) as [e|] eqn:Ek; [|reflexivity].
    destruct (Js.seq (relativePath e) p) eqn:Eq; [|reflexivity].
    apply jsseq_spec in Eq. destruct (Habs e); [|exact Eq].
    eapply list_elem_of_lookup_2; eauto.
Qed.

(** X3. On an array that is strictly ascending in [relativePath], the
    search with [closest] returns the index of the last entry whose path is
    not above the path looked for: the entries up to that index are those
    whose path is at most the path, and the result is [-1] when there is
    none. *)
Theorem searchByRelativePath_closest es p :
  ascending (map relativePath es) ->
  (-1 <= Shared.searchByRelativePath es p true < Z.of_nat (length es))%Z /\
  (forall i e, es !! i = Some e ->
     (Z.of_nat i <= Shared.searchByRelativePath es p true)%Z <->
     Js.gt (relativePath e) p = false).
Proof.
  intros Hs. destruct (stands_at_exists es p Hs) as [k Hk].
  rewrite (search_spec es p k true Hs Hk).
  pose proof Hk as (Hlen & Hlo & Hhi).
  assert (Hbelow : forall i e, es !! i = Some e -> i < k ->
                     Js.gt (relativePath e) p = false).
  { intros i e Hi Hik. rewrite jsgt_lt. apply jslt_asym. eapply Hlo; eauto. }
  assert (Habove : forall i e, es !! i = Some e -> k <= i -> relativePath e <> p ->
                     Js.gt (relativePath e) p = true).
  { intros i e Hi Hki Hne. rewrite jsgt_lt.
    destruct (Js.lt p (relativePath e)) eqn:E; [reflexivity|].
    destruct (Js.lt (relativePath e) p) eqn:E'.
    - destruct (Hhi _ _ Hi Hki). exact E'.
    - destruct Hne. now apply jslt_total. }
  destruct (es !! k) as [ek|] eqn:Ek.
  - destruct (Js.seq (relativePath ek) p) eqn:Eq.
    + apply jsseq_spec in Eq. apply lookup_lt_Some in Ek as Hk'.
      split; [lia|]. intros i e Hi. split.
      * intros Hik. destruct (decide (i = k)) as [->|Hne].
        -- rewrite Ek in Hi. injection Hi as <-. rewrite Eq. apply jsgt_irrefl.
        -- apply (Hbelow i); [exact Hi|lia].
      * intros Hg. destruct (decide (i <= k)) as [Hle|Hgt]; [lia|].
        rewrite (Habove i e Hi) in Hg; [discriminate|lia|].
        rewrite <- Eq. apply not_eq_sym, path_lt_neq.
        eapply ascending_lookup; eauto. lia.
    + apply jsseq_false in Eq. split; [lia|]. intros i e Hi. split.
      * intros Hik. apply (Hbelow i); [exact Hi|lia].
      * intros Hg. destruct (decide (i < k)) as [Hlt|Hge]; [lia|].
        rewrite (Habove i e Hi) in Hg; [discriminate|lia|].
        destruct (decide (i = k)) as [->|Hne]; [congruence|].
        intros Hp. apply (Hhi _ _ Ek); [lia|]. rewrite <- Hp.
        eapply ascending_lookup; eauto. lia.
  - apply lookup_ge_None in Ek. split; [lia|]. intros i e Hi. split.
    + intros _. apply lookup_lt_Some in Hi as Hi'. apply (Hbelow i); [exact Hi|lia].
    + intros _. apply lookup_lt_Some in Hi. lia.
Qed.

(** The loop of the search, on any array: it ends, an index it finds holds
    the path, and it stops between the bounds. *)
Lemma search_loop_any es p : forall fuel low high,
  (0 <= low)%Z -> (high < Z.of_nat (length es))%Z -> (low <= high + 1)%Z ->
  (high - low < Z.of_nat fuel)%Z ->
  match Shared.search_loop fuel es p low high with
  | Some (Shared.Found middle) =>
      (low <= middle <= high)%Z /\
      exists e, Shared.aget es middle = Some e /\ relativePath e = p
  | Some (Shared.NotFound low' high') =>
      low' = (high' + 1)%Z /\ (low <= low' <= high + 1)%Z
  | None => False
  end.
Proof.
  induction fuel as [|fuel IH]; intros low high Hl Hh Hlh Hf.
  - simpl. destruct (Z.leb_spec low high); lia.
  - simpl. destruct (Z.leb_spec low high) as [Hle|Hgt]; [|lia].
    set (middle := (low + (high - low) ÷ 2)%Z).
    assert (Hm : (low <= middle <= high)%Z).
    { subst middle. pose proof (Z.quot_pos (high - low) 2 ltac:(lia) ltac:(lia)).
      assert ((high - low) ÷ 2 <= high - low)%Z; [|lia].
      rewrite Z.quot_div_nonneg by lia. apply Z.div_le_upper_bound; lia. }
    destruct (Shared.aget es middle) as [e|] eqn:Ha.
    2:{ unfold Shared.aget in Ha. destruct (Z.ltb_spec middle 0); [lia|].
        apply lookup_ge_None in Ha. lia. }
    destruct (Js.seq p (relativePath e)) eqn:Hseq.
    { apply jsseq_spec in Hseq. split; [exact Hm|]. eauto. }
    destruct (Js.lt p (relativePath e)).
    + specialize (IH low (middle - 1)%Z).
      destruct (Shared.search_loop fuel es p low (middle - 1)) as [[m|l h]|];
        [destruct IH as [? ?]| |]; try lia; try (destruct IH; [lia..|]);
        try (split; [lia|assumption]); try lia.
    + specialize (IH (middle + 1)%Z high).
      destruct (Shared.search_loop fuel es p (middle + 1) high) as [[m|l h]|];
        [destruct IH as [? ?]| |]; try lia; try (destruct IH; [lia..|]);
        try (split; [lia|assumption]); try lia.
Qed.

(** X4. On any array, ascending or not, [searchByRelativePath] returns [-1]
    or an index of the array; and an index returned without [closest] is
    the index of an entry that has the path. *)
Theorem searchByRelativePath_bounds es p closest :
  (-1 <= Shared.searchByRelativePath es p closest < Z.of_nat (length es))%Z /\
  (closest = false -> Shared.searchByRelativePath es p closest <> (-1)%Z ->
   exists e, Shared.aget es (Shared.searchByRelativePath es p closest) = Some e /\
             relativePath e = p).
Proof.
  unfold Shared.searchByRelativePath.
  destruct es as [|first rest]; [simpl; split; [lia|easy]|].
  destruct (last (first :: rest)) as [final|]; [|simpl; split; [lia|easy]].
  set (es := first :: rest). set (len := Z.of_nat (length es)).
  assert (Hlen : (0 < len)%Z) by (subst len es; simpl; lia).
  destruct (Js.lt p (relativePath first)); [split; [lia|easy]|].
  destruct (Js.gt p (relativePath final)).
  { destruct closest; split; try lia; easy. }
  pose proof (search_loop_any es p (length es) 0 (len - 1)) as Hloop.
  destruct (Shared.search_loop (length es) es p 0 (len - 1)) as [[m|l h]|].
  - destruct Hloop as [Hm He]; try (subst len; lia). split; [lia|]. intros _ _. exact He.
  - destruct Hloop as [Hlh Hl]; try (subst len; lia).
    destruct closest; [|split; [lia|easy]]. split; [|discriminate].
    destruct (Z.geb_spec l len); [lia|].
    destruct (Z.ltb_spec l 0); [lia|].
    destruct (Shared.aget es l) as [e|]; [|lia].
    destruct (Js.lt (relativePath e) p); lia.
  - split; [lia|easy].
Qed.

End SharedExtras.

Section MergeExtras.
Context {T : Type}.
Implicit Types (es first second : list (Entry T)) (e x y : Entry T) (p : string).

Lemma merge_sorted_nil_l second : Shared.merge_sorted [] second = second.
Proof. now destruct second. Qed.

Lemma merge_sorted_nil_r first : Shared.merge_sorted first [] = first.
Proof. now destruct first. Qed.

Lemma merge_sorted_cons x first y second :
  Shared.merge_sorted (x :: first) (y :: second) =
  if Js.lt (relativePath x) (relativePath y)
  then x :: Shared.merge_sorted first (y :: second)
  else if Js.gt (relativePath x) (relativePath y)
       then y :: Shared.merge_sorted (x :: first) second
       else y :: Shared.merge_sorted first second.
Proof. reflexivity. Qed.

Lemma ascending_head x es :
  ascending (map relativePath (x :: es)) ->
  ascending (map relativePath es) /\
  forall e, e ∈ es -> path_lt (relativePath x) (relativePath e).
Proof.
  simpl. intros Hs. apply StronglySorted_inv in Hs as [Hs Hall]. split; [exact Hs|].
  intros e He. rewrite Forall_forall in Hall. apply Hall.
  apply list_elem_of_In, in_map, list_elem_of_In, He.
Qed.

Lemma ascending_cons x es :
  ascending (map relativePath es) ->
  (forall e, e ∈ es -> path_lt (relativePath x) (relativePath e)) ->
  ascending (map relativePath (x :: es)).
Proof.
  intros Hs Hall. simpl. constructor; [exact Hs|]. apply Forall_forall.
  intros q Hq. apply list_elem_of_In, in_map_iff in Hq as (e & <- & He).
  apply Hall, list_elem_of_In, He.
Qed.

Lemma merge_sorted_spec first : forall second,
  ascending (map relativePath first) -> ascending (map relativePath second) ->
  ascending (map relativePath (Shared.merge_sorted first second)) /\
  forall e, e ∈ Shared.merge_sorted first second <->
            e ∈ second \/
            (e ∈ first /\ forall y, y ∈ second -> relativePath y <> relativePath e).
Proof.
  induction first as [|x first IHf]; intros second Hf Hs.
  { rewrite merge_sorted_nil_l. split; [exact Hs|]. intros e. split; [now left|].
    intros [He|[He _]]; [exact He|]. now apply elem_of_nil in He. }
  induction second as [|y second IHs].
  { rewrite merge_sorted_nil_r. split; [exact Hf|]. intros e. split.
    - intros He. right. split; [exact He|]. intros z Hz. now apply elem_of_nil in Hz.
    - intros [He|[He _]]; [now apply elem_of_nil in He|exact He]. }
  rewrite merge_sorted_cons.
  destruct (ascending_head _ _ Hf) as [Hf' Hxf].
  destruct (ascending_head _ _ Hs) as [Hs' Hys].
  destruct (Js.lt (relativePath x) (relativePath y)) eqn:Hlt.
  - (* the entry of [first] comes first *)
    destruct (IHf (y :: second) Hf' Hs) as [Hm Hmem].
    assert (Hxs : forall z, z ∈ y :: second -> path_lt (relativePath x) (relativePath z)).
    { intros z [->|Hz]%elem_of_cons; [exact Hlt|].
      eapply path_lt_trans; [exact Hlt|]. now apply Hys. }
    split.
    + apply ascending_cons; [exact Hm|]. intros e He.
      apply Hmem in He as [He|[He _]]; auto.
    + intros e. rewrite elem_of_cons, Hmem. split.
      * intros [->|[He|[He Hne]]]; [right|now left|right].
        -- split; [now left|]. intros z Hz. apply not_eq_sym, path_lt_neq. auto.
        -- split; [now right|exact Hne].
      * intros [He|[[->|He]%elem_of_cons Hne]]; auto.
  - rewrite jsgt_lt. destruct (Js.lt (relativePath y) (relativePath x)) eqn:Hgt.
    + (* the entry of [second] comes first *)
      destruct (IHs Hs') as [Hm Hmem].
      assert (Hyf : forall z, z ∈ x :: first -> path_lt (relativePath y) (relativePath z)).
      { intros z [->|Hz]%elem_of_cons; [exact Hgt|].
        eapply path_lt_trans; [exact Hgt|]. now apply Hxf. }
      split.
      * apply ascending_cons; [exact Hm|]. intros e He.
        apply Hmem in He as [He|[He _]]; auto.
      * intros e. rewrite (elem_of_cons (Shared.merge_sorted _ _)), Hmem. split.
        -- intros [->|[He|[He Hne]]]; [left; now left|left; now right|right].
           split; [exact He|]. intros z [->|Hz]%elem_of_cons; [|auto].
           apply path_lt_neq. auto.
        -- intros [[->|He]%elem_of_cons|[He Hne]]; auto.
           right. right. split; [exact He|]. intros z Hz. apply Hne. now right.
    + (* the same path: the entry of [second] replaces the one of [first] *)
      assert (Hxy : relativePath x = relativePath y) by now apply jslt_total.
      destruct (IHf second Hf' Hs') as [Hm Hmem].
      split.
      * apply ascending_cons; [exact Hm|]. intros e He.
        apply Hmem in He as [He|[He _]]; [auto|]. rewrite <- Hxy. auto.
      * intros e. rewrite (elem_of_cons (Shared.merge_sorted _ _)), Hmem. split.
        -- intros [->|[He|[He Hne]]]; [left; now left|left; now right|right].
           split; [now right|]. intros z [->|Hz]%elem_of_cons; [|auto].
           rewrite <- Hxy. apply path_lt_neq. auto.
        -- intros [[->|He]%elem_of_cons|[[->|He]%elem_of_cons Hne]]; auto.
           ++ destruct (Hne y); [now left|congruence].
           ++ right. right. split; [exact He|]. intros z Hz. apply Hne. now right.
Qed.

End MergeExtras.

(* ------------------------------------------------------------------------- *)
(** ** Sorting with a comparator                                              *)
(* ------------------------------------------------------------------------- *)

Section SortSorted.
Context {A : Type} (compare : A -> A -> Z).
Hypothesis compare_flip : forall a b, (compare a b > 0)%Z -> (compare b a <= 0)%Z.
Hypothesis compare_trans :
  forall a b c, (compare a b <= 0)%Z -> (compare b c <= 0)%Z -> (compare a c <= 0)%Z.

Local Abbreviation before := (fun a b : A => (compare a b <= 0)%Z).

Lemma sort_insert_sorted x l :
  StronglySorted before l -> StronglySorted before (Shared.sort_insert compare x l).
Proof.
  induction 1 as [|y l Hl IH Hy]; simpl; [repeat constructor|].
  destruct (Z.gtb_spec (compare y x) 0) as [Hgt|Hle].
  - constructor; [now constructor|]. constructor; [apply compare_flip; lia|].
    eapply Forall_impl; [exact Hy|]. intros z Hz.
    eapply compare_trans; [|exact Hz]. apply compare_flip. lia.
  - constructor; [exact IH|]. apply Forall_forall. intros z Hz.
    rewrite (sort_insert_Permutation compare x l) in Hz.
    apply elem_of_cons in Hz as [->|Hz]; [exact Hle|].
    rewrite Forall_forall in Hy. auto.
Qed.

Lemma sort_fold_sorted l : forall acc,
  StronglySorted before acc ->
  StronglySorted before (fold_left (fun acc x => Shared.sort_insert compare x acc) l acc).
Proof.
  induction l as [|x l IH]; intros acc Hacc; simpl; [exact Hacc|].
  apply IH. now apply sort_insert_sorted.
Qed.

(** What [sort] returns is in the order of the comparator. *)
Lemma sort_sorted l : StronglySorted before (Shared.sort compare l).
Proof. apply sort_fold_sorted. constructor. Qed.

Lemma sort_insert_last x l :
  Forall (fun y => (compare y x <= 0)%Z) l -> Shared.sort_insert compare x l = l ++ [x].
Proof.
  induction 1 as [|y l Hy Hl IH]; simpl; [reflexivity|].
  destruct (Z.gtb_spec (compare y x) 0); [lia|]. now rewrite IH.
Qed.

(** [sort] leaves an array that is in the order of the comparator as it is. *)
Lemma sort_sorted_id l : StronglySorted before l -> Shared.sort compare l = l.
Proof.
  intros Hl. unfold Shared.sort.
  assert (Hgen : forall acc, StronglySorted before (acc ++ l) ->
            fold_left (fun acc x => Shared.sort_insert compare x acc) l acc = acc ++ l).
  { clear Hl. induction l as [|x l IH]; intros acc Hs; simpl.
    - now rewrite app_nil_r.
    - rewrite sort_insert_last.
      + rewrite IH; rewrite <- app_assoc; [reflexivity|exact Hs].
      + apply Forall_forall. intros y Hy.
        apply (StronglySorted_app_1_elem_of _ _ _ _ _ Hs); [exact Hy|now left]. }
  apply (Hgen []). exact Hl.
Qed.

End SortSorted.

(* ------------------------------------------------------------------------- *)
(** ** The comparators of entries and of changes                              *)
(* ------------------------------------------------------------------------- *)

Section Comparators.
Context {T : Type}.
Implicit Types (e x y : Entry T).

Lemma jslt_cases a b : Js.lt b a = false -> Js.lt a b = true \/ a = b.
Proof.
  intros Hba. destruct (Js.lt a b) eqn:Hab; [now left|right]. now apply jslt_total.
Qed.

Lemma jsle_trans a b c :
  Js.lt b a = false -> Js.lt c b = false -> Js.lt c a = false.
Proof.
  intros Hba Hcb. destruct (Js.lt c a) eqn:Hca; [|reflexivity].
  destruct (jslt_cases _ _ Hba) as [Hab| ->]; [|congruence].
  rewrite (jslt_trans _ _ _ Hca Hab) in Hcb. discriminate.
Qed.

Lemma comparePaths_le a b : (Shared._comparePaths a b <= 0)%Z <-> Js.lt b a = false.
Proof.
  unfold Shared._comparePaths. rewrite jsgt_lt.
  destruct (Js.lt b a); [split; [lia|discriminate]|].
  destruct (Js.lt a b); split; auto; lia.
Qed.

Lemma comparePaths_ge a b : (0 <= Shared._comparePaths a b)%Z <-> Js.lt a b = false.
Proof.
  unfold Shared._comparePaths. rewrite jsgt_lt.
  destruct (Js.lt b a) eqn:Hba.
  - apply jslt_asym in Hba. rewrite Hba. split; [reflexivity|lia].
  - destruct (Js.lt a b); split; auto; try lia; discriminate.
Qed.

Lemma compareEntries_flip x y :
  (Shared.compareEntries x y > 0)%Z -> (Shared.compareEntries y x <= 0)%Z.
Proof.
  unfold Shared.compareEntries. intros Hgt. apply comparePaths_le.
  destruct (Js.lt (relativePath x) (relativePath y)) eqn:E; [|reflexivity].
  assert (Hle : (Shared._comparePaths (relativePath x) (relativePath y) <= 0)%Z); [|lia].
  apply comparePaths_le. now apply jslt_asym.
Qed.

Lemma compareEntries_trans x y z :
  (Shared.compareEntries x y <= 0)%Z -> (Shared.compareEntries y z <= 0)%Z ->
  (Shared.compareEntries x z <= 0)%Z.
Proof.
  unfold Shared.compareEntries. rewrite !comparePaths_le. apply jsle_trans.
Qed.

(** [compareChanges] puts removals before additions, removals by falling
    paths and additions by rising paths. *)
Lemma compareChanges_le (a b : Change T) :
  (Shared.compareChanges a b <= 0)%Z <->
  match Shared.is_remove (operation a), Shared.is_remove (operation b) with
  | true, false => True
  | false, true => False
  | true, true => Js.lt (change_path a) (change_path b) = false
  | false, false => Js.lt (change_path b) (change_path a) = false
  end.
Proof.
  unfold Shared.compareChanges.
  destruct (Shared.is_remove (operation a)), (Shared.is_remove (operation b)); simpl.
  - rewrite <- comparePaths_ge. lia.
  - split; [auto|lia].
  - split; [lia|easy].
  - apply comparePaths_le.
Qed.

Lemma compareChanges_flip (a b : Change T) :
  (Shared.compareChanges a b > 0)%Z -> (Shared.compareChanges b a <= 0)%Z.
Proof.
  intros Hgt. assert (Hn : ~ (Shared.compareChanges a b <= 0)%Z) by lia.
  rewrite compareChanges_le in Hn. rewrite compareChanges_le.
  destruct (Shared.is_remove (operation a)), (Shared.is_remove (operation b)); auto.
  - destruct (Js.lt (change_path a) (change_path b)) eqn:E; [|now destruct Hn].
    now apply jslt_asym.
  - destruct (Js.lt (change_path b) (change_path a)) eqn:E; [|now destruct Hn].
    now apply jslt_asym.
Qed.

Lemma compareChanges_trans (a b c : Change T) :
  (Shared.compareChanges a b <= 0)%Z -> (Shared.compareChanges b c <= 0)%Z ->
  (Shared.compareChanges a c <= 0)%Z.
Proof.
  rewrite !compareChanges_le.
  destruct (Shared.is_remove (operation a)), (Shared.is_remove (operation b)),
    (Shared.is_remove (operation c)); try easy.
  - intros Hab Hbc. eapply jsle_trans; eauto.
  - apply jsle_trans.
Qed.

(** A list of changes in the order of [compareChanges] is its removals in
    weakly descending order of path followed by its additions and updates
    in weakly ascending order of path. *)
Lemma ordered_changes_split (l : list (Change T)) :
  StronglySorted (fun a b => (Shared.compareChanges a b <= 0)%Z) l ->
  exists removals additions,
    l = removals ++ additions /\
    Forall removes removals /\ Forall adds_or_updates additions /\
    weakly_descending (map change_path removals) /\
    weakly_ascending (map change_path additions).
Proof.
  assert (Hrem : forall c : Change T, Shared.is_remove (operation c) = true -> removes c).
  { intros c. unfold removes. destruct (operation c); simpl; auto; discriminate. }
  assert (Hadd : forall c : Change T,
             Shared.is_remove (operation c) = false -> adds_or_updates c).
  { intros c. unfold adds_or_updates. destruct (operation c); simpl; auto; discriminate. }
  induction 1 as [|c l Hl IH Hc].
  - exists [], []. repeat split; constructor.
  - destruct IH as (removals & additions & -> & Hr & Ha & Hrd & Haa).
    destruct (Shared.is_remove (operation c)) eqn:Ec.
    + exists (c :: removals), additions. split; [reflexivity|].
      split; [constructor; auto|]. split; [exact Ha|]. split; [|exact Haa].
      simpl. constructor; [exact Hrd|]. apply Forall_forall. intros q Hq.
      apply list_elem_of_In, in_map_iff in Hq as (d & <- & Hd).
      rewrite Forall_forall in Hc. specialize (Hc d).
      rewrite compareChanges_le, Ec in Hc.
      assert (Hdr : Shared.is_remove (operation d) = true).
      { rewrite Forall_forall in Hr. apply list_elem_of_In, Hr in Hd.
        destruct Hd as [-> | ->]; reflexivity. }
      rewrite Hdr in Hc. apply Hc. apply elem_of_app. left. now apply list_elem_of_In.
    + assert (Hnone : removals = []).
      { destruct removals as [|d removals]; [reflexivity|].
        rewrite Forall_forall in Hc. specialize (Hc d).
        rewrite compareChanges_le, Ec in Hc.
        apply Forall_inv in Hr. 
        assert (Hdr : Shared.is_remove (operation d) = true)
          by (destruct Hr as [-> | ->]; reflexivity).
        rewrite Hdr in Hc. destruct Hc. now left. }
      subst removals. exists [], (c :: additions). split; [reflexivity|].
      split; [constructor|]. split; [constructor; auto|]. split; [constructor|].
      simpl. constructor; [exact Haa|]. apply Forall_forall. intros q Hq.
      apply list_elem_of_In, in_map_iff in Hq as (d & <- & Hd).
      rewrite Forall_forall in Hc. specialize (Hc d).
      rewrite compareChanges_le, Ec in Hc.
      assert (Hdr : Shared.is_remove (operation d) = false).
      { rewrite Forall_forall in Ha. apply list_elem_of_In, Ha in Hd.
        destruct Hd as [-> | [-> | ->]]; reflexivity. }
      rewrite Hdr in Hc. apply Hc. now apply list_elem_of_In.
Qed.

Lemma ordered_entries_paths (l : list (Entry T)) :
  StronglySorted (fun a b => (Shared.compareEntries a b <= 0)%Z) l ->
  weakly_ascending (map relativePath l).
Proof.
  induction 1 as [|e l Hl IH He]; simpl; constructor; [exact IH|].
  apply Forall_forall. intros q Hq.
  apply list_elem_of_In, in_map_iff in Hq as (d & <- & Hd).
  rewrite Forall_forall in He. apply comparePaths_le. apply (He d).
  now apply list_elem_of_In.
Qed.

Lemma ascending_weakly (l : list string) : ascending l -> weakly_ascending l.
Proof.
  induction 1 as [|p l Hl IH Hp]; constructor; [exact IH|].
  eapply Forall_impl; [exact Hp|]. intros q Hq. now apply jslt_asym.
Qed.

End Comparators.

(* ------------------------------------------------------------------------- *)
(** ** Normalized paths are the fixed points of the normalization             *)
(* ------------------------------------------------------------------------- *)

Section NormalizeExtras.

Lemma split_plain part :
  Js.contains_char slash part = false -> Js.split slash part = [part].
Proof.
  induction part as [|c part IH]; [reflexivity|].
  cbn [Js.contains_char Js.split]. intros Hc.
  apply orb_false_iff in Hc as [Hc Hp]. rewrite Ascii.eqb_sym in Hc.
  rewrite Hc, (IH Hp). reflexivity.
Qed.

Lemma split_app_sep part rest :
  Js.contains_char slash part = false ->
  Js.split slash (part +:+ sep +:+ rest) = part :: Js.split slash rest.
Proof.
  induction part as [|c part IH]; intros Hc.
  - change ("" +:+ sep +:+ rest) with (String slash rest).
    cbn [Js.split]. now rewrite Ascii.eqb_refl.
  - cbn [Js.contains_char] in Hc. apply orb_false_iff in Hc as [Hc Hp].
    rewrite Ascii.eqb_sym in Hc.
    change (String c part +:+ sep +:+ rest) with (String c (part +:+ sep +:+ rest)).
    cbn [Js.split]. rewrite Hc, (IH Hp). reflexivity.
Qed.

Lemma split_join parts :
  Forall (fun part => Js.contains_char slash part = false) parts -> parts <> [] ->
  Js.split slash (Js.join sep parts) = parts.
Proof.
  induction 1 as [|part parts Hp Hps IH]; intros Hne; [contradiction|].
  destruct parts as [|q parts].
  - simpl. now apply split_plain.
  - rewrite join_cons by discriminate. rewrite split_app_sep by exact Hp.
    rewrite IH by discriminate. reflexivity.
Qed.

Lemma normalize_parts_plain parts : forall kept out,
  Forall (fun part => Js.contains_char slash part = false) parts ->
  Forall plain_segment kept ->
  Shared.normalize_parts kept parts = Some out -> Forall plain_segment out.
Proof.
  induction parts as [|part parts IH]; intros kept out Hp Hk; simpl.
  - intros [= <-]. apply Forall_forall. intros x Hx.
    apply list_elem_of_In, in_rev, list_elem_of_In in Hx.
    rewrite Forall_forall in Hk. auto.
  - apply Forall_cons in Hp as [Hpart Hp].
    destruct (Js.seq part "") eqn:E1; simpl; [now apply IH|].
    destruct (Js.seq part ".") eqn:E2; simpl; [now apply IH|].
    destruct (Js.seq part "..") eqn:E3.
    + destruct kept as [|k kept]; [discriminate|].
      apply Forall_cons in Hk as [_ Hk]. now apply IH.
    + apply IH; auto. constructor; [|exact Hk].
      apply jsseq_false in E1, E2, E3. now repeat split.
Qed.

Lemma normalize_parts_id parts : forall kept,
  Forall plain_segment parts ->
  Shared.normalize_parts kept parts = Some (rev kept ++ parts).
Proof.
  induction parts as [|part parts IH]; intros kept Hp; simpl.
  - now rewrite app_nil_r.
  - apply Forall_cons in Hp as [(H1 & H2 & H3 & _) Hp].
    apply jsseq_false in H1, H2, H3. rewrite H1, H2, H3. simpl.
    rewrite IH by exact Hp. simpl. now rewrite <- app_assoc.
Qed.

Lemma normalizeRelativePath_fix q :
  canonical q -> Js.inherited_key q = false -> Shared.normalizeRelativePath q = Ok q.
Proof.
  intros (parts & Hp & ->) Hk. unfold Shared.normalizeRelativePath. rewrite Hk.
  destruct parts as [|part parts]; [reflexivity|].
  rewrite split_join; [|eapply Forall_impl; [exact Hp|]; now intros ? (_ & _ & _ & ?)
                       |discriminate].
  now rewrite normalize_parts_id.
Qed.

Lemma normalizeRelativePath_returns relPath q :
  Shared.normalizeRelativePath relPath = Ok q ->
  Js.inherited_key relPath = false /\ canonical q.
Proof.
  unfold Shared.normalizeRelativePath.
  destruct (Js.inherited_key relPath); [discriminate|].
  destruct (Shared.normalize_parts [] (Js.split slash relPath)) as [parts|] eqn:E;
    [|discriminate].
  intros [= <-]. split; [reflexivity|]. exists parts. split; [|reflexivity].
  eapply normalize_parts_plain; [apply split_no_sep|constructor|exact E].
Qed.

(** X6. The paths that [normalizeRelativePath] returns are canonical paths:
    made of segments that are not empty, not ["."] and not [".."], joined
    by single separators.  It returns a canonical path as it is, unless the
    path is a property name of [Object.prototype]: at such a name the test
    of the cache holds, and the function throws what it finds there.  So
    normalizing twice is normalizing once, but for the paths that normalize
    to such a name. *)
Theorem normalizeRelativePath_canonical :
  (forall relPath q, Shared.normalizeRelativePath relPath = Ok q ->
     canonical q /\
     (Js.inherited_key q = false -> Shared.normalizeRelativePath q = Ok q)) /\
  (forall q, canonical q -> Js.inherited_key q = false ->
     Shared.normalizeRelativePath q = Ok q) /\
  (forall relPath, Js.inherited_key relPath = true ->
     Shared.normalizeRelativePath relPath = Throw (ThrownValue relPath)).
Proof.
  split; [|split].
  - intros relPath q Hn. apply normalizeRelativePath_returns in Hn as (_ & Hc).
    split; [exact Hc|]. now apply normalizeRelativePath_fix.
  - apply normalizeRelativePath_fix.
  - intros relPath Hk. unfold Shared.normalizeRelativePath. now rewrite Hk.
Qed.

Lemma filled_insert (normalizedPaths : gmap string (Result string)) key :
  filled_by_normalizing normalizedPaths ->
  filled_by_normalizing (<[key := Shared.normalizeRelativePath key]> normalizedPaths).
Proof.
  intros Hf k r Hk. destruct (decide (key = k)) as [->|Hne].
  - rewrite lookup_insert_eq in Hk. congruence.
  - rewrite lookup_insert_ne in Hk by exact Hne. now apply Hf.
Qed.

(** X25. The cache of [normalizeRelativePath] does not change what the
    function returns: from a cache that the function alone has filled, it
    returns or throws what it computes without a cache, and the cache it
    leaves is again one that it alone has filled. *)
Theorem normalizeRelativePath_cache (normalizedPaths : gmap string (Result string)) relPath :
  filled_by_normalizing normalizedPaths ->
  snd (Shared.normalizeRelativePath_cached relPath normalizedPaths)
  = Shared.normalizeRelativePath relPath /\
  filled_by_normalizing (fst (Shared.normalizeRelativePath_cached relPath normalizedPaths)).
Proof.
  intros Hf. unfold Shared.normalizeRelativePath_cached, Shared.in_cache.
  destruct (normalizedPaths !! relPath) as [r|] eqn:Er.
  - rewrite bool_decide_eq_true_2 by eauto. cbn [orb].
    rewrite <- (Hf _ _ Er). now destruct r.
  - rewrite bool_decide_eq_false_2 by (intros [? [=]]). cbn [orb].
    destruct (Js.inherited_key relPath) eqn:Ek.
    + split; [|exact Hf]. unfold Shared.normalizeRelativePath. now rewrite Ek.
    + pose proof (filled_insert normalizedPaths relPath Hf) as H1.
      pose proof (normalizeRelativePath_returns relPath) as Hc.
      unfold Shared.normalizeRelativePath in H1, Hc |- *. rewrite Ek in H1, Hc |- *.
      destruct (Shared.normalize_parts [] (Js.split slash relPath)) as [parts|];
        cbv zeta; cbn [fst snd]; [|now split].
      split; [reflexivity|].
      destruct (bool_decide _ || Js.inherited_key (Js.join sep parts)) eqn:Ein;
        [exact H1|].
      apply orb_false_iff in Ein as [_ Ein].
      destruct (Hc _ eq_refl) as [_ Hq].
      pose proof (filled_insert _ (Js.join sep parts) H1) as H2.
      now rewrite (normalizeRelativePath_fix _ Hq Ein) in H2.
Qed.

End NormalizeExtras.


(* ------------------------------------------------------------------------- *)
(** ** Merging arrays of entries                                              *)
(* ------------------------------------------------------------------------- *)

Section MergeEntries.
Context {T : Type}.
Implicit Types (first second es : list (Entry T)) (e : Entry T).

(** X5. [mergeEntries] without [ignoreDuplicates], on two arrays that are
    strictly ascending in [relativePath], returns a strictly ascending
    array that holds the entries of [second], and the entries of [first]
    whose path [second] does not have: at a common path the entry of
    [second] replaces the one of [first].  With [ignoreDuplicates], on any
    two arrays, it returns all the entries of both, duplicates included, in
    weakly ascending order of [relativePath]. *)
Theorem mergeEntries_sorted first second :
  (ascending (map relativePath first) -> ascending (map relativePath second) ->
   ascending (map relativePath (Shared.mergeEntries first second false)) /\
   forall e, e ∈ Shared.mergeEntries first second false <->
             e ∈ second \/
             (e ∈ first /\ forall y, y ∈ second -> relativePath y <> relativePath e)) /\
  (Permutation (Shared.mergeEntries first second true) (first ++ second) /\
   weakly_ascending (map relativePath (Shared.mergeEntries first second true))).
Proof.
  split; [apply merge_sorted_spec|]. unfold Shared.mergeEntries. split.
  - apply sort_Permutation.
  - apply ordered_entries_paths, sort_sorted.
    + apply compareEntries_flip.
    + apply compareEntries_trans.
Qed.

(** X10. [addEntries] on a tree whose array is strictly ascending: an empty
    array of new entries leaves the tree as it is; a strictly ascending one
    is merged in, the new entries replacing those of the same path, and the
    array of the tree stays strictly ascending; any other array is refused
    with the error of [validateSortedUnique]. *)
Theorem addEntries_sorted (tree_ : ManualTree.t) es :
  ascending (map relativePath (ManualTree.entries tree_)) ->
  (es = [] -> ManualTree.addEntries tree_ es false = Ok tree_) /\
  (ascending (map relativePath es) ->
   exists tree', ManualTree.addEntries tree_ es false = Ok tree' /\
     ascending (map relativePath (ManualTree.entries tree')) /\
     forall e, e ∈ ManualTree.entries tree' <->
               e ∈ es \/
               (e ∈ ManualTree.entries tree_ /\
                forall y, y ∈ es -> relativePath y <> relativePath e)) /\
  (~ ascending (map relativePath es) ->
   exists i previous current,
     ManualTree.addEntries tree_ es false = Throw (NotSortedUnique i previous current)).
Proof.
  intros Ht. split; [now intros ->|]. split.
  - intros Hs. destruct es as [|e0 es].
    + exists tree_. split; [reflexivity|]. split; [exact Ht|].
      intros e. split; [intros He; right; split; [exact He|]|].
      * now intros y ?%elem_of_nil.
      * intros [?%elem_of_nil|[He _]]; [easy|exact He].
    + unfold ManualTree.addEntries.
      apply validateSortedUnique_sorted in Hs as Hv. rewrite Hv. simpl.
      eexists. split; [reflexivity|]. now apply merge_sorted_spec.
  - intros Hn. destruct es as [|e0 es]; [destruct Hn; constructor|].
    unfold ManualTree.addEntries. cbn [Shared.validateSortedUnique].
    destruct (validate_from_throws es 1 (relativePath e0)) as [Hok|(i & a & b & Hthrow)].
    + destruct Hn. now apply (validateSortedUnique_sorted (e0 :: es)).
    + rewrite Hthrow. simpl. eauto.
Qed.

End MergeEntries.


(* ========================================================================= *)
(** * Further properties of ManualTree                                        *)
(* ========================================================================= *)

Section ManualTreeExtras.
Context {T : Type}.
Implicit Types (x y e : Entry T) (ours theirs : list (Entry T)).
Implicit Types (isEqual : Entry T -> Entry T -> bool).

Local Abbreviation erp := Shared.entryRelativePath.

Lemma ascending_erp_head x ours :
  ascending (map erp (x :: ours)) ->
  ascending (map erp ours) /\ forall e, e ∈ ours -> path_lt (erp x) (erp e).
Proof.
  simpl. intros Hs. apply StronglySorted_inv in Hs as [Hs Hall]. split; [exact Hs|].
  intros e He. rewrite Forall_forall in Hall. apply Hall.
  apply list_elem_of_In, (in_map erp), list_elem_of_In, He.
Qed.

Lemma elem_of_map {A B} (f : A -> B) (l : list A) (b : B) :
  b ∈ map f l <-> exists a, b = f a /\ a ∈ l.
Proof.
  rewrite list_elem_of_In, in_map_iff. split; intros (a & Ha & Hl); exists a.
  - now rewrite list_elem_of_In.
  - now rewrite <- list_elem_of_In.
Qed.

(** What the loop of [calculatePatch] pushes, on ascending arrays. *)
Lemma walk_exact isEqual ours : forall theirs removals additions,
  ascending (map erp ours) -> ascending (map erp theirs) ->
  ManualTree.walk isEqual ours theirs = (removals, additions) ->
  (forall c, c ∈ removals <->
     exists x, x ∈ ours /\ c = ManualTree.removeCommand x /\
       forall y, y ∈ theirs -> erp y = erp x ->
                 isEqual x y = false /\ EntryJs.isFile x <> EntryJs.isFile y) /\
  (forall c, c ∈ additions <->
     (exists y, y ∈ theirs /\ c = ManualTree.addCommand y /\
        forall x, x ∈ ours -> erp x = erp y ->
                  isEqual x y = false /\ EntryJs.isFile x <> EntryJs.isFile y) \/
     (exists x y, x ∈ ours /\ y ∈ theirs /\ erp x = erp y /\
        isEqual x y = false /\ EntryJs.isFile x = EntryJs.isFile y /\
        c = ManualTree.updateCommand y)).
Proof.
  induction ours as [|x ours IHo]; intros theirs.
  { intros removals additions _ _. rewrite walk_nil_l. intros [= <- <-]. split.
    - intros c. split; [now intros ?%elem_of_nil|].
      now intros (x & ?%elem_of_nil & _).
    - intros c. rewrite (elem_of_map ManualTree.addCommand theirs c). split.
      + intros (y & -> & Hy). left. exists y. split; [exact Hy|].
        split; [reflexivity|]. now intros ? ?%elem_of_nil.
      + intros [(y & Hy & -> & _)|(x & y & ?%elem_of_nil & _)]; [eauto|easy]. }
  induction theirs as [|y theirs IHt]; intros removals additions Ho Ht.
  { rewrite walk_nil_r. intros [= <- <-]. split.
    - intros c. rewrite (elem_of_map ManualTree.removeCommand (x :: ours) c). split.
      + intros (x0 & -> & Hx). exists x0. split; [exact Hx|].
        split; [reflexivity|]. now intros ? ?%elem_of_nil.
      + intros (x0 & Hx & -> & _). eauto.
    - intros c. split; [now intros ?%elem_of_nil|].
      intros [(y & ?%elem_of_nil & _)|(x0 & y & _ & ?%elem_of_nil & _)]; easy. }
  destruct (ascending_erp_head _ _ Ho) as [Ho' Hxo].
  destruct (ascending_erp_head _ _ Ht) as [Ht' Hyt].
  rewrite walk_cons.
  destruct (Js.lt (erp x) (erp y)) eqn:Hlt.
  - (* [x] is not in [theirs] *)
    destruct (ManualTree.walk isEqual ours (y :: theirs)) as [r a] eqn:E.
    intros [= <- <-]. destruct (IHo _ _ _ Ho' Ht E) as [Hr Ha].
    assert (F : forall y0, y0 ∈ y :: theirs -> erp y0 <> erp x).
    { intros y0 [->|Hy0]%elem_of_cons; apply not_eq_sym, path_lt_neq; [exact Hlt|].
      eapply path_lt_trans; [exact Hlt|auto]. }
    split; intros c.
    + rewrite elem_of_cons, Hr. split.
      * intros [->|(x0 & Hx0 & -> & K)].
        -- exists x. split; [now left|]. split; [reflexivity|].
           intros y0 Hy0 Hp. now destruct (F y0 Hy0).
        -- exists x0. split; [now right|]. now split.
      * intros (x0 & [->|Hx0]%elem_of_cons & -> & K); [now left|right; eauto].
    + rewrite Ha. split.
      * intros [(y0 & Hy0 & -> & K)|(x0 & y0 & Hx0 & Hy0 & Hp & Hrest)].
        -- left. exists y0. split; [exact Hy0|]. split; [reflexivity|].
           intros x0 [->|Hx0]%elem_of_cons Hp; [now destruct (F y0 Hy0)|auto].
        -- right. exists x0, y0. split; [now right|]. now split.
      * intros [(y0 & Hy0 & -> & K)|(x0 & y0 & [->|Hx0]%elem_of_cons & Hy0 & Hp & Hrest)].
        -- left. exists y0. split; [exact Hy0|]. split; [reflexivity|].
           intros x0 Hx0. apply K. now right.
        -- now destruct (F y0 Hy0).
        -- right. exists x0, y0. now split.
  - rewrite jsgt_lt. destruct (Js.lt (erp y) (erp x)) eqn:Hgt.
    + (* [y] is not in [ours] *)
      destruct (ManualTree.walk isEqual (x :: ours) theirs) as [r a] eqn:E.
      intros [= <- <-]. destruct (IHt _ _ Ho Ht' eq_refl) as [Hr Ha].
      assert (F : forall x0, x0 ∈ x :: ours -> erp x0 <> erp y).
      { intros x0 [->|Hx0]%elem_of_cons; apply not_eq_sym, path_lt_neq; [exact Hgt|].
        eapply path_lt_trans; [exact Hgt|auto]. }
      split; intros c.
      * rewrite Hr. split.
        -- intros (x0 & Hx0 & -> & K). exists x0. split; [exact Hx0|].
           split; [reflexivity|].
           intros y0 [->|Hy0]%elem_of_cons Hp; [|auto].
           destruct (F x0 Hx0). congruence.
        -- intros (x0 & Hx0 & -> & K). exists x0. split; [exact Hx0|].
           split; [reflexivity|]. intros y0 Hy0. apply K. now right.
      * rewrite elem_of_cons, Ha. split.
        -- intros [->|[(y0 & Hy0 & -> & K)|(x0 & y0 & Hx0 & Hy0 & Hp & Hrest)]].
           ++ left. exists y. split; [now left|]. split; [reflexivity|].
              intros x0 Hx0 Hp. now destruct (F x0 Hx0).
           ++ left. exists y0. split; [now right|]. now split.
           ++ right. exists x0, y0. split; [exact Hx0|]. split; [now right|]. now split.
        -- intros [(y0 & [->|Hy0]%elem_of_cons & -> & K)
                  |(x0 & y0 & Hx0 & [->|Hy0]%elem_of_cons & Hp & Hrest)].
           ++ now left.
           ++ right. left. exists y0. now split.
           ++ now destruct (F x0 Hx0).
           ++ right. right. exists x0, y0. now split.
    + (* the same path *)
      assert (Hxy : erp x = erp y) by now apply jslt_total.
      destruct (ManualTree.walk isEqual ours theirs) as [r a] eqn:E.
      destruct (IHo _ _ _ Ho' Ht' E) as [Hr Ha].
      assert (Fo : forall x0, x0 ∈ ours -> erp x0 <> erp y).
      { intros x0 Hx0. rewrite <- Hxy. apply not_eq_sym, path_lt_neq. auto. }
      assert (Fy : forall y0, y0 ∈ theirs -> erp y0 <> erp x).
      { intros y0 Hy0. rewrite Hxy. apply not_eq_sym, path_lt_neq. auto. }
      assert (Hrem : forall c,
                (exists x0, x0 ∈ x :: ours /\ c = ManualTree.removeCommand x0 /\
                   forall y0, y0 ∈ y :: theirs -> erp y0 = erp x0 ->
                     isEqual x0 y0 = false /\ EntryJs.isFile x0 <> EntryJs.isFile y0) <->
                (c = ManualTree.removeCommand x /\ isEqual x y = false /\
                 EntryJs.isFile x <> EntryJs.isFile y) \/ c ∈ r).
      { intros c. rewrite Hr. split.
        - intros (x0 & [->|Hx0]%elem_of_cons & -> & K).
          + left. split; [reflexivity|]. apply K; [now left|auto].
          + right. exists x0. split; [exact Hx0|]. split; [reflexivity|].
            intros y0 Hy0. apply K. now right.
        - intros [(-> & Hne & Hk)|(x0 & Hx0 & -> & K)].
          + exists x. split; [now left|]. split; [reflexivity|].
            intros y0 [->|Hy0]%elem_of_cons Hp; [now split|now destruct (Fy y0 Hy0)].
          + exists x0. split; [now right|]. split; [reflexivity|].
            intros y0 [->|Hy0]%elem_of_cons Hp; [now destruct (Fo x0 Hx0)|auto]. }
      assert (Hadd : forall c,
                ((exists y0, y0 ∈ y :: theirs /\ c = ManualTree.addCommand y0 /\
                    forall x0, x0 ∈ x :: ours -> erp x0 = erp y0 ->
                      isEqual x0 y0 = false /\ EntryJs.isFile x0 <> EntryJs.isFile y0) \/
                 (exists x0 y0, x0 ∈ x :: ours /\ y0 ∈ y :: theirs /\ erp x0 = erp y0 /\
                    isEqual x0 y0 = false /\ EntryJs.isFile x0 = EntryJs.isFile y0 /\
                    c = ManualTree.updateCommand y0)) <->
                (c = ManualTree.addCommand y /\ isEqual x y = false /\
                 EntryJs.isFile x <> EntryJs.isFile y) \/
                (c = ManualTree.updateCommand y /\ isEqual x y = false /\
                 EntryJs.isFile x = EntryJs.isFile y) \/ c ∈ a).
      { intros c. rewrite Ha. split.
        - intros [(y0 & [->|Hy0]%elem_of_cons & -> & K)
                 |(x0 & y0 & [->|Hx0]%elem_of_cons & [->|Hy0]%elem_of_cons & Hp & Hne & Hk & ->)].
          + left. split; [reflexivity|]. apply K; [now left|auto].
          + right. right. left. exists y0. split; [exact Hy0|]. split; [reflexivity|].
            intros x0 Hx0. apply K. now right.
          + right. left. auto.
          + now destruct (Fy y0 Hy0).
          + now destruct (Fo x0 Hx0).
          + right. right. right. exists x0, y0. now repeat split.
        - intros [(-> & Hne & Hk)|[(-> & Hne & Hk)|[(y0 & Hy0 & -> & K)
                 |(x0 & y0 & Hx0 & Hy0 & Hp & Hrest)]]].
          + left. exists y. split; [now left|]. split; [reflexivity|].
            intros x0 [->|Hx0]%elem_of_cons Hp; [now split|now destruct (Fo x0 Hx0)].
          + right. exists x, y. split; [now left|]. split; [now left|]. now repeat split.
          + left. exists y0. split; [now right|]. split; [reflexivity|].
            intros x0 [->|Hx0]%elem_of_cons Hp; [now destruct (Fy y0 Hy0)|auto].
          + right. exists x0, y0. split; [now right|]. split; [now right|]. now split. }
      destruct (isEqual x y) eqn:Heq; simpl.
      * intros [= <- <-]. split; intros c.
        -- rewrite Hrem. split; [now right|]. now intros [(_ & ? & _)|?].
        -- rewrite Hadd. split; [now right; right|].
           now intros [(_ & ? & _)|[(_ & ? & _)|?]].
      * destruct (Bool.eqb (EntryJs.isFile x) (EntryJs.isFile y)) eqn:Hk.
        -- apply Bool.eqb_prop in Hk. intros [= <- <-]. split; intros c.
           ++ rewrite Hrem. split; [now right|]. now intros [(_ & _ & ?)|?].
           ++ rewrite Hadd, elem_of_cons. split.
              ** intros [->|?]; [right; left; auto|now right; right].
              ** intros [(_ & _ & ?)|[(-> & _)|?]]; [easy|now left|now right].
        -- apply Bool.eqb_false_iff in Hk. intros [= <- <-]. split; intros c.
           ++ rewrite Hrem, elem_of_cons. split.
              ** intros [->|?]; [left; auto|now right].
              ** intros [(-> & _)|?]; [now left|now right].
           ++ rewrite Hadd, elem_of_cons. split.
              ** intros [->|?]; [left; auto|now right; right].
              ** intros [(-> & _)|[(_ & _ & ?)|?]]; [now left|easy|now right].
Qed.


(** X7. On two trees whose arrays are strictly ascending in the path that
    the patch compares, the patch of [calculatePatch] holds exactly: the
    removal of each entry of the first tree that the second has not at its
    path, or has there unequal and of the other kind; the addition of each
    entry of the second tree that the first has not at its path, or has
    there unequal and of the other kind; and a [change] to each entry of the
    second tree that the first has at its path unequal and of the same
    kind. *)
Theorem calculatePatch_exact isEqual (tree_ other : ManualTree.t) :
  ascending (map erp (ManualTree.entries tree_)) ->
  ascending (map erp (ManualTree.entries other)) ->
  forall c, c ∈ ManualTree.calculatePatch tree_ other isEqual <->
    (exists x, x ∈ ManualTree.entries tree_ /\ c = ManualTree.removeCommand x /\
       forall y, y ∈ ManualTree.entries other -> erp y = erp x ->
                 isEqual x y = false /\ EntryJs.isFile x <> EntryJs.isFile y) \/
    (exists y, y ∈ ManualTree.entries other /\ c = ManualTree.addCommand y /\
       forall x, x ∈ ManualTree.entries tree_ -> erp x = erp y ->
                 isEqual x y = false /\ EntryJs.isFile x <> EntryJs.isFile y) \/
    (exists x y, x ∈ ManualTree.entries tree_ /\ y ∈ ManualTree.entries other /\
       erp x = erp y /\ isEqual x y = false /\
       EntryJs.isFile x = EntryJs.isFile y /\ c = ManualTree.updateCommand y).
Proof.
  intros Ho Ht c. unfold ManualTree.calculatePatch.
  destruct (ManualTree.walk isEqual (ManualTree.entries tree_) (ManualTree.entries other))
    as [removals additions] eqn:E.
  destruct (walk_exact _ _ _ _ _ Ho Ht E) as [Hr Ha].
  rewrite elem_of_app, <- Ha, <- Hr.
  now rewrite list_elem_of_In, <- in_rev, <- list_elem_of_In.
Qed.

Lemma walk_empty isEqual ours : forall theirs,
  ManualTree.walk isEqual ours theirs = ([], []) <->
  Forall2 (fun x y => erp x = erp y /\ isEqual x y = true) ours theirs.
Proof.
  induction ours as [|x ours IH]; intros [|y theirs].
  - split; [constructor|reflexivity].
  - rewrite walk_nil_l. split; [discriminate|]. intros F. inversion F.
  - rewrite walk_nil_r. split; [discriminate|]. intros F. inversion F.
  - rewrite walk_cons.
    destruct (Js.lt (erp x) (erp y)) eqn:Hlt.
    { destruct (ManualTree.walk isEqual ours (y :: theirs)).
      split; [discriminate|]. intros F. apply Forall2_cons in F as [[Hp _] _].
      rewrite Hp, jslt_irrefl in Hlt. discriminate. }
    destruct (Js.gt (erp x) (erp y)) eqn:Hgt.
    { destruct (ManualTree.walk isEqual (x :: ours) theirs).
      split; [discriminate|]. intros F. apply Forall2_cons in F as [[Hp _] _].
      rewrite Hp, jsgt_irrefl in Hgt. discriminate. }
    rewrite jsgt_lt in Hgt. pose proof (jslt_total _ _ Hlt Hgt) as Hp.
    specialize (IH theirs).
    destruct (ManualTree.walk isEqual ours theirs) as [r a].
    rewrite Forall2_cons.
    destruct (isEqual x y); simpl.
    + rewrite IH. tauto.
    + destruct (Bool.eqb (EntryJs.isFile x) (EntryJs.isFile y));
        (split; [discriminate|now intros [[_ ?] _]]).
Qed.

Lemma calculatePatch_nil isEqual (tree_ other : ManualTree.t) :
  ManualTree.calculatePatch tree_ other isEqual = [] <->
  ManualTree.walk isEqual (ManualTree.entries tree_) (ManualTree.entries other) = ([], []).
Proof.
  unfold ManualTree.calculatePatch.
  destruct (ManualTree.walk isEqual (ManualTree.entries tree_) (ManualTree.entries other))
    as [removals additions].
  split.
  - intros [Hr ->]%app_eq_nil. destruct removals as [|c removals]; [reflexivity|].
    simpl in Hr. now apply app_eq_nil in Hr as [_ ?].
  - now intros [= -> ->].
Qed.

(** X8. The patch of [calculatePatch] is empty exactly when the two arrays
    have the same length and, index by index, the same path and entries
    that the equality function takes for equal; this holds for any arrays,
    ascending or not. *)
Theorem calculatePatch_empty_iff isEqual (tree_ other : ManualTree.t) :
  ManualTree.calculatePatch tree_ other isEqual = [] <->
  Forall2 (fun x y => erp x = erp y /\ isEqual x y = true)
          (ManualTree.entries tree_) (ManualTree.entries other).
Proof. rewrite calculatePatch_nil. apply walk_empty. Qed.

Lemma defaultIsEqual_self x :
  ManualTree.defaultIsEqual x x = true <->
  EntryJs.isDirectory x = true \/ toNumber (mtime x) <> None.
Proof.
  unfold ManualTree.defaultIsEqual.
  destruct (EntryJs.isDirectory x); simpl; [tauto|].
  rewrite !andb_true_iff, optnum_seq_eq, number_seq_eq, Z.eqb_eq. split.
  - intros [[_ (n & Hn & _)] _]. right. congruence.
  - intros [|Hn]; [discriminate|]. repeat split.
    destruct (toNumber (mtime x)) as [n|]; [eauto|contradiction].
Qed.

(** X9. With the default equality, the patch from a tree to itself is empty
    exactly when every entry of the tree is a directory or carries a time
    of modification that is a number: an entry that is not a directory and
    has no such time is reported as changed. *)
Theorem calculatePatch_self_iff (tree_ : ManualTree.t) :
  ManualTree.calculatePatch tree_ tree_ ManualTree.defaultIsEqual = [] <->
  Forall (fun e => EntryJs.isDirectory e = true \/ toNumber (mtime e) <> None)
         (ManualTree.entries tree_).
Proof.
  rewrite calculatePatch_nil, walk_empty.
  induction (ManualTree.entries tree_) as [|x l IH].
  - split; constructor.
  - rewrite Forall2_cons, Forall_cons, IH, defaultIsEqual_self. tauto.
Qed.

End ManualTreeExtras.

(* ========================================================================= *)
(** * Further properties of WritableTree                                      *)
(* ========================================================================= *)

Section WritableTreeExtras.
Context {T : Type} `{FacadeTree T} `{Md5}.
Implicit Types (s : WritableTree.t T) (e : Entry T) (p np relPath : string).

Lemma throwOnCommonErrors_stopped operation np relPath allowRoot allowSymlinks s :
  WritableTree._state s = WritableTree.STOPPED ->
  WritableTree._throwOnCommonErrors operation np relPath allowRoot allowSymlinks s
  = (s, Throw (StoppedTree operation)).
Proof.
  intros Hst. unfold WritableTree._throwOnCommonErrors, bind, get. now rewrite Hst.
Qed.

Lemma throwOnCommonErrors_root operation relPath allowSymlinks s :
  WritableTree._state s = WritableTree.STARTED ->
  WritableTree._throwOnCommonErrors operation "" relPath false allowSymlinks s
  = (s, Throw (RootOperation operation)).
Proof.
  intros Hst. unfold WritableTree._throwOnCommonErrors, bind, get. now rewrite Hst.
Qed.

(** X11. In a stopped tree, every method that writes throws the error of a
    stopped tree for a path that can be normalized, and leaves the tree as
    it is. *)
Theorem stopped_tree_refuses s :
  WritableTree._state s = WritableTree.STOPPED ->
  forall relPath np, Shared.normalizeRelativePath relPath = Ok np ->
    (forall now, WritableTree.mkdirSync relPath now s = (s, Throw (StoppedTree "mkdir"))) /\
    (forall now, WritableTree.mkdirpSync relPath now s = (s, Throw (StoppedTree "mkdirp"))) /\
    WritableTree.rmdirSync relPath s = (s, Throw (StoppedTree "rmdir")) /\
    WritableTree.unlinkSync relPath s = (s, Throw (StoppedTree "unlink")) /\
    WritableTree.removeSync relPath s = (s, Throw (StoppedTree "remove")) /\
    WritableTree.emptySync relPath s = (s, Throw (StoppedTree "empty")) /\
    (forall content now,
       WritableTree.writeFileSync relPath content now s
       = (s, Throw (StoppedTree "writeFile"))) /\
    (forall target now,
       WritableTree.symlinkSync target relPath now s
       = (s, Throw (StoppedTree "symlink"))) /\
    (forall targetFacade targetPath targetNp now,
       Shared.normalizeRelativePath targetPath = Ok targetNp ->
       WritableTree.symlinkToFacadeSync targetFacade targetPath relPath now s
       = (s, Throw (StoppedTree "symlinkToFacade"))).
Proof.
  intros Hst relPath np Hn.
  assert (Hc : forall operation allowRoot allowSymlinks,
            WritableTree._throwOnCommonErrors operation np relPath allowRoot allowSymlinks s
            = (s, Throw (StoppedTree operation)))
    by (intros; now apply throwOnCommonErrors_stopped).
  repeat split; intros.
  - unfold WritableTree.mkdirSync, lift. rewrite Hn. unfold bind at 1, bind at 1.
    now rewrite Hc.
  - unfold WritableTree.mkdirpSync, lift. rewrite Hn. unfold bind at 1, bind at 1.
    now rewrite Hc.
  - unfold WritableTree.rmdirSync, lift. rewrite Hn. unfold bind at 1, bind at 1.
    now rewrite Hc.
  - unfold WritableTree.unlinkSync, lift. rewrite Hn. unfold bind at 1, bind at 1.
    now rewrite Hc.
  - unfold WritableTree.removeSync, lift. rewrite Hn. unfold bind at 1, bind at 1.
    now rewrite Hc.
  - unfold WritableTree.emptySync, lift. rewrite Hn. unfold bind at 1, bind at 1.
    now rewrite Hc.
  - unfold WritableTree.writeFileSync, lift. rewrite Hn. unfold bind at 1, bind at 1.
    now rewrite Hc.
  - unfold WritableTree.symlinkSync, lift. rewrite Hn. unfold bind at 1, bind at 1.
    now rewrite Hc.
  - unfold WritableTree.symlinkToFacadeSync, lift. rewrite Hn.
    match goal with E : Shared.normalizeRelativePath _ = Ok _ |- _ => rewrite E end.
    unfold bind at 1, bind at 1, bind at 1. now rewrite Hc.
Qed.

(** X12. In a started tree, the methods that write to a path of their own
    throw the error of an operation on the root for a path that normalizes
    to the root, and leave the tree as it is. *)
Theorem root_is_refused s :
  WritableTree._state s = WritableTree.STARTED ->
  forall relPath, Shared.normalizeRelativePath relPath = Ok "" ->
    (forall now, WritableTree.mkdirSync relPath now s = (s, Throw (RootOperation "mkdir"))) /\
    (forall now, WritableTree.mkdirpSync relPath now s
                 = (s, Throw (RootOperation "mkdirp"))) /\
    WritableTree.rmdirSync relPath s = (s, Throw (RootOperation "rmdir")) /\
    WritableTree.unlinkSync relPath s = (s, Throw (RootOperation "unlink")) /\
    WritableTree.removeSync relPath s = (s, Throw (RootOperation "remove")) /\
    (forall content now,
       WritableTree.writeFileSync relPath content now s
       = (s, Throw (RootOperation "writeFile"))) /\
    (forall target now,
       WritableTree.symlinkSync target relPath now s
       = (s, Throw (RootOperation "symlink"))).
Proof.
  intros Hst relPath Hn.
  assert (Hc : forall operation allowSymlinks,
            WritableTree._throwOnCommonErrors operation "" relPath false allowSymlinks s
            = (s, Throw (RootOperation operation)))
    by (intros; now apply throwOnCommonErrors_root).
  repeat split; intros.
  - unfold WritableTree.mkdirSync, lift. rewrite Hn. unfold bind at 1, bind at 1.
    now rewrite Hc.
  - unfold WritableTree.mkdirpSync, lift. rewrite Hn. unfold bind at 1, bind at 1.
    now rewrite Hc.
  - unfold WritableTree.rmdirSync, lift. rewrite Hn. unfold bind at 1, bind at 1.
    now rewrite Hc.
  - unfold WritableTree.unlinkSync, lift. rewrite Hn. unfold bind at 1, bind at 1.
    now rewrite Hc.
  - unfold WritableTree.removeSync, lift. rewrite Hn. unfold bind at 1, bind at 1.
    now rewrite Hc.
  - unfold WritableTree.writeFileSync, lift. rewrite Hn. unfold bind at 1, bind at 1.
    now rewrite Hc.
  - unfold WritableTree.symlinkSync, lift. rewrite Hn. unfold bind at 1, bind at 1.
    now rewrite Hc.
Qed.


Lemma elem_of_flat_map {A B} (f : A -> list B) (l : list A) (b : B) :
  b ∈ flat_map f l <-> exists a, a ∈ l /\ b ∈ f a.
Proof.
  rewrite list_elem_of_In, in_flat_map. split; intros (a & Ha & Hb); exists a.
  - now rewrite !list_elem_of_In.
  - now rewrite <- !list_elem_of_In.
Qed.

(** X13. [changes()] lists every removal ([rmdir], [unlink]) before every
    addition or update ([mkdir], [create], [change]), the removals in weakly
    descending order of path and the others in weakly ascending order; and
    it reports every change that the tree has tracked. *)
Theorem changes_ordered s :
  (exists removals additions,
     WritableTree.changes s = removals ++ additions /\
     Forall removes removals /\ Forall adds_or_updates additions /\
     weakly_descending (map change_path removals) /\
     weakly_ascending (map change_path additions)) /\
  (forall n, n ∈ WritableTree._changes s ->
             WritableTree.node_change n ∈ WritableTree.changes s).
Proof.
  split.
  - apply ordered_changes_split. unfold WritableTree.changes.
    apply sort_sorted; [apply compareChanges_flip|apply compareChanges_trans].
  - intros n Hn. unfold WritableTree.changes. cbv zeta.
    apply elem_of_sort, elem_of_app. left. apply elem_of_flat_map.
    exists (WritableTree.node_change n). split; [|now left].
    apply elem_of_map. eauto.
Qed.

Lemma clone_same (l : list (Entry T)) : map (fun e => EntryJs.clone e None) l = l.
Proof. induction l as [|e l IH]; [reflexivity|]. cbn [map]. now rewrite IH. Qed.

Lemma ascending_before (l : list (Entry T)) :
  ascending (map relativePath l) ->
  StronglySorted (fun a b => (Shared.compareEntries a b <= 0)%Z) l.
Proof.
  induction l as [|e l IH]; intros Hs; [constructor|].
  simpl in Hs. apply StronglySorted_inv in Hs as [Hs Hall].
  constructor; [now apply IH|].
  apply Forall_forall. intros d Hd. apply comparePaths_le.
  rewrite Forall_forall in Hall. apply jslt_asym, Hall.
  apply list_elem_of_In, in_map, list_elem_of_In, Hd.
Qed.

(** X14. The [entries] getter returns its entries in weakly ascending order
    of [relativePath] and holds every entry of the tree; when the array of
    the tree is strictly ascending and holds no link to the directory of
    another tree, it returns that array. *)
Theorem entries_getter s :
  weakly_ascending (map relativePath (WritableTree.entries s)) /\
  (forall e, e ∈ WritableTree._entries s -> e ∈ WritableTree.entries s) /\
  (ascending (map relativePath (WritableTree._entries s)) ->
   Forall (fun e => WritableTree.linked_directory e = None) (WritableTree._entries s) ->
   WritableTree.entries s = WritableTree._entries s).
Proof.
  unfold WritableTree.entries. cbv zeta. rewrite clone_same. split; [|split].
  - apply ordered_entries_paths, sort_sorted;
      [apply compareEntries_flip|apply compareEntries_trans].
  - intros e He. apply elem_of_sort, elem_of_flat_map. exists e. split; [exact He|now left].
  - intros Hs Hl.
    assert (Hflat : flat_map
              (fun entry =>
                 entry ::
                 match WritableTree.linked_directory entry with
                 | Some tree_ =>
                     map (fun linkedEntry =>
                            EntryJs.clone linkedEntry
                              (Some (Shared.joinPaths
                                       [relativePath entry; relativePath linkedEntry])))
                         (tree_entries tree_)
                 | None => []
                 end) (WritableTree._entries s) = WritableTree._entries s).
    { clear Hs. induction Hl as [|e l He Hl IH]; [reflexivity|].
      cbn [flat_map]. rewrite He. cbn [app]. now rewrite IH. }
    rewrite Hflat. apply sort_sorted_id. now apply ascending_before.
Qed.

End WritableTreeExtras.

(* ------------------------------------------------------------------------- *)
(** ** The methods that write keep the array of the tree in order             *)
(* ------------------------------------------------------------------------- *)

Section WritableTreeOrder.
Context {T : Type} `{FacadeTree T} `{Md5}.
Implicit Types (s : WritableTree.t T) (e : Entry T) (p np relPath : string).

Lemma keeps_bind {A B} (m : WritableTree.M T A) (k : A -> WritableTree.M T B) :
  keeps_order m -> (forall a, keeps_order (k a)) -> keeps_order (bind m k).
Proof.
  intros Hm Hk s s' r Hs Hrun. unfold bind in Hrun.
  destruct (m s) as [s1 [a|x]] eqn:E.
  - eapply Hk; [|exact Hrun]. eapply Hm; eauto.
  - injection Hrun as <- <-. eapply Hm; eauto.
Qed.

Lemma keeps_get {B} (k : WritableTree.t T -> WritableTree.M T B) :
  (forall s0, keeps_order (k s0)) -> keeps_order (bind get k).
Proof. intros Hk s s' r Hs Hrun. unfold bind, get in Hrun. eapply Hk; eauto. Qed.

Lemma keeps_same {A} (m : WritableTree.M T A) :
  (forall s s' r, m s = (s', r) -> WritableTree._entries s' = WritableTree._entries s) ->
  keeps_order m.
Proof. intros Hm s s' r Hs Hrun. now rewrite (Hm _ _ _ Hrun). Qed.

Lemma keeps_ret {A} (a : A) : keeps_order (ret (S := WritableTree.t T) a).
Proof. apply keeps_same. now intros s s' r [= <- _]. Qed.

Lemma keeps_throw {A} (x : Exn) : keeps_order (throw (S := WritableTree.t T) (A := A) x).
Proof. apply keeps_same. now intros s s' r [= <- _]. Qed.

Lemma keeps_lift {A} (r : Result A) : keeps_order (lift (S := WritableTree.t T) r).
Proof. apply keeps_same. now intros s s' r' [= <- _]. Qed.

Lemma keeps_fs_call c : keeps_order (WritableTree.fs_call (T := T) c).
Proof. apply keeps_same. now intros s s' r [= <- _]. Qed.

Lemma keeps_untrack operation p : keeps_order (WritableTree._untrack (T := T) operation p).
Proof.
  apply keeps_same. intros s s' r. rewrite untrack_run.
  destruct (WritableTree.hash_get (WritableTree._changeHash s) operation !! p);
    now intros [= <- _].
Qed.

Lemma keeps_track_node operation e : keeps_order (WritableTree.track_node operation e).
Proof. apply keeps_same. now intros s s' r [= <- _]. Qed.

Lemma keeps_track operation e : keeps_order (WritableTree._track operation e).
Proof.
  destruct operation; unfold WritableTree._track;
    repeat first [ apply keeps_untrack | apply keeps_track_node | apply keeps_ret
                 | apply keeps_bind; [|intros [|]] ].
Qed.

Lemma keeps_insert e : keeps_order (WritableTree._insertEntry e).
Proof.
  intros s s' r Hs Hrun.
  destruct (insertEntry_spec s e Hs) as (es' & Hins & Hs' & _).
  rewrite Hins in Hrun. now injection Hrun as <- _.
Qed.

Lemma keeps_remove (entry : EntryRef T) : keeps_order (WritableTree._removeEntry entry).
Proof.
  destruct entry as [|e]; [apply keeps_throw|].
  intros s s' r Hs Hrun.
  destruct (removeEntry_spec s e Hs) as (es' & Hrem & Hs' & _).
  rewrite Hrem in Hrun. now injection Hrun as <- _.
Qed.

Lemma keeps_check operation np relPath allowRoot allowSymlinks :
  keeps_order (WritableTree._throwOnCommonErrors (T := T) operation np relPath
                 allowRoot allowSymlinks).
Proof.
  apply keeps_same. intros s s' r Hrun.
  pose proof (throwOnCommonErrors_state operation np relPath allowRoot allowSymlinks s)
    as Hst.
  rewrite Hrun in Hst. simpl in Hst. now subst.
Qed.

Ltac keeps :=
  repeat (cbv zeta; lazymatch goal with
  | |- keeps_order (bind get _) => apply keeps_get; intros ?
  | |- keeps_order (bind _ _) => apply keeps_bind; [|intros ?]
  | |- keeps_order (ret _) => apply keeps_ret
  | |- keeps_order (throw _) => apply keeps_throw
  | |- keeps_order (lift _) => apply keeps_lift
  | |- keeps_order (WritableTree.fs_call _) => apply keeps_fs_call
  | |- keeps_order (WritableTree._track _ _) => apply keeps_track
  | |- keeps_order (WritableTree._insertEntry _) => apply keeps_insert
  | |- keeps_order (WritableTree._removeEntry _) => apply keeps_remove
  | |- keeps_order (WritableTree._throwOnCommonErrors _ _ _ _ _) => apply keeps_check
  | |- keeps_order (match ?x with _ => _ end) => destruct x
  end).

Lemma keeps_mkdirSync relPath now : keeps_order (WritableTree.mkdirSync relPath now).
Proof. unfold WritableTree.mkdirSync. keeps. Qed.

Lemma keeps_rmdirSync relPath : keeps_order (WritableTree.rmdirSync relPath).
Proof. unfold WritableTree.rmdirSync. keeps. Qed.

Lemma keeps_unlinkSync relPath : keeps_order (WritableTree.unlinkSync relPath).
Proof. unfold WritableTree.unlinkSync. keeps. Qed.

Lemma keeps_writeFileSync relPath content now :
  keeps_order (WritableTree.writeFileSync relPath content now).
Proof. unfold WritableTree.writeFileSync. keeps. Qed.

Lemma keeps_symlinkSync target relPath now :
  keeps_order (WritableTree.symlinkSync target relPath now).
Proof. unfold WritableTree.symlinkSync. keeps. Qed.

Lemma keeps_symlinkToFacadeSync targetFacade targetPath relPath now :
  keeps_order (WritableTree.symlinkToFacadeSync targetFacade targetPath relPath now).
Proof. unfold WritableTree.symlinkToFacadeSync. keeps. Qed.

Lemma keeps_mkdirp_tokens tokens now : forall subpath,
  keeps_order (WritableTree.mkdirp_tokens subpath tokens now).
Proof.
  induction tokens as [|token tokens IH]; intros subpath; simpl; [apply keeps_ret|].
  apply keeps_get. intros s0. apply keeps_bind; [|intros; apply IH].
  destruct (WritableTree._findByRelativePath _ _ _) as [[entry owner]|];
    [destruct (_ || _)|]; first [apply keeps_mkdirSync|apply keeps_ret].
Qed.

Lemma keeps_mkdirpSync relPath now : keeps_order (WritableTree.mkdirpSync relPath now).
Proof.
  unfold WritableTree.mkdirpSync.
  repeat first [ apply keeps_mkdirp_tokens | progress keeps ].
Qed.

Lemma keeps_removeSync relPath : keeps_order (WritableTree.removeSync relPath).
Proof.
  unfold WritableTree.removeSync.
  repeat first [ apply keeps_unlinkSync | apply keeps_rmdirSync | progress keeps ].
Qed.

Lemma keeps_remove_each (l : list (Entry T)) : keeps_order (WritableTree.remove_each l).
Proof.
  induction l as [|e l IH]; simpl; [apply keeps_ret|].
  apply keeps_bind; [|intros; apply IH].
  destruct (_ || _); [apply keeps_unlinkSync|apply keeps_rmdirSync].
Qed.

Lemma keeps_emptySync relPath : keeps_order (WritableTree.emptySync relPath).
Proof.
  unfold WritableTree.emptySync.
  repeat first [ apply keeps_remove_each | progress keeps ].
Qed.

(** X15. Every method of a writable tree that writes keeps the array of the
    tree strictly ascending in [relativePath], so without two entries of one
    path, whether the method returns or throws; so do [start] and [stop], and
    the array of a new tree is in that order. *)
Theorem writes_keep_order :
  (forall relPath now, keeps_order (WritableTree.mkdirSync relPath now)) /\
  (forall relPath now, keeps_order (WritableTree.mkdirpSync relPath now)) /\
  (forall relPath, keeps_order (WritableTree.rmdirSync relPath)) /\
  (forall relPath, keeps_order (WritableTree.unlinkSync relPath)) /\
  (forall relPath, keeps_order (WritableTree.removeSync relPath)) /\
  (forall relPath, keeps_order (WritableTree.emptySync relPath)) /\
  (forall relPath content now,
     keeps_order (WritableTree.writeFileSync relPath content now)) /\
  (forall target relPath now, keeps_order (WritableTree.symlinkSync target relPath now)) /\
  (forall targetFacade targetPath relPath now,
     keeps_order (WritableTree.symlinkToFacadeSync targetFacade targetPath relPath now)) /\
  keeps_order (T := T) WritableTree.start /\ keeps_order (T := T) WritableTree.stop /\
  ascending (map relativePath (WritableTree._entries (WritableTree.new (T := T) "/"))).
Proof.
  repeat split; intros;
    first [ apply keeps_mkdirSync | apply keeps_mkdirpSync | apply keeps_rmdirSync
          | apply keeps_unlinkSync | apply keeps_removeSync | apply keeps_emptySync
          | apply keeps_writeFileSync | apply keeps_symlinkSync
          | apply keeps_symlinkToFacadeSync
          | (apply keeps_same; now intros ? ? ? [= <- _])
          | constructor ].
Qed.

End WritableTreeOrder.

(* ------------------------------------------------------------------------- *)
(** ** A write that throws has changed nothing                                *)
(* ------------------------------------------------------------------------- *)

Section WritableTreeFailure.
Context {T : Type} `{FacadeTree T} `{Md5}.
Implicit Types (s : WritableTree.t T) (e : Entry T) (p np relPath : string).

(** The method returns. *)
Local Abbreviation returns m := (forall s, exists s' a, m s = (s', Ok a)).
(** The method leaves the tree as it is. *)
Local Abbreviation reads m := (forall s, fst (m s) = s).

Lemma returns_bind {A B} (m : WritableTree.M T A) (k : A -> WritableTree.M T B) :
  returns m -> (forall a, returns (k a)) -> returns (bind m k).
Proof.
  intros Hm Hk s. destruct (Hm s) as (s1 & a & E). unfold bind. rewrite E. apply Hk.
Qed.

Lemma returns_modify (f : WritableTree.t T -> WritableTree.t T) : returns (modify f).
Proof. intros s. now exists (f s), tt. Qed.

Lemma returns_untrack operation p : returns (WritableTree._untrack (T := T) operation p).
Proof.
  intros s. rewrite untrack_run.
  destruct (WritableTree.hash_get (WritableTree._changeHash s) operation !! p); eauto.
Qed.

Lemma returns_track operation e : returns (WritableTree._track operation e).
Proof.
  destruct operation; unfold WritableTree._track;
    repeat first [ apply returns_untrack | apply returns_modify
                 | (intros s; now exists s, tt)
                 | apply returns_bind; [|intros [|]] ].
Qed.

Lemma returns_write (c : WritableTree.FsCall) operation e :
  returns (WritableTree.fs_call c >> WritableTree._track operation e >>
           WritableTree._insertEntry e).
Proof.
  repeat (apply returns_bind; [|intros ?]);
    first [apply returns_modify|apply returns_track].
Qed.

Lemma returns_removal (c : WritableTree.FsCall) operation e :
  returns (WritableTree.fs_call c >> WritableTree._track operation e >>
           WritableTree._removeEntry (Stored e)).
Proof.
  repeat (apply returns_bind; [|intros ?]);
    first [apply returns_modify|apply returns_track].
Qed.

Lemma fails_throw {A} (x : Exn) : fails_cleanly (throw (S := WritableTree.t T) (A := A) x).
Proof. now intros s s' y [= <- _]. Qed.

Lemma fails_returns {A} (m : WritableTree.M T A) : returns m -> fails_cleanly m.
Proof. intros Hm s s' x E. destruct (Hm s) as (s1 & a & E1). congruence. Qed.

Lemma fails_bind {A B} (m : WritableTree.M T A) (k : A -> WritableTree.M T B) :
  reads m -> (forall a, fails_cleanly (k a)) -> fails_cleanly (bind m k).
Proof.
  intros Hm Hk s s' x. unfold bind. specialize (Hm s).
  destruct (m s) as [s1 [a|y]]; simpl in Hm; subst s1.
  - apply Hk.
  - now intros [= <- _].
Qed.

Lemma fails_get {B} (k : WritableTree.t T -> WritableTree.M T B) :
  (forall s0, fails_cleanly (k s0)) -> fails_cleanly (bind get k).
Proof. intros Hk s s' x. unfold bind, get. apply Hk. Qed.

Lemma fails_then_returns {A B} (m : WritableTree.M T A) (k : A -> WritableTree.M T B) :
  fails_cleanly m -> (forall a, returns (k a)) -> fails_cleanly (bind m k).
Proof.
  intros Hm Hk s s' x. unfold bind.
  destruct (m s) as [s1 [a|y]] eqn:E.
  - destruct (Hk a s1) as (s2 & b & E2). congruence.
  - intros [= <- <-]. eapply Hm, E.
Qed.

Lemma reads_lift {A} (r : Result A) : reads (lift (S := WritableTree.t T) r).
Proof. reflexivity. Qed.

Ltac opening :=
  apply fails_bind; [apply reads_lift|intros ?];
  apply fails_bind; [intros ?; apply throwOnCommonErrors_state|intros ?];
  apply fails_get; intros ?.

Lemma mkdirSync_fails relPath now : fails_cleanly (WritableTree.mkdirSync relPath now).
Proof.
  unfold WritableTree.mkdirSync. opening.
  destruct (WritableTree._findByRelativePath _ _ _); [apply fails_throw|].
  apply fails_returns, returns_write.
Qed.

Lemma symlinkSync_fails target relPath now :
  fails_cleanly (WritableTree.symlinkSync target relPath now).
Proof.
  unfold WritableTree.symlinkSync. opening.
  destruct (WritableTree._findByRelativePath _ _ _); [apply fails_throw|].
  apply fails_returns, returns_write.
Qed.

Lemma rmdirSync_fails relPath : fails_cleanly (WritableTree.rmdirSync relPath).
Proof.
  unfold WritableTree.rmdirSync. opening.
  destruct (WritableTree._findByRelativePath _ _ _) as [[[|e] owner]|];
    [destruct (_ || _); apply fails_throw| |apply fails_throw].
  destruct (_ || _); [apply fails_throw|]. apply fails_returns, returns_removal.
Qed.

Lemma unlinkSync_fails relPath : fails_cleanly (WritableTree.unlinkSync relPath).
Proof.
  unfold WritableTree.unlinkSync. opening.
  destruct (WritableTree._findByRelativePath _ _ _) as [[[|e] owner]|];
    [destruct (_ && _); apply fails_throw| |apply fails_throw].
  destruct (_ && _); [apply fails_throw|]. apply fails_returns, returns_removal.
Qed.

Lemma writeFileSync_fails relPath content now :
  fails_cleanly (WritableTree.writeFileSync relPath content now).
Proof.
  unfold WritableTree.writeFileSync. opening. cbv zeta.
  apply fails_then_returns.
  - destruct (WritableTree._findByRelativePath _ _ _) as [[entry owner]|];
      [|apply fails_returns; intros s; now exists s, tt].
    destruct (EntryJs.ref_isDirectory entry); [apply fails_throw|].
    apply fails_returns.
    destruct entry as [|[? ? ? ? ? [[]|] ? ?]];
      first [apply returns_modify|intros s; now exists s, tt].
  - intros _. destruct (match _ with Some _ => _ | None => false end);
      [intros s; now exists s, tt|apply returns_write].
Qed.

(** X16. When [mkdirSync], [rmdirSync], [unlinkSync], [writeFileSync] or
    [symlinkSync] throws, the tree is as it was before the call: the same
    entries, the same tracked changes, and no call to the filesystem was
    made. *)
Theorem failed_write_changes_nothing :
  (forall relPath now, fails_cleanly (WritableTree.mkdirSync relPath now)) /\
  (forall relPath, fails_cleanly (WritableTree.rmdirSync relPath)) /\
  (forall relPath, fails_cleanly (WritableTree.unlinkSync relPath)) /\
  (forall relPath content now,
     fails_cleanly (WritableTree.writeFileSync relPath content now)) /\
  (forall target relPath now,
     fails_cleanly (WritableTree.symlinkSync target relPath now)).
Proof.
  split; [exact mkdirSync_fails|]. split; [exact rmdirSync_fails|].
  split; [exact unlinkSync_fails|]. split; [exact writeFileSync_fails|].
  exact symlinkSync_fails.
Qed.

End WritableTreeFailure.

(* ------------------------------------------------------------------------- *)
(** ** [sortAndExpand]: what it keeps and what it adds                        *)
(* ------------------------------------------------------------------------- *)

Section SortAndExpandExtras.
Context {T : Type}.
Implicit Types (e d : Entry T) (es : list (Entry T)).

Local Abbreviation erp := (Shared.entryRelativePath (T := T)).

Lemma app_assoc_string x y z : (x +:+ y) +:+ z = x +:+ (y +:+ z).
Proof.
  induction x as [|a x IH]; [reflexivity|].
  change (String a ((x +:+ y) +:+ z) = String a (x +:+ (y +:+ z))). now f_equal.
Qed.

Lemma length_app x y : String.length (x +:+ y) = String.length x + String.length y.
Proof.
  induction x as [|a x IH]; [reflexivity|].
  change (S (String.length (x +:+ y)) = S (String.length x + String.length y)).
  now f_equal.
Qed.

Lemma prefix_app x y : String.prefix x (x +:+ y) = true.
Proof. induction x as [|a x IH]; [apply prefix_nil_l|]. simpl. now apply prefix_cons. Qed.

Lemma prefix_split q : forall s, String.prefix q s = true -> exists r, s = q +:+ r.
Proof.
  induction q as [|a q IH]; intros s Hp; [now exists s|].
  destruct s as [|b s]; [discriminate|]. apply prefix_cons in Hp as [-> Hp].
  destruct (IH s Hp) as [r ->]. now exists r.
Qed.

Lemma prefix_trans a : forall b c,
  String.prefix a b = true -> String.prefix b c = true -> String.prefix a c = true.
Proof.
  induction a as [|x a IH]; intros b c Hab Hbc; [apply prefix_nil_l|].
  destruct b as [|y b]; [discriminate|]. destruct c as [|z c]; [discriminate|].
  apply prefix_cons in Hab as [-> Hab]. apply prefix_cons in Hbc as [-> Hbc].
  apply prefix_cons. split; [reflexivity|]. now apply (IH b).
Qed.

(** Two beginnings of one string: one begins the other. *)
Lemma prefix_comparable q : forall p s,
  String.prefix q s = true -> String.prefix p s = true ->
  String.prefix q p = true \/ exists q', q' <> "" /\ q = p +:+ q'.
Proof.
  induction q as [|a q IH]; intros p s Hq Hp; [left; apply prefix_nil_l|].
  destruct s as [|b s]; [discriminate|]. apply prefix_cons in Hq as [-> Hq].
  destruct p as [|c p]; [right; now exists (String b q)|].
  apply prefix_cons in Hp as [-> Hp].
  destruct (IH p s Hq Hp) as [H|(q' & Hq' & ->)].
  - left. now apply prefix_cons.
  - right. now exists q'.
Qed.

Lemma substr0_prefix n : forall s, String.prefix (Js.substr0 n s) s = true.
Proof.
  induction n as [|n IH]; intros [|a s]; simpl; try reflexivity.
  destruct (ascii_dec a a); [apply IH|contradiction].
Qed.

Lemma substr0_app w c r :
  Js.substr0 (S (String.length w)) (w +:+ String c r) = w +:+ String c "".
Proof. induction w as [|a w IH]; [reflexivity|]. simpl in *. now rewrite IH. Qed.

Lemma prefix_substr0 q : forall s,
  String.prefix q s = true -> q = Js.substr0 (String.length q) s.
Proof.
  induction q as [|a q IH]; intros s Hp; [reflexivity|].
  destruct s as [|b s]; [discriminate|]. apply prefix_cons in Hp as [-> Hp].
  simpl. f_equal. now apply IH.
Qed.

Lemma prefix_length q : forall s,
  String.prefix q s = true -> String.length q <= String.length s.
Proof.
  induction q as [|a q IH]; intros s Hp; simpl; [lia|].
  destruct s as [|b s]; [discriminate|]. apply prefix_cons in Hp as [_ Hp].
  specialize (IH s Hp). simpl. lia.
Qed.

Lemma substring_from_app x y : Js.substring_from (String.length x) (x +:+ y) = y.
Proof. induction x as [|a x IH]; simpl; [now destruct y|exact IH]. Qed.

Lemma drop_last_prefix s : String.prefix (Js.drop_last s) s = true.
Proof.
  induction s as [|a s IH]; [reflexivity|].
  destruct s as [|b s]; [reflexivity|].
  change (Js.drop_last (String a (String b s)))
    with (String a (Js.drop_last (String b s))).
  now apply prefix_cons.
Qed.

Lemma prefix_app_inv p : forall q' s,
  String.prefix (p +:+ q') (p +:+ s) = true -> String.prefix q' s = true.
Proof.
  induction p as [|a p IH]; intros q' s Hp; [exact Hp|].
  simpl in Hp. destruct (ascii_dec a a); [now apply IH|contradiction].
Qed.

(** A beginning of [r/]: the whole, or a beginning of [r]. *)
Lemma prefix_app_sep_cases q : forall r,
  String.prefix q (r +:+ sep) = true -> q = r +:+ sep \/ String.prefix q r = true.
Proof.
  induction q as [|a q IH]; intros r Hp; [right; apply prefix_nil_l|].
  destruct r as [|b r].
  - left. change ("" +:+ sep) with (String slash "") in *.
    apply prefix_cons in Hp as [-> Hp]. now apply prefix_nil_r in Hp as ->.
  - change (String b r +:+ sep) with (String b (r +:+ sep)) in *.
    apply prefix_cons in Hp as [-> Hp].
    destruct (IH r Hp) as [->|H]; [now left|right]. now apply prefix_cons.
Qed.

(** [_chompSeparator] gives a beginning of the path. *)
Lemma erp_prefix e : String.prefix (erp e) (relativePath e) = true.
Proof.
  unfold Shared.entryRelativePath, Shared._chompSeparator.
  destruct (EntryJs.isDirectory e); [|apply prefix_refl].
  destruct (Js.last_char (relativePath e)) as [c|]; [|apply prefix_refl].
  destruct (Ascii.eqb c slash); [apply drop_last_prefix|apply prefix_refl].
Qed.

Lemma erp_plain e :
  no_trailing_separator e -> EntryJs.isDirectory e = true -> erp e = relativePath e.
Proof.
  intros Hn Hd. specialize (Hn Hd).
  unfold Shared.entryRelativePath, Shared._chompSeparator. rewrite Hd.
  destruct (Js.last_char (relativePath e)) as [c|]; [|reflexivity].
  destruct (Ascii.eqb_spec c slash) as [->|]; [now destruct Hn|reflexivity].
Qed.

(** *** [_basename] *)

Lemma basename_len_shift p : forall i len,
  Shared.basename_len p i len =
  if (Shared.basename_len p 0 0 =? 0)%nat then len else i + Shared.basename_len p 0 0.
Proof.
  induction p as [|c p IH]; intros i len; [reflexivity|].
  destruct p as [|d p]; [reflexivity|].
  change (Shared.basename_len (String c (String d p)) i len)
    with (Shared.basename_len (String d p) (S i) (if Ascii.eqb c slash then S i else len)).
  change (Shared.basename_len (String c (String d p)) 0 0)
    with (Shared.basename_len (String d p) 1 (if Ascii.eqb c slash then 1 else 0)).
  rewrite (IH (S i)), (IH 1).
  destruct (Shared.basename_len (String d p) 0 0 =? 0)%nat eqn:E.
  - destruct (Ascii.eqb c slash); simpl; [f_equal; lia|reflexivity].
  - apply Nat.eqb_neq in E.
    destruct (1 + Shared.basename_len (String d p) 0 0 =? 0)%nat eqn:E'.
    + apply Nat.eqb_eq in E'. lia.
    + lia.
Qed.

(** Every beginning of a path that ends with the separator, the whole path
    apart, is a beginning of what [_basename] keeps of it. *)
Lemma basename_holds p : forall q,
  Js.last_char q = Some slash -> String.prefix q p = true -> q <> p ->
  String.prefix q (Js.substr0 (Shared.basename_len p 0 0) p) = true.
Proof.
  induction p as [|c p IH]; intros q Hl Hp Hne.
  - apply prefix_nil_r in Hp. congruence.
  - destruct q as [|a q]; [discriminate|]. apply prefix_cons in Hp as [-> Hp].
    destruct p as [|d p]; [apply prefix_nil_r in Hp; congruence|].
    change (Shared.basename_len (String c (String d p)) 0 0)
      with (Shared.basename_len (String d p) 1 (if Ascii.eqb c slash then 1 else 0)).
    rewrite basename_len_shift.
    destruct q as [|b q].
    + injection Hl as ->. rewrite Ascii.eqb_refl.
      destruct (_ =? 0)%nat; simpl; destruct (ascii_dec slash slash); try contradiction;
        first [reflexivity|apply prefix_nil_l].
    + assert (Hq : String.prefix (String b q)
                     (Js.substr0 (Shared.basename_len (String d p) 0 0) (String d p)) = true).
      { apply IH; [exact Hl|exact Hp|congruence]. }
      destruct (Shared.basename_len (String d p) 0 0) as [|n]; [discriminate|].
      change (S n =? 0)%nat with false. cbv iota.
      change (Js.substr0 (1 + S n) (String c (String d p)))
        with (String c (Js.substr0 (S n) (String d p))).
      now apply prefix_cons.
Qed.

(** *** [_commonPrefix] *)

Lemma commonPrefix_end_shift term a : forall b i len,
  Shared.commonPrefix_end a b term i len =
  if (Shared.commonPrefix_end a b term 0 0 =? 0)%nat then len
  else i + Shared.commonPrefix_end a b term 0 0.
Proof.
  induction a as [|x a IH]; intros b i len; [reflexivity|].
  destruct b as [|y b]; [reflexivity|]. simpl.
  destruct (Ascii.eqb x y); simpl; [|reflexivity].
  rewrite (IH b (S i)), (IH b 1).
  destruct (Shared.commonPrefix_end a b term 0 0 =? 0)%nat eqn:E.
  - destruct (Ascii.eqb x term); simpl; [f_equal; lia|reflexivity].
  - apply Nat.eqb_neq in E.
    destruct (1 + Shared.commonPrefix_end a b term 0 0 =? 0)%nat eqn:E'.
    + apply Nat.eqb_eq in E'. lia.
    + lia.
Qed.

(** [_commonPrefix(a, b, term)] begins both [a] and [b]. *)
Lemma commonPrefix_prefix term a : forall b,
  String.prefix (Shared._commonPrefix a b term) a = true /\
  String.prefix (Shared._commonPrefix a b term) b = true.
Proof.
  unfold Shared._commonPrefix. split; [apply substr0_prefix|]. revert b.
  induction a as [|x a IH]; intros b; [now destruct b|].
  destruct b as [|y b]; [reflexivity|]. simpl.
  destruct (Ascii.eqb_spec x y) as [->|Hne]; simpl; [|reflexivity].
  rewrite commonPrefix_end_shift. specialize (IH b).
  destruct (Shared.commonPrefix_end a b term 0 0) as [|n].
  - simpl. destruct (Ascii.eqb y term); [|reflexivity].
    simpl. destruct (ascii_dec y y); [apply prefix_nil_l|contradiction].
  - change (S n =? 0)%nat with false. cbv iota.
    change (Js.substr0 (1 + S n) (String y a)) with (String y (Js.substr0 (S n) a)).
    now apply prefix_cons.
Qed.

(** *** [_computeImpliedEntries] *)

Lemma impliedPaths_last rel : forall w,
  Forall (fun q => Js.last_char q = Some slash)
         (Shared.impliedPaths rel (String.length w) (w +:+ rel)).
Proof.
  induction rel as [|c rel IH]; intros w; [constructor|]. cbn [Shared.impliedPaths].
  assert (Hrec : Forall (fun q => Js.last_char q = Some slash)
                   (Shared.impliedPaths rel (S (String.length w)) (w +:+ String c rel))).
  { specialize (IH (w +:+ String c "")).
    rewrite length_app, app_assoc_string in IH. simpl in IH.
    now rewrite Nat.add_1_r in IH. }
  destruct (Ascii.eqb_spec c slash) as [->|]; [|exact Hrec].
  constructor; [|exact Hrec].
  rewrite substr0_app. apply last_char_app_sep.
Qed.

Lemma impliedPaths_mem rel : forall w q,
  Js.last_char q = Some slash -> String.prefix q (w +:+ rel) = true ->
  String.length w < String.length q ->
  q ∈ Shared.impliedPaths rel (String.length w) (w +:+ rel).
Proof.
  induction rel as [|c rel IH]; intros w q Hl Hp Hlen.
  - apply prefix_length in Hp. rewrite length_app in Hp. simpl in Hp. lia.
  - cbn [Shared.impliedPaths].
    assert (Hrec : S (String.length w) < String.length q ->
                   q ∈ Shared.impliedPaths rel (S (String.length w)) (w +:+ String c rel)).
    { intros Hlt. specialize (IH (w +:+ String c "") q Hl).
      rewrite length_app, app_assoc_string in IH. simpl in IH.
      rewrite Nat.add_1_r in IH. apply IH; [exact Hp|exact Hlt]. }
    destruct (Nat.eq_dec (String.length q) (S (String.length w))) as [Heq|Hneq].
    + assert (Hq : q = w +:+ String c "").
      { rewrite (prefix_substr0 q _ Hp), Heq. apply substr0_app. }
      assert (c = slash) as ->.
      { rewrite Hq, last_char_app in Hl by discriminate. now injection Hl. }
      rewrite Ascii.eqb_refl. rewrite substr0_app, <- Hq. apply list_elem_of_here.
    + destruct (Ascii.eqb c slash); [apply list_elem_of_further|]; apply Hrec; lia.
Qed.

Lemma fromPath_directory q :
  Js.last_char q = Some slash ->
  EntryJs.isDirectory (EntryJs.fromPath (T := T) q) = true /\
  mode (EntryJs.fromPath (T := T) q) = EntryJs.DIRECTORY_MODE.
Proof. intros Hl. unfold EntryJs.fromPath. rewrite Hl. split; reflexivity. Qed.

Lemma implied_directories path1 rel :
  Forall (fun d => exists q, Js.last_char q = Some slash /\ d = EntryJs.fromPath (T := T) q)
         (Shared._computeImpliedEntries path1 rel).
Proof.
  unfold Shared._computeImpliedEntries. apply Forall_map.
  pose proof (impliedPaths_last rel "") as Hl. simpl in Hl.
  eapply Forall_impl; [exact Hl|]. intros q Hq. simpl.
  exists (path1 +:+ q). split; [|reflexivity].
  rewrite last_char_app; [exact Hq|]. intros ->. discriminate.
Qed.

Lemma expand_adds rest : forall path_,
  rest `sublist_of` Shared.expand path_ rest /\
  exists implied,
    Permutation (Shared.expand path_ rest) (rest ++ implied) /\
    Forall (fun d => exists q, Js.last_char q = Some slash /\ d = EntryJs.fromPath (T := T) q)
           implied.
Proof.
  induction rest as [|x rest IH]; intros path_.
  - split; [constructor|]. exists []. split; [reflexivity|constructor].
  - cbn [Shared.expand]. cbv zeta.
    match goal with
    | |- context [_ ++ x :: Shared.expand ?p rest] =>
        destruct (IH p) as (Hsub & implied & Hperm & Hdir)
    end.
    match goal with
    | |- context [?i ++ x :: Shared.expand _ rest] => set (here := i) in *
    end.
    split.
    + apply sublist_inserts_l. now apply sublist_skip.
    + exists (here ++ implied). split.
      * rewrite Hperm. rewrite (Permutation_app_comm here).
        simpl. constructor. rewrite <- app_assoc.
        apply Permutation_app_head, Permutation_app_comm.
      * apply Forall_app. split; [apply implied_directories|exact Hdir].
Qed.

(** X17. [sortAndExpand] drops no entry and adds only directories: the
    result holds the given entries in their sorted order, and what it holds
    beside them are entries that [Entry.fromPath] makes of paths ending with
    the separator, so directories of mode [0o40777]. *)
Theorem sortAndExpand_adds_directories es :
  Shared.sort Shared.compareEntries es `sublist_of` Shared.sortAndExpand es /\
  exists implied,
    Permutation (Shared.sortAndExpand es) (es ++ implied) /\
    Forall (fun d => EntryJs.isDirectory d = true /\ mode d = EntryJs.DIRECTORY_MODE /\
                     exists q, Js.last_char q = Some slash /\ d = EntryJs.fromPath q)
           implied.
Proof.
  unfold Shared.sortAndExpand.
  destruct (expand_adds (Shared.sort Shared.compareEntries es) "")
    as (Hsub & implied & Hperm & Hdir).
  split; [exact Hsub|]. exists implied. split.
  - rewrite Hperm. apply Permutation_app_tail, sort_Permutation.
  - eapply Forall_impl; [exact Hdir|]. intros d (q & Hq & ->).
    destruct (fromPath_directory q Hq) as [Hd Hm]. eauto.
Qed.

(** The directories above the entries that [expand] has still to visit are
    in what it has put out, given those above [path_] are. *)
Lemma expand_ancestors rest : forall path_ pre,
  (forall q, Js.last_char q = Some slash -> String.prefix q path_ = true ->
             exists d, d ∈ pre /\ directory_of d q) ->
  Forall no_trailing_separator rest ->
  forall e, e ∈ rest ->
    exists before after,
      pre ++ Shared.expand path_ rest = before ++ e :: after /\
      forall q, Js.last_char q = Some slash -> String.prefix q (erp e) = true ->
                q <> erp e -> exists d, d ∈ before /\ directory_of d q.
Proof.
  induction rest as [|x rest IH]; intros path_ pre Hinv Hnts e He;
    [now apply elem_of_nil in He|].
  apply Forall_cons in Hnts as [Hx Hnts].
  cbn [Shared.expand]. cbv zeta.
  set (path1 := Shared._commonPrefix path_ (relativePath x) slash).
  set (base := Shared._basename x).
  set (sans := Js.substring_from (String.length path1) base).
  set (implied := Shared._computeImpliedEntries path1 sans).
  set (path2 := if EntryJs.isDirectory x then relativePath x +:+ "/" else base).
  destruct (commonPrefix_prefix slash path_ (relativePath x)) as [Hp1 Hp1x].
  fold path1 in Hp1, Hp1x.
  assert (Hbx : String.prefix base (relativePath x) = true).
  { apply (prefix_trans _ (erp x)); [apply substr0_prefix|apply erp_prefix]. }
  assert (Hanc : forall q, Js.last_char q = Some slash -> String.prefix q base = true ->
                           exists d, d ∈ pre ++ implied /\ directory_of d q).
  { intros q Hl Hq.
    destruct (prefix_comparable q path1 (relativePath x)) as [Hqp|(q' & Hq' & ->)];
      [now apply (prefix_trans _ base)|exact Hp1x| |].
    - destruct (Hinv q Hl) as (d & Hd & Hdq); [now apply (prefix_trans _ path1)|].
      exists d. split; [|exact Hdq]. apply elem_of_app. now left.
    - exists (EntryJs.fromPath (path1 +:+ q')). split.
      + apply elem_of_app. right. unfold implied, Shared._computeImpliedEntries.
        apply list_elem_of_fmap. exists q'. split; [reflexivity|].
        destruct (prefix_split _ _ Hq) as [r Hr].
        assert (Hs : sans = q' +:+ r).
        { unfold sans. rewrite Hr, app_assoc_string. apply substring_from_app. }
        rewrite Hs. apply (impliedPaths_mem (q' +:+ r) "").
        * now rewrite last_char_app in Hl.
        * exact (prefix_app q' r).
        * destruct q'; [contradiction|simpl; lia].
      + split; [now apply fromPath_directory|now right]. }
  assert (Hbase : forall q, Js.last_char q = Some slash -> String.prefix q (erp x) = true ->
                            q <> erp x -> exists d, d ∈ pre ++ implied /\ directory_of d q).
  { intros q Hl Hq Hne. apply Hanc; [exact Hl|]. now apply basename_holds. }
  apply elem_of_cons in He as [->|He].
  - exists (pre ++ implied), (Shared.expand path2 rest).
    split; [now rewrite app_assoc|exact Hbase].
  - destruct (IH path2 (pre ++ implied ++ [x])) with (e := e)
      as (before & after & Heq & Hcov); [|exact Hnts|exact He|].
    + intros q Hl Hq. unfold path2 in Hq.
      assert (Hin : forall d, d ∈ pre ++ implied -> d ∈ pre ++ implied ++ [x]).
      { intros d Hd. rewrite app_assoc. apply elem_of_app. now left. }
      destruct (EntryJs.isDirectory x) eqn:Hdir.
      * change "/" with sep in Hq.
        destruct (prefix_app_sep_cases _ _ Hq) as [->|Hq'].
        -- exists x. split; [|split; [exact Hdir|now left]].
           rewrite app_assoc. apply elem_of_app. right. apply list_elem_of_here.
        -- destruct (Hbase q Hl) as (d & Hd & Hdq).
           ++ now rewrite erp_plain.
           ++ rewrite erp_plain by assumption. intros ->. now apply (Hx Hdir).
           ++ exists d. auto.
      * destruct (Hanc q Hl Hq) as (d & Hd & Hdq). exists d. auto.
    + exists before, after. split; [|exact Hcov].
      rewrite <- Heq. now rewrite <- !app_assoc.
Qed.

(** X18. [sortAndExpand] puts the directories above an entry before it.
    Let no given directory have a path that ends with the separator.  Then
    every given entry stands in the result after a directory for each
    beginning of its path that ends with the separator (the path itself
    apart): a given directory of that path, or the directory that
    [Entry.fromPath] makes of it. *)
Theorem sortAndExpand_ancestors es :
  Forall no_trailing_separator es ->
  forall e, e ∈ es ->
    exists before after,
      Shared.sortAndExpand es = before ++ e :: after /\
      forall q, Js.last_char q = Some slash -> String.prefix q (erp e) = true ->
                q <> erp e -> exists d, d ∈ before /\ directory_of d q.
Proof.
  intros Hnts e He. unfold Shared.sortAndExpand.
  apply (expand_ancestors (Shared.sort Shared.compareEntries es) "" []).
  - intros q Hl Hq. apply prefix_nil_r in Hq as ->. discriminate.
  - rewrite Forall_forall in *. intros x Hx. apply Hnts. now apply elem_of_sort in Hx.
  - now apply elem_of_sort.
Qed.

End SortAndExpandExtras.

(* ------------------------------------------------------------------------- *)
(** ** [FacadeTree]: the entries of a directory, from an array                *)
(* ------------------------------------------------------------------------- *)

Section FacadeTreeExtras.
Context {T : Type}.
Implicit Types (e : Entry T) (array : list (Entry T)).

(** Between two strings that begin with [P], every string begins with [P]. *)
Lemma prefix_convex P : forall a b c,
  String.prefix P a = true -> String.prefix P c = true ->
  Js.lt a b = true -> Js.lt b c = true -> String.prefix P b = true.
Proof.
  induction P as [|x P IH]; intros a b c Ha Hc Hab Hbc; [apply prefix_nil_l|].
  destruct a as [|x1 a]; [discriminate|]. apply prefix_cons in Ha as [<- Ha].
  destruct c as [|x2 c]; [discriminate|]. apply prefix_cons in Hc as [<- Hc].
  apply jslt_spec in Hab, Hbc.
  destruct b as [|y b]; [discriminate|]. simpl in Hab, Hbc.
  rewrite (Ascii.compare_antisym y x) in Hbc.
  destruct (Ascii.compare x y) eqn:E; simpl in Hbc; try discriminate.
  apply Ascii.compare_eq_iff in E as <-.
  apply prefix_cons. split; [reflexivity|].
  apply (IH a b c); auto; now apply jslt_spec.
Qed.

Lemma not_child P e : Shared.startsWith (relativePath e) P = false -> is_child P e = false.
Proof. intros Hs. unfold is_child. now rewrite Hs. Qed.

Lemma child_within P e :
  Shared.startsWith (relativePath e) P = true ->
  is_child P e = negb (Js.contains_char slash
                         (Js.substring_from (String.length P) (relativePath e))).
Proof. intros Hs. unfold is_child. now rewrite Hs. Qed.

(** After an entry that begins with [P], the second loop gives the children
    among the entries that follow. *)
Lemma children_filter P : forall array a,
  String.prefix P a = true ->
  (forall e, e ∈ array -> path_lt a (relativePath e)) ->
  ascending (map relativePath array) ->
  FacadeTreeJs.children P array = map (as_child P) (filter (fun e => is_child P e = true) array).
Proof.
  induction array as [|y array IH]; intros a Ha Hafter Hs; [reflexivity|].
  apply ascending_head in Hs as [Hs Hy].
  cbn [FacadeTreeJs.children]. rewrite filter_cons.
  destruct (Shared.startsWith (relativePath y) P) eqn:Ey.
  - rewrite (IH (relativePath y)); [|exact Ey|exact Hy|exact Hs].
    rewrite (child_within _ _ Ey). cbv zeta.
    destruct (Js.contains_char slash _); simpl;
      [destruct (decide (false = true)) as [?|_]; [discriminate|reflexivity]
      |destruct (decide (true = true)) as [_|?]; [reflexivity|contradiction]].
  - rewrite (not_child _ _ Ey).
    destruct (decide (false = true)) as [?|_]; [discriminate|].
    assert (Hnone : Forall (fun e => ~ is_child P e = true) array).
    { apply Forall_forall. intros z Hz Hc.
      unfold is_child in Hc. apply andb_true_iff in Hc as [Hc _].
      assert (Hpy : String.prefix P (relativePath y) = true).
      { apply (prefix_convex P a (relativePath y) (relativePath z)); auto.
        - apply Hafter. apply list_elem_of_here.
        - now apply Hy. }
      unfold Shared.startsWith, Js.startsWith in Ey. congruence. }
    clear -Hnone. induction Hnone as [|z l Hz _ IHl]; [reflexivity|].
    rewrite filter_cons. destruct (decide (is_child P z = true)); [contradiction|exact IHl].
Qed.

(** On an ascending array, the two loops give the children. *)
Lemma children_skip P : forall array,
  ascending (map relativePath array) ->
  FacadeTreeJs.children P (FacadeTreeJs.skip_to P array)
  = map (as_child P) (filter (fun e => is_child P e = true) array).
Proof.
  induction array as [|y array IH]; intros Hs; [reflexivity|].
  cbn [FacadeTreeJs.skip_to].
  destruct (Shared.startsWith (relativePath y) P) eqn:Ey.
  - pose proof (ascending_head _ _ Hs) as [Hs' Hy].
    cbn [FacadeTreeJs.children]. rewrite Ey. cbv zeta. rewrite filter_cons.
    rewrite (children_filter P array (relativePath y) Ey Hy Hs').
    rewrite (child_within _ _ Ey).
    destruct (Js.contains_char slash _); simpl;
      [destruct (decide (false = true)) as [?|_]; [discriminate|reflexivity]
      |destruct (decide (true = true)) as [_|?]; [reflexivity|contradiction]].
  - apply ascending_head in Hs as [Hs _]. rewrite (IH Hs), filter_cons.
    rewrite (not_child _ _ Ey).
    destruct (decide (false = true)) as [?|_]; [discriminate|reflexivity].
Qed.

Lemma ascending_drop n : forall array,
  ascending (map relativePath array) -> ascending (map relativePath (drop n array)).
Proof.
  induction n as [|n IH]; intros [|y array] Hs; simpl; auto.
  apply IH. now apply ascending_head in Hs as [Hs _].
Qed.

(** On an ascending array that holds the directory, the entries immediately
    in it. *)
Lemma array_children array normalizedPath :
  ascending (map relativePath array) ->
  (normalizedPath = "" \/
   (path_ok normalizedPath /\ exists e, e ∈ array /\ relativePath e = normalizedPath)) ->
  FacadeTreeJs._getEntriesFromArrayForDirectory array normalizedPath
  = map (as_child (Shared.ensureSeparator normalizedPath))
        (filter (fun e => is_child (Shared.ensureSeparator normalizedPath) e = true) array).
Proof.
  intros Hs Hdir. unfold FacadeTreeJs._getEntriesFromArrayForDirectory. cbv zeta.
  set (within := Shared.ensureSeparator normalizedPath).
  destruct (Js.seq normalizedPath "" || _) eqn:Estart.
  { rewrite drop_0. now apply children_skip. }
  apply orb_false_iff in Estart as [Hne Hfirst].
  apply jsseq_false in Hne. destruct Hdir as [->|(Hok & e & He & Hp)]; [contradiction|].
  destruct (proj1 (list_elem_of_lookup array e) He) as [k Hk].
  assert (Hidx : Shared.searchByRelativePath array normalizedPath false = Z.of_nat k).
  { rewrite <- Hp. now apply search_elem. }
  rewrite !Hidx.
  destruct (Z.eqb_spec (Z.of_nat k) (-1)); [lia|].
  replace (Z.to_nat (Z.of_nat k + 1)) with (S k) by lia.
  rewrite children_skip by now apply ascending_drop.
  rewrite <- (take_drop (S k) array) at 2. rewrite filter_app.
  assert (Hlow : filter (fun e => is_child within e = true) (take (S k) array) = []).
  { assert (Hall : Forall (fun z => ~ is_child within z = true) (take (S k) array)).
    { apply Forall_forall. intros z Hz Hc.
      apply list_elem_of_lookup in Hz as [i Hi].
      apply lookup_take_Some in Hi as [Hi Hlt].
      unfold is_child in Hc. apply andb_true_iff in Hc as [Hc _].
      unfold within in Hc. rewrite (ensureSeparator_path_ok _ Hok) in Hc.
      apply prefix_app_lt in Hc; [|discriminate]. rewrite <- Hp in Hc.
      destruct (Nat.eq_dec i k) as [->|Hik].
      - rewrite Hk in Hi. injection Hi as <-. now rewrite jslt_irrefl in Hc.
      - assert (Hzk : path_lt (relativePath z) (relativePath e)).
        { apply (ascending_lookup array i k); auto. lia. }
        apply jslt_asym in Hc. unfold path_lt in Hzk. congruence. }
    clear -Hall. induction Hall as [|z l Hz _ IHl]; [reflexivity|].
    rewrite filter_cons.
    destruct (decide (is_child within z = true)); [contradiction|exact IHl]. }
  now rewrite Hlow.
Qed.

(** X19. On an array that is strictly ascending in [relativePath],
    [_getEntriesFromArrayForDirectory] returns the entries immediately in the
    directory, in the order of the array and with their paths from the
    directory: for the root, and for a directory whose entry the array
    holds, whatever else stands between the directory and its content.
    For a path the array does not hold and its first entry does not begin
    with, the result is empty. *)
Theorem getEntriesFromArrayForDirectory_children array normalizedPath :
  ascending (map relativePath array) ->
  let within := Shared.ensureSeparator normalizedPath in
  ((normalizedPath = "" \/
    (path_ok normalizedPath /\ exists e, e ∈ array /\ relativePath e = normalizedPath)) ->
   FacadeTreeJs._getEntriesFromArrayForDirectory array normalizedPath
   = map (as_child within) (filter (fun e => is_child within e = true) array)) /\
  (normalizedPath <> "" ->
   (forall e, e ∈ array -> relativePath e <> normalizedPath) ->
   (forall first, head array = Some first ->
                  Shared.startsWith (relativePath first) within = false) ->
   FacadeTreeJs._getEntriesFromArrayForDirectory array normalizedPath = []).
Proof.
  intros Hs within. split; [now apply array_children|].
  unfold FacadeTreeJs._getEntriesFromArrayForDirectory. cbv zeta. fold within.
  intros Hne Habs Hfirst.
  apply jsseq_false in Hne. rewrite Hne. simpl.
  assert (Hf : match array with
               | first :: _ => Shared.startsWith (relativePath first) within
               | [] => false
               end = false).
  { destruct array as [|first rest]; [reflexivity|]. now apply Hfirst. }
  rewrite Hf.
  destruct (stands_at_exists array normalizedPath Hs) as [k Hk].
  rewrite (search_spec array normalizedPath k false Hs Hk).
  destruct (array !! k) as [e|] eqn:Ek; [|reflexivity].
  destruct (Js.seq (relativePath e) normalizedPath) eqn:Ee; [|reflexivity].
  apply jsseq_spec in Ee. exfalso. apply (Habs e); [|exact Ee].
  eapply list_elem_of_lookup_2; eauto.
Qed.

End FacadeTreeExtras.

(* ------------------------------------------------------------------------- *)
(** ** FSMergeTree: the guards against conflicting file types and overwriting *)
(* ------------------------------------------------------------------------- *)

Section MergeKinds.
Context {T : Type} `{FacadeTree T}.
Context (trees : list T) (overwrite : bool) (baseDir : string).

(** The pairs number inputs of the tree. *)
Local Abbreviation valid := (Forall (fun pair : nat * string => is_Some (trees !! pair.1))).

Lemma read_names_length possibleIndices : forall (l : list T) index names,
  FSMergeTree.read_names index l baseDir possibleIndices = Ok names ->
  length names = length l.
Proof.
  induction l as [|t0 l IH]; intros index names Hr; simpl in Hr.
  - now injection Hr as <-.
  - match type of Hr with
    | rbind ?m _ = _ => destruct m as [names0|]; simpl in Hr; [|easy]
    end.
    destruct (FSMergeTree.read_names (S index) l baseDir possibleIndices)
      as [rest|] eqn:Er; simpl in Hr; [|easy].
    injection Hr as <-. simpl. f_equal. eauto.
Qed.

Lemma numbered_index (names : list (list string)) : forall index k g,
  (k, g) ∈ FSMergeTree.numbered index names -> index <= k < index + length names.
Proof.
  induction names as [|l names IH]; intros index k g Hin; simpl in Hin;
    [now apply elem_of_nil in Hin|].
  apply elem_of_app in Hin as [Hin|Hin].
  - apply list_elem_of_fmap in Hin as (y & [= -> ->] & _). simpl. lia.
  - apply IH in Hin. simpl. lia.
Qed.

(** The name of an earlier input is numbered before that of a later one. *)
Lemma numbered_split (names : list (list string)) : forall index i j names_i names_j f,
  names !! i = Some names_i -> f ∈ names_i ->
  names !! j = Some names_j -> f ∈ names_j -> i < j ->
  exists l1 l2, FSMergeTree.numbered index names = l1 ++ (index + i, f) :: l2 /\
                (index + j, f) ∈ l2.
Proof.
  induction names as [|l names IH]; intros index i j ni nj f Hi Hfi Hj Hfj Hij; [easy|].
  simpl. destruct j as [|j]; [lia|]. simpl in Hj. destruct i as [|i]; simpl in Hi.
  - injection Hi as ->. apply list_elem_of_split in Hfi as (a & b & ->).
    exists (map (fun fileName => (index, fileName)) a),
           (map (fun fileName => (index, fileName)) b ++ FSMergeTree.numbered (S index) names).
    split.
    + rewrite map_app, Nat.add_0_r. simpl. now rewrite <- app_assoc.
    + apply elem_of_app. right.
      replace (index + S j) with (S index + j) by lia.
      now apply (elem_of_numbered names (S index) j nj).
  - destruct (IH (S index) i j ni nj f Hi Hfi Hj Hfj) as (l1 & l2 & Heq & Hin); [lia|].
    exists (map (fun fileName => (index, fileName)) l ++ l1), l2. split.
    + rewrite Heq, <- app_assoc. now replace (S index + i) with (index + S i) by lia.
    + now replace (index + S j) with (S index + j) by lia.
Qed.

Lemma collect_app l1 : forall l2 fileInfo,
  valid l1 ->
  FSMergeTree.collect_info trees overwrite baseDir (l1 ++ l2) fileInfo =
  rbind (FSMergeTree.collect_info trees overwrite baseDir l1 fileInfo)
        (FSMergeTree.collect_info trees overwrite baseDir l2).
Proof.
  induction l1 as [|[k g] l1 IH]; intros l2 fileInfo Hv; [reflexivity|].
  apply Forall_cons in Hv as [[tk Hk] Hv']. simpl in Hk.
  cbn [app FSMergeTree.collect_info]. rewrite Hk. cbv zeta.
  destruct (tree_statSync tk _) as [stat|x]; [|reflexivity]. cbn [rbind].
  destruct (fileInfo !! g) as [info|];
    [|destruct (Js.inherited_key g); [reflexivity|now apply IH]].
  destruct (negb (Bool.eqb _ _)); [reflexivity|].
  destruct (_ && _); [reflexivity|now apply IH].
Qed.

Lemma isDirectory_fromStat (tree_ : T) filePath sz mt md :
  EntryJs.isDirectory (with_tree tree_ (EntryJs.fromStat filePath sz mt md))
  = EntryJs.mode_is_directory md.
Proof. reflexivity. Qed.

Section Conflict.
Context (f : string) (j : nat) (tree_j : T) (kind_i kind_j : bool).
Context (Hj : trees !! j = Some tree_j).
Context (Hkind_j : forall stat,
           tree_statSync tree_j (Shared.path_join [baseDir; f]) = Ok stat ->
           EntryJs.mode_is_directory (stat_mode stat) = kind_j).
Context (Hconflict : kind_i <> kind_j \/ (kind_i = false /\ overwrite = false)).

(** Once the name is held with the kind of the first input, the loop throws
    at the second input at the latest. *)
Lemma collect_second pairs : forall fileInfo info,
  fileInfo !! f = Some info -> FSMergeTree.info_isDirectory info = kind_i ->
  (j, f) ∈ pairs -> valid pairs ->
  exists x, FSMergeTree.collect_info trees overwrite baseDir pairs fileInfo = Throw x.
Proof.
  induction pairs as [|[k g] pairs IH]; intros fileInfo info Hf Hd Hin Hv;
    [now apply elem_of_nil in Hin|].
  apply Forall_cons in Hv as [[tk Hk] Hv']. simpl in Hk.
  cbn [FSMergeTree.collect_info]. rewrite Hk. cbv zeta.
  destruct (tree_statSync tk _) as [stat|x] eqn:Estat; [|now exists x]. cbn [rbind].
  rewrite isDirectory_fromStat.
  destruct (decide (g = f)) as [->|Hg].
  - rewrite Hf, Hd.
    destruct (Bool.eqb kind_i (EntryJs.mode_is_directory (stat_mode stat))) eqn:Ekind;
      cbn [negb]; [|eauto].
    apply Bool.eqb_prop in Ekind.
    destruct (negb (EntryJs.mode_is_directory (stat_mode stat)) && negb overwrite) eqn:Eover;
      [eauto|].
    apply elem_of_cons in Hin as [[= <-]|Hin].
    + exfalso. rewrite Hk in Hj. injection Hj as ->.
      rewrite (Hkind_j _ Estat) in Ekind, Eover.
      destruct Hconflict as [Hne|[Hfile Hover]]; [contradiction|].
      rewrite <- Ekind, Hfile, Hover in Eover. discriminate.
    + eapply IH; [apply lookup_insert_eq|reflexivity|exact Hin|exact Hv'].
  - apply elem_of_cons in Hin as [[= -> ->]|Hin]; [contradiction|].
    destruct (fileInfo !! g) as [info'|].
    + destruct (negb (Bool.eqb _ _)); [eauto|].
      destruct (_ && _); [eauto|].
      eapply IH; [|exact Hd|exact Hin|exact Hv'].
      now rewrite lookup_insert_ne by exact Hg.
    + destruct (Js.inherited_key g); [eauto|].
      eapply IH; [|exact Hd|exact Hin|exact Hv'].
      now rewrite lookup_insert_ne by exact Hg.
Qed.

Context (i : nat) (tree_i : T).
Context (Hi : trees !! i = Some tree_i).
Context (Hkind_i : forall stat,
           tree_statSync tree_i (Shared.path_join [baseDir; f]) = Ok stat ->
           EntryJs.mode_is_directory (stat_mode stat) = kind_i).

Lemma collect_conflict l1 l2 fileInfo :
  valid (l1 ++ (i, f) :: l2) -> (j, f) ∈ l2 ->
  exists x, FSMergeTree.collect_info trees overwrite baseDir (l1 ++ (i, f) :: l2) fileInfo
            = Throw x.
Proof.
  intros Hv Hin.
  apply Forall_app in Hv as [Hv1 Hv2]. apply Forall_cons in Hv2 as [_ Hv2].
  rewrite collect_app by exact Hv1.
  destruct (FSMergeTree.collect_info trees overwrite baseDir l1 fileInfo) as [fi|x];
    [|now exists x].
  cbn [rbind FSMergeTree.collect_info]. rewrite Hi. cbv zeta.
  destruct (tree_statSync tree_i _) as [stat|x] eqn:Estat; [|now exists x]. cbn [rbind].
  rewrite isDirectory_fromStat, (Hkind_i _ eq_refl).
  destruct (fi !! f) as [info|] eqn:Ef.
  - destruct (negb (Bool.eqb _ _)) eqn:Ekind; [eauto|].
    destruct (_ && _); [eauto|].
    apply negb_false_iff, Bool.eqb_prop in Ekind.
    eapply collect_second; [apply lookup_insert_eq|exact Ekind|exact Hin|exact Hv2].
  - destruct (Js.inherited_key f); [eauto|].
    eapply collect_second; [apply lookup_insert_eq|reflexivity|exact Hin|exact Hv2].
Qed.

End Conflict.
End MergeKinds.

Section MergeGuards.
Context {T : Type} `{FacadeTree T}.

(** X20. When the listings of a directory in two inputs hold the same name,
    and the two inputs do not agree on whether it is a directory, or it is a
    file in both and [overwrite] is not set, the merge of that directory
    throws, and so does [changes] when the directory is the root, leaving
    the merge tree as it was. *)
Theorem merge_conflicting_entries (canSymlink overwrite : bool)
    (fuel : nat) (trees : list T) (baseDir : string)
    (possibleIndices : option (list nat)) (names : list (list string))
    (i j : nat) (tree_i tree_j : T) (listing_i listing_j : list string)
    (name : string) (kind_i kind_j : bool) :
  FSMergeTree.read_names 0 trees baseDir possibleIndices = Ok names ->
  trees !! i = Some tree_i -> is_read possibleIndices i ->
  tree_readdirSync tree_i baseDir = Ok listing_i -> name ∈ listing_i ->
  trees !! j = Some tree_j -> is_read possibleIndices j ->
  tree_readdirSync tree_j baseDir = Ok listing_j -> name ∈ listing_j ->
  i < j ->
  (forall stat, tree_statSync tree_i (Shared.path_join [baseDir; name]) = Ok stat ->
                EntryJs.mode_is_directory (stat_mode stat) = kind_i) ->
  (forall stat, tree_statSync tree_j (Shared.path_join [baseDir; name]) = Ok stat ->
                EntryJs.mode_is_directory (stat_mode stat) = kind_j) ->
  kind_i <> kind_j \/ (kind_i = false /\ overwrite = false) ->
  exists x,
    FSMergeTree._mergeRelativePath canSymlink (S fuel) trees overwrite baseDir
      possibleIndices = Throw x /\
    (baseDir = "" -> possibleIndices = None ->
     forall current,
       FSMergeTree.changes canSymlink (S fuel) overwrite (FSMergeTree.Make trees current) =
       (FSMergeTree.Make trees current, Throw x)).
Proof.
  intros Hr Hi Hpi Hli H1 Hj Hpj Hlj H2 Hij Hki Hkj Hconflict.
  pose proof (read_names_lookup _ _ _ _ _ Hr i _ _ Hi Hpi Hli) as Ni.
  pose proof (read_names_lookup _ _ _ _ _ Hr j _ _ Hj Hpj Hlj) as Nj.
  apply (elem_of_sort FSMergeTree.compareNames) in H1, H2.
  destruct (numbered_split names 0 i j _ _ name Ni H1 Nj H2 Hij) as (l1 & l2 & Hnum & Hin).
  change (0 + i) with i in Hnum. change (0 + j) with j in Hin.
  assert (Hv : Forall (fun pair : nat * string => is_Some (trees !! pair.1))
                      (FSMergeTree.numbered 0 names)).
  { apply Forall_forall. intros [k g] Hk. apply numbered_index in Hk.
    rewrite (read_names_length _ _ _ _ _ Hr) in Hk. apply lookup_lt_is_Some. simpl. lia. }
  assert (Hm : exists x,
             FSMergeTree._mergeRelativePath canSymlink (S fuel) trees overwrite baseDir
               possibleIndices = Throw x).
  { cbn [FSMergeTree._mergeRelativePath]. rewrite Hr. cbn [rbind].
    destruct (FSMergeTree.guard_capitalization baseDir (FSMergeTree.numbered 0 names) ∅)
      as [[]|x]; [|simpl; eauto].
    cbn [rbind].
    destruct (collect_conflict trees overwrite baseDir name j tree_j kind_i kind_j
                Hj Hkj Hconflict i tree_i Hi Hki l1 l2 ∅) as [x Hx].
    - now rewrite <- Hnum.
    - exact Hin.
    - rewrite Hnum, Hx. simpl. eauto. }
  destruct Hm as [x Hm]. exists x. split; [exact Hm|].
  intros -> -> current. unfold FSMergeTree.changes, bind, get, lift.
  cbn [FSMergeTree.inputs]. now rewrite Hm.
Qed.

End MergeGuards.

(* ------------------------------------------------------------------------- *)
(** ** Reading a writable tree after it was written                           *)
(* ------------------------------------------------------------------------- *)

Section WritableTreeReadsExtras.
Context {T : Type} `{FacadeTree T} `{Md5}.
Implicit Types (s : WritableTree.t T) (e : Entry T) (p np relPath : string).

Lemma unlinkSync_inv s0 relPath np s1 :
  entries_ok s0 -> Shared.normalizeRelativePath relPath = Ok np ->
  WritableTree.unlinkSync relPath s0 = (s1, Ok tt) ->
  WritableTreeReads.existsSync s1 relPath = Ok (WritableTreeReads.Value false).
Proof.
  intros Hok Hnorm Hrun. unfold WritableTree.unlinkSync in Hrun.
  apply (opening_inv _ _ np) in Hrun as (Hn & Hne & Hpar & Hst & _ & Hrun); auto.
  destruct (WritableTree._findByRelativePath s0 np (Some false)) as [[entry owner]|] eqn:Ef;
    [|discriminate].
  destruct (find_inv _ _ _ _ _ Hok Hn Hne Hpar Ef) as (e & He & Hp).
  rewrite <- Hp, find_stored in Ef; [|apply Hok|exact He|congruence|now left].
  injection Ef as <- <-.
  destruct (negb _ && _); [discriminate|].
  apply remove_tail in Hrun as (_ & _ & Hs1 & Hmem); [|apply Hok].
  unfold WritableTreeReads.existsSync. rewrite Hnorm. cbn [rbind].
  rewrite (find_removed s0 s1 np None); auto. now rewrite <- Hp.
Qed.

Lemma rmdirSync_inv s0 relPath np s1 :
  entries_ok s0 -> Shared.normalizeRelativePath relPath = Ok np ->
  WritableTree.rmdirSync relPath s0 = (s1, Ok tt) ->
  WritableTreeReads.existsSync s1 relPath = Ok (WritableTreeReads.Value false).
Proof.
  intros Hok Hnorm Hrun. unfold WritableTree.rmdirSync in Hrun.
  apply (opening_inv _ _ np) in Hrun as (Hn & Hne & Hpar & Hst & Hlink & Hrun); auto.
  destruct (WritableTree._findByRelativePath s0 np None) as [[entry owner]|] eqn:Ef;
    [|discriminate].
  destruct (find_inv _ _ _ _ _ Hok Hn Hne Hpar Ef) as (e & He & Hp).
  assert (Hsym : _symlink e = None).
  { specialize (Hlink eq_refl e He Hp). unfold EntryJs.isSymbolicLink in Hlink.
    now destruct (_symlink e). }
  rewrite <- Hp, find_stored in Ef; [|apply Hok|exact He|congruence|now right].
  injection Ef as <- <-.
  destruct (_ || _); [discriminate|].
  apply remove_tail in Hrun as (_ & _ & Hs1 & Hmem); [|apply Hok].
  unfold WritableTreeReads.existsSync. rewrite Hnorm. cbn [rbind].
  rewrite (find_removed s0 s1 np None); auto. now rewrite <- Hp.
Qed.

Lemma exists_stored s relPath np e :
  Shared.normalizeRelativePath relPath = Ok np ->
  WritableTree._findByRelativePath s np None = Some (Stored e, WritableTree.This) ->
  _symlink e = None ->
  WritableTreeReads.existsSync s relPath = Ok (WritableTreeReads.Value true).
Proof.
  intros Hnorm Hfind Hsym. unfold WritableTreeReads.existsSync.
  rewrite Hnorm. cbn [rbind]. rewrite Hfind. simpl. now rewrite Hsym.
Qed.

Lemma mkdirSync_inv s0 relPath np now s1 :
  entries_ok s0 -> Shared.normalizeRelativePath relPath = Ok np ->
  EntryJs.chompLeadingAndTrailingSeparator np = np ->
  WritableTree.mkdirSync relPath now s0 = (s1, Ok tt) ->
  WritableTreeReads.existsSync s1 relPath = Ok (WritableTreeReads.Value true).
Proof.
  intros Hok Hnorm Hchomp Hrun. unfold WritableTree.mkdirSync in Hrun.
  apply (opening_inv _ _ np) in Hrun as (Hn & Hne & Hpar & Hst & Hlink & Hrun); auto.
  destruct (WritableTree._findByRelativePath s0 np None); [discriminate|].
  cbv zeta in Hrun.
  apply insert_tail in Hrun as (_ & _ & Hs1 & Hmem); [|apply Hok].
  match type of Hmem with context [_ = ?x \/ _] => set (entry := x) in * end.
  assert (Hp : relativePath entry = np) by exact Hchomp.
  apply (exists_stored _ _ np entry); auto.
  rewrite <- Hp. apply (find_inserted s0); auto; now rewrite Hp.
Qed.

Lemma writeFileSync_inv s0 relPath np content now s1 :
  entries_ok s0 -> Shared.normalizeRelativePath relPath = Ok np ->
  WritableTree.writeFileSync relPath content now s0 = (s1, Ok tt) ->
  WritableTreeReads.existsSync s1 relPath = Ok (WritableTreeReads.Value true).
Proof.
  intros Hok Hnorm Hrun. unfold WritableTree.writeFileSync in Hrun.
  apply (opening_inv _ _ np) in Hrun as (Hn & Hne & Hpar & Hst & Hlink & Hrun); auto.
  cbv zeta in Hrun. specialize (Hlink eq_refl).
  destruct (WritableTree._findByRelativePath s0 np None) as [[entry owner]|] eqn:Ef.
  - destruct (find_inv _ _ _ _ _ Hok Hn Hne Hpar Ef) as (e & He & Hp).
    assert (Hsym : _symlink e = None).
    { specialize (Hlink e He Hp). unfold EntryJs.isSymbolicLink in Hlink.
      now destruct (_symlink e). }
    assert (Ef0 := Ef).
    rewrite <- Hp, find_stored in Ef; [|apply Hok|exact He|congruence|now right].
    injection Ef as <- <-.
    apply bind_ok_inv in Hrun as (sx & [] & Hfirst & Hrun).
    cbn [EntryJs.ref_isDirectory] in Hfirst.
    destruct (EntryJs.isDirectory e) eqn:Edir; [discriminate|].
    assert (sx = s0) as ->.
    { destruct e as [? ? ? ? ? l ? ?]. simpl in Hsym. subst l. now injection Hfirst. }
    destruct (optstr_seq (checksum e) (Some (md5hex content))).
    + injection Hrun as <-. now apply (exists_stored _ _ np e).
    + apply insert_tail in Hrun as (_ & _ & Hs1 & Hmem); [|apply Hok].
      match type of Hmem with context [_ = ?x \/ _] => set (entry := x) in * end.
      assert (Hmode : EntryJs.mode_is_directory (mode e) = false).
      { unfold EntryJs.isDirectory in Edir. now rewrite Hsym in Edir. }
      assert (Hpe : relativePath entry = np) by now apply new_file_path.
      apply (exists_stored _ _ np entry); auto.
      rewrite <- Hpe. apply (find_inserted s0); auto; now rewrite Hpe.
  - unfold bind at 1, ret in Hrun.
    apply insert_tail in Hrun as (_ & _ & Hs1 & Hmem); [|apply Hok].
    match type of Hmem with context [_ = ?x \/ _] => set (entry := x) in * end.
    assert (Hpe : relativePath entry = np) by now apply new_file_path.
    apply (exists_stored _ _ np entry); auto.
    rewrite <- Hpe. apply (find_inserted s0); auto; now rewrite Hpe.
Qed.

(** X21. What a write has done is what [existsSync] answers.  In a tree
    whose entries are strictly ascending and have paths that are not empty
    and do not end with the separator, after [writeFileSync] has returned
    the path exists, after [unlinkSync] or [rmdirSync] has returned it does
    not, and after [mkdirSync] has returned it exists when the normalized
    path neither begins nor ends with a backslash. *)
Theorem existsSync_after_write s0 relPath np s1 :
  entries_ok s0 -> Shared.normalizeRelativePath relPath = Ok np ->
  (forall content now,
     WritableTree.writeFileSync relPath content now s0 = (s1, Ok tt) ->
     WritableTreeReads.existsSync s1 relPath = Ok (WritableTreeReads.Value true)) /\
  (forall now,
     WritableTree.mkdirSync relPath now s0 = (s1, Ok tt) ->
     EntryJs.chompLeadingAndTrailingSeparator np = np ->
     WritableTreeReads.existsSync s1 relPath = Ok (WritableTreeReads.Value true)) /\
  (WritableTree.unlinkSync relPath s0 = (s1, Ok tt) ->
   WritableTreeReads.existsSync s1 relPath = Ok (WritableTreeReads.Value false)) /\
  (WritableTree.rmdirSync relPath s0 = (s1, Ok tt) ->
   WritableTreeReads.existsSync s1 relPath = Ok (WritableTreeReads.Value false)).
Proof.
  intros Hok Hnorm. split; [|split; [|split]].
  - intros content now. now apply (writeFileSync_inv s0 relPath np).
  - intros now Hrun Hchomp. now apply (mkdirSync_inv s0 relPath np now).
  - now apply (unlinkSync_inv s0 relPath np).
  - now apply (rmdirSync_inv s0 relPath np).
Qed.

End WritableTreeReadsExtras.

(* ------------------------------------------------------------------------- *)
(** ** [readdirSync] of a writable tree                                       *)
(* ------------------------------------------------------------------------- *)

Section WritableTreeReaddir.
Context {T : Type} `{FacadeTree T} `{Md5}.
Implicit Types (s : WritableTree.t T) (e : Entry T) (p np relPath : string).

Lemma as_child_path within e :
  relativePath (as_child within e)
  = Js.substring_from (String.length within) (relativePath e).
Proof. now destruct e. Qed.

(** X22. [readdirSync] of a writable tree whose entries are strictly
    ascending and have paths that are not empty and do not end with the
    separator: for the root and for a directory of the tree that is not a
    link, the names of the entries immediately in it, in the order of the
    tree; for a file of the tree that is not a link, the error [ENOTDIR];
    for a path that no entry has, below the root or a directory of the
    tree, the error [ENOENT]. *)
Theorem readdirSync_children s relPath np :
  entries_ok s -> Shared.normalizeRelativePath relPath = Ok np ->
  let within := Shared.ensureSeparator np in
  ((np = "" \/ exists e, e ∈ WritableTree._entries s /\ relativePath e = np /\
                         EntryJs.isDirectory e = true /\ _symlink e = None) ->
   WritableTreeReads.readdirSync s relPath =
   Ok (WritableTreeReads.Value
         (map (fun e => Js.substring_from (String.length within) (relativePath e))
              (filter (fun e => is_child within e = true) (WritableTree._entries s))))) /\
  ((exists e, e ∈ WritableTree._entries s /\ relativePath e = np /\
              EntryJs.isDirectory e = false /\ _symlink e = None) ->
   WritableTreeReads.readdirSync s relPath = Throw (ENOTDIR "scandir" relPath)) /\
  (np <> "" -> parent_in_tree s np ->
   (forall e, e ∈ WritableTree._entries s -> relativePath e <> np) ->
   WritableTreeReads.readdirSync s relPath = Throw (ENOENT "scandir" relPath)).
Proof.
  intros Hok Hnorm within. pose proof Hok as [Hs Hpaths].
  unfold WritableTreeReads.readdirSync. rewrite Hnorm. cbn [rbind].
  split; [|split].
  - intros [->|(e & He & Hp & Hdir & Hsym)].
    + change (WritableTree._findByRelativePath s "" None)
        with (Some (ROOT (T := T), WritableTree.This (T := T))).
      cbn [WritableTreeReads.external_target].
      change (EntryJs.ref_isFile (T := T) ROOT) with false. cbv iota.
      change (WritableTreeReads._getEntriesForDirectory s "")
        with (Ok (FacadeTreeJs._getEntriesFromArrayForDirectory
                    (WritableTree._entries s) "")).
      cbn [rbind]. rewrite (array_children _ "" Hs) by now left.
      rewrite map_map. do 2 f_equal. apply map_ext. intros e. apply as_child_path.
    + assert (Hpo : path_ok np).
      { rewrite <- Hp. rewrite Forall_forall in Hpaths. now apply Hpaths. }
      assert (Hfind : WritableTree._findByRelativePath s np None
                      = Some (Stored e, WritableTree.This)).
      { rewrite <- Hp. apply find_stored; auto. rewrite Hp. apply Hpo. }
      rewrite Hfind. cbn [WritableTreeReads.external_target]. rewrite Hsym.
      unfold EntryJs.ref_isFile. cbn [EntryJs.ref_isDirectory]. rewrite Hdir. cbn [negb].
      unfold WritableTreeReads._getEntriesForDirectory.
      destruct Hpo as [Hne Hlast]. pose proof Hne as Hne'.
      apply jsseq_false in Hne'. rewrite Hne'. cbv zeta.
      destruct (proj1 (list_elem_of_lookup _ e) He) as [k Hk].
      assert (Hidx : Shared.searchByRelativePath (WritableTree._entries s) np true
                     = Z.of_nat k).
      { rewrite <- Hp. now apply search_elem. }
      rewrite !Hidx.
      destruct (Z.eqb_spec (Z.of_nat k) (-1)); [lia|].
      rewrite aget_lookup, Hk, Hp, jsseq_refl, Hdir.
      unfold WritableTree.linked_directory. rewrite Hsym. cbn [rbind].
      rewrite (array_children _ np Hs) by (right; split; [split; assumption|eauto]).
      rewrite map_map. do 2 f_equal. apply map_ext. intros x. apply as_child_path.
  - intros (e & He & Hp & Hdir & Hsym).
    assert (Hpo : path_ok np).
    { rewrite <- Hp. rewrite Forall_forall in Hpaths. now apply Hpaths. }
    assert (Hfind : WritableTree._findByRelativePath s np None
                    = Some (Stored e, WritableTree.This)).
    { rewrite <- Hp. apply find_stored; auto. rewrite Hp. apply Hpo. }
    rewrite Hfind. cbn [WritableTreeReads.external_target]. rewrite Hsym.
    unfold EntryJs.ref_isFile. cbn [EntryJs.ref_isDirectory]. now rewrite Hdir.
  - intros Hne Hpar Habs.
    rewrite find_absent; auto. eapply normalizeRelativePath_normalized; eauto.
Qed.

End WritableTreeReaddir.

(* ------------------------------------------------------------------------- *)
(** ** A directory made and removed again                                     *)
(* ------------------------------------------------------------------------- *)

Section WritableTreeCancel.
Context {T : Type} `{FacadeTree T} `{Md5}.
Implicit Types (s : WritableTree.t T) (e : Entry T) (p np relPath : string).

(** Two ascending arrays of the same entries are one array. *)
Lemma ascending_ext (l1 : list (Entry T)) : forall l2,
  ascending (map relativePath l1) -> ascending (map relativePath l2) ->
  (forall x, x ∈ l1 <-> x ∈ l2) -> l1 = l2.
Proof.
  induction l1 as [|a l1 IH]; intros [|b l2] H1 H2 Hmem; try reflexivity.
  - exfalso. eapply not_elem_of_nil. apply Hmem. now left.
  - exfalso. eapply not_elem_of_nil. apply Hmem. now left.
  - apply ascending_head in H1 as [H1 Ha]. apply ascending_head in H2 as [H2 Hb].
    assert (a = b) as ->.
    { assert (Hab : a ∈ b :: l2) by (apply Hmem; now left).
      assert (Hba : b ∈ a :: l1) by (apply Hmem; now left).
      apply elem_of_cons in Hab as [?|Hab]; [assumption|].
      apply elem_of_cons in Hba as [?|Hba]; [congruence|].
      apply Hb in Hab. apply Ha in Hba. apply jslt_asym in Hab.
      unfold path_lt in Hba. congruence. }
    f_equal. apply IH; auto. intros x. split; intros Hx.
    + assert (Hx' : x ∈ b :: l2) by (apply Hmem; now right).
      apply elem_of_cons in Hx' as [->|?]; [|assumption].
      apply Ha in Hx. unfold path_lt in Hx. now rewrite jslt_irrefl in Hx.
    + assert (Hx' : x ∈ b :: l1) by (apply Hmem; now right).
      apply elem_of_cons in Hx' as [->|?]; [|assumption].
      apply Hb in Hx. unfold path_lt in Hx. now rewrite jslt_irrefl in Hx.
Qed.

(** Dropping the node numbered last leaves the nodes numbered before. *)
Lemma filter_numbered (l : list (WritableTree.Node T)) (id : nat) (c : Change T) :
  Forall (fun n => WritableTree.node_id n < id) l ->
  filter (fun n => WritableTree.node_id n <> id) (l ++ [WritableTree.MkNode id c]) = l.
Proof.
  intros Hl. rewrite filter_app. rewrite filter_cons_False by (simpl; intros Hn; now apply Hn).
  rewrite filter_nil, app_nil_r.
  induction Hl as [|n l Hn _ IH]; [reflexivity|].
  rewrite filter_cons_True by lia. now f_equal.
Qed.

(** The checks that begin a method, when they pass. *)
Lemma opening_run {A} operation relPath np allowSymlinks
    (k : string -> WritableTree.t T -> WritableTree.M T A) s :
  Shared.normalizeRelativePath relPath = Ok np ->
  WritableTree._throwOnCommonErrors operation np relPath false allowSymlinks s
  = (s, Ok tt) ->
  (let* normalizedPath := lift (Shared.normalizeRelativePath relPath) in
   WritableTree._throwOnCommonErrors operation normalizedPath relPath false allowSymlinks >>
   let* s := get in k normalizedPath s) s = k np s s.
Proof.
  intros Hnorm Htoce. unfold lift. unfold bind at 1. rewrite Hnorm.
  now rewrite (bind_run _ _ _ _ _ Htoce).
Qed.

(** No entry stands at a path where a method that refuses links finds
    nothing. *)
Lemma absent_of_find s np :
  ascending (map relativePath (WritableTree._entries s)) -> np <> "" ->
  (forall e, e ∈ WritableTree._entries s -> relativePath e = np ->
             EntryJs.isSymbolicLink e = false) ->
  WritableTree._findByRelativePath s np None = None ->
  forall e, e ∈ WritableTree._entries s -> relativePath e <> np.
Proof.
  intros Hs Hne Hlink Hfind e He Hp.
  specialize (Hlink e He Hp). unfold EntryJs.isSymbolicLink in Hlink.
  rewrite <- Hp, find_stored in Hfind; auto; try discriminate.
  - congruence.
  - right. now destruct (_symlink e).
Qed.

(** [_track] leaves the nodes numbered. *)
Lemma track_numbered operation e s s' :
  WritableTree._track operation e s = (s', Ok tt) ->
  nodes_numbered s -> nodes_numbered s'.
Proof.
  assert (Hf : forall id (l : list (WritableTree.Node T)) k,
             Forall (fun n => WritableTree.node_id n < k) l ->
             Forall (fun n => WritableTree.node_id n < k)
                    (filter (fun n => WritableTree.node_id n <> id) l)).
  { intros id l k Hl. apply Forall_forall. intros n [_ Hn]%list_elem_of_filter.
    rewrite Forall_forall in Hl. now apply Hl. }
  assert (Ha : forall (l : list (WritableTree.Node T)) k c,
             Forall (fun n => WritableTree.node_id n < k) l ->
             Forall (fun n => WritableTree.node_id n < S k)
                    (l ++ [WritableTree.MkNode k c])).
  { intros l k c Hl. apply Forall_app. split.
    - eapply Forall_impl; [exact Hl|]. simpl. intros; lia.
    - repeat constructor. }
  unfold nodes_numbered. intros Hrun Hnum. revert Hrun.
  destruct operation; unfold WritableTree._track, bind;
    repeat (rewrite untrack_run;
            destruct (WritableTree.hash_get _ _ !! _); cbn [fst snd]);
    unfold WritableTree.track_node, modify, ret; intros [= <-]; simpl; auto.
Qed.

(** The nodes of a tree whose changes were tracked since it was started are
    numbered. *)
Lemma plain_numbered s : plain_tracker s -> nodes_numbered s.
Proof.
  induction 1 as [s s' Hstart|s operation_ entry s' _ IH _ Htrack|s s' _ IH Hc _ Hn].
  - injection Hstart as <-. constructor.
  - eapply track_numbered; eauto.
  - unfold nodes_numbered. now rewrite Hc, Hn.
Qed.

(** X23. A directory that is made and removed again leaves no trace in the
    tree.  The tree has ascending entries whose paths are not empty and do
    not end with the separator, and its changes were tracked since it was
    started at paths other than the property names of [Object.prototype].
    Let [mkdirSync] return at a normalized path that is no such name, that
    neither begins nor ends with a backslash and at which no [rmdir] is
    tracked.  Then [rmdirSync] at that path returns, and the tree has the
    entries and the list of changes it had before the two calls, so
    [changes()] reports what it reported before. *)
Theorem mkdir_then_rmdir s0 relPath np now s1 :
  entries_ok s0 -> plain_tracker s0 ->
  Shared.normalizeRelativePath relPath = Ok np ->
  Js.inherited_key np = false ->
  EntryJs.chompLeadingAndTrailingSeparator np = np ->
  WritableTree.hash_rmdir (WritableTree._changeHash s0) !! np = None ->
  WritableTree.mkdirSync relPath now s0 = (s1, Ok tt) ->
  exists s2,
    WritableTree.rmdirSync relPath s1 = (s2, Ok tt) /\
    WritableTree._entries s2 = WritableTree._entries s0 /\
    WritableTree._changes s2 = WritableTree._changes s0 /\
    WritableTree.changes s2 = WritableTree.changes s0.
Proof.
  intros Hok Hplain Hnorm _ Hchomp Hrm Hrun. pose proof Hok as [Hs Hpaths].
  pose proof (plain_numbered s0 Hplain) as Hnum.
  unfold WritableTree.mkdirSync in Hrun.
  apply (opening_inv _ _ np) in Hrun as (Hn & Hne & Hpar & Hst & Hlink & Hrun); auto.
  specialize (Hlink eq_refl).
  destruct (WritableTree._findByRelativePath s0 np None) eqn:Ef; [discriminate|].
  pose proof (absent_of_find s0 np Hs Hne Hlink Ef) as Habs.
  cbv zeta in Hrun.
  set (entry := EntryJs.new np None (TimeNumber now) EntryJs.DIRECTORY_MODE None) in *.
  assert (Hp : relativePath entry = np) by exact Hchomp.
  assert (Hsym : _symlink entry = None) by reflexivity.
  assert (Hdir : EntryJs.isDirectory entry = true) by reflexivity.
  clearbody entry.
  unfold bind at 1, WritableTree.fs_call, modify in Hrun.
  match type of Hrun with context [bind _ _ ?st] => set (sy := st) in Hrun end.
  set (node := WritableTree.MkNode (WritableTree._nextNode s0) (MkChange mkdir np entry)).
  assert (Htrack : exists h,
            WritableTree._track mkdir entry sy =
            (WritableTree.set_tracker (WritableTree._changes s0 ++ [node]) h
               (S (WritableTree._nextNode s0)) sy, Ok tt) /\
            WritableTree.hash_mkdir h !! np = Some (WritableTree._nextNode s0)).
  { unfold WritableTree._track, bind. rewrite untrack_run. cbn [WritableTree.hash_get].
    rewrite Hp. simpl. rewrite Hrm.
    unfold WritableTree.track_node, modify. simpl. rewrite Hp.
    eexists. split; [reflexivity|]. simpl. apply lookup_insert_eq. }
  destruct Htrack as (h & Htrack & Hh).
  rewrite (bind_run _ _ _ _ _ Htrack) in Hrun.
  match type of Hrun with context [WritableTree._insertEntry _ ?st] =>
    set (sz := st) in Hrun end.
  destruct (insertEntry_spec sz entry Hs) as (es1 & Hins & Hs1 & Hmem1).
  rewrite Hins in Hrun. injection Hrun as <-.
  set (s1 := WritableTree.set_entries es1 sz).
  rewrite Hp in Hmem1. simpl in Hmem1.
  (* rmdirSync *)
  assert (Hin : entry ∈ WritableTree._entries s1) by (apply Hmem1; now left).
  assert (Htoce : WritableTree._throwOnCommonErrors "rmdir" np relPath false false s1
                  = (s1, Ok tt)).
  { apply throwOnCommonErrors_intro; auto.
    - apply (parent_in_tree_ext s0); auto. intros x Hx Hxp. apply Hmem1. now right.
    - intros _ x Hx Hxp. apply Hmem1 in Hx as [->|[_ Hx]]; [|contradiction].
      unfold EntryJs.isSymbolicLink. now rewrite Hsym. }
  assert (Hfind : WritableTree._findByRelativePath s1 np None
                  = Some (Stored entry, WritableTree.This)).
  { rewrite <- Hp. apply find_stored; auto. congruence. }
  unfold WritableTree.rmdirSync. rewrite (opening_run _ _ np) by assumption.
  rewrite Hfind.
  cbn [EntryJs.ref_isSymbolicLink EntryJs.ref_isDirectory].
  unfold EntryJs.isSymbolicLink. rewrite Hsym, Hdir. cbn [negb orb].
  unfold bind at 1, WritableTree.fs_call, modify.
  match goal with |- context [bind _ _ ?st] => set (s1a := st) end.
  assert (Htrack1 : exists h',
            WritableTree._track rmdir entry s1a =
            (WritableTree.set_tracker (WritableTree._changes s0) h'
               (S (WritableTree._nextNode s0)) s1a, Ok tt)).
  { unfold WritableTree._track, bind. rewrite untrack_run. cbn [WritableTree.hash_get].
    rewrite Hp. simpl. rewrite Hh. unfold ret.
    unfold node. rewrite filter_numbered by exact Hnum. eauto. }
  destruct Htrack1 as (h' & Htrack1).
  rewrite (bind_run _ _ _ _ _ Htrack1).
  match goal with |- context [WritableTree._removeEntry _ ?st] => set (s1b := st) end.
  destruct (removeEntry_spec s1b entry Hs1) as (es2 & Hrem & Hs2 & Hmem2).
  rewrite Hrem. rewrite Hp in Hmem2. simpl in Hmem2.
  set (s2 := WritableTree.set_entries es2 s1b). exists s2.
  assert (He2 : WritableTree._entries s2 = WritableTree._entries s0).
  { simpl. apply ascending_ext; auto. intros x. rewrite Hmem2, Hmem1. split.
    - intros [[->|[Hx _]] Hxp]; [congruence|exact Hx].
    - intros Hx. split; [right; split|]; auto. }
  assert (Hc2 : WritableTree._changes s2 = WritableTree._changes s0) by reflexivity.
  split; [reflexivity|]. split; [exact He2|]. split; [exact Hc2|].
  unfold WritableTree.changes. cbv zeta. now rewrite He2, Hc2.
Qed.

End WritableTreeCancel.

(* ------------------------------------------------------------------------- *)
(** ** A file written and unlinked again                                      *)
(* ------------------------------------------------------------------------- *)

Section WritableTreeCancelFile.
Context {T : Type} `{FacadeTree T} `{Md5}.
Implicit Types (s : WritableTree.t T) (e : Entry T) (p np relPath : string).

(** X24. A new file that is written and unlinked again leaves no trace in
    the tree.  The tree has ascending entries whose paths are not empty and
    do not end with the separator, and its changes were tracked since it
    was started at paths other than the property names of
    [Object.prototype].  Let [writeFileSync] return at a normalized path
    that is no such name, where nothing was found and at which no [unlink]
    and no [change] is tracked.  Then [unlinkSync] at that path returns, and
    the tree has the entries and the list of changes it had before the two
    calls, so [changes()] reports what it reported before. *)
Theorem writeFile_then_unlink s0 relPath np content now s1 :
  entries_ok s0 -> plain_tracker s0 ->
  Shared.normalizeRelativePath relPath = Ok np ->
  Js.inherited_key np = false ->
  WritableTree._findByRelativePath s0 np None = None ->
  WritableTree.hash_unlink (WritableTree._changeHash s0) !! np = None ->
  WritableTree.hash_change (WritableTree._changeHash s0) !! np = None ->
  WritableTree.writeFileSync relPath content now s0 = (s1, Ok tt) ->
  exists s2,
    WritableTree.unlinkSync relPath s1 = (s2, Ok tt) /\
    WritableTree._entries s2 = WritableTree._entries s0 /\
    WritableTree._changes s2 = WritableTree._changes s0 /\
    WritableTree.changes s2 = WritableTree.changes s0.
Proof.
  intros Hok Hplain Hnorm _ Ef Hun Hch Hrun. pose proof Hok as [Hs Hpaths].
  pose proof (plain_numbered s0 Hplain) as Hnum.
  unfold WritableTree.writeFileSync in Hrun.
  apply (opening_inv _ _ np) in Hrun as (Hn & Hne & Hpar & Hst & Hlink & Hrun); auto.
  specialize (Hlink eq_refl).
  pose proof (absent_of_find s0 np Hs Hne Hlink Ef) as Habs.
  cbv zeta in Hrun. rewrite Ef in Hrun. unfold bind at 1, ret in Hrun.
  set (entry := EntryJs.new np (Some (Z.of_nat (String.length content)))
                  (TimeNumber now) EntryJs.FILE_MODE (Some (md5hex content))) in *.
  assert (Hp : relativePath entry = np) by now apply new_file_path.
  assert (Hsym : _symlink entry = None) by reflexivity.
  assert (Hdir : EntryJs.isDirectory entry = false) by reflexivity.
  clearbody entry.
  unfold bind at 1, WritableTree.fs_call, modify in Hrun.
  match type of Hrun with context [bind _ _ ?st] => set (sy := st) in Hrun end.
  set (node := WritableTree.MkNode (WritableTree._nextNode s0) (MkChange create np entry)).
  assert (Htrack : exists h,
            WritableTree._track create entry sy =
            (WritableTree.set_tracker (WritableTree._changes s0 ++ [node]) h
               (S (WritableTree._nextNode s0)) sy, Ok tt) /\
            WritableTree.hash_create h !! np = Some (WritableTree._nextNode s0) /\
            WritableTree.hash_change h !! np = None).
  { unfold WritableTree._track, bind. rewrite untrack_run. cbn [WritableTree.hash_get].
    rewrite Hp. simpl. rewrite Hun.
    unfold WritableTree.track_node, modify. simpl. rewrite Hp.
    eexists. split; [reflexivity|]. simpl. split; [apply lookup_insert_eq|exact Hch]. }
  destruct Htrack as (h & Htrack & Hh & Hhc).
  rewrite (bind_run _ _ _ _ _ Htrack) in Hrun.
  match type of Hrun with context [WritableTree._insertEntry _ ?st] =>
    set (sz := st) in Hrun end.
  destruct (insertEntry_spec sz entry Hs) as (es1 & Hins & Hs1 & Hmem1).
  rewrite Hins in Hrun. injection Hrun as <-.
  set (s1 := WritableTree.set_entries es1 sz).
  rewrite Hp in Hmem1. simpl in Hmem1.
  (* unlinkSync *)
  assert (Hin : entry ∈ WritableTree._entries s1) by (apply Hmem1; now left).
  assert (Htoce : WritableTree._throwOnCommonErrors "unlink" np relPath false true s1
                  = (s1, Ok tt)).
  { apply throwOnCommonErrors_intro; auto; [|discriminate].
    apply (parent_in_tree_ext s0); auto. intros x Hx Hxp. apply Hmem1. now right. }
  assert (Hfind : WritableTree._findByRelativePath s1 np (Some false)
                  = Some (Stored entry, WritableTree.This)).
  { rewrite <- Hp. apply find_stored; auto. congruence. }
  unfold WritableTree.unlinkSync. rewrite (opening_run _ _ np) by assumption.
  rewrite Hfind.
  cbn [EntryJs.ref_isSymbolicLink EntryJs.ref_isDirectory].
  rewrite Hdir, andb_false_r.
  unfold bind at 1, WritableTree.fs_call, modify.
  match goal with |- context [bind _ _ ?st] => set (s1a := st) end.
  assert (Htrack1 : exists h',
            WritableTree._track unlink entry s1a =
            (WritableTree.set_tracker (WritableTree._changes s0) h'
               (S (WritableTree._nextNode s0)) s1a, Ok tt)).
  { unfold WritableTree._track, bind. rewrite untrack_run. cbn [WritableTree.hash_get].
    rewrite Hp. simpl. rewrite Hhc. rewrite untrack_run. cbn [WritableTree.hash_get].
    simpl. rewrite Hh. unfold ret.
    unfold node. rewrite filter_numbered by exact Hnum. eauto. }
  destruct Htrack1 as (h' & Htrack1).
  rewrite (bind_run _ _ _ _ _ Htrack1).
  match goal with |- context [WritableTree._removeEntry _ ?st] => set (s1b := st) end.
  destruct (removeEntry_spec s1b entry Hs1) as (es2 & Hrem & Hs2 & Hmem2).
  rewrite Hrem. rewrite Hp in Hmem2. simpl in Hmem2.
  set (s2 := WritableTree.set_entries es2 s1b). exists s2.
  assert (He2 : WritableTree._entries s2 = WritableTree._entries s0).
  { simpl. apply ascending_ext; auto. intros x. rewrite Hmem2, Hmem1. split.
    - intros [[->|[Hx _]] Hxp]; [congruence|exact Hx].
    - intros Hx. split; [right; split|]; auto. }
  assert (Hc2 : WritableTree._changes s2 = WritableTree._changes s0) by reflexivity.
  split; [reflexivity|]. split; [exact He2|]. split; [exact Hc2|].
  unfold WritableTree.changes. cbv zeta. now rewrite He2, Hc2.
Qed.

End WritableTreeCancelFile.

(* ========================================================================= *)
(** * The further properties at the trees of the examples                     *)
(* ========================================================================= *)

Lemma searchByRelativePath_exact_witness :
  Shared.searchByRelativePath Examples.ours_entries "foo.js" false = Z.of_nat 2.
Proof.
  refine (proj1 (searchByRelativePath_exact Examples.ours_entries "foo.js" _)
            2 (EntryJs.fromPath "foo.js") _ _);
    [vm_compute; repeat constructor|reflexivity|reflexivity].
Defined.

Lemma searchByRelativePath_closest_witness :
  (-1 <= Shared.searchByRelativePath Examples.ours_entries "c" true
   < Z.of_nat (length Examples.ours_entries))%Z.
Proof.
  refine (proj1 (searchByRelativePath_closest Examples.ours_entries "c" _)).
  vm_compute; repeat constructor.
Defined.

Lemma calculatePatch_exact_witness :
  (exists x, x ∈ ManualTree.entries Examples.ours /\
     ManualTree.removeCommand (EntryJs.fromPath "bar/baz.js") = ManualTree.removeCommand x /\
     forall y, y ∈ ManualTree.entries Examples.theirs ->
               Shared.entryRelativePath y = Shared.entryRelativePath x ->
               ManualTree.defaultIsEqual x y = false /\
               EntryJs.isFile x <> EntryJs.isFile y) \/
  (exists y, y ∈ ManualTree.entries Examples.theirs /\
     ManualTree.removeCommand (EntryJs.fromPath "bar/baz.js") = ManualTree.addCommand y /\
     forall x, x ∈ ManualTree.entries Examples.ours ->
               Shared.entryRelativePath x = Shared.entryRelativePath y ->
               ManualTree.defaultIsEqual x y = false /\
               EntryJs.isFile x <> EntryJs.isFile y) \/
  (exists x y, x ∈ ManualTree.entries Examples.ours /\
     y ∈ ManualTree.entries Examples.theirs /\
     Shared.entryRelativePath x = Shared.entryRelativePath y /\
     ManualTree.defaultIsEqual x y = false /\
     EntryJs.isFile x = EntryJs.isFile y /\
     ManualTree.removeCommand (EntryJs.fromPath "bar/baz.js") = ManualTree.updateCommand y).
Proof.
  refine (proj1 (calculatePatch_exact ManualTree.defaultIsEqual Examples.ours
                   Examples.theirs _ _
                   (ManualTree.removeCommand (EntryJs.fromPath "bar/baz.js"))) _);
    [vm_compute; repeat constructor|vm_compute; repeat constructor|].
  vm_compute. repeat constructor.
Defined.

Lemma addEntries_sorted_witness :
  exists tree',
    ManualTree.addEntries Examples.ours MoreExamples.added false = Ok tree' /\
    ascending (map relativePath (ManualTree.entries tree')) /\
    forall e, e ∈ ManualTree.entries tree' <->
              e ∈ MoreExamples.added \/
              (e ∈ ManualTree.entries Examples.ours /\
               forall y, y ∈ MoreExamples.added ->
                         relativePath y <> relativePath e).
Proof.
  refine (proj1 (proj2 (addEntries_sorted Examples.ours MoreExamples.added _)) _);
    vm_compute; repeat constructor.
Defined.

Lemma normalizeRelativePath_cache_witness :
  MoreExamples.cache !! "./a/b" = Some (Ok "a/b") /\
  snd (Shared.normalizeRelativePath_cached "a//b/" MoreExamples.cache)
  = Shared.normalizeRelativePath "a//b/" /\
  filled_by_normalizing (fst (Shared.normalizeRelativePath_cached "a//b/" MoreExamples.cache)).
Proof.
  split; [vm_compute; reflexivity|].
  apply (normalizeRelativePath_cache MoreExamples.cache "a//b/").
  apply (normalizeRelativePath_cache ∅ "./a/b").
  intros key r Hk. rewrite lookup_empty in Hk. discriminate Hk.
Defined.

Lemma stopped_tree_refuses_witness :
  WritableTree.rmdirSync "a" Examples.out = (Examples.out, Throw (StoppedTree "rmdir")).
Proof.
  exact (proj1 (proj2 (proj2
           (stopped_tree_refuses (H0 := example_md5) Examples.out eq_refl "a" "a"
              eq_refl)))).
Defined.

Lemma root_is_refused_witness :
  WritableTree.rmdirSync "" Examples.restarted
  = (Examples.restarted, Throw (RootOperation "rmdir")).
Proof.
  refine (proj1 (proj2 (proj2
            (root_is_refused (H0 := example_md5) Examples.restarted _ "" eq_refl)))).
  vm_compute; reflexivity.
Defined.

Lemma sortAndExpand_ancestors_witness :
  exists before after,
    Shared.sortAndExpand [EntryJs.fromPath (T := PlainTree) "a/b.js"]
    = before ++ EntryJs.fromPath "a/b.js" :: after /\
    forall q, Js.last_char q = Some slash ->
              String.prefix q (Shared.entryRelativePath
                                 (EntryJs.fromPath (T := PlainTree) "a/b.js")) = true ->
              q <> Shared.entryRelativePath (EntryJs.fromPath (T := PlainTree) "a/b.js") ->
              exists d, d ∈ before /\ directory_of d q.
Proof.
  apply (sortAndExpand_ancestors [EntryJs.fromPath (T := PlainTree) "a/b.js"]).
  - constructor; [intros Hd; vm_compute in Hd; discriminate|constructor].
  - apply list_elem_of_here.
Defined.

Lemma getEntriesFromArrayForDirectory_children_witness :
  FacadeTreeJs._getEntriesFromArrayForDirectory (plain_entries Examples.parent)
    "my-directory"
  = map (as_child (Shared.ensureSeparator "my-directory"))
        (filter (fun e => is_child (Shared.ensureSeparator "my-directory") e = true)
                (plain_entries Examples.parent)).
Proof.
  refine (proj1 (getEntriesFromArrayForDirectory_children
                   (plain_entries Examples.parent) "my-directory" _) _).
  - vm_compute; repeat constructor.
  - right. split; [split; [discriminate|vm_compute; discriminate]|].
    exists (EntryJs.fromPath "my-directory/").
    split; [vm_compute; repeat constructor|reflexivity].
Defined.

Lemma merge_conflicting_entries_witness :
  exists x,
    FSMergeTree._mergeRelativePath true 1 [MoreExamples.same_a; MoreExamples.same_b]
      false "" None = Throw x /\
    ("" = "" -> @None (list nat) = None ->
     forall current,
       FSMergeTree.changes true 1 false
         (FSMergeTree.Make [MoreExamples.same_a; MoreExamples.same_b] current) =
       (FSMergeTree.Make [MoreExamples.same_a; MoreExamples.same_b] current, Throw x)).
Proof.
  apply (merge_conflicting_entries true false 0
           [MoreExamples.same_a; MoreExamples.same_b] "" None
           [["x.js"]; ["x.js"]] 0 1 MoreExamples.same_a MoreExamples.same_b
           ["x.js"] ["x.js"] "x.js" false false);
    try reflexivity; try exact I; try (apply list_elem_of_singleton; reflexivity);
    try lia;
    try (intros stat; vm_compute; intros [= <-]; reflexivity);
    try (right; split; reflexivity).
Defined.

Lemma existsSync_after_write_witness :
  WritableTree.writeFileSync (H0 := example_md5) "f.txt" "b" 2%Z Examples.restarted
  = (Examples.changed, Ok tt) /\
  WritableTreeReads.existsSync Examples.changed "f.txt"
  = Ok (WritableTreeReads.Value true).
Proof.
  assert (Hrun : WritableTree.writeFileSync (H0 := example_md5) "f.txt" "b" 2%Z
                   Examples.restarted = (Examples.changed, Ok tt))
    by (vm_compute; reflexivity).
  split; [exact Hrun|].
  refine (proj1 (existsSync_after_write (H0 := example_md5) Examples.restarted
                   "f.txt" "f.txt" Examples.changed _ eq_refl) "b" 2%Z Hrun).
  split; [vm_compute; repeat constructor|].
  vm_compute; repeat constructor; vm_compute; discriminate.
Defined.

Lemma readdirSync_children_witness :
  WritableTreeReads.readdirSync Examples.changed "" =
  Ok (WritableTreeReads.Value
        (map (fun e => Js.substring_from (String.length (Shared.ensureSeparator ""))
                         (relativePath e))
             (filter (fun e => is_child (Shared.ensureSeparator "") e = true)
                     (WritableTree._entries Examples.changed)))).
Proof.
  refine (proj1 (readdirSync_children Examples.changed "" "" _ eq_refl) _).
  - split; [vm_compute; repeat constructor|].
    vm_compute; repeat constructor; vm_compute; discriminate.
  - now left.
Defined.

Lemma mkdir_then_rmdir_witness :
  WritableTree._changes Examples.changed <> [] /\
  exists s2,
    WritableTree.rmdirSync "d" MoreExamples.made = (s2, Ok tt) /\
    WritableTree._entries s2 = WritableTree._entries Examples.changed /\
    WritableTree._changes s2 = WritableTree._changes Examples.changed /\
    WritableTree.changes s2 = WritableTree.changes Examples.changed.
Proof.
  pose (b := EntryJs.new (T:=PlainTree) "f.txt" (Some 1%Z) (TimeNumber 2)
               EntryJs.FILE_MODE (Some "b")).
  assert (Hok : entries_ok Examples.changed).
  { split; [vm_compute; repeat constructor|].
    vm_compute; repeat constructor; vm_compute; discriminate. }
  assert (Hplain : plain_tracker Examples.changed).
  { apply (plain_other (fst (WritableTree._track change b Examples.restarted)));
      [|vm_compute; reflexivity..].
    apply (plain_track Examples.restarted change b); [|vm_compute; reflexivity..].
    apply (plain_start Examples.written). vm_compute; reflexivity. }
  assert (Hnorm : Shared.normalizeRelativePath "d" = Ok "d") by (vm_compute; reflexivity).
  assert (Hkey : Js.inherited_key "d" = false) by (vm_compute; reflexivity).
  assert (Hchomp : EntryJs.chompLeadingAndTrailingSeparator "d" = "d")
    by (vm_compute; reflexivity).
  assert (Hrm : WritableTree.hash_rmdir (WritableTree._changeHash Examples.changed) !! "d"
                = None) by (vm_compute; reflexivity).
  assert (Hrun : WritableTree.mkdirSync "d" 5%Z Examples.changed
                 = (MoreExamples.made, Ok tt)) by (vm_compute; reflexivity).
  split; [vm_compute; discriminate|].
  exact (mkdir_then_rmdir Examples.changed "d" "d" 5%Z MoreExamples.made
           Hok Hplain Hnorm Hkey Hchomp Hrm Hrun).
Defined.

Lemma writeFile_then_unlink_witness :
  WritableTree._changes Examples.changed <> [] /\
  exists s2,
    WritableTree.unlinkSync "g.txt" MoreExamples.wrote = (s2, Ok tt) /\
    WritableTree._entries s2 = WritableTree._entries Examples.changed /\
    WritableTree._changes s2 = WritableTree._changes Examples.changed /\
    WritableTree.changes s2 = WritableTree.changes Examples.changed.
Proof.
  pose (b := EntryJs.new (T:=PlainTree) "f.txt" (Some 1%Z) (TimeNumber 2)
               EntryJs.FILE_MODE (Some "b")).
  assert (Hok : entries_ok Examples.changed).
  { split; [vm_compute; repeat constructor|].
    vm_compute; repeat constructor; vm_compute; discriminate. }
  assert (Hplain : plain_tracker Examples.changed).
  { apply (plain_other (fst (WritableTree._track change b Examples.restarted)));
      [|vm_compute; reflexivity..].
    apply (plain_track Examples.restarted change b); [|vm_compute; reflexivity..].
    apply (plain_start Examples.written). vm_compute; reflexivity. }
  assert (Hnorm : Shared.normalizeRelativePath "g.txt" = Ok "g.txt")
    by (vm_compute; reflexivity).
  assert (Hkey : Js.inherited_key "g.txt" = false) by (vm_compute; reflexivity).
  assert (Hfind : WritableTree._findByRelativePath Examples.changed "g.txt" None = None)
    by (vm_compute; reflexivity).
  assert (Hun : WritableTree.hash_unlink (WritableTree._changeHash Examples.changed)
                  !! "g.txt" = None) by (vm_compute; reflexivity).
  assert (Hch : WritableTree.hash_change (WritableTree._changeHash Examples.changed)
                  !! "g.txt" = None) by (vm_compute; reflexivity).
  assert (Hrun : WritableTree.writeFileSync (H0 := example_md5) "g.txt" "x" 7%Z
                   Examples.changed = (MoreExamples.wrote, Ok tt))
    by (vm_compute; reflexivity).
  split; [vm_compute; discriminate|].
  exact (writeFile_then_unlink (H0 := example_md5) Examples.changed "g.txt" "g.txt"
           "x" 7%Z MoreExamples.wrote Hok Hplain Hnorm Hkey Hfind Hun Hch Hrun).
Defined.
